(** * The Lexical document model: node graph, copy-on-write and selection repair

    A shallow embedding of [packages/lexical/src/LexicalNode.js] and of the
    element node class ([ElementNode]), over an explicit editor state.

    JavaScript objects live in an append-only object store ([heap]); a node
    reference is an index into it, so that [===] on nodes is equality of
    references and a mutation through one reference is seen through every
    alias.  The node map of the active editor state maps keys to references.
    Methods that only read are functions of the state ([R]); mutators are
    state transformers ([M]).  A JavaScript exception is the outcome [Throw],
    and it leaves the state as the code left it when it threw.  Loops run on
    fuel: [OutOfFuel] is the outcome of a loop that was not given enough. *)

From stdpp Require Import gmap strings list.
From Stdlib Require Import ZArith Lia.

Open Scope Z_scope.

(** ** Data model *)

Abbreviation NodeKey := string.

(** A reference to a JavaScript object: its index in the object store. *)
Abbreviation Ref := nat.

(** The class of a node object, as far as [instanceof] tests see it:
    [$isRootNode], [$isElementNode], [$isTextNode]. *)
Inductive NodeClass := RootNode | ElementNode | TextNode | LineBreakNode | DecoratorNode.

#[global] Instance NodeClass_eq_dec : EqDecision NodeClass.
Proof. solve_decision. Defined.

Inductive Direction := ltr | rtl.

(** The fields of [LexicalNode], [ElementNode] and [TextNode].  [klass] is
    the object's class and [can_be_empty] what its class answers to
    [canBeEmpty()] ([ElementNode.canBeEmpty] answers [true]; subclasses
    override it). *)
Record LexicalNode := mkNode {
  klass : NodeClass;
  can_be_empty : bool;
  __key : NodeKey;
  __parent : option NodeKey;
  __next : option NodeKey;
  __prev : option NodeKey;
  __format : Z;
  __indent : Z;
  __dir : option Direction;
  __first : option NodeKey;
  __last : option NodeKey;
  __size : Z;
  __text : string;
  __style : string;
  __mode : Z;
  __detail : Z
}.

Definition set___key (v : NodeKey) (n : LexicalNode) : LexicalNode :=
  mkNode (klass n) (can_be_empty n) v (__parent n) (__next n) (__prev n)
    (__format n) (__indent n) (__dir n) (__first n) (__last n) (__size n)
    (__text n) (__style n) (__mode n) (__detail n).
Definition set___parent (v : option NodeKey) (n : LexicalNode) : LexicalNode :=
  mkNode (klass n) (can_be_empty n) (__key n) v (__next n) (__prev n)
    (__format n) (__indent n) (__dir n) (__first n) (__last n) (__size n)
    (__text n) (__style n) (__mode n) (__detail n).
Definition set___next (v : option NodeKey) (n : LexicalNode) : LexicalNode :=
  mkNode (klass n) (can_be_empty n) (__key n) (__parent n) v (__prev n)
    (__format n) (__indent n) (__dir n) (__first n) (__last n) (__size n)
    (__text n) (__style n) (__mode n) (__detail n).
Definition set___prev (v : option NodeKey) (n : LexicalNode) : LexicalNode :=
  mkNode (klass n) (can_be_empty n) (__key n) (__parent n) (__next n) v
    (__format n) (__indent n) (__dir n) (__first n) (__last n) (__size n)
    (__text n) (__style n) (__mode n) (__detail n).
Definition set___format (v : Z) (n : LexicalNode) : LexicalNode :=
  mkNode (klass n) (can_be_empty n) (__key n) (__parent n) (__next n) (__prev n)
    v (__indent n) (__dir n) (__first n) (__last n) (__size n)
    (__text n) (__style n) (__mode n) (__detail n).
Definition set___indent (v : Z) (n : LexicalNode) : LexicalNode :=
  mkNode (klass n) (can_be_empty n) (__key n) (__parent n) (__next n) (__prev n)
    (__format n) v (__dir n) (__first n) (__last n) (__size n)
    (__text n) (__style n) (__mode n) (__detail n).
Definition set___dir (v : option Direction) (n : LexicalNode) : LexicalNode :=
  mkNode (klass n) (can_be_empty n) (__key n) (__parent n) (__next n) (__prev n)
    (__format n) (__indent n) v (__first n) (__last n) (__size n)
    (__text n) (__style n) (__mode n) (__detail n).
Definition set___first (v : option NodeKey) (n : LexicalNode) : LexicalNode :=
  mkNode (klass n) (can_be_empty n) (__key n) (__parent n) (__next n) (__prev n)
    (__format n) (__indent n) (__dir n) v (__last n) (__size n)
    (__text n) (__style n) (__mode n) (__detail n).
Definition set___last (v : option NodeKey) (n : LexicalNode) : LexicalNode :=
  mkNode (klass n) (can_be_empty n) (__key n) (__parent n) (__next n) (__prev n)
    (__format n) (__indent n) (__dir n) (__first n) v (__size n)
    (__text n) (__style n) (__mode n) (__detail n).
Definition set___size (v : Z) (n : LexicalNode) : LexicalNode :=
  mkNode (klass n) (can_be_empty n) (__key n) (__parent n) (__next n) (__prev n)
    (__format n) (__indent n) (__dir n) (__first n) (__last n) v
    (__text n) (__style n) (__mode n) (__detail n).
Definition set___style (v : string) (n : LexicalNode) : LexicalNode :=
  mkNode (klass n) (can_be_empty n) (__key n) (__parent n) (__next n) (__prev n)
    (__format n) (__indent n) (__dir n) (__first n) (__last n) (__size n)
    (__text n) v (__mode n) (__detail n).
Definition set___mode (v : Z) (n : LexicalNode) : LexicalNode :=
  mkNode (klass n) (can_be_empty n) (__key n) (__parent n) (__next n) (__prev n)
    (__format n) (__indent n) (__dir n) (__first n) (__last n) (__size n)
    (__text n) (__style n) v (__detail n).
Definition set___detail (v : Z) (n : LexicalNode) : LexicalNode :=
  mkNode (klass n) (can_be_empty n) (__key n) (__parent n) (__next n) (__prev n)
    (__format n) (__indent n) (__dir n) (__first n) (__last n) (__size n)
    (__text n) (__style n) (__mode n) v.

(** [node instanceof ElementNode]: the root is an element. *)
Definition isElementClass (c : NodeClass) : bool :=
  match c with RootNode | ElementNode => true | _ => false end.
Definition isRootClass (c : NodeClass) : bool :=
  match c with RootNode => true | _ => false end.
Definition isTextClass (c : NodeClass) : bool :=
  match c with TextNode => true | _ => false end.

(** A selection point ([PointType]) and a range selection. *)
Inductive PointKind := text | element.

#[global] Instance PointKind_eq_dec : EqDecision PointKind.
Proof. solve_decision. Defined.

Record PointType := mkPoint {
  key : NodeKey;
  offset : Z;
  type : PointKind
}.

Record RangeSelection := mkRange {
  anchor : PointType;
  focus : PointType;
  dirty : bool
}.

(** The active editor and its pending editor state.  [readOnly] holds when no
    update is open.  [_selection] is [None] when [$getSelection()] is [null]
    or is not a range selection. *)
Record State := mkState {
  readOnly : bool;
  heap : list LexicalNode;
  _nodeMap : gmap NodeKey Ref;
  _cloneNotNeeded : gset NodeKey;
  _dirtyElements : gset NodeKey;
  _dirtyLeaves : gset NodeKey;
  _selection : option RangeSelection;
  _compositionKey : option NodeKey
}.

Definition set_heap (h : list LexicalNode) (s : State) : State :=
  mkState (readOnly s) h (_nodeMap s) (_cloneNotNeeded s) (_dirtyElements s)
    (_dirtyLeaves s) (_selection s) (_compositionKey s).
Definition set_nodeMap (m : gmap NodeKey Ref) (s : State) : State :=
  mkState (readOnly s) (heap s) m (_cloneNotNeeded s) (_dirtyElements s)
    (_dirtyLeaves s) (_selection s) (_compositionKey s).
Definition set_cloneNotNeeded (c : gset NodeKey) (s : State) : State :=
  mkState (readOnly s) (heap s) (_nodeMap s) c (_dirtyElements s)
    (_dirtyLeaves s) (_selection s) (_compositionKey s).
Definition set_dirtyElements (d : gset NodeKey) (s : State) : State :=
  mkState (readOnly s) (heap s) (_nodeMap s) (_cloneNotNeeded s) d
    (_dirtyLeaves s) (_selection s) (_compositionKey s).
Definition set_dirtyLeaves (d : gset NodeKey) (s : State) : State :=
  mkState (readOnly s) (heap s) (_nodeMap s) (_cloneNotNeeded s)
    (_dirtyElements s) d (_selection s) (_compositionKey s).
Definition set_selection (sel : option RangeSelection) (s : State) : State :=
  mkState (readOnly s) (heap s) (_nodeMap s) (_cloneNotNeeded s)
    (_dirtyElements s) (_dirtyLeaves s) sel (_compositionKey s).
Definition set_compositionKey (c : option NodeKey) (s : State) : State :=
  mkState (readOnly s) (heap s) (_nodeMap s) (_cloneNotNeeded s)
    (_dirtyElements s) (_dirtyLeaves s) (_selection s) c.

(** ** Outcomes, readers and state transformers *)

Inductive Error :=
  | ReadOnlyViolation
  | InvariantViolation (message : string)
  | TypeError.

Inductive Outcome (A : Type) :=
  | Ret (a : A)
  | Throw (e : Error)
  | OutOfFuel.
Arguments Ret {A} a.
Arguments Throw {A} e.
Arguments OutOfFuel {A}.

Definition R (A : Type) : Type := State → Outcome A.
Definition M (A : Type) : Type := State → Outcome A * State.

#[global] Instance R_ret : MRet R := λ A a s, Ret a.
#[global] Instance R_bind : MBind R := λ A B f m s,
  match m s with
  | Ret a => f a s
  | Throw e => Throw e
  | OutOfFuel => OutOfFuel
  end.

#[global] Instance M_ret : MRet M := λ A a s, (Ret a, s).
#[global] Instance M_bind : MBind M := λ A B f m s,
  match m s with
  | (Ret a, s') => f a s'
  | (Throw e, s') => (Throw e, s')
  | (OutOfFuel, s') => (OutOfFuel, s')
  end.

(** Sequencing, computation first: [let* x := m in k]. *)
Definition bind {T : Type → Type} `{!MBind T} {A B} (m : T A) (f : A → T B) : T B :=
  mbind f m.

Notation "'let*' x ':=' m 'in' k" := (bind m (λ x, k))
  (at level 10, x name, m at level 100, k at level 200).

(** A read-only method called from a mutator. *)
Definition read {A} (r : R A) : M A := λ s, (r s, s).

Definition throwR {A} (e : Error) : R A := λ s, Throw e.
Definition throw {A} (e : Error) : M A := λ s, (Throw e, s).
Definition outOfFuelR {A} : R A := λ s, OutOfFuel.
Definition outOfFuel {A} : M A := λ s, (OutOfFuel, s).

(** [invariant(false, message)] of [shared/invariant]. *)
Definition invariantR {A} (message : string) : R A := throwR (InvariantViolation message).
Definition invariant {A} (message : string) : M A := throw (InvariantViolation message).

Definition modify (f : State → State) : M unit := λ s, (Ret tt, f s).
Definition gets {A} (f : State → A) : M A := λ s, (Ret (f s), s).

(** Reading the object behind a reference, and one of its fields. *)
Definition deref (r : Ref) : R LexicalNode := λ s,
  match heap s !! r with
  | Some n => Ret n
  | None => Throw TypeError
  end.

Definition field {A} (f : LexicalNode → A) (r : Ref) : R A :=
  let* n := deref r in mret (f n).

(** [r.f = v]: the assignment of a field of the object behind [r]. *)
Definition assign (upd : LexicalNode → LexicalNode) (r : Ref) : M unit := λ s,
  match heap s !! r with
  | Some n => (Ret tt, set_heap (<[r := upd n]> (heap s)) s)
  | None => (Throw TypeError, s)
  end.

(** [new]: a fresh object at the end of the store. *)
Definition alloc (n : LexicalNode) : M Ref := λ s,
  (Ret (length (heap s)), set_heap (heap s ++ [n]) s).

(** ** Helpers of [LexicalUtils] and [LexicalUpdates] *)

(** Modelled from the spec: [$getNodeByKey] of [LexicalUtils] is absent from
    the sources at hand.  "[resolve(key) -> Node | None] looks up a node in
    the active version's mapping." *)
Definition getNodeByKey (k : NodeKey) : R (option Ref) := λ s, Ret (_nodeMap s !! k).

(** Modelled from the spec: [errorOnReadOnly] of [LexicalUpdates] is absent
    from the sources at hand.  "Attempting any mutating operation while Idle
    fails with [ReadOnlyViolation]." *)
Definition errorOnReadOnly : M unit := λ s,
  if readOnly s then (Throw ReadOnlyViolation, s) else (Ret tt, s).

(** Modelled from the spec: [internalMarkNodeAsDirty] of [LexicalUtils] is
    absent from the sources at hand.  The dirty tracker "records, per
    transaction, which element nodes and which leaf (non-element) nodes were
    touched". *)
Definition internalMarkNodeAsDirty (node : Ref) : M unit :=
  let* n := read (deref node) in
  if isElementClass (klass n)
  then modify (λ s, set_dirtyElements ({[ __key n ]} ∪ _dirtyElements s) s)
  else modify (λ s, set_dirtyLeaves ({[ __key n ]} ∪ _dirtyLeaves s) s).

(** ** [LexicalNode]: getters and traversers *)

Definition getKey (this : Ref) : R NodeKey := field __key this.

Definition getLatest (this : Ref) : R Ref :=
  let* k := field __key this in
  let* latest := getNodeByKey k in
  match latest with
  | None => invariantR "getLatest: node not found"
  | Some l => mret l
  end.

Definition getParent (this : Ref) : R (option Ref) :=
  let* self := getLatest this in
  let* parent := field __parent self in
  match parent with
  | None => mret None
  | Some p => getNodeByKey p
  end.

Definition getParentOrThrow (this : Ref) : R Ref :=
  let* parent := getParent this in
  match parent with
  | None => invariantR "Expected node %s to have a parent."
  | Some p => mret p
  end.

Definition getPreviousSibling (this : Ref) : R (option Ref) :=
  let* latest := getLatest this in
  let* prev := field __prev latest in
  match prev with
  | None => mret None
  | Some p => getNodeByKey p
  end.

Definition getNextSibling (this : Ref) : R (option Ref) :=
  let* latest := getLatest this in
  let* next := field __next latest in
  match next with
  | None => mret None
  | Some n => getNodeByKey n
  end.

(** [ElementNode.getFirstChild], [getLastChild], [getChildrenSize], [isEmpty]. *)
Definition getFirstChild (this : Ref) : R (option Ref) :=
  let* self := getLatest this in
  let* firstChildKey := field __first self in
  match firstChildKey with
  | Some k => getNodeByKey k
  | None => mret None
  end.

Definition getLastChild (this : Ref) : R (option Ref) :=
  let* self := getLatest this in
  let* lastChildKey := field __last self in
  match lastChildKey with
  | Some k => getNodeByKey k
  | None => mret None
  end.

Definition getChildrenSize (this : Ref) : R Z :=
  let* self := getLatest this in
  field __size self.

Definition isEmpty (this : Ref) : R bool :=
  let* size := getChildrenSize this in
  mret (bool_decide (size = 0)).

(** The [while (next !== null)] loop of [getIndexWithinParent]. *)
Fixpoint getIndexWithinParent_loop (fuel : nat) (thisKey : NodeKey)
    (next : option Ref) (index : Z) : R Z :=
  match next with
  | None => mret (-1)
  | Some n =>
    match fuel with
    | O => outOfFuelR
    | S fuel' =>
      let* k := getKey n in
      if bool_decide (thisKey = k) then mret index
      else
        let* next' := getNextSibling n in
        getIndexWithinParent_loop fuel' thisKey next' (index + 1)
    end
  end.

Definition getIndexWithinParent (fuel : nat) (this : Ref) : R Z :=
  let* parent := getParent this in
  match parent with
  | None => mret (-1)
  | Some p =>
    let* firstChild := getFirstChild p in
    let* thisKey := field __key this in
    getIndexWithinParent_loop fuel thisKey firstChild 0
  end.

(** The [while (node !== null)] loop of [getParents]. *)
Fixpoint getParents_loop (fuel : nat) (node : option Ref) (parents : list Ref)
    : R (list Ref) :=
  match node with
  | None => mret parents
  | Some n =>
    match fuel with
    | O => outOfFuelR
    | S fuel' =>
      let* node' := getParent n in
      getParents_loop fuel' node' (parents ++ [n])
    end
  end.

Definition getParents (fuel : nat) (this : Ref) : R (list Ref) :=
  let* node := getParent this in
  getParents_loop fuel node [].

(** [is] of the source ([is] is reserved here): equality of keys. *)
Definition is' (this : Ref) (object : option Ref) : R bool :=
  match object with
  | None => mret false
  | Some o =>
    let* k := field __key this in
    let* k' := field __key o in
    mret (bool_decide (k = k'))
  end.

(** [$isElementNode(node)], [$isRootNode(node)], [$isTextNode(node)]. *)
Definition isElementNode (node : Ref) : R bool :=
  let* c := field klass node in mret (isElementClass c).
Definition isRootNode (node : Ref) : R bool :=
  let* c := field klass node in mret (isRootClass c).
Definition isTextNode (node : Ref) : R bool :=
  let* c := field klass node in mret (isTextClass c).

Definition canBeEmpty (this : Ref) : R bool := field can_be_empty this.

(** [getCommonAncestor]: [a] and [b] are the ancestor lists, nearest first;
    the last elements are compared by identity, and so is the membership in
    [bSet]. *)
Definition getCommonAncestor (fuel : nat) (this node : Ref) : R (option Ref) :=
  let* a := getParents fuel this in
  let* b := getParents fuel node in
  let* thisIsElement := isElementNode this in
  let* nodeIsElement := isElementNode node in
  let a : list Ref := if thisIsElement then this :: a else a in
  let b : list Ref := if nodeIsElement then node :: b else b in
  match last a, last b with
  | Some la, Some lb =>
    if bool_decide (la ≠ lb) then mret None
    else mret (List.find (λ ancestor, bool_decide (ancestor ∈ b)) a)
  | _, _ => mret None
  end.

(** The [while (node !== null)] loop of [isParentOf]. *)
Fixpoint isParentOf_loop (fuel : nat) (thisKey : NodeKey) (node : option Ref)
    : R bool :=
  match node with
  | None => mret false
  | Some n =>
    match fuel with
    | O => outOfFuelR
    | S fuel' =>
      let* k := field __key n in
      if bool_decide (k = thisKey) then mret true
      else
        let* node' := getParent n in
        isParentOf_loop fuel' thisKey node'
    end
  end.

Definition isParentOf (fuel : nat) (this targetNode : Ref) : R bool :=
  let* k := field __key this in
  let* targetKey := field __key targetNode in
  if bool_decide (k = targetKey) then mret false
  else isParentOf_loop fuel k (Some targetNode).

(** The two [while (true)] loops of [isBefore]: climb from [node] to the
    child of [commonAncestor] and return its index within its parent. *)
Fixpoint isBefore_loop (fuel idxFuel : nat) (commonAncestor : option Ref)
    (node : Ref) : R Z :=
  match fuel with
  | O => outOfFuelR
  | S fuel' =>
    let* parent := getParentOrThrow node in
    if bool_decide (Some parent = commonAncestor)
    then getIndexWithinParent idxFuel node
    else isBefore_loop fuel' idxFuel commonAncestor parent
  end.

Definition isBefore (fuel : nat) (this targetNode : Ref) : R bool :=
  let* targetIsParent := isParentOf fuel targetNode this in
  if targetIsParent then mret true
  else
    let* thisIsParent := isParentOf fuel this targetNode in
    if thisIsParent then mret false
    else
      let* commonAncestor := getCommonAncestor fuel this targetNode in
      let* indexA := isBefore_loop fuel fuel commonAncestor this in
      let* indexB := isBefore_loop fuel fuel commonAncestor targetNode in
      mret (bool_decide (indexA < indexB)).

(** ** [ElementNode]: getters *)

(** [forEachChild]: the callback is a step function on an accumulator (the
    callers push to an array or count). *)
Fixpoint forEachChild_loop {A} (fuel : nat) (callback : A → Ref → NodeKey → A)
    (next : option NodeKey) (acc : A) : R A :=
  match next with
  | None => mret acc
  | Some k =>
    match fuel with
    | O => outOfFuelR
    | S fuel' =>
      let* childNode := getNodeByKey k in
      match childNode with
      | Some c =>
        let* next' := field __next c in
        forEachChild_loop fuel' callback next' (callback acc c k)
      | None => mret acc
      end
    end
  end.

Definition forEachChild {A} (fuel : nat) (this : Ref)
    (callback : A → Ref → NodeKey → A) (acc : A) : R A :=
  let* self := getLatest this in
  let* next := field __first self in
  forEachChild_loop fuel callback next acc.

Definition getChildren (fuel : nat) (this : Ref) : R (list Ref) :=
  forEachChild fuel this (λ childrenNodes child _, childrenNodes ++ [child]) [].

Definition getChildrenKeys (fuel : nat) (this : Ref) : R (list NodeKey) :=
  forEachChild fuel this (λ childKeys _ k, childKeys ++ [k]) [].

(** The [while (next !== null)] loop of [getChildAtIndex]; [count] is the
    constant [0] of the source. *)
Fixpoint getChildAtIndex_loop (fuel : nat) (index : Z) (next : option NodeKey)
    : R (option Ref) :=
  let count := 0 in
  match next with
  | None => mret None
  | Some k =>
    match fuel with
    | O => outOfFuelR
    | S fuel' =>
      let* childNode := getNodeByKey k in
      match childNode with
      | Some c =>
        if bool_decide (count = index + 1) then mret (Some c)
        else
          let* next' := field __next c in
          getChildAtIndex_loop fuel' index next'
      | None => mret None
      end
    end
  end.

Definition getChildAtIndex (fuel : nat) (this : Ref) (index : Z) : R (option Ref) :=
  let* self := getLatest this in
  let* next := field __first self in
  match next with
  | None => mret None
  | Some k =>
    if bool_decide (index = 0) then getNodeByKey k
    else getChildAtIndex_loop fuel index next
  end.

(** The loops of [getFirstDescendant] and [getLastDescendant]. *)
Fixpoint getDescendant_loop (fuel : nat) (down : Ref → R (option Ref))
    (node : option Ref) : R (option Ref) :=
  match node with
  | None => mret None
  | Some n =>
    match fuel with
    | O => outOfFuelR
    | S fuel' =>
      let* isElement := isElementNode n in
      if isElement then
        let* child := down n in
        match child with
        | Some c => getDescendant_loop fuel' down (Some c)
        | None => mret (Some n)
        end
      else mret (Some n)
    end
  end.

Definition getFirstDescendant (fuel : nat) (this : Ref) : R (option Ref) :=
  let* node := getFirstChild this in
  getDescendant_loop fuel getFirstChild node.

Definition getLastDescendant (fuel : nat) (this : Ref) : R (option Ref) :=
  let* node := getLastChild this in
  getDescendant_loop fuel getLastChild node.

(** ** Selection helpers of [LexicalSelection] *)

(** Which point of the range selection a helper is handed. *)
Inductive PointName := Anchor | Focus.

Definition getPoint (which : PointName) (selection : RangeSelection) : PointType :=
  match which with Anchor => anchor selection | Focus => focus selection end.

(** Modelled from the spec: [Point.set] of [LexicalSelection] is absent from
    the sources at hand.  A selection point is "[{nodeKey, offset,
    offsetKind}]"; setting it replaces the three, in the range selection of
    the editor state. *)
Definition Point_set (which : PointName) (k : NodeKey) (o : Z) (t : PointKind)
    : M unit :=
  modify (λ s,
    match _selection s with
    | None => s
    | Some sel =>
      match which with
      | Anchor => set_selection (Some (mkRange (mkPoint k o t) (focus sel) (dirty sel))) s
      | Focus => set_selection (Some (mkRange (anchor sel) (mkPoint k o t) (dirty sel))) s
      end
    end).

(** Modelled from the spec: [Point.getNode] of [LexicalSelection] is absent
    from the sources at hand.  It resolves the point's key in the active
    version; "selection-repair logic must never raise for node not found". *)
Definition Point_getNode (point : PointType) : R (option Ref) :=
  getNodeByKey (key point).

(** Modelled from the spec: [moveSelectionPointToSibling] of
    [LexicalSelection] is absent from the sources at hand.  "When a point's
    node is deleted, it is re-anchored to: the previous surviving sibling at
    its end-offset if one exists in the affected range's before boundary;
    else the next surviving sibling at offset 0; else the parent element at
    the index the deleted run occupied."  The end offset of a text node is
    the length of its text and of an element its child count; a sibling that
    is neither cannot hold a point, and the parent is taken.  The index is
    that of [node] within its parent, or the parent's child count when it is
    not found. *)
Definition moveSelectionPointToSibling (fuel : nat) (which : PointName)
    (node : option Ref) (parent : Ref) (prevSibling nextSibling : option Ref)
    : M unit :=
  let toParent : M unit :=
    let* index :=
      read (match node with
            | Some n => getIndexWithinParent fuel n
            | None => mret (-1)
            end) in
    let* size := read (getChildrenSize parent) in
    let* parentKey := read (field __key parent) in
    Point_set which parentKey (if bool_decide (index = -1) then size else index) element in
  match prevSibling with
  | Some p =>
    let* n := read (deref p) in
    if isTextClass (klass n)
    then Point_set which (__key n) (Z.of_nat (String.length (__text n))) text
    else if isElementClass (klass n)
    then
      let* size := read (getChildrenSize p) in
      Point_set which (__key n) size element
    else toParent
  | None =>
    match nextSibling with
    | Some nx =>
      let* n := read (deref nx) in
      if isTextClass (klass n) then Point_set which (__key n) 0 text
      else if isElementClass (klass n) then Point_set which (__key n) 0 element
      else toParent
    | None => toParent
    end
  end.

(** ** Copy-on-write *)

(** Modelled from the spec: the static [clone] of the node classes is absent
    from the sources at hand.  It makes a new object of the same class with
    the same key and the content of the class (for a text node its text); the
    links and the format fields are those of a new node, and [getWritable]
    copies them. *)
Definition clone (n : LexicalNode) : LexicalNode :=
  mkNode (klass n) (can_be_empty n) (__key n) None None None 0 0 None None None 0
    (__text n) "" 0 0.

Definition getWritable (this : Ref) : M Ref :=
  errorOnReadOnly ;;
  let* k := read (field __key this) in
  let* latestNode := read (getLatest this) in
  let* parent := read (field __parent latestNode) in
  let* prev := read (field __prev latestNode) in
  let* next := read (field __next latestNode) in
  let* cloneNotNeeded := gets _cloneNotNeeded in
  if bool_decide (k ∈ cloneNotNeeded) then
    internalMarkNodeAsDirty latestNode ;;
    mret latestNode
  else
    let* latest := read (deref latestNode) in
    let* mutableNode := alloc (clone latest) in
    assign (set___parent parent) mutableNode ;;
    assign (set___next next) mutableNode ;;
    assign (set___prev prev) mutableNode ;;
    let* mutable := read (deref mutableNode) in
    (if isElementClass (klass latest) && isElementClass (klass mutable) then
       assign (set___indent (__indent latest)) mutableNode ;;
       assign (set___format (__format latest)) mutableNode ;;
       assign (set___dir (__dir latest)) mutableNode ;;
       assign (set___first (__first latest)) mutableNode ;;
       assign (set___last (__last latest)) mutableNode ;;
       assign (set___size (__size latest)) mutableNode
     else if isTextClass (klass latest) && isTextClass (klass mutable) then
       assign (set___format (__format latest)) mutableNode ;;
       assign (set___style (__style latest)) mutableNode ;;
       assign (set___mode (__mode latest)) mutableNode ;;
       assign (set___detail (__detail latest)) mutableNode
     else mret tt) ;;
    modify (λ s, set_cloneNotNeeded ({[ k ]} ∪ _cloneNotNeeded s) s) ;;
    assign (set___key k) mutableNode ;;
    internalMarkNodeAsDirty mutableNode ;;
    modify (λ s, set_nodeMap (<[ k := mutableNode ]> (_nodeMap s)) s) ;;
    mret mutableNode.

Definition markDirty (this : Ref) : M unit :=
  getWritable this ;; mret tt.

Definition setPrev (this : Ref) (k : option NodeKey) : M unit :=
  let* writableSelf := getWritable this in
  assign (set___prev k) writableSelf.

Definition setNext (this : Ref) (k : option NodeKey) : M unit :=
  let* writableSelf := getWritable this in
  assign (set___next k) writableSelf.

(** Modelled from the spec: [removeFromParent] of [LexicalUtils] is absent
    from the sources at hand.  It "detaches [a] node from any current
    parent": the neighbours of the node are linked to each other, the
    parent's first child, last child and child count follow, and the node is
    left with no parent and no siblings.  A node with no parent is left as it
    is. *)
Definition removeFromParent (node : Ref) : M unit :=
  let* oldParent := read (getParent node) in
  match oldParent with
  | None => mret tt
  | Some p =>
    let* writableParent := getWritable p in
    let* prevSibling := read (getPreviousSibling node) in
    let* nextSibling := read (getNextSibling node) in
    let* prevKey := read (match prevSibling with
                          | Some ps => k ← field __key ps; mret (Some k)
                          | None => mret None
                          end) in
    let* nextKey := read (match nextSibling with
                          | Some ns => k ← field __key ns; mret (Some k)
                          | None => mret None
                          end) in
    match prevSibling with
    | Some ps => setNext ps nextKey
    | None => assign (set___first nextKey) writableParent
    end ;;
    match nextSibling with
    | Some ns => setPrev ns prevKey
    | None => assign (set___last prevKey) writableParent
    end ;;
    let* size := read (field __size writableParent) in
    assign (set___size (size - 1)) writableParent ;;
    let* writableNode := getWritable node in
    assign (set___parent None) writableNode ;;
    assign (set___prev None) writableNode ;;
    assign (set___next None) writableNode
  end.

(** ** Mutators *)

Fixpoint forEach_loop {A} (f : nat → A → M unit) (i : nat) (l : list A) : M unit :=
  match l with
  | [] => mret tt
  | x :: l' => f i x ;; forEach_loop f (S i) l'
  end.

(** [array.forEach((x, index) => ...)] and the indexed [for] loops. *)
Definition forEach {A} (l : list A) (f : nat → A → M unit) : M unit :=
  forEach_loop f 0%nat l.

(** [nodes[i].__key]. *)
Definition keyAt (nodes : list Ref) (i : nat) : M NodeKey :=
  match nodes !! i with
  | Some r => read (field __key r)
  | None => throw TypeError
  end.

Definition getNodeByKeyOrThrow (k : NodeKey) : R Ref :=
  let* node := getNodeByKey k in
  match node with
  | None => invariantR "Expected node with key %s to exist but it's not in the nodeMap."
  | Some n => mret n
  end.

(** A helper of [LexicalSelection] that is absent from the sources at hand
    and of which the spec says no more than that it moves selection points:
    from the state it gives its result and the range selection it leaves. *)
Definition SelectionHelper (A : Type) : Type := State → A * option RangeSelection.

Definition runHelper {A} (h : SelectionHelper A) : M A := λ s,
  let '(a, sel) := h s in (Ret a, set_selection sel s).

(** A helper of [LexicalSelection] that is absent from the sources at hand
    and is handed the range selection or one of its points: it reads the
    state and moves the points of that selection. *)
Definition PointMover : Type := State → RangeSelection → RangeSelection.

Definition runMover (f : PointMover) : M unit :=
  modify (λ s,
    match _selection s with
    | Some sel => set_selection (Some (f s sel)) s
    | None => s
    end).

Inductive ElementFormatType := left | center | right | justify.

Section Mutators.

(** The table [ELEMENT_TYPE_TO_FORMAT] of [LexicalConstants]. *)
Variable ELEMENT_TYPE_TO_FORMAT : ElementFormatType → Z.

(** [internalMakeRangeSelection(anchorKey, anchorOffset, focusKey,
    focusOffset, anchorType, focusType)]. *)
Variable internalMakeRangeSelection :
  NodeKey → Z → NodeKey → Z → PointKind → PointKind → SelectionHelper RangeSelection.

(** [$updateElementSelectionOnCreateDeleteNode(selection, parentNode,
    nodeOffset, times)], on the range selection of the state. *)
Variable updateElementSelectionOnCreateDeleteNode : Ref → Z → Z → PointMover.

(** [$moveSelectionPointToEnd(point, node)]. *)
Variable moveSelectionPointToEnd : PointName → Ref → PointMover.

(** [TextNode.select(anchorOffset, focusOffset)]; the text node class is
    absent from the sources at hand. *)
Variable TextNode_select : Ref → option Z → option Z → M RangeSelection.

(** [ElementNode.select]. *)
Definition select (this : Ref) (_anchorOffset _focusOffset : option Z)
    : M RangeSelection :=
  errorOnReadOnly ;;
  let* selection := gets _selection in
  let* childrenCount := read (getChildrenSize this) in
  let anchorOffset := default childrenCount _anchorOffset in
  let focusOffset := default childrenCount _focusOffset in
  let* k := read (field __key this) in
  match selection with
  | None =>
    runHelper (internalMakeRangeSelection k anchorOffset k focusOffset element element)
  | Some _ =>
    Point_set Anchor k anchorOffset element ;;
    Point_set Focus k focusOffset element ;;
    modify (λ s, set_selection
                   ((λ sel, mkRange (anchor sel) (focus sel) true) <$> _selection s) s) ;;
    let* selection' := gets _selection in
    match selection' with
    | Some sel => mret sel
    | None => throw TypeError
    end
  end.

(** [node.select(anchorOffset, focusOffset)] on a node that is an element
    or a text node. *)
Definition select_dispatch (node : Ref) (anchorOffset focusOffset : option Z)
    : M RangeSelection :=
  let* isElement := read (isElementNode node) in
  if isElement then select node anchorOffset focusOffset
  else TextNode_select node anchorOffset focusOffset.

Definition selectNext (fuel : nat) (this : Ref) (anchorOffset focusOffset : option Z)
    : M RangeSelection :=
  errorOnReadOnly ;;
  let* nextSibling := read (getNextSibling this) in
  let* parent := read (getParentOrThrow this) in
  match nextSibling with
  | None => select parent None None
  | Some nx =>
    let* isElement := read (isElementNode nx) in
    if isElement then select nx (Some 0) (Some 0)
    else
      let* isText := read (isTextNode nx) in
      if negb isText then
        let* index := read (getIndexWithinParent fuel nx) in
        select parent (Some index) (Some index)
      else TextNode_select nx anchorOffset focusOffset
  end.

Definition selectEnd (fuel : nat) (this : Ref) : M RangeSelection :=
  let* lastNode := read (getLastDescendant fuel this) in
  match lastNode with
  | Some ln =>
    let* isElement := read (isElementNode ln) in
    let* isText := read (isTextNode ln) in
    if isElement || isText then select_dispatch ln None None
    else selectNext fuel ln None None
  | None => select this None None
  end.

(** [removeNode(nodeToRemove, restoreSelection, preserveEmptyParent)]; the
    fuel bounds the recursion on the parent and the loops. *)
Fixpoint removeNode (fuel : nat) (nodeToRemove : Ref)
    (restoreSelection preserveEmptyParent : bool) : M unit :=
  match fuel with
  | O => outOfFuel
  | S fuel' =>
    errorOnReadOnly ;;
    let* k := read (field __key nodeToRemove) in
    let* parent := read (getParent nodeToRemove) in
    match parent with
    | None => mret tt
    | Some parent =>
      let* selection := gets _selection in
      let* selectionMoved :=
        match selection with
        | Some sel =>
          if restoreSelection then
            let* anchorMoved :=
              if bool_decide (key (anchor sel) = k) then
                let* prevSibling := read (getPreviousSibling nodeToRemove) in
                let* nextSibling := read (getNextSibling nodeToRemove) in
                moveSelectionPointToSibling fuel' Anchor (Some nodeToRemove)
                  parent prevSibling nextSibling ;;
                mret true
              else mret false in
            let* focusMoved :=
              if bool_decide (key (focus sel) = k) then
                let* prevSibling := read (getPreviousSibling nodeToRemove) in
                let* nextSibling := read (getNextSibling nodeToRemove) in
                moveSelectionPointToSibling fuel' Focus (Some nodeToRemove)
                  parent prevSibling nextSibling ;;
                mret true
              else mret false in
            mret (anchorMoved || focusMoved)
          else mret false
        | None => mret false
        end in
      let* index := read (getIndexWithinParent fuel' nodeToRemove) in
      (if bool_decide (index = -1)
       then invariant "Node is not a child of its parent"
       else mret tt) ;;
      let* writableNodeToRemove := getWritable nodeToRemove in
      removeFromParent writableNodeToRemove ;;
      (if bool_decide (is_Some selection) && restoreSelection && negb selectionMoved
       then runMover (updateElementSelectionOnCreateDeleteNode parent index (-1))
       else mret tt) ;;
      let* parentIsRoot := read (isRootNode parent) in
      (if preserveEmptyParent then mret tt
       else if parentIsRoot then mret tt
       else
         let* parentCanBeEmpty := read (canBeEmpty parent) in
         if parentCanBeEmpty then mret tt
         else
           let* parentIsEmpty := read (isEmpty parent) in
           if parentIsEmpty then removeNode fuel' parent restoreSelection false
           else mret tt) ;;
      if parentIsRoot then
        let* parentIsEmpty := read (isEmpty parent) in
        if parentIsEmpty then selectEnd fuel' parent ;; mret tt
        else mret tt
      else mret tt
    end
  end.

Definition remove (fuel : nat) (this : Ref) (preserveEmptyParent : bool) : M unit :=
  errorOnReadOnly ;;
  removeNode fuel this true preserveEmptyParent.

Definition clear (fuel : nat) (this : Ref) : M Ref :=
  errorOnReadOnly ;;
  let* writableSelf := getWritable this in
  let* children := read (getChildren fuel this) in
  forEach children (λ _ child, remove fuel child false) ;;
  mret writableSelf.

Definition append (this : Ref) (nodesToAppend : list Ref) : M Ref :=
  errorOnReadOnly ;;
  let nodesToAppendLength := length nodesToAppend in
  if bool_decide (nodesToAppendLength = 0%nat) then mret this
  else
    let* self := getWritable this in
    let* writableSelfKey := read (field __key self) in
    forEach nodesToAppend (λ i node,
      let* writableNodeToInsert := getWritable node in
      let* nodeKey := read (field __key node) in
      (if bool_decide (nodeKey = writableSelfKey)
       then invariant "append: attemtping to append self"
       else mret tt) ;;
      removeFromParent writableNodeToInsert ;;
      assign (set___parent (Some writableSelfKey)) writableNodeToInsert ;;
      (if bool_decide (i = 0%nat) then setPrev node None
       else
         let* prevKey := keyAt nodesToAppend (i - 1) in
         setPrev node (Some prevKey)) ;;
      (if bool_decide (i = (nodesToAppendLength - 1)%nat) then setNext node None
       else
         let* nextKey := keyAt nodesToAppend (i + 1) in
         setNext node (Some nextKey))) ;;
    let* firstKey := keyAt nodesToAppend 0 in
    let* lastKey := keyAt nodesToAppend (nodesToAppendLength - 1) in
    let* selfLast := read (field __last self) in
    match selfLast with
    | None =>
      assign (set___first (Some firstKey)) self ;;
      assign (set___last (Some lastKey)) self ;;
      assign (set___size (Z.of_nat nodesToAppendLength)) self
    | Some l =>
      let* lastNode := read (getNodeByKeyOrThrow l) in
      setNext lastNode (Some firstKey) ;;
      let* selfLast' := read (field __last self) in
      match nodesToAppend !! 0%nat with
      | Some firstNodeToAppend => setPrev firstNodeToAppend selfLast'
      | None => throw TypeError
      end ;;
      assign (set___last (Some lastKey)) self ;;
      let* size := read (field __size self) in
      assign (set___size (size + Z.of_nat nodesToAppendLength)) self
    end ;;
    mret this.

Definition setDirection (this : Ref) (direction : option Direction) : M Ref :=
  errorOnReadOnly ;;
  let* self := getWritable this in
  assign (set___dir direction) self ;;
  mret self.

Definition setFormat (this : Ref) (type : ElementFormatType) : M Ref :=
  errorOnReadOnly ;;
  let* self := getWritable this in
  assign (set___format (ELEMENT_TYPE_TO_FORMAT type)) self ;;
  mret this.

Definition setIndent (this : Ref) (indentLevel : Z) : M Ref :=
  errorOnReadOnly ;;
  let* self := getWritable this in
  assign (set___indent indentLevel) self ;;
  mret this.

(** The first loop of [splice]: the nodes to insert leave their parents
    and take [this] as parent; their keys are collected. *)
Fixpoint splice_detach (writableSelfKey : NodeKey) (nodesToInsert : list Ref)
    (nodesToInsertKeys : list NodeKey) : M (list NodeKey) :=
  match nodesToInsert with
  | [] => mret nodesToInsertKeys
  | nodeToInsert :: rest =>
    let* writableNodeToInsert := getWritable nodeToInsert in
    let* nodeKey := read (field __key nodeToInsert) in
    (if bool_decide (nodeKey = writableSelfKey)
     then invariant "append: attemtping to append self"
     else mret tt) ;;
    removeFromParent writableNodeToInsert ;;
    assign (set___parent (Some writableSelfKey)) writableNodeToInsert ;;
    let* newKey := read (field __key writableNodeToInsert) in
    splice_detach writableSelfKey rest (nodesToInsertKeys ++ [newKey])
  end.

(** The loop of [splice] that collects the keys of the nodes to remove. *)
Fixpoint splice_collect (fuel : nat) (next : option Ref) (deleteCount deletedCount : Z)
    (nodesToRemoveKeys : list NodeKey) : R (list NodeKey) :=
  match next with
  | None => mret nodesToRemoveKeys
  | Some n =>
    if bool_decide (deletedCount < deleteCount) then
      match fuel with
      | O => outOfFuelR
      | S fuel' =>
        let* k := field __key n in
        let* next' := getNextSibling n in
        splice_collect fuel' next' deleteCount (deletedCount + 1)
          (nodesToRemoveKeys ++ [k])
      end
    else mret nodesToRemoveKeys
  end.

(** [isPointRemoved] of [splice]: the point's node or one of its ancestors
    is removed and not inserted again. *)
Fixpoint isPointRemoved_loop (fuel : nat) (nodesToRemoveKeys nodesToInsertKeys : list NodeKey)
    (node : option Ref) : R bool :=
  match node with
  | None => mret false
  | Some n =>
    match fuel with
    | O => outOfFuelR
    | S fuel' =>
      let* nodeKey := field __key n in
      if bool_decide (nodeKey ∈ nodesToRemoveKeys) && negb (bool_decide (nodeKey ∈ nodesToInsertKeys))
      then mret true
      else
        let* node' := getParent n in
        isPointRemoved_loop fuel' nodesToRemoveKeys nodesToInsertKeys node'
    end
  end.

Definition isPointRemoved (fuel : nat) (nodesToRemoveKeys nodesToInsertKeys : list NodeKey)
    (point : PointType) : R bool :=
  let* node := Point_getNode point in
  isPointRemoved_loop fuel nodesToRemoveKeys nodesToInsertKeys node.

(** [$getNodeByKey] on [keys[i]], which is [undefined] out of range. *)
Definition getNodeByOptKey (k : option NodeKey) : R (option Ref) :=
  match k with
  | Some k => getNodeByKey k
  | None => mret None
  end.

Definition splice (fuel : nat) (this : Ref) (start deleteCount : Z)
    (nodesToInsert : list Ref) : M Ref :=
  errorOnReadOnly ;;
  let* writableSelf := getWritable this in
  let* writableSelfKey := read (field __key writableSelf) in
  let nodesToInsertLength := length nodesToInsert in
  (* Remove nodes to insert from their previous parent *)
  let* nodesToInsertKeys := splice_detach writableSelfKey nodesToInsert [] in
  (* Mark range edges siblings as dirty *)
  let* nodeBeforeRange := read (getChildAtIndex fuel this (start - 1)) in
  match nodeBeforeRange with
  | Some n => internalMarkNodeAsDirty n
  | None => mret tt
  end ;;
  let* nodeAfterRange := read (getChildAtIndex fuel this (start + deleteCount)) in
  match nodeAfterRange with
  | Some n => internalMarkNodeAsDirty n
  | None => mret tt
  end ;;
  (* link nodes to insert *)
  forEach nodesToInsertKeys (λ index k,
    let* node := read (getNodeByKey k) in
    match node with
    | Some node =>
      (if bool_decide (index ≠ 0%nat)
       then setPrev node (nodesToInsertKeys !! (index - 1)%nat)
       else mret tt) ;;
      (if bool_decide (index ≠ (length nodesToInsertKeys - 1)%nat)
       then setNext node (nodesToInsertKeys !! (index + 1)%nat)
       else mret tt)
    | None => mret tt
    end) ;;
  let firstNodeKeyToInsert := nodesToInsertKeys !! 0%nat in
  let lastNodeKeyToInsert :=
    if bool_decide (nodesToInsertLength = 0%nat) then None
    else nodesToInsertKeys !! (nodesToInsertLength - 1)%nat in
  let* startNode :=
    if bool_decide (start = 0) then mret None
    else read (getChildAtIndex fuel this (start - 1)) in
  let* selfSize := read (getChildrenSize writableSelf) in
  let* endNode :=
    if bool_decide (start >= selfSize) then mret None
    else read (getChildAtIndex fuel this (start + deleteCount)) in
  let* next := read (getChildAtIndex fuel this start) in
  let* nodesToRemoveKeys := read (splice_collect fuel next deleteCount 0 []) in
  let* firstNodeToInsert := read (getNodeByOptKey firstNodeKeyToInsert) in
  let* lastNodeToInsert := read (getNodeByOptKey lastNodeKeyToInsert) in
  match firstNodeToInsert, lastNodeToInsert with
  | Some firstNode, Some lastNode =>
    match startNode with
    | None => assign (set___first firstNodeKeyToInsert) writableSelf
    | Some sn =>
      let* firstKey := read (field __key firstNode) in
      setNext sn (Some firstKey) ;;
      let* startKey := read (field __key sn) in
      setPrev firstNode (Some startKey)
    end ;;
    match endNode with
    | None => assign (set___last lastNodeKeyToInsert) writableSelf
    | Some en =>
      let* endKey := read (field __key en) in
      setNext lastNode (Some endKey) ;;
      let* lastKey := read (field __key lastNode) in
      setPrev en (Some lastKey)
    end
  | _, _ => mret tt
  end ;;
  let* size := read (forEachChild fuel writableSelf (λ size _ _, size + 1) 0) in
  assign (set___size size) writableSelf ;;
  (* In case of deletion we need to adjust selection, unlink removed nodes
     and clean up node itself if it becomes empty. *)
  (if bool_decide (nodesToRemoveKeys ≠ []) then
     let* selection := gets _selection in
     match selection with
     | Some sel =>
       let* anchorRemoved :=
         read (isPointRemoved fuel nodesToRemoveKeys nodesToInsertKeys (anchor sel)) in
       (if anchorRemoved then
          let* anchorNode := read (Point_getNode (anchor sel)) in
          moveSelectionPointToSibling fuel Anchor anchorNode this
            nodeBeforeRange nodeAfterRange
        else mret tt) ;;
       let* focusRemoved :=
         read (isPointRemoved fuel nodesToRemoveKeys nodesToInsertKeys (focus sel)) in
       (if focusRemoved then
          let* focusNode := read (Point_getNode (focus sel)) in
          moveSelectionPointToSibling fuel Focus focusNode this
            nodeBeforeRange nodeAfterRange
        else mret tt) ;;
       (* Unlink removed nodes from current parent *)
       forEach nodesToRemoveKeys (λ _ k,
         let* nodeToRemove := read (getNodeByKey k) in
         match nodeToRemove with
         | Some n =>
           let* writableNodeToRemove := getWritable n in
           assign (set___parent None) writableNodeToRemove
         | None => mret tt
         end) ;;
       (* Cleanup if node can't be empty *)
       let* size' := read (field __size writableSelf) in
       let* thisCanBeEmpty := read (canBeEmpty this) in
       let* thisIsRoot := read (isRootNode this) in
       if bool_decide (size' = 0) && negb thisCanBeEmpty && negb thisIsRoot
       then remove fuel this false
       else mret tt
     | None => mret tt
     end
   else mret tt) ;;
  mret writableSelf.

Definition replace (fuel : nat) (this replaceWith : Ref) : M Ref :=
  errorOnReadOnly ;;
  let* toReplaceKey := read (field __key this) in
  let* writableReplaceWith := getWritable replaceWith in
  removeFromParent writableReplaceWith ;;
  let* newParent := read (getParentOrThrow this) in
  let* writableParent := getWritable newParent in
  let* index := read (getIndexWithinParent fuel this) in
  let* newKey := read (field __key writableReplaceWith) in
  (if bool_decide (index = -1)
   then invariant "Node is not a child of its parent"
   else mret tt) ;;
  removeNode fuel this false false ;;
  let* prevSibling := read (getPreviousSibling this) in
  let* nextSibling := read (getNextSibling this) in
  match prevSibling with
  | Some ps =>
    setNext ps (Some newKey) ;;
    let* prevKey := read (field __key ps) in
    setPrev replaceWith (Some prevKey)
  | None => assign (set___first (Some newKey)) writableParent
  end ;;
  match nextSibling with
  | Some ns =>
    setPrev ns (Some newKey) ;;
    let* nextKey := read (field __key ns) in
    setNext replaceWith (Some nextKey)
  | None => assign (set___last (Some newKey)) writableParent
  end ;;
  let* newParentKey := read (field __key newParent) in
  assign (set___parent (Some newParentKey)) writableReplaceWith ;;
  let* selection := gets _selection in
  match selection with
  | Some sel =>
    (if bool_decide (key (anchor sel) = toReplaceKey)
     then runMover (moveSelectionPointToEnd Anchor writableReplaceWith)
     else mret tt) ;;
    (if bool_decide (key (focus sel) = toReplaceKey)
     then runMover (moveSelectionPointToEnd Focus writableReplaceWith)
     else mret tt)
  | None => mret tt
  end ;;
  let* compositionKey := gets _compositionKey in
  (if bool_decide (compositionKey = Some toReplaceKey)
   then modify (set_compositionKey (Some newKey))
   else mret tt) ;;
  mret writableReplaceWith.

Definition insertAfter (fuel : nat) (this nodeToInsert : Ref) : M Ref :=
  errorOnReadOnly ;;
  let* writableSelf := getWritable this in
  let* writableNodeToInsert := getWritable nodeToInsert in
  let* oldParent := read (getParent writableNodeToInsert) in
  let* selection := gets _selection in
  let* oldIndex := read (getIndexWithinParent fuel nodeToInsert) in
  let* onNode :=
    match oldParent with
    | Some op =>
      removeFromParent writableNodeToInsert ;;
      match selection with
      | Some sel =>
        let* oldParentKey := read (field __key op) in
        let on (p : PointType) : bool :=
          bool_decide (type p = element) && bool_decide (key p = oldParentKey)
          && bool_decide (offset p = oldIndex + 1) in
        mret (on (anchor sel), on (focus sel))
      | None => mret (false, false)
      end
    | None => mret (false, false)
    end in
  let elementAnchorSelectionOnNode := fst onNode in
  let elementFocusSelectionOnNode := snd onNode in
  let* parent := read (getParentOrThrow this) in
  let* writableParent := getWritable parent in
  let* insertKey := read (field __key writableNodeToInsert) in
  let* selfParent := read (field __parent writableSelf) in
  assign (set___parent selfParent) writableNodeToInsert ;;
  let* index := read (getIndexWithinParent fuel this) in
  (if bool_decide (index = -1)
   then invariant "Node is not a child of its parent"
   else mret tt) ;;
  let* nextSibling := read (getNextSibling this) in
  match nextSibling with
  | Some ns =>
    setPrev ns (Some insertKey) ;;
    let* nextKey := read (field __key ns) in
    setNext nodeToInsert (Some nextKey)
  | None => assign (set___last (Some insertKey)) writableParent
  end ;;
  setNext this (Some insertKey) ;;
  let* selfKey := read (field __key writableSelf) in
  setPrev nodeToInsert (Some selfKey) ;;
  let* size := read (field __size writableParent) in
  assign (set___size (size + 1)) writableParent ;;
  match selection with
  | Some _ =>
    runMover (updateElementSelectionOnCreateDeleteNode writableParent (index + 1) 1) ;;
    let* writableParentKey := read (field __key writableParent) in
    (if elementAnchorSelectionOnNode
     then Point_set Anchor writableParentKey (index + 2) element
     else mret tt) ;;
    (if elementFocusSelectionOnNode
     then Point_set Focus writableParentKey (index + 2) element
     else mret tt)
  | None => mret tt
  end ;;
  mret nodeToInsert.

Definition insertBefore (fuel : nat) (this nodeToInsert : Ref) : M Ref :=
  errorOnReadOnly ;;
  let* writableSelf := getWritable this in
  let* writableNodeToInsert := getWritable nodeToInsert in
  removeFromParent writableNodeToInsert ;;
  let* parent := read (getParentOrThrow this) in
  let* writableParent := getWritable parent in
  let* insertKey := read (field __key writableNodeToInsert) in
  let* selfParent := read (field __parent writableSelf) in
  assign (set___parent selfParent) writableNodeToInsert ;;
  let* index := read (getIndexWithinParent fuel this) in
  (if bool_decide (index = -1)
   then invariant "Node is not a child of its parent"
   else mret tt) ;;
  let* prevSibling := read (getPreviousSibling this) in
  match prevSibling with
  | Some ps =>
    setNext ps (Some insertKey) ;;
    let* prevKey := read (field __key ps) in
    setPrev nodeToInsert (Some prevKey)
  | None => assign (set___first (Some insertKey)) writableParent
  end ;;
  setPrev this (Some insertKey) ;;
  let* selfKey := read (field __key writableSelf) in
  setNext nodeToInsert (Some selfKey) ;;
  let* size := read (field __size writableParent) in
  assign (set___size (size + 1)) writableParent ;;
  let* selection := gets _selection in
  match selection with
  | Some _ => runMover (updateElementSelectionOnCreateDeleteNode writableParent index 1)
  | None => mret tt
  end ;;
  mret nodeToInsert.

End Mutators.

(** [isAttached]: the loop climbs the parent keys up to the key ['root']. *)
Fixpoint isAttached_loop (fuel : nat) (nodeKey : option NodeKey) : R bool :=
  match nodeKey with
  | None => mret false
  | Some k =>
    match fuel with
    | O => outOfFuelR
    | S fuel' =>
      if bool_decide (k = "root") then mret true
      else
        let* node := getNodeByKey k in
        match node with
        | None => mret false
        | Some n =>
          let* parent := field __parent n in
          isAttached_loop fuel' parent
        end
    end
  end.

Definition isAttached (fuel : nat) (this : Ref) : R bool :=
  let* k := field __key this in
  isAttached_loop fuel (Some k).

(** [isDirty]: [ElementNode.isDirty] looks in the dirty elements, and
    [LexicalNode.isDirty], for the other classes, in the dirty leaves. *)
Definition isDirty (this : Ref) : M bool :=
  let* n := read (deref this) in
  if isElementClass (klass n)
  then gets (λ s, bool_decide (__key n ∈ _dirtyElements s))
  else gets (λ s, bool_decide (__key n ∈ _dirtyLeaves s)).

(** ** More getters of [LexicalNode] and [ElementNode] *)

(** [ElementNode.getFormat], [getIndent], [getDirection]. *)
Definition getFormat (this : Ref) : R Z :=
  let* self := getLatest this in
  field __format self.

Definition getIndent (this : Ref) : R Z :=
  let* self := getLatest this in
  field __indent self.

Definition getDirection (this : Ref) : R (option Direction) :=
  let* self := getLatest this in
  field __dir self.

(** [ToInt32], which the bitwise operators apply to their operands. *)
Definition toInt32 (z : Z) : Z := (z + 2 ^ 31) mod 2 ^ 32 - 2 ^ 31.

(** [hasFormat(type)]: [(this.getFormat() & formatFlag) !== 0], over the
    table [ELEMENT_TYPE_TO_FORMAT] of [LexicalConstants]. *)
Definition hasFormat (ELEMENT_TYPE_TO_FORMAT : ElementFormatType → Z) (this : Ref)
    (type : ElementFormatType) : R bool :=
  let formatFlag := ELEMENT_TYPE_TO_FORMAT type in
  let* format := getFormat this in
  mret (bool_decide (Z.land (toInt32 format) (toInt32 formatFlag) ≠ 0)).

(** The [while (node !== null)] loop of [getParentKeys]. *)
Fixpoint getParentKeys_loop (fuel : nat) (node : option Ref) (parents : list NodeKey)
    : R (list NodeKey) :=
  match node with
  | None => mret parents
  | Some n =>
    match fuel with
    | O => outOfFuelR
    | S fuel' =>
      let* k := field __key n in
      let* node' := getParent n in
      getParentKeys_loop fuel' node' (parents ++ [k])
    end
  end.

Definition getParentKeys (fuel : nat) (this : Ref) : R (list NodeKey) :=
  let* node := getParent this in
  getParentKeys_loop fuel node [].

(** The loops of [getPreviousSiblings] and [getNextSiblings]. *)
Fixpoint getSiblings_loop (fuel : nat) (step : Ref → R (option Ref))
    (node : option Ref) (siblings : list Ref) : R (list Ref) :=
  match node with
  | None => mret siblings
  | Some n =>
    match fuel with
    | O => outOfFuelR
    | S fuel' =>
      let* node' := step n in
      getSiblings_loop fuel' step node' (siblings ++ [n])
    end
  end.

Definition getPreviousSiblings (fuel : nat) (this : Ref) : R (list Ref) :=
  let* prev := getPreviousSibling this in
  getSiblings_loop fuel getPreviousSibling prev [].

Definition getNextSiblings (fuel : nat) (this : Ref) : R (list Ref) :=
  let* next := getNextSibling this in
  getSiblings_loop fuel getNextSibling next [].

(** The [while (node !== null)] loop of [getTopLevelElement];
    [$isRootNode(null)] is false. *)
Fixpoint getTopLevelElement_loop (fuel : nat) (node : option Ref) : R (option Ref) :=
  match node with
  | None => mret None
  | Some n =>
    match fuel with
    | O => outOfFuelR
    | S fuel' =>
      let* parent := getParent n in
      let* parentIsRoot :=
        match parent with
        | Some p => isRootNode p
        | None => mret false
        end in
      if parentIsRoot then
        let* nodeIsElement := isElementNode n in
        if nodeIsElement then mret (Some n)
        else getTopLevelElement_loop fuel' parent
      else getTopLevelElement_loop fuel' parent
    end
  end.

Definition getTopLevelElement (fuel : nat) (this : Ref) : R (option Ref) :=
  getTopLevelElement_loop fuel (Some this).

(** [ElementNode.isLastChild]: the last child of the parent is compared with
    the latest version of the node by identity.  The method is one of
    [ElementNode] only: on a node of another class [node.isLastChild] is
    [undefined], and calling it is a [TypeError]. *)
Definition isLastChild (this : Ref) : R bool :=
  let* isElement := isElementNode this in
  if negb isElement then throwR TypeError
  else
    let* self := getLatest this in
    let* parent := getParentOrThrow self in
    let* last := getLastChild parent in
    mret (bool_decide (last = Some self)).

(** [getDescendantByIndex(index)], for an integer index; [children[index]]
    is [undefined] at a negative index, and so is then the result, [None]
    here.  [(a && b) || c] is [b] when [a] holds and [b] is not [null], and
    [c] otherwise. *)
Definition getDescendantByIndex (fuel : nat) (this : Ref) (index : Z)
    : R (option Ref) :=
  let* children := getChildren fuel this in
  let childrenLength := Z.of_nat (length children) in
  if bool_decide (childrenLength = 0) then mret (Some this)
  else if bool_decide (index >= childrenLength) then
    match children !! (length children - 1)%nat with
    | Some resolvedNode =>
      let* isElement := isElementNode resolvedNode in
      if isElement then
        let* descendant := getLastDescendant fuel resolvedNode in
        mret (Some (default resolvedNode descendant))
      else mret (Some resolvedNode)
    | None => mret None
    end
  else if bool_decide (index < 0) then mret None
  else
    match children !! Z.to_nat index with
    | Some resolvedNode =>
      let* isElement := isElementNode resolvedNode in
      if isElement then
        let* descendant := getFirstDescendant fuel resolvedNode in
        mret (Some (default resolvedNode descendant))
      else mret (Some resolvedNode)
    | None => mret None
    end.

(** ** The document as the keys see it *)

(** The active version as a map from keys to node contents. *)
Definition view (s : State) : gmap NodeKey LexicalNode :=
  omap (λ r, heap s !! r) (_nodeMap s).

(** The node a key resolves to in the active version. *)
Definition node_at (s : State) (k : NodeKey) : option LexicalNode := view s !! k.

(** Every key of the node map resolves to an object that carries this key. *)
Definition store_ok (s : State) : Prop :=
  ∀ k r, _nodeMap s !! k = Some r → ∃ n, heap s !! r = Some n ∧ __key n = k.

(** [r] is a reference to an object whose key is [k] and resolves; the
    object may be a stale copy, of the class of the latest one. *)
Definition ref_of (s : State) (r : Ref) (k : NodeKey) : Prop :=
  ∃ n l, heap s !! r = Some n ∧ __key n = k ∧ view s !! k = Some l
         ∧ klass n = klass l ∧ can_be_empty n = can_be_empty l.

(** The keys of the ancestors of a node, nearest first, up to a node with no
    parent. *)
Inductive ancestors (v : gmap NodeKey LexicalNode) : NodeKey → list NodeKey → Prop :=
  | ancestors_top k n :
      v !! k = Some n → __parent n = None → ancestors v k []
  | ancestors_up k n p l :
      v !! k = Some n → __parent n = Some p → ancestors v p l →
      ancestors v k (p :: l).

(** The keys met from [first] on along [__next]. *)
Inductive next_chain (v : gmap NodeKey LexicalNode) : option NodeKey → list NodeKey → Prop :=
  | next_chain_end : next_chain v None []
  | next_chain_step k n l :
      v !! k = Some n → next_chain v (__next n) l →
      next_chain v (Some k) (k :: l).

(** The keys of the children of the element [p], in order. *)
Definition children_of (v : gmap NodeKey LexicalNode) (p : NodeKey) (cs : list NodeKey)
    : Prop :=
  ∃ n, v !! p = Some n ∧ next_chain v (__first n) cs.

(** The position of the first occurrence of a key in a list of keys. *)
Fixpoint index_of (k : NodeKey) (l : list NodeKey) : option nat :=
  match l with
  | [] => None
  | x :: l' => if bool_decide (k = x) then Some 0%nat else S <$> index_of k l'
  end.

(** The latest references of a list of keys. *)
Definition refs_of (s : State) (ks : list NodeKey) (rs : list Ref) : Prop :=
  Forall2 (λ k r, _nodeMap s !! k = Some r) ks rs.

(** The outcome of marking a node dirty, and the copy that [getWritable]
    makes of a node. *)
Definition markDirtyState (n : LexicalNode) (s : State) : State :=
  if isElementClass (klass n)
  then set_dirtyElements ({[ __key n ]} ∪ _dirtyElements s) s
  else set_dirtyLeaves ({[ __key n ]} ∪ _dirtyLeaves s) s.

Definition writableCopy (k : NodeKey) (n : LexicalNode) : LexicalNode :=
  let c := set___prev (__prev n) (set___next (__next n) (set___parent (__parent n) (clone n))) in
  let c :=
    if isElementClass (klass n) && isElementClass (klass c) then
      set___size (__size n) (set___last (__last n) (set___first (__first n)
        (set___dir (__dir n) (set___format (__format n) (set___indent (__indent n) c)))))
    else if isTextClass (klass n) && isTextClass (klass c) then
      set___detail (__detail n) (set___mode (__mode n) (set___style (__style n)
        (set___format (__format n) c)))
    else c in
  set___key k c.

(** The record of the embedding has every field for every class; the fields
    that the class of a node does not have hold the value that a field
    never assigned is read as here. *)
Definition class_fields_ok (n : LexicalNode) : Prop :=
  match klass n with
  | RootNode | ElementNode => __style n = "" ∧ __mode n = 0 ∧ __detail n = 0
  | TextNode =>
    __indent n = 0 ∧ __dir n = None ∧ __first n = None ∧ __last n = None ∧ __size n = 0
  | LineBreakNode | DecoratorNode =>
    __format n = 0 ∧ __indent n = 0 ∧ __dir n = None ∧ __first n = None
    ∧ __last n = None ∧ __size n = 0 ∧ __style n = "" ∧ __mode n = 0 ∧ __detail n = 0
  end.

(** A mutation of a node in an update: [r.getWritable().f = v]. *)
Inductive Mutation := Touch (r : Ref) (upd : LexicalNode → LexicalNode).

Definition mutate (m : Mutation) : M unit :=
  match m with
  | Touch r upd =>
    let* writable := getWritable r in
    assign upd writable
  end.

Fixpoint mutateAll (ms : list Mutation) : M unit :=
  match ms with
  | [] => mret tt
  | m :: ms' => mutate m ;; mutateAll ms'
  end.

(** Keys are stable: no mutation assigns [__key]. *)
Definition keeps_key (m : Mutation) : Prop :=
  match m with Touch _ upd => ∀ n, __key (upd n) = __key n end.

(** The key [k] has been cloned in this update and [w] is its writable
    object; [this] is a reference to a node of this key. *)
Definition cloned_once (k : NodeKey) (w this : Ref) (s : State) : Prop :=
  readOnly s = false ∧ k ∈ _cloneNotNeeded s ∧ _nodeMap s !! k = Some w
  ∧ is_Some (heap s !! w)
  ∧ ∃ nt, heap s !! this = Some nt ∧ __key nt = k.

(** ** Well-formed documents and the cleanup of empty parents *)

(** An object keeps its key and its class through an update. *)
Definition same_object (n n' : LexicalNode) : Prop :=
  __key n' = __key n ∧ klass n' = klass n ∧ can_be_empty n' = can_be_empty n.

(** Every reference of [s] is a reference of [s'], to the same object. *)
Definition heap_ext (s s' : State) : Prop :=
  ∀ r n, heap s !! r = Some n → ∃ n', heap s' !! r = Some n' ∧ same_object n n'.

(** The keys [cs] are linked as the children of [p], in this order. *)
Definition linked (v : gmap NodeKey LexicalNode) (p : NodeKey) (cs : list NodeKey) : Prop :=
  ∀ i c, cs !! i = Some c →
    ∃ nc, v !! c = Some nc ∧ __parent nc = Some p
          ∧ __prev nc = match i with O => None | S j => cs !! j end
          ∧ __next nc = cs !! S i.

(** [cs] is the child list of the node [np] of key [p]: the bookkeeping of
    section 3 of the spec. *)
Definition children_ok (v : gmap NodeKey LexicalNode) (p : NodeKey) (np : LexicalNode)
    (cs : list NodeKey) : Prop :=
  linked v p cs ∧ NoDup cs
  ∧ __first np = head cs ∧ __last np = last cs ∧ __size np = Z.of_nat (length cs)
  ∧ ∀ c nc, v !! c = Some nc → __parent nc = Some p → c ∈ cs.

(** A well-formed document: every node has a consistent child list and a
    finite chain of ancestors, and a node that is a parent is an element. *)
Definition well_formed (v : gmap NodeKey LexicalNode) : Prop :=
  ∀ k n, v !! k = Some n →
    class_fields_ok n
    ∧ (∃ cs, children_ok v k n cs)
    ∧ (∃ l, ancestors v k l)
    ∧ (∀ p, __parent n = Some p → ∃ np, v !! p = Some np ∧ isElementClass (klass np) = true).

(** What [removeFromParent] does to the document, on a node that has a
    parent: the neighbours are linked to each other, the parent's first
    child, last child and child count follow, and the node is left with no
    parent and no siblings. *)
Definition detach (v : gmap NodeKey LexicalNode) (k : NodeKey) : gmap NodeKey LexicalNode :=
  match v !! k with
  | Some n =>
    match __parent n with
    | Some p =>
      let v1 :=
        match __prev n with
        | Some ps => alter (set___next (__next n)) ps v
        | None => alter (set___first (__next n)) p v
        end in
      let v2 :=
        match __next n with
        | Some ns => alter (set___prev (__prev n)) ns v1
        | None => alter (set___last (__prev n)) p v1
        end in
      let v3 := alter (λ np, set___size (__size np - 1) np) p v2 in
      alter (λ x, set___next None (set___prev None (set___parent None x))) k v3
    | None => v
    end
  | None => v
  end.

(** C8 in the words of the spec: [remove] detaches the node; if its parent
    thereby becomes empty, is not the root, is not protected by
    [preserveEmptyParent] and cannot be empty, the parent is removed too,
    and so on up the chain of ancestors.  [removed] lists the nodes removed,
    and [emptied] is the key of the root if the root has become empty. *)
Inductive cleanup (v : gmap NodeKey LexicalNode) :
    NodeKey → bool → gmap NodeKey LexicalNode → list NodeKey → option NodeKey → Prop :=
  | cleanup_detached k n preserveEmptyParent :
      v !! k = Some n → __parent n = None →
      cleanup v k preserveEmptyParent v [] None
  | cleanup_stop k n p np' preserveEmptyParent :
      v !! k = Some n → __parent n = Some p → detach v k !! p = Some np' →
      preserveEmptyParent = true ∨ klass np' = RootNode ∨ can_be_empty np' = true
      ∨ __size np' ≠ 0 →
      cleanup v k preserveEmptyParent (detach v k) [k]
        (if isRootClass (klass np') && bool_decide (__size np' = 0) then Some p else None)
  | cleanup_up k n p np' preserveEmptyParent v' removed emptied :
      v !! k = Some n → __parent n = Some p → detach v k !! p = Some np' →
      preserveEmptyParent = false → klass np' ≠ RootNode → can_be_empty np' = false →
      __size np' = 0 →
      cleanup (detach v k) p false v' removed emptied →
      cleanup v k preserveEmptyParent v' (k :: removed) emptied.

(** What the parent of the detached node becomes. *)
Definition detach_parent (n np : LexicalNode) : LexicalNode :=
  let np1 := match __prev n with Some _ => np | None => set___first (__next n) np end in
  let np2 := match __next n with Some _ => np1 | None => set___last (__prev n) np1 end in
  set___size (__size np2 - 1) np2.

Definition detach_node (n : LexicalNode) : LexicalNode :=
  set___next None (set___prev None (set___parent None n)).

(** The state of an open update over a store in order. *)
Definition good (s : State) : Prop := store_ok s ∧ readOnly s = false.

(** The node map of [s'] is that of [s] but at the key [k]. *)
Definition nodeMap_but (k : NodeKey) (s s' : State) : Prop :=
  ∀ k', k' ≠ k → _nodeMap s' !! k' = _nodeMap s !! k'.

(** [s'] is [s] but for the selection, which is still there if it was. *)
Definition selection_only (s s' : State) : Prop :=
  ∃ sel, s' = set_selection sel s ∧ (is_Some (_selection s) → is_Some sel).

(** The selection that [select()] leaves on an element: both points at its
    end. *)
Definition selection_at_end (k : NodeKey) (size : Z) : RangeSelection :=
  mkRange (mkPoint k size element) (mkPoint k size element) true.

(** ** The steps of a mutator and the attachment of a node *)

(** What a mutator keeps while it runs from the state [s0]: the update is
    open over a store in order, the references of [s0] are still references
    to the same objects, and every node of the document has the class it had
    and the fields of its class. *)
Definition tracks (s0 s : State) : Prop :=
  good s ∧ heap_ext s0 s
  ∧ ∀ k n, view s !! k = Some n →
      class_fields_ok n ∧ ∃ n0, view s0 !! k = Some n0 ∧ klass n = klass n0.

(** An update of the fields of a node that keeps its key, its class and the
    fields of its class. *)
Definition keeps_class (v : gmap NodeKey LexicalNode) (k : NodeKey)
    (upd : LexicalNode → LexicalNode) : Prop :=
  ∀ n, v !! k = Some n → class_fields_ok n →
    same_object n (upd n) ∧ class_fields_ok (upd n).

(** What [append], [insertAfter] and [insertBefore] do to the document when
    they link the node [x], which has no parent, as a child of [p] between
    the children [before] and [after]: the node takes its parent and its
    neighbours, the neighbours (or, where there is none, the first or last
    child of the parent) take the node, and the child count of the parent
    grows by one. *)
Definition attach (v : gmap NodeKey LexicalNode) (p x : NodeKey)
    (before after : option NodeKey) : gmap NodeKey LexicalNode :=
  let v1 :=
    alter (λ m, set___next after (set___prev before (set___parent (Some p) m))) x v in
  let v2 :=
    match before with
    | Some b => alter (set___next (Some x)) b v1
    | None => alter (set___first (Some x)) p v1
    end in
  let v3 :=
    match after with
    | Some a => alter (set___prev (Some x)) a v2
    | None => alter (set___last (Some x)) p v2
    end in
  alter (λ np, set___size (__size np + 1) np) p v3.

(** What the node and its new parent become. *)
Definition attach_node (p : NodeKey) (before after : option NodeKey) (m : LexicalNode)
    : LexicalNode :=
  set___next after (set___prev before (set___parent (Some p) m)).

Definition attach_parent (x : NodeKey) (before after : option NodeKey) (np : LexicalNode)
    : LexicalNode :=
  let np1 := match before with Some _ => np | None => set___first (Some x) np end in
  let np2 := match after with Some _ => np1 | None => set___last (Some x) np1 end in
  set___size (__size np2 + 1) np2.

(** ** Example documents *)

Definition elementObject (c : NodeClass) (canBeEmpty : bool) (k : NodeKey)
    (parent prev next first last : option NodeKey) (size : Z) : LexicalNode :=
  mkNode c canBeEmpty k parent next prev 0 0 None first last size "" "" 0 0.

Definition textObject (k : NodeKey) (parent prev next : option NodeKey) (t : string)
    : LexicalNode :=
  mkNode TextNode true k parent next prev 0 0 None None None 0 t "" 0 0.

(** A state with an open update over the given objects, each the latest of
    its key, none of them cloned or dirty yet. *)
Definition document (objects : list LexicalNode) (selection : option RangeSelection)
    : State :=
  mkState false objects (list_to_map (imap (λ i n, (__key n, i)) objects))
    ∅ ∅ ∅ selection None.

(** The same with no update open. *)
Definition committed (objects : list LexicalNode) : State :=
  mkState true objects (list_to_map (imap (λ i n, (__key n, i)) objects))
    ∅ ∅ ∅ None None.

(** root > P > [A, B, C, D], and X, Y, Z detached.  References: root 0, P 1,
    A 2, B 3, C 4, D 5, X 6, Y 7, Z 8. *)
Definition objects_ABCD : list LexicalNode :=
  [ elementObject RootNode true "root" None None None (Some "P") (Some "P") 1;
    elementObject ElementNode true "P" (Some "root") None None (Some "A") (Some "D") 4;
    textObject "A" (Some "P") None (Some "B") "a";
    textObject "B" (Some "P") (Some "A") (Some "C") "b";
    textObject "C" (Some "P") (Some "B") (Some "D") "c";
    textObject "D" (Some "P") (Some "C") None "d";
    textObject "X" None None None "x";
    textObject "Y" None None None "y";
    textObject "Z" None None None "z" ].

Definition doc_ABCD : State := document objects_ABCD None.

(** root > P > [A, B], and X detached.  References: root 0, P 1, A 2, B 3,
    X 4. *)
Definition objects_AB : list LexicalNode :=
  [ elementObject RootNode true "root" None None None (Some "P") (Some "P") 1;
    elementObject ElementNode true "P" (Some "root") None None (Some "A") (Some "B") 2;
    textObject "A" (Some "P") None (Some "B") "hello";
    textObject "B" (Some "P") (Some "A") None "world";
    textObject "X" None None None "x" ].

Definition doc_AB : State := document objects_AB None.

(** The same with a caret at the start of the text node A. *)
Definition doc_AB_caret : State :=
  document objects_AB (Some (mkRange (mkPoint "A" 0 text) (mkPoint "A" 0 text) false)).

(** root > P > [A], and X detached.  References: root 0, P 1, A 2, X 3. *)
Definition objects_A : list LexicalNode :=
  [ elementObject RootNode true "root" None None None (Some "P") (Some "P") 1;
    elementObject ElementNode true "P" (Some "root") None None (Some "A") (Some "A") 1;
    textObject "A" (Some "P") None None "a";
    textObject "X" None None None "x" ].

Definition doc_A : State := document objects_A None.

(** root > Q > [A], where Q is an element that may not be empty, and a caret
    at the start of the text node A.  References: root 0, Q 1, A 2. *)
Definition objects_Q : list LexicalNode :=
  [ elementObject RootNode true "root" None None None (Some "Q") (Some "Q") 1;
    elementObject ElementNode false "Q" (Some "root") None None (Some "A") (Some "A") 1;
    textObject "A" (Some "Q") None None "a" ].

Definition doc_Q_caret : State :=
  document objects_Q (Some (mkRange (mkPoint "A" 0 text) (mkPoint "A" 0 text) false)).

(** root > [P, Q], two empty elements.  References: root 0, P 1, Q 2. *)
Definition objects_PQ : list LexicalNode :=
  [ elementObject RootNode true "root" None None None (Some "P") (Some "Q") 2;
    elementObject ElementNode true "P" (Some "root") None (Some "Q") None None 0;
    elementObject ElementNode true "Q" (Some "root") (Some "P") None None None 0 ].

Definition doc_PQ : State := document objects_PQ None.

(** Instances of the absent selection helpers, for the examples: movers
    that leave the points where they are, and a text selection that is never
    reached. *)
Definition keepPoints : PointMover := λ s selection, selection.

Definition makeRangeSelection (anchorKey : NodeKey) (anchorOffset : Z)
    (focusKey : NodeKey) (focusOffset : Z) (anchorType focusType : PointKind)
    : SelectionHelper RangeSelection := λ s,
  let selection :=
    mkRange (mkPoint anchorKey anchorOffset anchorType)
            (mkPoint focusKey focusOffset focusType) true in
  (selection, Some selection).

Definition noTextSelect (node : Ref) (anchorOffset focusOffset : option Z)
    : M RangeSelection := throw TypeError.

Definition noFormat (t : ElementFormatType) : Z := 0.

(** * Properties *)

Section Examples.

Variable internalMakeRangeSelection :
  NodeKey → Z → NodeKey → Z → PointKind → PointKind → SelectionHelper RangeSelection.
Variable updateElementSelectionOnCreateDeleteNode : Ref → Z → Z → PointMover.
Variable moveSelectionPointToEnd : PointName → Ref → PointMover.
Variable TextNode_select : Ref → option Z → option Z → M RangeSelection.

Local Abbreviation splice := (splice internalMakeRangeSelection
  updateElementSelectionOnCreateDeleteNode TextNode_select).
Local Abbreviation replace := (replace internalMakeRangeSelection
  updateElementSelectionOnCreateDeleteNode moveSelectionPointToEnd TextNode_select).

(** C1.  On P with children [A, B, C, D], [splice(1, 2, [X, Y, Z])] in an
    open update returns normally, but the children of P are then
    [A, X, Y, Z] and its child count is 4, where the specification has
    [A, X, Y, Z, D] and 5: [getChildAtIndex] finds no child at the indices
    1 and 3, so that nothing is removed and D is dropped with B and C.  A,
    X, Y and Z are dirty; D is not. *)
Theorem splice_ABCD_drops_tail :
  let result := splice 20 1%nat 1 2 [6; 7; 8]%nat doc_ABCD in
  let s' := snd result in
  (∃ P', fst result = Ret P')
  ∧ getChildrenKeys 20 1%nat s' = Ret ["A"; "X"; "Y"; "Z"]
  ∧ getChildrenSize 1%nat s' = Ret 4
  ∧ fst (isDirty 2%nat s') = Ret true
  ∧ fst (isDirty 6%nat s') = Ret true
  ∧ fst (isDirty 7%nat s') = Ret true
  ∧ fst (isDirty 8%nat s') = Ret true
  ∧ fst (isDirty 5%nat s') = Ret false.
Proof.
  vm_compute. split; [eexists; reflexivity|]. repeat split; reflexivity.
Qed.

(** C2.  On P with children [A, B, C, D]: [getChildAtIndex(1)] is [null]
    although the second node of the walk from the first child is B, and so
    it is at the indices 2 and 3; [getChildAtIndex(-1)] is the first child
    A where the specification has [null].  Only the index 0 is answered
    as specified. *)
Theorem getChildAtIndex_ABCD :
  getChildrenKeys 20 1%nat doc_ABCD = Ret ["A"; "B"; "C"; "D"]
  ∧ getChildrenSize 1%nat doc_ABCD = Ret 4
  ∧ getChildAtIndex 20 1%nat 0 doc_ABCD = Ret (Some 2%nat)
  ∧ getChildAtIndex 20 1%nat 1 doc_ABCD = Ret None
  ∧ getChildAtIndex 20 1%nat 2 doc_ABCD = Ret None
  ∧ getChildAtIndex 20 1%nat 3 doc_ABCD = Ret None
  ∧ getChildAtIndex 20 1%nat (-1) doc_ABCD = Ret (Some 2%nat).
Proof. vm_compute. repeat split; reflexivity. Qed.

(** C3.  Two sequences of mutations that return normally and leave an
    element whose child count is not the number of nodes of the walk from
    its first child.  On P with the only child A, [replace(A, X)] leaves P
    with the walk [X] and the child count 0.  On P with children [A, B] and
    a caret in A, [splice(P, 0, 1, [])] followed by [append(root, A)] leaves
    P with the walk [A], the child count 2 and the last child B, which the
    walk does not end at. *)
Theorem structural_integrity_broken :
  (let s' := snd (replace 20 2%nat 3%nat doc_A) in
   fst (replace 20 2%nat 3%nat doc_A) = Ret 4%nat
   ∧ getChildrenKeys 20 1%nat s' = Ret ["X"]
   ∧ getChildrenSize 1%nat s' = Ret 0)
  ∧
  (let s1 := snd (splice 20 1%nat 0 1 [] doc_AB_caret) in
   let s2 := snd (append 0%nat [2%nat] s1) in
   fst (splice 20 1%nat 0 1 [] doc_AB_caret) = Ret 5%nat
   ∧ fst (append 0%nat [2%nat] s1) = Ret 0%nat
   ∧ getChildrenKeys 20 1%nat s2 = Ret ["A"]
   ∧ getChildrenSize 1%nat s2 = Ret 2
   ∧ (let* last := getLastChild 1%nat in getKey (default 0%nat last)) s2 = Ret "B").
Proof. vm_compute. repeat split; reflexivity. Qed.

(** C9.  On P with children [A, B] and a caret in A, [splice(P, 0, 1, [X])]
    removes A: its parent is [null] afterwards and it is not attached.  The
    caret is still on A, at the end of its text: the node before the range is
    looked up with [getChildAtIndex(-1)], which answers A itself, where the
    specification has the caret on the next sibling B at offset 0. *)
Theorem splice_leaves_caret_on_removed_node :
  let result := splice 20 1%nat 0 1 [4%nat] doc_AB_caret in
  let s' := snd result in
  (∃ P', fst result = Ret P')
  ∧ getChildrenKeys 20 1%nat s' = Ret ["X"]
  ∧ getParent 2%nat s' = Ret None
  ∧ isAttached 20 2%nat s' = Ret false
  ∧ _selection s' = Some (mkRange (mkPoint "A" 5 text) (mkPoint "A" 5 text) false).
Proof.
  vm_compute. split; [eexists; reflexivity|]. repeat split; reflexivity.
Qed.

End Examples.

(** C4, as stated, fails.  P is the parent of A, and both are attached: the
    ancestor P is not before its descendant A, and A is before P. *)
Lemma isBefore_ancestor_counterexample :
  isParentOf 20 1%nat 2%nat doc_ABCD = Ret true
  ∧ isAttached 20 1%nat doc_ABCD = Ret true
  ∧ isAttached 20 2%nat doc_ABCD = Ret true
  ∧ isBefore 20 1%nat 2%nat doc_ABCD = Ret false
  ∧ isBefore 20 2%nat 1%nat doc_ABCD = Ret true.
Proof. vm_compute. repeat split; reflexivity. Qed.

(** C5, as stated, fails.  [append(P, P)] throws, and the links and the child
    count of P are as before, but P was not dirty before the call and is
    dirty after it. *)
Lemma append_self_counterexample :
  let result := append 1%nat [1%nat] doc_AB in
  fst result = Throw (InvariantViolation "append: attemtping to append self")
  ∧ fst (isDirty 1%nat doc_AB) = Ret false
  ∧ fst (isDirty 1%nat (snd result)) = Ret true.
Proof. vm_compute. repeat split; reflexivity. Qed.

(** C10, as stated, fails.  X has no parent; with no update open both
    [remove] and [removeNode] throw. *)
Lemma remove_detached_counterexample :
  getParent 3%nat (committed objects_A) = Ret None
  ∧ fst (remove makeRangeSelection (λ _ _ _, keepPoints) noTextSelect
           20 3%nat false (committed objects_A)) = Throw ReadOnlyViolation
  ∧ fst (removeNode makeRangeSelection (λ _ _ _, keepPoints) noTextSelect
           20 3%nat true false (committed objects_A)) = Throw ReadOnlyViolation.
Proof. vm_compute. repeat split; reflexivity. Qed.

(** ** Running the monads *)

Lemma bind_read {A B} (r : R A) (f : A → M B) s :
  (let* x := read r in f x) s =
  match r s with
  | Ret a => f a s
  | Throw e => (Throw e, s)
  | OutOfFuel => (OutOfFuel, s)
  end.
Proof. unfold bind, mbind, M_bind, read. destruct (r s); reflexivity. Qed.

Lemma bind_ret {A B} (m : M A) (f : A → M B) s a s' :
  m s = (Ret a, s') → (let* x := m in f x) s = f a s'.
Proof. intros H. unfold bind, mbind, M_bind. rewrite H. reflexivity. Qed.

Lemma bind_throw {A B} (m : M A) (f : A → M B) s e s' :
  m s = (Throw e, s') → (let* x := m in f x) s = (Throw e, s').
Proof. intros H. unfold bind, mbind, M_bind. rewrite H. reflexivity. Qed.

Lemma seq_ret {A B} (m : M A) (k : M B) s a s' :
  m s = (Ret a, s') → (m ;; k) s = k s'.
Proof. intros H. unfold mbind, M_bind. rewrite H. reflexivity. Qed.

Lemma seq_throw {A B} (m : M A) (k : M B) s e s' :
  m s = (Throw e, s') → (m ;; k) s = (Throw e, s').
Proof. intros H. unfold mbind, M_bind. rewrite H. reflexivity. Qed.

Lemma bindR_ret {A B} (r : R A) (f : A → R B) s a :
  r s = Ret a → (let* x := r in f x) s = f a s.
Proof. intros H. unfold bind, mbind, R_bind. rewrite H. reflexivity. Qed.

Lemma bindR_throw {A B} (r : R A) (f : A → R B) s e :
  r s = Throw e → (let* x := r in f x) s = Throw e.
Proof. intros H. unfold bind, mbind, R_bind. rewrite H. reflexivity. Qed.

Lemma errorOnReadOnly_closed s :
  readOnly s = true → errorOnReadOnly s = (Throw ReadOnlyViolation, s).
Proof. intros H. unfold errorOnReadOnly. rewrite H. reflexivity. Qed.

Lemma errorOnReadOnly_open s :
  readOnly s = false → errorOnReadOnly s = (Ret tt, s).
Proof. intros H. unfold errorOnReadOnly. rewrite H. reflexivity. Qed.

Lemma field_eq {A} (f : LexicalNode → A) r s n :
  heap s !! r = Some n → field f r s = Ret (f n).
Proof.
  intros H. unfold field, bind, mbind, R_bind, deref. rewrite H. reflexivity.
Qed.

Lemma deref_eq r s n : heap s !! r = Some n → deref r s = Ret n.
Proof. intros H. unfold deref. rewrite H. reflexivity. Qed.

Lemma getLatest_eq this s n l :
  heap s !! this = Some n → _nodeMap s !! __key n = Some l →
  getLatest this s = Ret l.
Proof.
  intros Hn Hl. unfold getLatest.
  rewrite (bindR_ret _ _ _ _ (field_eq __key _ _ _ Hn)).
  unfold bind, mbind, R_bind, getNodeByKey. rewrite Hl. reflexivity.
Qed.

Lemma view_lookup s k : view s !! k = r ← _nodeMap s !! k; heap s !! r.
Proof. unfold view. rewrite lookup_omap. reflexivity. Qed.

Lemma view_eq s k l n :
  _nodeMap s !! k = Some l → heap s !! l = Some n → view s !! k = Some n.
Proof. intros Hl Hn. rewrite view_lookup, Hl. exact Hn. Qed.

Lemma view_inv s k n :
  view s !! k = Some n → ∃ l, _nodeMap s !! k = Some l ∧ heap s !! l = Some n.
Proof.
  rewrite view_lookup. destruct (_nodeMap s !! k) as [l|] eqn:Hl; simpl; [|discriminate].
  intros Hn. exists l. split; [reflexivity | exact Hn].
Qed.

(** ** Copy-on-write *)

Lemma internalMarkNodeAsDirty_eq r s n :
  heap s !! r = Some n → internalMarkNodeAsDirty r s = (Ret tt, markDirtyState n s).
Proof.
  intros H. unfold internalMarkNodeAsDirty. rewrite bind_read, (deref_eq _ _ _ H).
  unfold markDirtyState. destruct (isElementClass (klass n)); reflexivity.
Qed.

Lemma markDirtyState_heap n s : heap (markDirtyState n s) = heap s.
Proof. unfold markDirtyState. destruct (isElementClass (klass n)); reflexivity. Qed.

Lemma markDirtyState_nodeMap n s : _nodeMap (markDirtyState n s) = _nodeMap s.
Proof. unfold markDirtyState. destruct (isElementClass (klass n)); reflexivity. Qed.

Lemma markDirtyState_cloneNotNeeded n s :
  _cloneNotNeeded (markDirtyState n s) = _cloneNotNeeded s.
Proof. unfold markDirtyState. destruct (isElementClass (klass n)); reflexivity. Qed.

Lemma markDirtyState_readOnly n s : readOnly (markDirtyState n s) = readOnly s.
Proof. unfold markDirtyState. destruct (isElementClass (klass n)); reflexivity. Qed.

Lemma markDirtyState_selection n s : _selection (markDirtyState n s) = _selection s.
Proof. unfold markDirtyState. destruct (isElementClass (klass n)); reflexivity. Qed.

Lemma markDirtyState_view n s : view (markDirtyState n s) = view s.
Proof. unfold view. rewrite markDirtyState_heap, markDirtyState_nodeMap. reflexivity. Qed.

Lemma markDirtyState_dirtyElements n s :
  isElementClass (klass n) = true → __key n ∈ _dirtyElements (markDirtyState n s).
Proof. intros H. unfold markDirtyState. rewrite H. simpl. set_solver. Qed.

Lemma markDirtyState_dirtyElements_mono n s k :
  k ∈ _dirtyElements s → k ∈ _dirtyElements (markDirtyState n s).
Proof.
  intros H. unfold markDirtyState. destruct (isElementClass (klass n)); simpl; set_solver.
Qed.

(** [getWritable] on a key already cloned in this update: the latest object
    is returned, and only the dirty sets change. *)
Lemma getWritable_cloned this s nt l n :
  readOnly s = false →
  heap s !! this = Some nt → _nodeMap s !! __key nt = Some l → heap s !! l = Some n →
  __key nt ∈ _cloneNotNeeded s →
  getWritable this s = (Ret l, markDirtyState n s).
Proof.
  intros Hro Ht Hl Hn Hin. unfold getWritable.
  rewrite (seq_ret _ _ _ _ _ (errorOnReadOnly_open _ Hro)).
  rewrite bind_read, (field_eq __key _ _ _ Ht).
  rewrite bind_read, (getLatest_eq _ _ _ _ Ht Hl).
  rewrite bind_read, (field_eq __parent _ _ _ Hn).
  rewrite bind_read, (field_eq __prev _ _ _ Hn).
  rewrite bind_read, (field_eq __next _ _ _ Hn).
  unfold bind at 1, mbind at 1, M_bind at 1. unfold gets at 1.
  rewrite bool_decide_eq_true_2 by exact Hin.
  rewrite (seq_ret _ _ _ _ _ (internalMarkNodeAsDirty_eq _ _ _ Hn)).
  reflexivity.
Qed.

Lemma assign_last upd s h c :
  heap s = h ++ [c] → assign upd (length h) s = (Ret tt, set_heap (h ++ [upd c]) s).
Proof.
  intros H. unfold assign. rewrite H.
  rewrite lookup_app_r, Nat.sub_diag by lia. simpl.
  f_equal. f_equal.
  rewrite insert_app_r_alt, Nat.sub_diag by lia. reflexivity.
Qed.

(** [getWritable] on a key not yet cloned in this update: a new object, a
    copy of the latest one, is made, entered in the node map, and the key is
    recorded as cloned. *)
Lemma getWritable_fresh this s nt l n :
  readOnly s = false →
  heap s !! this = Some nt → _nodeMap s !! __key nt = Some l → heap s !! l = Some n →
  __key nt ∉ _cloneNotNeeded s →
  getWritable this s =
  (Ret (length (heap s)),
   set_nodeMap (<[ __key nt := length (heap s) ]> (_nodeMap s))
     (markDirtyState (writableCopy (__key nt) n)
        (set_cloneNotNeeded ({[ __key nt ]} ∪ _cloneNotNeeded s)
           (set_heap (heap s ++ [writableCopy (__key nt) n]) s)))).
Proof.
  intros Hro Ht Hl Hn Hin. unfold getWritable.
  rewrite (seq_ret _ _ _ _ _ (errorOnReadOnly_open _ Hro)).
  rewrite bind_read, (field_eq __key _ _ _ Ht).
  rewrite bind_read, (getLatest_eq _ _ _ _ Ht Hl).
  rewrite bind_read, (field_eq __parent _ _ _ Hn).
  rewrite bind_read, (field_eq __prev _ _ _ Hn).
  rewrite bind_read, (field_eq __next _ _ _ Hn).
  unfold bind at 1, mbind at 1, M_bind at 1. unfold gets at 1.
  rewrite bool_decide_eq_false_2 by exact Hin.
  rewrite bind_read, (deref_eq _ _ _ Hn).
  unfold bind at 1, mbind at 1, M_bind at 1. unfold alloc at 1.
  set (h := heap s).
  repeat (erewrite seq_ret; [|apply (assign_last _ _ h); reflexivity]).
  rewrite bind_read. unfold deref at 1. cbn [heap set_heap].
  rewrite lookup_app_r, Nat.sub_diag by (subst h; lia). cbn [lookup list_lookup].
  assert (Hlast : ∀ (c : LexicalNode) s0, heap s0 = h ++ [c] → heap s0 !! length h = Some c).
  { intros c s0 ->. rewrite lookup_app_r, Nat.sub_diag by lia. reflexivity. }
  unfold writableCopy.
  destruct (klass n) eqn:Hk;
    cbn [klass clone set___parent set___next set___prev]; rewrite ?Hk;
    cbn [isElementClass isTextClass andb];
    unfold mbind at 1, M_bind at 1;
    repeat (erewrite seq_ret; [|apply (assign_last _ _ h); reflexivity]);
    try (erewrite (assign_last _ _ h) by reflexivity);
    try (unfold mret at 1, M_ret at 1);
    (erewrite seq_ret; [|unfold modify; reflexivity]);
    (erewrite seq_ret; [|apply (assign_last _ _ h); reflexivity]);
    (erewrite seq_ret; [|apply internalMarkNodeAsDirty_eq; apply Hlast; reflexivity]);
    (erewrite seq_ret; [|unfold modify; reflexivity]);
    unfold markDirtyState, clone; cbn -[union singleton insert app length];
    rewrite ?Hk; reflexivity.
Qed.

(** The copy has the links, the children and the class of the original. *)
Lemma writableCopy_fields k n :
  __key (writableCopy k n) = k
  ∧ klass (writableCopy k n) = klass n
  ∧ can_be_empty (writableCopy k n) = can_be_empty n
  ∧ __parent (writableCopy k n) = __parent n
  ∧ __prev (writableCopy k n) = __prev n
  ∧ __next (writableCopy k n) = __next n
  ∧ __text (writableCopy k n) = __text n
  ∧ (isElementClass (klass n) = true →
     __first (writableCopy k n) = __first n
     ∧ __last (writableCopy k n) = __last n
     ∧ __size (writableCopy k n) = __size n).
Proof.
  unfold writableCopy. destruct n as [c ? ? ? ? ? ? ? ? ? ? ? ? ? ? ?].
  destruct c; cbn; repeat split; try reflexivity; intros; discriminate.
Qed.

Lemma writableCopy_id n : class_fields_ok n → writableCopy (__key n) n = n.
Proof.
  unfold class_fields_ok, writableCopy.
  destruct n as [c ? ? ? ? ? ? ? ? ? ? ? ? ? ? ?].
  destruct c; cbn; intros H; destruct_and!; subst; reflexivity.
Qed.

(** ** Mutation outside an update (C7) *)

Section ReadOnly.

Variable ELEMENT_TYPE_TO_FORMAT : ElementFormatType → Z.
Variable internalMakeRangeSelection :
  NodeKey → Z → NodeKey → Z → PointKind → PointKind → SelectionHelper RangeSelection.
Variable updateElementSelectionOnCreateDeleteNode : Ref → Z → Z → PointMover.
Variable moveSelectionPointToEnd : PointName → Ref → PointMover.
Variable TextNode_select : Ref → option Z → option Z → M RangeSelection.

(** C7.  With no update open, every mutator throws [ReadOnlyViolation] and
    leaves the state as it was: [append], [splice], [clear], [remove],
    [replace], [insertBefore], [insertAfter], [select], [setFormat],
    [setIndent], [setDirection], and [markDirty] and [getWritable]. *)
Theorem mutators_throw_when_read_only s :
  readOnly s = true →
  (∀ this nodes, append this nodes s = (Throw ReadOnlyViolation, s))
  ∧ (∀ fuel this start deleteCount nodes,
       splice internalMakeRangeSelection updateElementSelectionOnCreateDeleteNode
         TextNode_select fuel this start deleteCount nodes s
       = (Throw ReadOnlyViolation, s))
  ∧ (∀ fuel this,
       clear internalMakeRangeSelection updateElementSelectionOnCreateDeleteNode
         TextNode_select fuel this s = (Throw ReadOnlyViolation, s))
  ∧ (∀ fuel this preserveEmptyParent,
       remove internalMakeRangeSelection updateElementSelectionOnCreateDeleteNode
         TextNode_select fuel this preserveEmptyParent s
       = (Throw ReadOnlyViolation, s))
  ∧ (∀ fuel this replaceWith,
       replace internalMakeRangeSelection updateElementSelectionOnCreateDeleteNode
         moveSelectionPointToEnd TextNode_select fuel this replaceWith s
       = (Throw ReadOnlyViolation, s))
  ∧ (∀ fuel this nodeToInsert,
       insertBefore updateElementSelectionOnCreateDeleteNode fuel this nodeToInsert s
       = (Throw ReadOnlyViolation, s))
  ∧ (∀ fuel this nodeToInsert,
       insertAfter updateElementSelectionOnCreateDeleteNode fuel this nodeToInsert s
       = (Throw ReadOnlyViolation, s))
  ∧ (∀ this anchorOffset focusOffset,
       select internalMakeRangeSelection this anchorOffset focusOffset s
       = (Throw ReadOnlyViolation, s))
  ∧ (∀ this type, setFormat ELEMENT_TYPE_TO_FORMAT this type s = (Throw ReadOnlyViolation, s))
  ∧ (∀ this indentLevel, setIndent this indentLevel s = (Throw ReadOnlyViolation, s))
  ∧ (∀ this direction, setDirection this direction s = (Throw ReadOnlyViolation, s))
  ∧ (∀ this, markDirty this s = (Throw ReadOnlyViolation, s))
  ∧ (∀ this, getWritable this s = (Throw ReadOnlyViolation, s)).
Proof.
  intros Hro. pose proof (errorOnReadOnly_closed s Hro) as Hguard.
  assert (Hw : ∀ this, getWritable this s = (Throw ReadOnlyViolation, s)).
  { intros this. unfold getWritable. exact (seq_throw _ _ _ _ _ Hguard). }
  repeat split; intros;
    first [ apply Hw
          | exact (seq_throw _ _ _ _ _ Hguard)
          | exact (seq_throw _ _ _ _ _ (Hw _)) ].
Qed.

End ReadOnly.

(** A state with no update open on which every mutator is refused. *)
Lemma mutators_throw_when_read_only_witness :
  readOnly (committed objects_A) = true
  ∧ append 1%nat [3%nat] (committed objects_A)
    = (Throw ReadOnlyViolation, committed objects_A).
Proof.
  split; [reflexivity|].
  apply (mutators_throw_when_read_only noFormat makeRangeSelection
           (λ _ _ _, keepPoints) (λ _ _, keepPoints) noTextSelect
           (committed objects_A)).
  reflexivity.
Defined.

Lemma getParent_none this s nt n :
  heap s !! this = Some nt → view s !! __key nt = Some n → __parent n = None →
  getParent this s = Ret None.
Proof.
  intros Ht Hv Hp. apply view_inv in Hv as (l & Hl & Hn).
  unfold getParent.
  rewrite (bindR_ret _ _ _ _ (getLatest_eq _ _ _ _ Ht Hl)).
  rewrite (bindR_ret _ _ _ _ (field_eq __parent _ _ _ Hn)).
  rewrite Hp. reflexivity.
Qed.

(** ** Removing a detached node (C10) *)

Section Detached.
Variable internalMakeRangeSelection :
  NodeKey → Z → NodeKey → Z → PointKind → PointKind → SelectionHelper RangeSelection.
Variable updateElementSelectionOnCreateDeleteNode : Ref → Z → Z → PointMover.
Variable TextNode_select : Ref → option Z → option Z → M RangeSelection.

Local Abbreviation removeNode' := (removeNode internalMakeRangeSelection
  updateElementSelectionOnCreateDeleteNode TextNode_select).
Local Abbreviation remove' := (remove internalMakeRangeSelection
  updateElementSelectionOnCreateDeleteNode TextNode_select).

(** C10, amended.  On a node that resolves and whose latest version has no
    parent: in an open update [remove] and [removeNode] return and leave the
    state as it is (the nodes, the node map, the dirty sets and the
    selection); with no update open both throw the read-only violation, and
    the state is as it was. *)
Theorem remove_detached_is_noop s fuel this nt n restoreSelection preserveEmptyParent :
  heap s !! this = Some nt → view s !! __key nt = Some n → __parent n = None →
  (readOnly s = false →
   remove' (S fuel) this preserveEmptyParent s = (Ret tt, s)
   ∧ removeNode' (S fuel) this restoreSelection preserveEmptyParent s = (Ret tt, s))
  ∧ (readOnly s = true →
     remove' (S fuel) this preserveEmptyParent s = (Throw ReadOnlyViolation, s)
     ∧ removeNode' (S fuel) this restoreSelection preserveEmptyParent s
       = (Throw ReadOnlyViolation, s)).
Proof.
  intros Ht Hv Hp. split.
  - intros Hro.
    assert (Hrn : ∀ restore,
              removeNode' (S fuel) this restore preserveEmptyParent s = (Ret tt, s)).
    { intros restore. cbn [removeNode].
      rewrite (seq_ret _ _ _ _ _ (errorOnReadOnly_open _ Hro)).
      rewrite bind_read, (field_eq __key _ _ _ Ht).
      rewrite bind_read, (getParent_none _ _ _ _ Ht Hv Hp). reflexivity. }
    split; [|apply Hrn].
    unfold remove.
    rewrite (seq_ret _ _ _ _ _ (errorOnReadOnly_open _ Hro)). apply Hrn.
  - intros Hro. split.
    + unfold remove. apply seq_throw. apply errorOnReadOnly_closed. exact Hro.
    + cbn [removeNode]. apply seq_throw. apply errorOnReadOnly_closed. exact Hro.
Qed.
End Detached.

(** The detached node X, in an open update and with no update open. *)
Lemma remove_detached_is_noop_witness :
  (remove makeRangeSelection (λ _ _ _, keepPoints) noTextSelect 1 3%nat false doc_A
     = (Ret tt, doc_A)
   ∧ removeNode makeRangeSelection (λ _ _ _, keepPoints) noTextSelect 1 3%nat true false doc_A
     = (Ret tt, doc_A))
  ∧ (remove makeRangeSelection (λ _ _ _, keepPoints) noTextSelect 1 3%nat false
       (committed objects_A) = (Throw ReadOnlyViolation, committed objects_A)
     ∧ removeNode makeRangeSelection (λ _ _ _, keepPoints) noTextSelect 1 3%nat true false
         (committed objects_A) = (Throw ReadOnlyViolation, committed objects_A)).
Proof.
  split.
  - apply (proj1 (remove_detached_is_noop makeRangeSelection (λ _ _ _, keepPoints)
                    noTextSelect doc_A 0 3%nat (textObject "X" None None None "x")
                    (textObject "X" None None None "x") true false
                    eq_refl eq_refl eq_refl)).
    reflexivity.
  - apply (proj2 (remove_detached_is_noop makeRangeSelection (λ _ _ _, keepPoints)
                    noTextSelect (committed objects_A) 0 3%nat
                    (textObject "X" None None None "x")
                    (textObject "X" None None None "x") true false
                    eq_refl eq_refl eq_refl)).
    reflexivity.
Defined.

(** ** Appending an element to itself (C5) *)

(** C5, amended.  In an open update, [append(P, P)] on an element P that
    resolves throws the invariant violation of appending a node to itself;
    the first child, last child, child count, parent and siblings of P are
    as before, and P is dirty: it was made writable before the test. *)
Theorem append_self_throws s this nt n :
  readOnly s = false →
  heap s !! this = Some nt → view s !! __key nt = Some n → __key n = __key nt →
  isElementClass (klass n) = true →
  ∃ s' n',
    append this [this] s
    = (Throw (InvariantViolation "append: attemtping to append self"), s')
    ∧ view s' !! __key nt = Some n'
    ∧ __first n' = __first n ∧ __last n' = __last n ∧ __size n' = __size n
    ∧ __parent n' = __parent n ∧ __prev n' = __prev n ∧ __next n' = __next n
    ∧ __key nt ∈ _dirtyElements s'.
Proof.
  intros Hro Ht Hv Hkey Hel. apply view_inv in Hv as (l & Hl & Hn).
  unfold append.
  rewrite (seq_ret _ _ _ _ _ (errorOnReadOnly_open _ Hro)).
  cbn [length]. rewrite bool_decide_eq_false_2 by discriminate.
  destruct (decide (__key nt ∈ _cloneNotNeeded s)) as [Hin|Hin].
  - (* already cloned in this update *)
    rewrite (bind_ret _ _ _ _ _ (getWritable_cloned _ _ _ _ _ Hro Ht Hl Hn Hin)).
    set (s1 := markDirtyState n s).
    assert (Hn1 : heap s1 !! l = Some n) by (subst s1; rewrite markDirtyState_heap; exact Hn).
    assert (Ht1 : heap s1 !! this = Some nt) by (subst s1; rewrite markDirtyState_heap; exact Ht).
    assert (Hl1 : _nodeMap s1 !! __key nt = Some l) by (subst s1; rewrite markDirtyState_nodeMap; exact Hl).
    assert (Hro1 : readOnly s1 = false) by (subst s1; rewrite markDirtyState_readOnly; exact Hro).
    assert (Hin1 : __key nt ∈ _cloneNotNeeded s1) by (subst s1; rewrite markDirtyState_cloneNotNeeded; exact Hin).
    rewrite bind_read, (field_eq __key _ _ _ Hn1).
    unfold forEach. cbn [forEach_loop].
    erewrite seq_throw.
    2:{ erewrite seq_throw; [reflexivity|].
        rewrite (bind_ret _ _ _ _ _ (getWritable_cloned _ _ _ _ _ Hro1 Ht1 Hl1 Hn1 Hin1)).
        rewrite bind_read. erewrite field_eq by (rewrite markDirtyState_heap; exact Ht1).
        rewrite (bool_decide_eq_true_2 (__key nt = __key n)) by (symmetry; exact Hkey).
        erewrite seq_throw; [reflexivity|]. reflexivity. }
    exists (markDirtyState n s1), n.
    split; [reflexivity|].
    split. { rewrite markDirtyState_view. subst s1. rewrite markDirtyState_view. eapply view_eq; eauto. }
    repeat split; try reflexivity.
    apply markDirtyState_dirtyElements_mono. subst s1. rewrite <- Hkey.
    apply markDirtyState_dirtyElements. exact Hel.
  - (* first mutation of the key in this update *)
    rewrite (bind_ret _ _ _ _ _ (getWritable_fresh _ _ _ _ _ Hro Ht Hl Hn Hin)).
    destruct (writableCopy_fields (__key nt) n) as (Hck & Hcc & _ & Hcp & Hcpr & Hcn & _ & Hce).
    destruct (Hce Hel) as (Hcf & Hcl & Hcs).
    set (c := writableCopy (__key nt) n) in *.
    set (s1 := set_nodeMap _ _).
    assert (Hlt : (this < length (heap s))%nat) by (eapply lookup_lt_Some; eauto).
    assert (Hh1 : heap s1 = heap s ++ [c]).
    { subst s1. cbn [heap set_nodeMap]. rewrite markDirtyState_heap. reflexivity. }
    assert (Hn1 : heap s1 !! length (heap s) = Some c).
    { rewrite Hh1, lookup_app_r, Nat.sub_diag by lia. reflexivity. }
    assert (Ht1 : heap s1 !! this = Some nt).
    { rewrite Hh1, lookup_app_l by lia. exact Ht. }
    assert (Hl1 : _nodeMap s1 !! __key nt = Some (length (heap s))).
    { subst s1. cbn [_nodeMap set_nodeMap]. apply lookup_insert_eq. }
    assert (Hro1 : readOnly s1 = false).
    { subst s1. cbn [readOnly set_nodeMap]. rewrite markDirtyState_readOnly. exact Hro. }
    assert (Hin1 : __key nt ∈ _cloneNotNeeded s1).
    { subst s1. cbn [_cloneNotNeeded set_nodeMap]. rewrite markDirtyState_cloneNotNeeded.
      cbn. apply elem_of_union_l, elem_of_singleton_2. reflexivity. }
    assert (Hd1 : __key nt ∈ _dirtyElements s1).
    { subst s1. cbn [_dirtyElements set_nodeMap].
      replace (__key nt) with (__key c) at 1 by exact Hck.
      apply markDirtyState_dirtyElements. rewrite Hcc. exact Hel. }
    rewrite bind_read, (field_eq __key _ _ _ Hn1), Hck.
    unfold forEach. cbn [forEach_loop].
    erewrite seq_throw.
    2:{ erewrite seq_throw; [reflexivity|].
        rewrite (bind_ret _ _ _ _ _ (getWritable_cloned _ _ _ _ _ Hro1 Ht1 Hl1 Hn1 Hin1)).
        rewrite bind_read. erewrite field_eq by (rewrite markDirtyState_heap; exact Ht1).
        rewrite (bool_decide_eq_true_2 (__key nt = __key nt)) by reflexivity.
        erewrite seq_throw; [reflexivity|]. reflexivity. }
    exists (markDirtyState c s1), c.
    split; [reflexivity|].
    split. { rewrite markDirtyState_view. eapply view_eq; eauto. }
    repeat split; try assumption.
    apply markDirtyState_dirtyElements_mono. exact Hd1.
Qed.

(** The element P of an open update, not dirty before the call. *)
Lemma append_self_throws_witness :
  readOnly doc_AB = false
  ∧ ∃ s' n',
      append 1%nat [1%nat] doc_AB
      = (Throw (InvariantViolation "append: attemtping to append self"), s')
      ∧ view s' !! "P" = Some n'
      ∧ __first n' = Some "A" ∧ __last n' = Some "B" ∧ __size n' = 2
      ∧ __parent n' = Some "root" ∧ __prev n' = None ∧ __next n' = None
      ∧ "P" ∈ _dirtyElements s'.
Proof.
  split; [reflexivity|].
  apply (append_self_throws doc_AB 1%nat
           (elementObject ElementNode true "P" (Some "root") None None (Some "A") (Some "B") 2)
           (elementObject ElementNode true "P" (Some "root") None None (Some "A") (Some "B") 2));
    reflexivity.
Defined.

(** ** One clone per update (C6) *)

(** The three ways [getWritable] ends in an open update. *)
Lemma getWritable_outcomes r s o s' :
  readOnly s = false → getWritable r s = (o, s') →
  (s' = s ∧ (∀ x, o ≠ Ret x))
  ∨ (∃ nr l n, heap s !! r = Some nr ∧ _nodeMap s !! __key nr = Some l
       ∧ heap s !! l = Some n ∧ __key nr ∈ _cloneNotNeeded s
       ∧ o = Ret l ∧ s' = markDirtyState n s)
  ∨ (∃ nr l n, heap s !! r = Some nr ∧ _nodeMap s !! __key nr = Some l
       ∧ heap s !! l = Some n ∧ (__key nr ∉ _cloneNotNeeded s)
       ∧ o = Ret (length (heap s))
       ∧ s' = set_nodeMap (<[ __key nr := length (heap s) ]> (_nodeMap s))
                (markDirtyState (writableCopy (__key nr) n)
                   (set_cloneNotNeeded ({[ __key nr ]} ∪ _cloneNotNeeded s)
                      (set_heap (heap s ++ [writableCopy (__key nr) n]) s)))).
Proof.
  intros Hro Hrun.
  destruct (heap s !! r) as [nr|] eqn:Hr.
  2:{ left. unfold getWritable in Hrun.
      rewrite (seq_ret _ _ _ _ _ (errorOnReadOnly_open _ Hro)), bind_read in Hrun.
      unfold field, bind, mbind, R_bind, deref in Hrun. rewrite Hr in Hrun.
      inversion Hrun. split; [reflexivity | discriminate]. }
  destruct (_nodeMap s !! __key nr) as [l|] eqn:Hl.
  2:{ left. unfold getWritable in Hrun.
      rewrite (seq_ret _ _ _ _ _ (errorOnReadOnly_open _ Hro)) in Hrun.
      rewrite bind_read, (field_eq __key _ _ _ Hr), bind_read in Hrun.
      unfold getLatest in Hrun. rewrite (bindR_ret _ _ _ _ (field_eq __key _ _ _ Hr)) in Hrun.
      unfold bind, mbind, R_bind, getNodeByKey in Hrun. rewrite Hl in Hrun.
      inversion Hrun. split; [reflexivity | discriminate]. }
  destruct (heap s !! l) as [n|] eqn:Hn.
  2:{ left. unfold getWritable in Hrun.
      rewrite (seq_ret _ _ _ _ _ (errorOnReadOnly_open _ Hro)) in Hrun.
      rewrite bind_read, (field_eq __key _ _ _ Hr) in Hrun.
      rewrite bind_read, (getLatest_eq _ _ _ _ Hr Hl), bind_read in Hrun.
      unfold field, bind, mbind, R_bind, deref in Hrun. rewrite Hn in Hrun.
      inversion Hrun. split; [reflexivity | discriminate]. }
  destruct (decide (__key nr ∈ _cloneNotNeeded s)) as [Hin|Hin].
  - right; left. rewrite (getWritable_cloned _ _ _ _ _ Hro Hr Hl Hn Hin) in Hrun.
    inversion Hrun. exists nr, l, n. repeat split; assumption.
  - right; right. rewrite (getWritable_fresh _ _ _ _ _ Hro Hr Hl Hn Hin) in Hrun.
    inversion Hrun. exists nr, l, n. repeat split; assumption.
Qed.

Lemma getWritable_keeps_cloned k w this r s o s' :
  cloned_once k w this s → getWritable r s = (o, s') → cloned_once k w this s'.
Proof.
  intros (Hro & Hin & Hw & Hhw & nt & Ht & Hk) Hrun.
  destruct (getWritable_outcomes _ _ _ _ Hro Hrun)
    as [[-> _] | [(nr & l & n & Hr & Hl & Hn & Hc & -> & ->)
                 | (nr & l & n & Hr & Hl & Hn & Hc & -> & ->)]].
  - repeat split; eauto.
  - unfold cloned_once.
    rewrite ?markDirtyState_readOnly, ?markDirtyState_cloneNotNeeded,
      ?markDirtyState_nodeMap, ?markDirtyState_heap.
    repeat split; eauto.
  - assert (__key nr ≠ k) by (intros Heq; rewrite Heq in Hc; contradiction).
    unfold cloned_once. cbn [readOnly _cloneNotNeeded _nodeMap heap set_nodeMap].
    rewrite ?markDirtyState_readOnly, ?markDirtyState_cloneNotNeeded,
      ?markDirtyState_nodeMap, ?markDirtyState_heap.
    cbn [readOnly _cloneNotNeeded _nodeMap heap set_cloneNotNeeded set_heap].
    split; [exact Hro|]. split; [set_solver|].
    split; [rewrite lookup_insert_ne by assumption; exact Hw|].
    split.
    + destruct Hhw as [c Hc']. exists c. rewrite lookup_app_l; [exact Hc'|].
      eapply lookup_lt_Some; eauto.
    + exists nt. split; [|exact Hk]. rewrite lookup_app_l; [exact Ht|].
      eapply lookup_lt_Some; eauto.
Qed.

Lemma assign_keeps_cloned k w this upd r s o s' :
  (∀ n, __key (upd n) = __key n) →
  cloned_once k w this s → assign upd r s = (o, s') → cloned_once k w this s'.
Proof.
  intros Hupd (Hro & Hin & Hw & Hhw & nt & Ht & Hk) Hrun.
  unfold assign in Hrun. destruct (heap s !! r) as [c|] eqn:Hr; inversion Hrun; subst.
  2:{ repeat split; eauto. }
  unfold cloned_once. cbn [readOnly _cloneNotNeeded _nodeMap heap set_heap].
  assert (Hlt : (r < length (heap s))%nat) by (eapply lookup_lt_Some; eauto).
  repeat split; try assumption.
  - destruct (decide (r = w)) as [->|Hne].
    + rewrite list_lookup_insert_eq by assumption. eauto.
    + rewrite list_lookup_insert_ne by assumption. exact Hhw.
  - destruct (decide (r = this)) as [->|Hne].
    + exists (upd nt). rewrite list_lookup_insert_eq by assumption.
      rewrite Ht in Hr. inversion Hr; subst. split; [reflexivity|]. rewrite Hupd. reflexivity.
    + exists nt. rewrite list_lookup_insert_ne by assumption. split; [exact Ht|reflexivity].
Qed.

Lemma mutate_keeps_cloned k w this m s o s' :
  keeps_key m → cloned_once k w this s → mutate m s = (o, s') → cloned_once k w this s'.
Proof.
  destruct m as [r upd]. intros Hupd Hinv Hrun. cbn [mutate keeps_key] in *.
  unfold bind, mbind, M_bind in Hrun.
  destruct (getWritable r s) as [[x| |] s1] eqn:Hw.
  - eapply assign_keeps_cloned; [exact Hupd| |exact Hrun].
    eapply getWritable_keeps_cloned; eauto.
  - inversion Hrun; subst. eapply getWritable_keeps_cloned; eauto.
  - inversion Hrun; subst. eapply getWritable_keeps_cloned; eauto.
Qed.

Lemma mutateAll_keeps_cloned k w this ms : ∀ s o s',
  Forall keeps_key ms → cloned_once k w this s → mutateAll ms s = (o, s') →
  cloned_once k w this s'.
Proof.
  induction ms as [|m ms IH]; intros s o s' Hms Hinv Hrun.
  - inversion Hrun; subst. exact Hinv.
  - inversion Hms as [|? ? Hm Hms']; subst. cbn [mutateAll] in Hrun.
    unfold mbind, M_bind in Hrun.
    destruct (mutate m s) as [[x| |] s1] eqn:Hmut.
    + eapply IH; [exact Hms'| |exact Hrun]. eapply mutate_keeps_cloned; eauto.
    + inversion Hrun; subst. eapply mutate_keeps_cloned; eauto.
    + inversion Hrun; subst. eapply mutate_keeps_cloned; eauto.
Qed.

(** C6.  In an open update, the first [getWritable] on a key makes one new
    object, a copy of the latest node, and enters it in the node map; after
    any further mutations of any nodes in this update, whether they end well
    or throw, [getWritable] on the same node returns this very object, makes
    no object and leaves the node map as it is. *)
Theorem getWritable_clones_once s this nt l n ms :
  readOnly s = false →
  heap s !! this = Some nt → _nodeMap s !! __key nt = Some l → heap s !! l = Some n →
  __key nt ∉ _cloneNotNeeded s →
  Forall keeps_key ms →
  ∃ s1,
    getWritable this s = (Ret (length (heap s)), s1)
    ∧ heap s1 = heap s ++ [writableCopy (__key nt) n]
    ∧ _nodeMap s1 !! __key nt = Some (length (heap s))
    ∧ ∀ o s2, mutateAll ms s1 = (o, s2) →
        ∃ s3, getWritable this s2 = (Ret (length (heap s)), s3)
              ∧ heap s3 = heap s2 ∧ _nodeMap s3 = _nodeMap s2.
Proof.
  intros Hro Ht Hl Hn Hin Hms.
  eexists. split; [apply (getWritable_fresh _ _ _ _ _ Hro Ht Hl Hn Hin)|].
  set (s1 := set_nodeMap _ _).
  assert (Hh1 : heap s1 = heap s ++ [writableCopy (__key nt) n]).
  { subst s1. cbn [heap set_nodeMap]. rewrite markDirtyState_heap. reflexivity. }
  assert (Hl1 : _nodeMap s1 !! __key nt = Some (length (heap s))).
  { subst s1. cbn [_nodeMap set_nodeMap]. apply lookup_insert_eq. }
  split; [exact Hh1|]. split; [exact Hl1|].
  assert (Hinv1 : cloned_once (__key nt) (length (heap s)) this s1).
  { unfold cloned_once. split.
    { subst s1. cbn [readOnly set_nodeMap]. rewrite markDirtyState_readOnly. exact Hro. }
    split.
    { subst s1. cbn [_cloneNotNeeded set_nodeMap]. rewrite markDirtyState_cloneNotNeeded.
      cbn. set_solver. }
    split; [exact Hl1|]. split.
    { rewrite Hh1, lookup_app_r, Nat.sub_diag by lia. eauto. }
    exists nt. split; [|reflexivity]. rewrite Hh1, lookup_app_l; [exact Ht|].
    eapply lookup_lt_Some; eauto. }
  intros o s2 Hrun.
  destruct (mutateAll_keeps_cloned _ _ _ _ _ _ _ Hms Hinv1 Hrun)
    as (Hro2 & Hin2 & Hw2 & [c Hc] & nt2 & Ht2 & Hk2).
  exists (markDirtyState c s2). split.
  - rewrite <- Hk2 in Hw2, Hin2. apply (getWritable_cloned _ _ _ _ _ Hro2 Ht2 Hw2 Hc Hin2).
  - rewrite markDirtyState_heap, markDirtyState_nodeMap. split; reflexivity.
Qed.

(** The element P is mutated three times in one update. *)
Lemma getWritable_clones_once_witness :
  readOnly doc_AB = false
  ∧ ∃ s1,
      getWritable 1%nat doc_AB = (Ret 5%nat, s1)
      ∧ heap s1 = heap doc_AB
                  ++ [elementObject ElementNode true "P" (Some "root") None None
                        (Some "A") (Some "B") 2]
      ∧ _nodeMap s1 !! "P" = Some 5%nat
      ∧ ∀ o s2,
          mutateAll [Touch 1%nat (set___indent 1); Touch 2%nat (set___format 1);
                     Touch 1%nat (set___dir (Some rtl))] s1 = (o, s2) →
          ∃ s3, getWritable 1%nat s2 = (Ret 5%nat, s3)
                ∧ heap s3 = heap s2 ∧ _nodeMap s3 = _nodeMap s2.
Proof.
  split; [reflexivity|].
  apply (getWritable_clones_once doc_AB 1%nat
           (elementObject ElementNode true "P" (Some "root") None None (Some "A") (Some "B") 2)
           1%nat
           (elementObject ElementNode true "P" (Some "root") None None (Some "A") (Some "B") 2));
    try reflexivity.
  - vm_compute. intros H. discriminate H.
  - repeat constructor.
Defined.

(** ** Reading through references *)

Lemma store_ok_view s k r :
  store_ok s → _nodeMap s !! k = Some r →
  ∃ n, heap s !! r = Some n ∧ __key n = k ∧ view s !! k = Some n.
Proof.
  intros Hok Hr. destruct (Hok _ _ Hr) as (n & Hn & Hk).
  exists n. repeat split; try assumption. eapply view_eq; eauto.
Qed.

Lemma getLatest_view this s nt n :
  heap s !! this = Some nt → view s !! __key nt = Some n →
  ∃ l, getLatest this s = Ret l ∧ _nodeMap s !! __key nt = Some l ∧ heap s !! l = Some n.
Proof.
  intros Ht Hv. apply view_inv in Hv as (l & Hl & Hn).
  exists l. split; [eapply getLatest_eq; eauto | split; assumption].
Qed.

Lemma getParent_view this s nt n :
  heap s !! this = Some nt → view s !! __key nt = Some n →
  getParent this s = Ret (p ← __parent n; _nodeMap s !! p).
Proof.
  intros Ht Hv. destruct (getLatest_view _ _ _ _ Ht Hv) as (l & Hlat & Hl & Hn).
  unfold getParent.
  rewrite (bindR_ret _ _ _ _ Hlat), (bindR_ret _ _ _ _ (field_eq __parent _ _ _ Hn)).
  destruct (__parent n); reflexivity.
Qed.

Lemma getNextSibling_view this s nt n :
  heap s !! this = Some nt → view s !! __key nt = Some n →
  getNextSibling this s = Ret (p ← __next n; _nodeMap s !! p).
Proof.
  intros Ht Hv. destruct (getLatest_view _ _ _ _ Ht Hv) as (l & Hlat & Hl & Hn).
  unfold getNextSibling.
  rewrite (bindR_ret _ _ _ _ Hlat), (bindR_ret _ _ _ _ (field_eq __next _ _ _ Hn)).
  destruct (__next n); reflexivity.
Qed.

Lemma getPreviousSibling_view this s nt n :
  heap s !! this = Some nt → view s !! __key nt = Some n →
  getPreviousSibling this s = Ret (p ← __prev n; _nodeMap s !! p).
Proof.
  intros Ht Hv. destruct (getLatest_view _ _ _ _ Ht Hv) as (l & Hlat & Hl & Hn).
  unfold getPreviousSibling.
  rewrite (bindR_ret _ _ _ _ Hlat), (bindR_ret _ _ _ _ (field_eq __prev _ _ _ Hn)).
  destruct (__prev n); reflexivity.
Qed.

Lemma getFirstChild_view this s nt n :
  heap s !! this = Some nt → view s !! __key nt = Some n →
  getFirstChild this s = Ret (p ← __first n; _nodeMap s !! p).
Proof.
  intros Ht Hv. destruct (getLatest_view _ _ _ _ Ht Hv) as (l & Hlat & Hl & Hn).
  unfold getFirstChild.
  rewrite (bindR_ret _ _ _ _ Hlat), (bindR_ret _ _ _ _ (field_eq __first _ _ _ Hn)).
  destruct (__first n); reflexivity.
Qed.

Lemma getLastChild_view this s nt n :
  heap s !! this = Some nt → view s !! __key nt = Some n →
  getLastChild this s = Ret (p ← __last n; _nodeMap s !! p).
Proof.
  intros Ht Hv. destruct (getLatest_view _ _ _ _ Ht Hv) as (l & Hlat & Hl & Hn).
  unfold getLastChild.
  rewrite (bindR_ret _ _ _ _ Hlat), (bindR_ret _ _ _ _ (field_eq __last _ _ _ Hn)).
  destruct (__last n); reflexivity.
Qed.

Lemma getChildrenSize_view this s nt n :
  heap s !! this = Some nt → view s !! __key nt = Some n →
  getChildrenSize this s = Ret (__size n).
Proof.
  intros Ht Hv. destruct (getLatest_view _ _ _ _ Ht Hv) as (l & Hlat & Hl & Hn).
  unfold getChildrenSize.
  rewrite (bindR_ret _ _ _ _ Hlat). apply field_eq. exact Hn.
Qed.

(** ** Chains of ancestors *)

Lemma ancestors_functional v k l1 : ∀ l2,
  ancestors v k l1 → ancestors v k l2 → l1 = l2.
Proof.
  intros l2 H1. revert l2. induction H1 as [k n Hn Hp | k n p l Hn Hp H1 IH]; intros l2 H2.
  - inversion H2; subst; [reflexivity | congruence].
  - inversion H2 as [? n' Hn' Hp' | ? n' p' l' Hn' Hp' H2']; subst; [congruence|].
    rewrite Hn in Hn'. inversion Hn'; subst. rewrite Hp in Hp'. inversion Hp'; subst.
    f_equal. apply IH. exact H2'.
Qed.

Lemma ancestors_suffix v l1 : ∀ k p l2,
  ancestors v k (l1 ++ p :: l2) → ancestors v p l2.
Proof.
  induction l1 as [|x l1 IH]; intros k p l2 H; inversion H; subst.
  - assumption.
  - eapply IH; eauto.
Qed.

Lemma ancestors_NoDup v k l : ancestors v k l → NoDup (k :: l).
Proof.
  induction 1 as [k n Hn Hp | k n p l Hn Hp H1 IH].
  - apply NoDup_singleton.
  - apply NoDup_cons. split; [|exact IH].
    intros Hin. apply list_elem_of_split in Hin as (l1 & l2 & Heq).
    assert (H : ancestors v k (p :: l)) by (eapply ancestors_up; eauto).
    rewrite Heq in H. pose proof (ancestors_suffix _ _ _ _ _ H) as H'.
    rewrite <- Heq in H.
    pose proof (ancestors_functional _ _ _ _ H H') as Hl.
    apply (f_equal length) in Hl. rewrite Heq in Hl. rewrite length_app in Hl.
    simpl in Hl. lia.
Qed.

Lemma ancestors_resolve v k l : ancestors v k l → ∀ p, p ∈ l → is_Some (v !! p).
Proof.
  induction 1 as [k n Hn Hp | k n p l Hn Hp H1 IH]; intros q Hq.
  - inversion Hq.
  - apply elem_of_cons in Hq as [-> | Hq]; [|apply IH; exact Hq].
    inversion H1; subst; eauto.
Qed.


Lemma ancestors_refs s k l :
  ancestors (view s) k l → ∃ rs, refs_of s l rs.
Proof.
  induction 1 as [k n Hn Hp | k n p l Hn Hp H1 (rs & IH)].
  - exists []. constructor.
  - assert (is_Some (view s !! p)) as [np Hnp] by (inversion H1; subst; eauto).
    apply view_inv in Hnp as (rp & Hrp & _).
    exists (rp :: rs). constructor; assumption.
Qed.

Lemma refs_of_key s ks rs r :
  store_ok s → refs_of s ks rs → r ∈ rs →
  ∃ k n, k ∈ ks ∧ heap s !! r = Some n ∧ __key n = k.
Proof.
  intros Hok H. induction H as [|k r' ks rs Hr H IH]; intros Hin.
  - inversion Hin.
  - apply elem_of_cons in Hin as [-> | Hin].
    + destruct (Hok _ _ Hr) as (n & Hn & Hk). exists k, n. split; [left|split; assumption].
    + destruct (IH Hin) as (k' & n & Hk' & Hn & Hkey). exists k', n.
      split; [right; exact Hk' | split; assumption].
Qed.

Lemma refs_of_app_inv s ks1 ks2 rs :
  refs_of s (ks1 ++ ks2) rs →
  ∃ rs1 rs2, rs = rs1 ++ rs2 ∧ refs_of s ks1 rs1 ∧ refs_of s ks2 rs2.
Proof.
  intros H. apply Forall2_app_inv_l in H as (rs1 & rs2 & H1 & H2 & ->).
  exists rs1, rs2. repeat split; assumption.
Qed.

Lemma getParents_loop_spec s fuel : ∀ k l r rs acc,
  store_ok s → ancestors (view s) k l → _nodeMap s !! k = Some r → refs_of s l rs →
  (length l < fuel)%nat →
  getParents_loop fuel (Some r) acc s = Ret (acc ++ r :: rs).
Proof.
  induction fuel as [|fuel IH]; intros k l r rs acc Hok Hanc Hr Hrs Hf; [lia|].
  destruct (store_ok_view _ _ _ Hok Hr) as (n & Hn & Hk & Hv).
  cbn [getParents_loop].
  rewrite <- Hk in Hv.
  rewrite (bindR_ret _ _ _ _ (getParent_view _ _ _ _ Hn Hv)).
  rewrite Hk in Hv.
  inversion Hanc as [? n' Hn' Hp | ? n' p l' Hn' Hp Hanc']; subst;
    rewrite Hv in Hn'; inversion Hn'; subst n'; rewrite Hp; cbn.
  - inversion Hrs; subst. destruct fuel; reflexivity.
  - inversion Hrs as [|? rp ? rs' Hrp Hrs']; subst. rewrite Hrp.
    rewrite (IH _ _ _ _ _ Hok Hanc' Hrp Hrs') by (simpl in Hf; lia).
    rewrite <- app_assoc. reflexivity.
Qed.

Lemma getParents_spec s fuel this nt l rs :
  store_ok s → heap s !! this = Some nt → ancestors (view s) (__key nt) l →
  refs_of s l rs → (length l < fuel)%nat →
  getParents fuel this s = Ret rs.
Proof.
  intros Hok Ht Hanc Hrs Hf. unfold getParents.
  inversion Hanc as [? n Hn Hp | ? n p l' Hn Hp Hanc']; subst.
  - rewrite (bindR_ret _ _ _ _ (getParent_view _ _ _ _ Ht Hn)). rewrite Hp. cbn.
    inversion Hrs; subst. destruct fuel; reflexivity.
  - rewrite (bindR_ret _ _ _ _ (getParent_view _ _ _ _ Ht Hn)). rewrite Hp. cbn.
    inversion Hrs as [|? rp ? rs' Hrp Hrs']; subst. rewrite Hrp.
    apply (getParents_loop_spec s fuel p l' rp rs' [] Hok Hanc' Hrp Hrs').
    simpl in Hf. lia.
Qed.

Lemma isParentOf_loop_spec s thisKey fuel : ∀ r nr l,
  store_ok s → heap s !! r = Some nr → ancestors (view s) (__key nr) l →
  (length l < fuel)%nat →
  isParentOf_loop fuel thisKey (Some r) s = Ret (bool_decide (thisKey ∈ __key nr :: l)).
Proof.
  induction fuel as [|fuel IH]; intros r nr l Hok Hr Hanc Hf; [lia|].
  cbn [isParentOf_loop].
  rewrite (bindR_ret _ _ _ _ (field_eq __key _ _ _ Hr)).
  destruct (decide (__key nr = thisKey)) as [Heq|Hne].
  { rewrite bool_decide_eq_true_2 by exact Heq.
    rewrite bool_decide_eq_true_2 by (rewrite Heq; left). reflexivity. }
  rewrite bool_decide_eq_false_2 by exact Hne.
  inversion Hanc as [? n Hn Hp | ? n p l' Hn Hp Hanc']; subst.
  - rewrite (bindR_ret _ _ _ _ (getParent_view _ _ _ _ Hr Hn)). rewrite Hp. cbn.
    rewrite bool_decide_eq_false_2; [destruct fuel; reflexivity|].
    intros Hin. apply list_elem_of_singleton in Hin. congruence.
  - rewrite (bindR_ret _ _ _ _ (getParent_view _ _ _ _ Hr Hn)). rewrite Hp. cbn.
    assert (is_Some (view s !! p)) as [np Hnp] by (inversion Hanc'; subst; eauto).
    destruct (view_inv _ _ _ Hnp) as (rp & Hrp & Hhp). rewrite Hrp.
    destruct (Hok _ _ Hrp) as (np' & Hhp' & Hkp). rewrite Hhp in Hhp'. inversion Hhp'; subst np'.
    rewrite <- Hkp in Hanc'.
    rewrite (IH _ _ _ Hok Hhp Hanc') by (simpl in Hf; lia). rewrite Hkp.
    f_equal. apply bool_decide_ext. rewrite (elem_of_cons (p :: l')). 
    split; [intros H; right; exact H | intros [H|H]; [congruence | exact H]].
Qed.

Lemma isParentOf_spec s fuel this target nthis ntarget l :
  store_ok s → heap s !! this = Some nthis → heap s !! target = Some ntarget →
  ancestors (view s) (__key ntarget) l → (length l < fuel)%nat →
  __key nthis ≠ __key ntarget →
  isParentOf fuel this target s = Ret (bool_decide (__key nthis ∈ l)).
Proof.
  intros Hok Ht Hg Hanc Hf Hne. unfold isParentOf.
  rewrite (bindR_ret _ _ _ _ (field_eq __key _ _ _ Ht)).
  rewrite (bindR_ret _ _ _ _ (field_eq __key _ _ _ Hg)).
  rewrite bool_decide_eq_false_2 by exact Hne.
  rewrite (isParentOf_loop_spec _ _ _ _ _ _ Hok Hg Hanc Hf).
  f_equal. apply bool_decide_ext. rewrite elem_of_cons.
  split; [intros [H|H]; [congruence | exact H] | intros H; right; exact H].
Qed.

Lemma getIndexWithinParent_loop_spec s thisKey fuel : ∀ o cs i z,
  store_ok s → next_chain (view s) o cs → index_of thisKey cs = Some i →
  (i < fuel)%nat →
  getIndexWithinParent_loop fuel thisKey (o ≫= λ k, _nodeMap s !! k) z s
  = Ret (z + Z.of_nat i).
Proof.
  induction fuel as [|fuel IH]; intros o cs i z Hok Hch Hi Hf; [lia|].
  inversion Hch as [|k n l Hn Hch']; subst; [discriminate|].
  destruct (view_inv _ _ _ Hn) as (r & Hr & Hh). cbn [mbind option_bind]. rewrite Hr.
  cbn [getIndexWithinParent_loop].
  destruct (Hok _ _ Hr) as (n' & Hh' & Hk). rewrite Hh in Hh'. inversion Hh'; subst n'.
  unfold getKey. rewrite (bindR_ret _ _ _ _ (field_eq __key _ _ _ Hh)). rewrite Hk.
  cbn [index_of] in Hi.
  destruct (decide (thisKey = k)) as [Heq|Hne].
  - rewrite bool_decide_eq_true_2 in Hi |- * by exact Heq. inversion Hi; subst.
    unfold mret, R_ret. f_equal. lia.
  - rewrite bool_decide_eq_false_2 in Hi |- * by exact Hne.
    destruct (index_of thisKey l) as [i'|] eqn:Hi'; [|discriminate]. inversion Hi; subst.
    rewrite (bindR_ret _ _ _ _ (getNextSibling_view _ _ _ _ Hh Hn)).
    rewrite (IH _ _ _ _ Hok Hch' Hi') by lia. f_equal. lia.
Qed.

Lemma getIndexWithinParent_spec s fuel this nt n p np cs i :
  store_ok s → heap s !! this = Some nt → view s !! __key nt = Some n →
  __parent n = Some p → view s !! p = Some np →
  next_chain (view s) (__first np) cs → index_of (__key nt) cs = Some i →
  (i < fuel)%nat →
  getIndexWithinParent fuel this s = Ret (Z.of_nat i).
Proof.
  intros Hok Ht Hn Hp Hnp Hch Hi Hf. unfold getIndexWithinParent.
  rewrite (bindR_ret _ _ _ _ (getParent_view _ _ _ _ Ht Hn)). rewrite Hp. cbn [mbind option_bind].
  destruct (view_inv _ _ _ Hnp) as (rp & Hrp & Hhp). rewrite Hrp.
  destruct (Hok _ _ Hrp) as (np' & Hhp' & Hkp). rewrite Hhp in Hhp'. inversion Hhp'; subst np'.
  rewrite <- Hkp in Hnp.
  rewrite (bindR_ret _ _ _ _ (getFirstChild_view _ _ _ _ Hhp Hnp)).
  rewrite (bindR_ret _ _ _ _ (field_eq __key _ _ _ Ht)).
  rewrite (getIndexWithinParent_loop_spec _ _ _ _ _ _ 0 Hok Hch Hi Hf). reflexivity.
Qed.

(** Two references to objects of different keys are different. *)
Lemma refs_differ s r1 r2 n1 n2 :
  heap s !! r1 = Some n1 → heap s !! r2 = Some n2 → __key n1 ≠ __key n2 → r1 ≠ r2.
Proof. intros H1 H2 Hne ->. congruence. Qed.

Lemma getParentOrThrow_view this s nt n p rp :
  heap s !! this = Some nt → view s !! __key nt = Some n →
  __parent n = Some p → _nodeMap s !! p = Some rp →
  getParentOrThrow this s = Ret rp.
Proof.
  intros Ht Hn Hp Hrp. unfold getParentOrThrow.
  rewrite (bindR_ret _ _ _ _ (getParent_view _ _ _ _ Ht Hn)). rewrite Hp. cbn. rewrite Hrp.
  reflexivity.
Qed.

Lemma last_cons_default {A} (l : list A) : ∀ x d, List.last (x :: l) d = List.last l x.
Proof.
  induction l as [|y l IH]; intros x d; [reflexivity|].
  change (List.last (x :: y :: l) d) with (List.last (y :: l) d).
  rewrite (IH y d), (IH y x). reflexivity.
Qed.

(** The climb of [isBefore] from a node to the child of the common ancestor
    [c] on its chain. *)
Lemma isBefore_loop_spec s idxFuel c rc fuel : ∀ xa r nr rest,
  store_ok s → _nodeMap s !! c = Some rc →
  heap s !! r = Some nr → ancestors (view s) (__key nr) (xa ++ c :: rest) →
  c ∉ xa → (length xa < fuel)%nat →
  ∃ r' nr', heap s !! r' = Some nr' ∧ __key nr' = List.last xa (__key nr)
    ∧ isBefore_loop fuel idxFuel (Some rc) r s = getIndexWithinParent idxFuel r' s.
Proof.
  induction fuel as [|fuel IH]; intros xa r nr rest Hok Hrc Hr Hanc Hc Hf; [lia|].
  cbn [isBefore_loop].
  destruct xa as [|x xa].
  - inversion Hanc as [|? n p l Hn Hp Hanc']; subst.
    rewrite (bindR_ret _ _ _ _ (getParentOrThrow_view _ _ _ _ _ _ Hr Hn Hp Hrc)).
    rewrite bool_decide_eq_true_2 by reflexivity.
    exists r, nr. split; [exact Hr|]. split; reflexivity.
  - inversion Hanc as [|? n p l Hn Hp Hanc']; subst.
    assert (is_Some (view s !! x)) as [nx Hnx] by (inversion Hanc'; subst; eauto).
    destruct (view_inv _ _ _ Hnx) as (rx & Hrx & Hhx).
    destruct (Hok _ _ Hrx) as (nx' & Hhx' & Hkx). rewrite Hhx in Hhx'. inversion Hhx'; subst nx'.
    destruct (Hok _ _ Hrc) as (nc & Hhc & Hkc).
    rewrite (bindR_ret _ _ _ _ (getParentOrThrow_view _ _ _ _ _ _ Hr Hn Hp Hrx)).
    rewrite bool_decide_eq_false_2.
    2:{ intros Heq. inversion Heq; subst rx. rewrite Hhx in Hhc. inversion Hhc as [Hnn].
        apply Hc. rewrite <- Hkc, <- Hnn, Hkx. left. }
    rewrite <- Hkx in Hanc'.
    destruct (IH xa rx nx rest Hok Hrc Hhx Hanc') as (r' & nr' & Hr' & Hk' & Hrun).
    { intros Hin. apply Hc. right. exact Hin. }
    { simpl in Hf. lia. }
    exists r', nr'. split; [exact Hr'|]. split; [|exact Hrun].
    rewrite Hk', Hkx. symmetry. apply last_cons_default.
Qed.

Lemma find_app_first {A} (f : A → bool) l1 y l2 :
  (∀ x, x ∈ l1 → f x = false) → f y = true →
  List.find f (l1 ++ y :: l2) = Some y.
Proof.
  intros H1 Hy. induction l1 as [|x l1 IH]; simpl.
  - rewrite Hy. reflexivity.
  - rewrite (H1 x) by left. apply IH. intros z Hz. apply H1. right. exact Hz.
Qed.

Lemma last_of_app_cons {A} (l1 : list A) y l2 : last (l1 ++ y :: l2) = last (y :: l2).
Proof. rewrite last_app. destruct (last (y :: l2)) eqn:H; [reflexivity|]. apply last_None in H. discriminate. Qed.

(** The common ancestor of two nodes whose chains part below [c]. *)
Lemma getCommonAncestor_spec s fuel a b na nb xa xb c rc rest :
  store_ok s → heap s !! a = Some na → heap s !! b = Some nb →
  ancestors (view s) (__key na) (xa ++ c :: rest) →
  ancestors (view s) (__key nb) (xb ++ c :: rest) →
  (∀ x, x ∈ __key na :: xa → x ∉ __key nb :: xb) →
  _nodeMap s !! c = Some rc →
  (length (xa ++ c :: rest) < fuel)%nat → (length (xb ++ c :: rest) < fuel)%nat →
  getCommonAncestor fuel a b s = Ret (Some rc).
Proof.
  intros Hok Ha Hb Hanca Hancb Hdis Hrc Hfa Hfb.
  destruct (ancestors_refs _ _ _ Hanca) as (rsa & Hrsa).
  destruct (ancestors_refs _ _ _ Hancb) as (rsb & Hrsb).
  unfold getCommonAncestor.
  rewrite (bindR_ret _ _ _ _ (getParents_spec _ _ _ _ _ _ Hok Ha Hanca Hrsa Hfa)).
  rewrite (bindR_ret _ _ _ _ (getParents_spec _ _ _ _ _ _ Hok Hb Hancb Hrsb Hfb)).
  unfold isElementNode.
  rewrite (bindR_ret _ _ _ _ (bindR_ret _ _ _ _ (field_eq klass _ _ _ Ha))).
  rewrite (bindR_ret _ _ _ _ (bindR_ret _ _ _ _ (field_eq klass _ _ _ Hb))).
  destruct (refs_of_app_inv _ _ _ _ Hrsa) as (rxa & rca & -> & Hrxa & Hrca).
  destruct (refs_of_app_inv _ _ _ _ Hrsb) as (rxb & rcb & -> & Hrxb & Hrcb).
  inversion Hrca as [|? rc1 ? rr1 Hrc1 Hrr1]; subst.
  inversion Hrcb as [|? rc2 ? rr2 Hrc2 Hrr2]; subst.
  rewrite Hrc in Hrc1, Hrc2. inversion Hrc1; subst rc1. inversion Hrc2; subst rc2.
  assert (rr1 = rr2) as ->.
  { clear - Hrr1 Hrr2. revert rr2 Hrr2. induction Hrr1; intros rr2 Hrr2; inversion Hrr2; subst.
    - reflexivity.
    - f_equal; [congruence | eauto]. }
  set (la := if isElementClass (klass na) then a :: rxa ++ rc :: rr2 else rxa ++ rc :: rr2).
  set (lb := if isElementClass (klass nb) then b :: rxb ++ rc :: rr2 else rxb ++ rc :: rr2).
  assert (Hla : ∃ pa, la = pa ++ rc :: rr2 ∧ ∀ x, x ∈ pa → ∃ k n, k ∈ __key na :: xa ∧ heap s !! x = Some n ∧ __key n = k).
  { destruct (isElementClass (klass na)); subst la.
    - exists (a :: rxa). split; [reflexivity|]. intros x Hx.
      apply elem_of_cons in Hx as [-> | Hx].
      + exists (__key na), na. split; [left|split; [exact Ha|reflexivity]].
      + destruct (refs_of_key _ _ _ _ Hok Hrxa Hx) as (k & n & Hk & Hn & Hkey).
        exists k, n. split; [right; exact Hk | split; assumption].
    - exists rxa. split; [reflexivity|]. intros x Hx.
      destruct (refs_of_key _ _ _ _ Hok Hrxa Hx) as (k & n & Hk & Hn & Hkey).
      exists k, n. split; [right; exact Hk | split; assumption]. }
  assert (Hlb : ∃ pb, lb = pb ++ rc :: rr2 ∧ ∀ x, x ∈ pb → ∃ k n, k ∈ __key nb :: xb ∧ heap s !! x = Some n ∧ __key n = k).
  { destruct (isElementClass (klass nb)); subst lb.
    - exists (b :: rxb). split; [reflexivity|]. intros x Hx.
      apply elem_of_cons in Hx as [-> | Hx].
      + exists (__key nb), nb. split; [left|split; [exact Hb|reflexivity]].
      + destruct (refs_of_key _ _ _ _ Hok Hrxb Hx) as (k & n & Hk & Hn & Hkey).
        exists k, n. split; [right; exact Hk | split; assumption].
    - exists rxb. split; [reflexivity|]. intros x Hx.
      destruct (refs_of_key _ _ _ _ Hok Hrxb Hx) as (k & n & Hk & Hn & Hkey).
      exists k, n. split; [right; exact Hk | split; assumption]. }
  destruct Hla as (pa & Hla & Hpa). destruct Hlb as (pb & Hlb & Hpb).
  cbn zeta. fold la lb. clearbody la lb. subst la lb.
  rewrite !last_of_app_cons.
  destruct (last (rc :: rr2)) as [lst|] eqn:Hlast; [|apply last_None in Hlast; discriminate].
  rewrite bool_decide_eq_false_2 by (intros H; apply H; reflexivity).
  unfold mret, R_ret. f_equal.
  apply find_app_first.
  - intros x Hx. apply bool_decide_eq_false_2. intros Hin.
    destruct (Hpa x Hx) as (k & n & Hk & Hn & Hkey).
    pose proof (ancestors_NoDup _ _ _ Hanca) as Hnda.
    apply elem_of_app in Hin as [Hin|Hin].
    + destruct (Hpb x Hin) as (k' & n' & Hk' & Hn' & Hkey').
      rewrite Hn in Hn'. inversion Hn'; subst n'. subst. eapply Hdis; eauto.
    + (* x is the latest reference of a key of [c :: rest] *)
      destruct (refs_of_key _ _ _ _ Hok Hrca Hin)
        as (k' & n' & Hk' & Hn' & Hkey').
      rewrite Hn in Hn'. inversion Hn'; subst n'. subst k'.
      rewrite app_comm_cons in Hnda. apply NoDup_app in Hnda as (_ & Hnda & _).
      eapply Hnda; [exact Hk|]. rewrite <- Hkey. exact Hk'.
  - apply bool_decide_eq_true_2. apply elem_of_app. right. left.
Qed.

Lemma store_ok_document objects selection : store_ok (document objects selection).
Proof.
  intros k r Hr. cbn [document _nodeMap heap] in *.
  apply elem_of_list_to_map_2 in Hr.
  apply elem_of_lookup_imap in Hr as (i & n & Heq & Hn).
  inversion Heq; subst. exists n. split; [exact Hn | reflexivity].
Qed.

Lemma index_of_lt k l : ∀ i, index_of k l = Some i → (i < length l)%nat.
Proof.
  induction l as [|x l IH]; intros i Hi; [discriminate|]. cbn [index_of] in Hi.
  destruct (bool_decide (k = x)).
  - inversion Hi; subst. simpl. lia.
  - destruct (index_of k l) as [i'|]; [|discriminate]. inversion Hi; subst.
    specialize (IH i' eq_refl). simpl. lia.
Qed.

(** The last node of a chain below [c] has [c] as parent. *)
Lemma ancestors_last_parent v c rest x : ∀ k,
  ancestors v k (x ++ c :: rest) →
  ∃ n, v !! List.last x k = Some n ∧ __parent n = Some c.
Proof.
  induction x as [|y x IH]; intros k Hanc.
  - inversion Hanc; subst. eauto.
  - inversion Hanc as [|? n p l Hn Hp Hanc']; subst.
    rewrite last_cons_default. apply IH. exact Hanc'.
Qed.

(** ** The cleanup of empty parents (C8) *)

(** *** Mutation as the keys see it *)

Lemma same_object_refl n : same_object n n.
Proof. repeat split. Qed.

Lemma same_object_trans n1 n2 n3 :
  same_object n1 n2 → same_object n2 n3 → same_object n1 n3.
Proof. intros (? & ? & ?) (? & ? & ?). repeat split; congruence. Qed.

Lemma heap_ext_refl s : heap_ext s s.
Proof. intros r n H. exists n. split; [exact H | apply same_object_refl]. Qed.

Lemma heap_ext_trans s1 s2 s3 : heap_ext s1 s2 → heap_ext s2 s3 → heap_ext s1 s3.
Proof.
  intros H12 H23 r n Hn. destruct (H12 _ _ Hn) as (n2 & Hn2 & Hs2).
  destruct (H23 _ _ Hn2) as (n3 & Hn3 & Hs3). exists n3.
  split; [exact Hn3 | eapply same_object_trans; eauto].
Qed.

Lemma heap_ext_same s s' : heap s' = heap s → heap_ext s s'.
Proof. intros H r n Hn. exists n. rewrite H. split; [exact Hn | apply same_object_refl]. Qed.

Lemma store_ok_same s s' :
  heap s' = heap s → _nodeMap s' = _nodeMap s → store_ok s → store_ok s'.
Proof. intros Hh Hm Hok k r Hr. rewrite Hh. rewrite Hm in Hr. apply Hok. exact Hr. Qed.

Lemma view_same s s' : heap s' = heap s → _nodeMap s' = _nodeMap s → view s' = view s.
Proof. intros Hh Hm. unfold view. rewrite Hh, Hm. reflexivity. Qed.

(** [getWritable] leaves the document as it is: the copy it may make has the
    content of the node it copies. *)
Lemma getWritable_view s this nt n :
  store_ok s → readOnly s = false →
  heap s !! this = Some nt → view s !! __key nt = Some n → class_fields_ok n →
  ∃ w s', getWritable this s = (Ret w, s')
    ∧ store_ok s' ∧ readOnly s' = false ∧ view s' = view s
    ∧ _nodeMap s' !! __key nt = Some w ∧ heap s' !! w = Some n
    ∧ _selection s' = _selection s
    ∧ (∀ r x, heap s !! r = Some x → heap s' !! r = Some x).
Proof.
  intros Hok Hro Ht Hv Hcf. destruct (view_inv _ _ _ Hv) as (l & Hl & Hn).
  destruct (decide (__key nt ∈ _cloneNotNeeded s)) as [Hin|Hin].
  - exists l, (markDirtyState n s).
    split; [apply (getWritable_cloned _ _ _ _ _ Hro Ht Hl Hn Hin)|].
    rewrite ?markDirtyState_readOnly, ?markDirtyState_view, ?markDirtyState_nodeMap,
      ?markDirtyState_heap, ?markDirtyState_selection.
    repeat split; try assumption.
    + eapply store_ok_same; [apply markDirtyState_heap | apply markDirtyState_nodeMap | exact Hok].
    + intros r x Hx. exact Hx.
  - destruct (Hok _ _ Hl) as (n' & Hn' & Hkey). rewrite Hn in Hn'. inversion Hn'; subst n'.
    pose proof (getWritable_fresh _ _ _ _ _ Hro Ht Hl Hn Hin) as Hrun.
    rewrite <- Hkey in Hrun at 3 4. rewrite (writableCopy_id _ Hcf) in Hrun.
    eexists _, _. split; [exact Hrun|].
    cbn [readOnly _nodeMap heap _selection set_nodeMap].
    rewrite markDirtyState_readOnly, markDirtyState_heap, markDirtyState_selection.
    cbn [readOnly _nodeMap heap _selection set_cloneNotNeeded set_heap].
    assert (Hold : ∀ r x, heap s !! r = Some x → (heap s ++ [n]) !! r = Some x).
    { intros r x Hx. rewrite lookup_app_l; [exact Hx|]. eapply lookup_lt_Some; eauto. }
    assert (Hnew : (heap s ++ [n]) !! length (heap s) = Some n).
    { rewrite lookup_app_r, Nat.sub_diag by lia. reflexivity. }
    repeat split; try assumption.
    + intros k r Hr. cbn [_nodeMap heap set_nodeMap] in *.
      rewrite markDirtyState_heap. cbn [heap set_cloneNotNeeded set_heap].
      destruct (decide (k = __key nt)) as [->|Hne].
      * rewrite lookup_insert_eq in Hr. inversion Hr; subst r.
        exists n. split; [exact Hnew | exact Hkey].
      * rewrite lookup_insert_ne in Hr by congruence.
        destruct (Hok _ _ Hr) as (x & Hx & Hkx). exists x. split; [apply Hold; exact Hx | exact Hkx].
    + apply map_eq. intros k. rewrite !view_lookup. cbn [_nodeMap heap set_nodeMap].
      rewrite markDirtyState_heap. cbn [heap set_cloneNotNeeded set_heap].
      destruct (decide (k = __key nt)) as [->|Hne].
      * rewrite lookup_insert_eq, Hl. cbn. rewrite Hnew, Hn. reflexivity.
      * rewrite lookup_insert_ne by congruence.
        destruct (_nodeMap s !! k) as [r|] eqn:Hr; [|reflexivity]. cbn.
        destruct (Hok _ _ Hr) as (x & Hx & _). rewrite Hx. apply Hold. exact Hx.
    + apply lookup_insert_eq.
Qed.

Lemma alter_lookup_insert (v : gmap NodeKey LexicalNode) k n f :
  v !! k = Some n → alter f k v = <[k := f n]> v.
Proof.
  intros H. apply map_eq. intros k'. destruct (decide (k' = k)) as [->|Hne].
  - rewrite lookup_alter_eq, lookup_insert_eq, H. reflexivity.
  - rewrite lookup_alter_ne, lookup_insert_ne by congruence. reflexivity.
Qed.

(** An assignment through the writable object of a key changes the node of
    this key and no other. *)
Lemma assign_view s k w n upd :
  store_ok s → _nodeMap s !! k = Some w → heap s !! w = Some n →
  same_object n (upd n) →
  ∃ s', assign upd w s = (Ret tt, s')
    ∧ store_ok s' ∧ readOnly s' = readOnly s ∧ view s' = alter upd k (view s)
    ∧ _nodeMap s' = _nodeMap s ∧ _selection s' = _selection s
    ∧ heap s' !! w = Some (upd n)
    ∧ heap_ext s s'.
Proof.
  intros Hok Hw Hn (Hkey & Hkl & Hcb).
  assert (Hlt : (w < length (heap s))%nat) by (eapply lookup_lt_Some; eauto).
  destruct (Hok _ _ Hw) as (n' & Hn' & Hk). rewrite Hn in Hn'. inversion Hn'; subst n'.
  exists (set_heap (<[w := upd n]> (heap s)) s).
  split; [unfold assign; rewrite Hn; reflexivity|].
  cbn [readOnly _nodeMap heap _selection set_heap].
  repeat split.
  - intros k' r Hr. cbn [_nodeMap heap set_heap] in *.
    destruct (decide (r = w)) as [->|Hne].
    + exists (upd n). rewrite list_lookup_insert_eq by assumption. split; [reflexivity|].
      rewrite Hkey. destruct (Hok _ _ Hr) as (x & Hx & Hkx). congruence.
    + rewrite list_lookup_insert_ne by congruence. apply Hok. exact Hr.
  - rewrite (alter_lookup_insert _ _ n) by (eapply view_eq; eauto).
    apply map_eq. intros k'. rewrite view_lookup. cbn [_nodeMap heap set_heap].
    destruct (decide (k' = k)) as [->|Hne].
    + rewrite lookup_insert_eq, Hw. cbn. apply list_lookup_insert_eq. exact Hlt.
    + rewrite lookup_insert_ne by congruence. rewrite view_lookup.
      destruct (_nodeMap s !! k') as [r|] eqn:Hr; [|reflexivity]. cbn.
      apply list_lookup_insert_ne. intros ->.
      destruct (Hok _ _ Hr) as (x & Hx & Hkx). congruence.
  - apply list_lookup_insert_eq. exact Hlt.
  - intros r x Hx. cbn [heap set_heap]. destruct (decide (r = w)) as [->|Hne].
    + exists (upd n). rewrite list_lookup_insert_eq by assumption. split; [reflexivity|].
      rewrite Hn in Hx. inversion Hx; subst. repeat split; assumption.
    + exists x. rewrite list_lookup_insert_ne by congruence. split; [exact Hx | apply same_object_refl].
Qed.

(** *** Detaching a node of a well-formed document *)

Lemma detach_lookup v k n p :
  v !! k = Some n → __parent n = Some p → p ≠ k →
  (∀ ps, __prev n = Some ps → ps ≠ k ∧ ps ≠ p) →
  (∀ ns, __next n = Some ns → ns ≠ k ∧ ns ≠ p) →
  (∀ x, __prev n = Some x → __next n = Some x → False) →
  ∀ x, detach v k !! x =
    if decide (x = k) then Some (detach_node n)
    else if decide (x = p) then detach_parent n <$> v !! p
    else if decide (Some x = __prev n) then set___next (__next n) <$> v !! x
    else if decide (Some x = __next n) then set___prev (__prev n) <$> v !! x
    else v !! x.
Proof.
  intros Hk Hp Hpk Hps Hns Hpn x. unfold detach, detach_parent. rewrite Hk, Hp.
  destruct (__prev n) as [ps|] eqn:Hprev; destruct (__next n) as [ns|] eqn:Hnext;
    [destruct (Hps ps eq_refl), (Hns ns eq_refl), (decide (ps = ns)) as [->|];
       [exfalso; eauto|]
    |destruct (Hps ps eq_refl)|destruct (Hns ns eq_refl)|];
    repeat case_decide; simplify_eq;
    repeat (first [rewrite lookup_alter_eq | rewrite lookup_alter_ne by congruence]);
    rewrite ?Hk; try reflexivity;
    destruct (v !! p) as [np|]; reflexivity.
Qed.

Lemma ancestors_parent_ne v k l n p :
  ancestors v k l → v !! k = Some n → __parent n = Some p → p ≠ k.
Proof.
  intros Hanc Hn Hp ->. pose proof (ancestors_NoDup _ _ _ Hanc) as Hnd.
  inversion Hanc as [? n' Hn' Hp' | ? n' p' l' Hn' Hp' Hanc']; subst; [congruence|].
  rewrite Hn in Hn'. inversion Hn'; subst n'. rewrite Hp in Hp'. inversion Hp'; subst p'.
  apply NoDup_cons in Hnd as (Hnd & _). apply Hnd. left.
Qed.

(** The facts that a node with a parent finds about itself in a well-formed
    document. *)
Lemma well_formed_child v k n p :
  well_formed v → v !! k = Some n → __parent n = Some p →
  ∃ np cs i0,
    v !! p = Some np ∧ isElementClass (klass np) = true ∧ class_fields_ok np
    ∧ children_ok v p np cs ∧ cs !! i0 = Some k ∧ p ≠ k ∧ (p ∉ cs)
    ∧ __prev n = match i0 with O => None | S j => cs !! j end
    ∧ __next n = cs !! S i0.
Proof.
  intros Hwf Hn Hp.
  destruct (Hwf _ _ Hn) as (_ & _ & (l & Hanc) & Hpar).
  destruct (Hpar _ Hp) as (np & Hnp & Hel).
  destruct (Hwf _ _ Hnp) as (Hcf & (cs & Hch) & (lp & Hancp) & _).
  pose proof Hch as (Hlink & Hnd & Hfirst & Hlast & Hsize & Hclosed).
  pose proof (Hclosed _ _ Hn Hp) as Hin. apply list_elem_of_lookup in Hin as (i0 & Hi0).
  destruct (Hlink _ _ Hi0) as (n' & Hn' & _ & Hprev & Hnext).
  rewrite Hn in Hn'. inversion Hn'; subst n'.
  exists np, cs, i0. repeat split; try assumption.
  - eapply ancestors_parent_ne; eauto.
  - intros Hin. apply list_elem_of_lookup in Hin as (j & Hj).
    destruct (Hlink _ _ Hj) as (np' & Hnp' & Hpp & _).
    rewrite Hnp in Hnp'. inversion Hnp'; subst np'.
    eapply (ancestors_parent_ne v p lp np p); eauto.
Qed.

Lemma class_fields_ok_links n f :
  (∀ x, klass (f x) = klass x ∧ __format (f x) = __format x
        ∧ __indent (f x) = __indent x ∧ __dir (f x) = __dir x
        ∧ __first (f x) = __first x ∧ __last (f x) = __last x
        ∧ __size (f x) = __size x ∧ __style (f x) = __style x
        ∧ __mode (f x) = __mode x ∧ __detail (f x) = __detail x) →
  class_fields_ok n → class_fields_ok (f n).
Proof.
  intros Hf. destruct (Hf n) as (Hk & ? & ? & ? & ? & ? & ? & ? & ? & ?).
  unfold class_fields_ok. rewrite Hk. destruct (klass n); intros Hcf; destruct_and?;
    repeat split; congruence.
Qed.

Lemma class_fields_ok_detach_parent n np :
  isElementClass (klass np) = true → class_fields_ok np →
  class_fields_ok (detach_parent n np).
Proof.
  unfold class_fields_ok, detach_parent.
  destruct np as [c cbe k0 pa nx pv fm ind dr fi la sz tx st md dt].
  destruct c; try discriminate; intros _ Hcf;
    destruct (__prev n), (__next n); exact Hcf.
Qed.

Lemma well_formed_siblings v p cs i0 k n :
  linked v p cs → NoDup cs → p ∉ cs → cs !! i0 = Some k →
  __prev n = match i0 with O => None | S j => cs !! j end →
  __next n = cs !! S i0 →
  (∀ ps, __prev n = Some ps → ps ≠ k ∧ ps ≠ p)
  ∧ (∀ ns, __next n = Some ns → ns ≠ k ∧ ns ≠ p)
  ∧ (∀ x, __prev n = Some x → __next n = Some x → False).
Proof.
  intros Hlink Hnd Hpcs Hi0 Hprev Hnext.
  assert (Hne : ∀ j x, cs !! j = Some x → j ≠ i0 → x ≠ k ∧ x ≠ p).
  { intros j x Hj Hji. split.
    - intros ->. apply Hji. eapply NoDup_lookup; eauto.
    - intros ->. apply Hpcs. eapply list_elem_of_lookup_2; eauto. }
  split; [|split].
  - intros ps Hps. rewrite Hprev in Hps. destruct i0 as [|j]; [discriminate|].
    apply (Hne j); [exact Hps | lia].
  - intros ns Hns. rewrite Hnext in Hns. apply (Hne (S i0)); [exact Hns | lia].
  - intros x Hx Hx'. rewrite Hprev in Hx. rewrite Hnext in Hx'.
    destruct i0 as [|j]; [discriminate|].
    pose proof (NoDup_lookup _ _ _ _ Hnd Hx Hx'). lia.
Qed.

(** What a node of the document becomes when [k] is detached. *)
Lemma detach_node_of v k n p x nx' :
  well_formed v → v !! k = Some n → __parent n = Some p →
  detach v k !! x = Some nx' →
  ∃ nx, v !! x = Some nx ∧ same_object nx nx'
    ∧ (x ≠ k → __parent nx' = __parent nx)
    ∧ (x = k → __parent nx' = None)
    ∧ (x ≠ p → __first nx' = __first nx ∧ __last nx' = __last nx ∧ __size nx' = __size nx)
    ∧ (x = p → __prev nx' = __prev nx ∧ __next nx' = __next nx)
    ∧ class_fields_ok nx'.
Proof.
  intros Hwf Hn Hp Hx'.
  destruct (well_formed_child _ _ _ _ Hwf Hn Hp)
    as (np & cs & i0 & Hnp & Hel & Hcfp & Hch & Hi0 & Hpk & Hpcs & Hprev & Hnext).
  destruct Hch as (Hlink & Hnd & _).
  destruct (well_formed_siblings _ _ _ _ _ _ Hlink Hnd Hpcs Hi0 Hprev Hnext)
    as (Hps & Hns & Hpn).
  rewrite (detach_lookup _ _ _ _ Hn Hp Hpk Hps Hns Hpn) in Hx'.
  repeat case_decide.
  - subst x. inversion Hx'; subst nx'. exists n. split; [exact Hn|].
    destruct (Hwf _ _ Hn) as (Hcf & _).
    repeat split; try reflexivity; try congruence.
    apply (class_fields_ok_links n detach_node); [intros y; repeat split|exact Hcf].
  - subst x. rewrite Hnp in Hx'. inversion Hx'; subst nx'. exists np. split; [exact Hnp|].
    repeat split; try congruence;
      try (unfold detach_parent; destruct (__prev n), (__next n); reflexivity).
    apply class_fields_ok_detach_parent; assumption.
  - destruct (v !! x) as [nx|] eqn:Hx; [|discriminate]. inversion Hx'; subst nx'.
    exists nx. split; [reflexivity|]. destruct (Hwf _ _ Hx) as (Hcf & _).
    repeat split; try reflexivity; try congruence.
    apply (class_fields_ok_links nx (set___next (__next n))); [intros y; repeat split|exact Hcf].
  - destruct (v !! x) as [nx|] eqn:Hx; [|discriminate]. inversion Hx'; subst nx'.
    exists nx. split; [reflexivity|]. destruct (Hwf _ _ Hx) as (Hcf & _).
    repeat split; try reflexivity; try congruence.
    apply (class_fields_ok_links nx (set___prev (__prev n))); [intros y; repeat split|exact Hcf].
  - exists nx'. split; [exact Hx'|]. destruct (Hwf _ _ Hx') as (Hcf & _).
    repeat split; try reflexivity; try congruence.
Qed.

Lemma detach_node_to v k n p x nx :
  well_formed v → v !! k = Some n → __parent n = Some p →
  v !! x = Some nx → ∃ nx', detach v k !! x = Some nx'.
Proof.
  intros Hwf Hn Hp Hx.
  destruct (well_formed_child _ _ _ _ Hwf Hn Hp)
    as (np & cs & i0 & Hnp & Hel & Hcfp & Hch & Hi0 & Hpk & Hpcs & Hprev & Hnext).
  destruct Hch as (Hlink & Hnd & _).
  destruct (well_formed_siblings _ _ _ _ _ _ Hlink Hnd Hpcs Hi0 Hprev Hnext)
    as (Hps & Hns & Hpn).
  rewrite (detach_lookup _ _ _ _ Hn Hp Hpk Hps Hns Hpn).
  repeat case_decide; subst; rewrite ?Hnp, ?Hx; eauto.
Qed.

Lemma detach_ancestors v k n p :
  well_formed v → v !! k = Some n → __parent n = Some p →
  ∀ x l, ancestors v x l → ∃ l', ancestors (detach v k) x l'.
Proof.
  intros Hwf Hn Hp x l Hanc.
  induction Hanc as [x nx Hx Hpx | x nx q l Hx Hpx Hanc (l' & IH)].
  - destruct (detach_node_to _ _ _ _ _ _ Hwf Hn Hp Hx) as (nx' & Hx').
    destruct (detach_node_of _ _ _ _ _ _ Hwf Hn Hp Hx') as (nx0 & Hx0 & _ & Hpar & Hpark & _).
    rewrite Hx in Hx0. inversion Hx0; subst nx0.
    exists []. eapply ancestors_top; [exact Hx'|].
    destruct (decide (x = k)) as [->|Hne]; [apply Hpark; reflexivity|].
    rewrite (Hpar Hne). exact Hpx.
  - destruct (detach_node_to _ _ _ _ _ _ Hwf Hn Hp Hx) as (nx' & Hx').
    destruct (detach_node_of _ _ _ _ _ _ Hwf Hn Hp Hx') as (nx0 & Hx0 & _ & Hpar & Hpark & _).
    rewrite Hx in Hx0. inversion Hx0; subst nx0.
    destruct (decide (x = k)) as [->|Hne].
    + exists []. eapply ancestors_top; [exact Hx'|]. apply Hpark. reflexivity.
    + exists (q :: l'). eapply ancestors_up; [exact Hx' | | exact IH].
      rewrite (Hpar Hne). exact Hpx.
Qed.

(** The children of the parent of the detached node: the list without it. *)
Lemma detach_children_parent v k n p np cs i0 :
  well_formed v → v !! k = Some n → __parent n = Some p → v !! p = Some np →
  children_ok v p np cs → cs !! i0 = Some k →
  children_ok (detach v k) p (detach_parent n np) (delete i0 cs).
Proof.
  intros Hwf Hn Hp Hnp Hch Hi0.
  destruct (well_formed_child _ _ _ _ Hwf Hn Hp)
    as (np' & cs' & i0' & Hnp' & Hel & Hcfp & Hch' & Hi0' & Hpk & Hpcs' & _).
  rewrite Hnp in Hnp'. inversion Hnp'; subst np'. clear Hch' Hi0' Hpcs' Hnp'.
  destruct Hch as (Hlink & Hnd & Hfirst & Hlast & Hsize & Hclosed).
  assert (Hpcs : p ∉ cs).
  { intros Hin. apply list_elem_of_lookup in Hin as (j & Hj).
    destruct (Hlink _ _ Hj) as (np' & Hnp' & Hpp & _).
    rewrite Hnp in Hnp'. inversion Hnp'; subst np'.
    destruct (Hwf _ _ Hnp) as (_ & _ & (lp & Hancp) & _).
    eapply (ancestors_parent_ne v p lp np p); eauto. }
  destruct (Hlink _ _ Hi0) as (n' & Hn' & _ & Hprev & Hnext).
  rewrite Hn in Hn'. inversion Hn'; subst n'.
  destruct (well_formed_siblings _ _ _ _ _ _ Hlink Hnd Hpcs Hi0 Hprev Hnext)
    as (Hps & Hns & Hpn).
  pose proof (detach_lookup _ _ _ _ Hn Hp Hpk Hps Hns Hpn) as Hlk.
  assert (Hi0lt : (i0 < length cs)%nat) by (eapply lookup_lt_Some; eauto).
  assert (Hidx : ∀ j x, cs !! j = Some x → j ≠ i0 → x ≠ k ∧ x ≠ p).
  { intros j x Hj Hji. split.
    - intros ->. apply Hji. eapply NoDup_lookup; eauto.
    - intros ->. apply Hpcs. eapply list_elem_of_lookup_2; eauto. }
  (* the node of a child other than [k], after the detachment *)
  assert (Hchild : ∀ j c, cs !! j = Some c → j ≠ i0 →
    ∃ nc nc', v !! c = Some nc ∧ detach v k !! c = Some nc'
      ∧ __parent nc' = Some p
      ∧ __prev nc' = (if decide (j = S i0) then __prev n else __prev nc)
      ∧ __next nc' = (if decide (S j = i0) then __next n else __next nc)).
  { intros j c Hj Hji. destruct (Hlink _ _ Hj) as (nc & Hnc & Hpc & Hprevc & Hnextc).
    destruct (Hidx _ _ Hj Hji) as (Hck & Hcp).
    exists nc. rewrite Hlk, Hnc.
    rewrite decide_False by exact Hck. rewrite decide_False by exact Hcp.
    destruct (decide (Some c = __prev n)) as [Hcprev|Hcprev].
    - rewrite Hprev in Hcprev. destruct i0 as [|j0]; [discriminate|].
      symmetry in Hcprev. pose proof (NoDup_lookup _ _ _ _ Hnd Hj Hcprev). subst j0.
      eexists. split; [reflexivity|]. split; [reflexivity|]. cbn.
      rewrite decide_False by lia. rewrite decide_True by reflexivity.
      repeat split; assumption.
    - destruct (decide (Some c = __next n)) as [Hcnext|Hcnext].
      + rewrite Hnext in Hcnext. symmetry in Hcnext.
        pose proof (NoDup_lookup _ _ _ _ Hnd Hj Hcnext). subst j.
        eexists. split; [reflexivity|]. split; [reflexivity|]. cbn.
        rewrite decide_True by reflexivity. rewrite decide_False by lia.
        repeat split; assumption.
      + eexists. split; [reflexivity|]. split; [reflexivity|].
        rewrite decide_False. 2:{ intros ->. apply Hcnext. rewrite Hnext, Hj. reflexivity. }
        rewrite decide_False. 2:{ intros <-. apply Hcprev. rewrite Hprev, Hj. reflexivity. }
        repeat split; assumption. }
  unfold children_ok. split; [|split; [|split; [|split; [|split]]]].
  - (* the links *)
    intros j c Hj.
    destruct (decide (j < i0)%nat) as [Hlt|Hge].
    + rewrite list_lookup_delete_lt in Hj by exact Hlt.
      destruct (Hchild j c Hj) as (nc & nc' & Hnc & Hnc' & Hpc' & Hprevc' & Hnextc'); [lia|].
      destruct (Hlink _ _ Hj) as (nc0 & Hnc0 & _ & Hprevc & Hnextc).
      rewrite Hnc in Hnc0. inversion Hnc0; subst nc0.
      exists nc'. split; [exact Hnc'|]. split; [exact Hpc'|]. split.
      * rewrite Hprevc'. rewrite decide_False by lia. rewrite Hprevc.
        destruct j as [|j']; [reflexivity|]. rewrite list_lookup_delete_lt by lia. reflexivity.
      * rewrite Hnextc'. destruct (decide (S j = i0)) as [<-|Hne].
        -- rewrite Hnext. rewrite list_lookup_delete_ge by lia. reflexivity.
        -- rewrite Hnextc. rewrite list_lookup_delete_lt by lia. reflexivity.
    + rewrite list_lookup_delete_ge in Hj by lia.
      destruct (Hchild (S j) c Hj) as (nc & nc' & Hnc & Hnc' & Hpc' & Hprevc' & Hnextc'); [lia|].
      destruct (Hlink _ _ Hj) as (nc0 & Hnc0 & _ & Hprevc & Hnextc).
      rewrite Hnc in Hnc0. inversion Hnc0; subst nc0.
      exists nc'. split; [exact Hnc'|]. split; [exact Hpc'|]. split.
      * rewrite Hprevc'. destruct (decide (S j = S i0)) as [Heq|Hne].
        -- inversion Heq; subst j. rewrite Hprev. destruct i0 as [|j']; [reflexivity|].
           rewrite list_lookup_delete_lt by lia. reflexivity.
        -- rewrite Hprevc. destruct j as [|j']; [lia|].
           rewrite list_lookup_delete_ge by lia. reflexivity.
      * rewrite Hnextc'. rewrite decide_False by lia. rewrite Hnextc.
        rewrite list_lookup_delete_ge by lia. reflexivity.
  - eapply sublist_NoDup; [exact Hnd | apply sublist_delete].
  - (* the first child *)
    rewrite head_lookup. unfold detach_parent.
    assert (Hf : __first (match __prev n with
                          | Some _ => np | None => set___first (__next n) np end)
                 = delete i0 cs !! 0%nat).
    { rewrite Hprev. destruct i0 as [|j0].
      - cbn [__first set___first]. rewrite Hnext.
        rewrite list_lookup_delete_ge by lia. reflexivity.
      - destruct (cs !! j0) eqn:Hj0.
        + rewrite Hfirst, head_lookup. rewrite list_lookup_delete_lt by lia. reflexivity.
        + apply lookup_ge_None in Hj0. lia. }
    destruct (__next n); cbn [__first set___size set___last]; exact Hf.
  - (* the last child *)
    rewrite last_lookup, length_delete by eauto. unfold detach_parent.
    rewrite Hnext. destruct (cs !! S i0) as [ns|] eqn:Hsi.
    + cbn [__last set___size]. apply lookup_lt_Some in Hsi.
      replace (__last match __prev n with
                      | Some _ => np | None => set___first (Some ns) np end)
        with (__last np) by (destruct (__prev n); reflexivity).
      rewrite Hlast, last_lookup.
      rewrite list_lookup_delete_ge by lia. f_equal. lia.
    + cbn [__last set___size set___last]. apply lookup_ge_None in Hsi.
      rewrite Hprev. destruct i0 as [|j0].
      * destruct cs as [|c0 [|c1 cs2]]; simpl in *; try lia; reflexivity.
      * rewrite list_lookup_delete_lt by lia. f_equal. lia.
  - (* the child count *)
    rewrite length_delete by eauto. unfold detach_parent.
    assert (Hs : __size (match __next n with
       | Some _ => match __prev n with Some _ => np | None => set___first (__next n) np end
       | None => set___last (__prev n) match __prev n with Some _ => np | None => set___first (__next n) np end
       end) = __size np) by (destruct (__prev n), (__next n); reflexivity).
    cbn [__size set___size]. rewrite Hs, Hsize. lia.
  - (* no other node has [p] as parent *)
    intros c nc' Hc' Hpc'.
    destruct (detach_node_of _ _ _ _ _ _ Hwf Hn Hp Hc') as (nc & Hc & _ & Hpar & Hpark & _).
    destruct (decide (c = k)) as [->|Hck]; [rewrite (Hpark eq_refl) in Hpc'; discriminate|].
    rewrite (Hpar Hck) in Hpc'. pose proof (Hclosed _ _ Hc Hpc') as Hin.
    apply list_elem_of_lookup in Hin as (j & Hj).
    assert (j ≠ i0) by (intros ->; congruence).
    apply list_elem_of_lookup. destruct (decide (j < i0)%nat).
    + exists j. rewrite list_lookup_delete_lt by lia. exact Hj.
    + exists (pred j). rewrite list_lookup_delete_ge by lia.
      replace (S (pred j)) with j by lia. exact Hj.
Qed.

(** The children of any other node are as before. *)
Lemma detach_children_other v k n p x nx nx' cs :
  well_formed v → v !! k = Some n → __parent n = Some p →
  x ≠ p → v !! x = Some nx → detach v k !! x = Some nx' →
  children_ok v x nx cs → children_ok (detach v k) x nx' cs.
Proof.
  intros Hwf Hn Hp Hxp Hx Hx' (Hlink & Hnd & Hfirst & Hlast & Hsize & Hclosed).
  destruct (detach_node_of _ _ _ _ _ _ Hwf Hn Hp Hx')
    as (nx0 & Hx0 & _ & _ & _ & Hsame & _).
  rewrite Hx in Hx0. inversion Hx0; subst nx0. destruct (Hsame Hxp) as (Hf & Hl & Hs).
  destruct (well_formed_child _ _ _ _ Hwf Hn Hp)
    as (np & csp & i0 & Hnp & Hel & Hcfp & Hchp & Hi0 & Hpk & Hpcs & Hprev & Hnext).
  destruct Hchp as (Hlinkp & Hndp & _).
  destruct (well_formed_siblings _ _ _ _ _ _ Hlinkp Hndp Hpcs Hi0 Hprev Hnext)
    as (Hps & Hns & Hpn).
  pose proof (detach_lookup _ _ _ _ Hn Hp Hpk Hps Hns Hpn) as Hlk.
  assert (Hsib : ∀ c, c ∈ csp → ∀ nc, v !! c = Some nc → __parent nc = Some p).
  { intros c Hin nc Hc. apply list_elem_of_lookup in Hin as (j & Hj).
    destruct (Hlinkp _ _ Hj) as (nc0 & Hc0 & Hpc & _). congruence. }
  repeat split; try congruence.
  - intros j c Hj. destruct (Hlink _ _ Hj) as (nc & Hc & Hpc & Hprevc & Hnextc).
    rewrite Hlk, Hc.
    assert (Hck : c ≠ k) by (intros ->; congruence).
    rewrite decide_False by exact Hck.
    destruct (decide (c = p)) as [->|Hcp].
    { rewrite Hnp in Hc |- *. inversion Hc; subst nc. eexists. split; [reflexivity|].
      unfold detach_parent. destruct (__prev n), (__next n); repeat split; assumption. }
    rewrite decide_False.
    2:{ intros Heq. rewrite Hprev in Heq. destruct i0 as [|j0]; [discriminate|].
        symmetry in Heq. apply list_elem_of_lookup_2 in Heq.
        pose proof (Hsib _ Heq _ Hc). congruence. }
    rewrite decide_False.
    2:{ intros Heq. rewrite Hnext in Heq.
        symmetry in Heq. apply list_elem_of_lookup_2 in Heq.
        pose proof (Hsib _ Heq _ Hc). congruence. }
    exists nc. repeat split; assumption.
  - intros c nc' Hc' Hpc'.
    destruct (detach_node_of _ _ _ _ _ _ Hwf Hn Hp Hc') as (nc & Hc & _ & Hpar & Hpark & _).
    destruct (decide (c = k)) as [->|Hck]; [rewrite (Hpark eq_refl) in Hpc'; discriminate|].
    rewrite (Hpar Hck) in Hpc'. eapply Hclosed; eauto.
Qed.

Lemma detach_at_parent v k n p np :
  well_formed v → v !! k = Some n → __parent n = Some p → v !! p = Some np →
  detach v k !! p = Some (detach_parent n np).
Proof.
  intros Hwf Hn Hp Hnp.
  destruct (well_formed_child _ _ _ _ Hwf Hn Hp)
    as (np' & csp & i0 & Hnp' & Hel & Hcfp & Hchp & Hi0 & Hpk & Hpcs & Hprev & Hnext).
  destruct Hchp as (Hlinkp & Hndp & _).
  destruct (well_formed_siblings _ _ _ _ _ _ Hlinkp Hndp Hpcs Hi0 Hprev Hnext)
    as (Hps & Hns & Hpn).
  rewrite (detach_lookup _ _ _ _ Hn Hp Hpk Hps Hns Hpn).
  rewrite decide_False by exact Hpk. rewrite decide_True by reflexivity.
  rewrite Hnp. reflexivity.
Qed.

Lemma detach_at_node v k n p :
  well_formed v → v !! k = Some n → __parent n = Some p →
  detach v k !! k = Some (detach_node n).
Proof.
  intros Hwf Hn Hp.
  destruct (well_formed_child _ _ _ _ Hwf Hn Hp)
    as (np' & csp & i0 & Hnp' & Hel & Hcfp & Hchp & Hi0 & Hpk & Hpcs & Hprev & Hnext).
  destruct Hchp as (Hlinkp & Hndp & _).
  destruct (well_formed_siblings _ _ _ _ _ _ Hlinkp Hndp Hpcs Hi0 Hprev Hnext)
    as (Hps & Hns & Hpn).
  rewrite (detach_lookup _ _ _ _ Hn Hp Hpk Hps Hns Hpn).
  rewrite decide_True by reflexivity. reflexivity.
Qed.

Lemma detach_parent_size n np : __size (detach_parent n np) = __size np - 1.
Proof. unfold detach_parent. destruct (__prev n), (__next n); reflexivity. Qed.

(** Detaching a node keeps the document well formed. *)
Lemma detach_well_formed v k n p :
  well_formed v → v !! k = Some n → __parent n = Some p → well_formed (detach v k).
Proof.
  intros Hwf Hn Hp x nx' Hx'.
  destruct (detach_node_of _ _ _ _ _ _ Hwf Hn Hp Hx')
    as (nx & Hx & Hobj & Hpar & Hpark & Hsame & _ & Hcf).
  destruct (Hwf _ _ Hx) as (_ & (cs & Hch) & (l & Hanc) & Hparent).
  split; [exact Hcf|]. split; [|split].
  - destruct (decide (x = p)) as [->|Hxp].
    + destruct (well_formed_child _ _ _ _ Hwf Hn Hp)
        as (np & csp & i0 & Hnp & _ & _ & Hchp & Hi0 & _).
      rewrite (detach_at_parent _ _ _ _ _ Hwf Hn Hp Hnp) in Hx'. inversion Hx'; subst nx'.
      exists (delete i0 csp). eapply detach_children_parent; eauto.
    + exists cs. eapply detach_children_other; eauto.
  - eapply detach_ancestors; eauto.
  - intros q Hq. destruct (decide (x = k)) as [->|Hxk];
      [rewrite (Hpark eq_refl) in Hq; discriminate|].
    rewrite (Hpar Hxk) in Hq. destruct (Hparent _ Hq) as (nq & Hnq & Helq).
    destruct (detach_node_to _ _ _ _ _ _ Hwf Hn Hp Hnq) as (nq' & Hnq').
    destruct (detach_node_of _ _ _ _ _ _ Hwf Hn Hp Hnq') as (nq0 & Hnq0 & (_ & Hkl & _) & _).
    rewrite Hnq in Hnq0. inversion Hnq0; subst nq0.
    exists nq'. split; [exact Hnq'|]. rewrite Hkl. exact Helq.
Qed.

(** A node that has no parent has none after any detachment. *)
Lemma detach_keeps_detached v k x nx :
  v !! x = Some nx → __parent nx = None →
  ∃ nx', detach v k !! x = Some nx' ∧ __parent nx' = None.
Proof.
  intros Hx Hpx. unfold detach.
  destruct (v !! k) as [n|] eqn:Hn; [|eauto].
  destruct (__parent n) as [p|] eqn:Hp; [|eauto].
  assert (Halter : ∀ (f : LexicalNode → LexicalNode) y (w : gmap NodeKey LexicalNode),
    (∀ z, __parent z = None → __parent (f z) = None) →
    (∃ nx', w !! x = Some nx' ∧ __parent nx' = None) →
    ∃ nx', alter f y w !! x = Some nx' ∧ __parent nx' = None).
  { intros f y w Hf (nx' & Hw & Hpw). destruct (decide (y = x)) as [->|Hne].
    - exists (f nx'). rewrite lookup_alter_eq, Hw. split; [reflexivity | apply Hf; exact Hpw].
    - exists nx'. rewrite lookup_alter_ne by exact Hne. split; assumption. }
  apply Halter; [reflexivity|]. apply Halter; [intros z Hz; exact Hz|].
  destruct (__next n); (apply Halter; [intros z Hz; exact Hz|]);
    destruct (__prev n); (apply Halter; [intros z Hz; exact Hz|]); eauto.
Qed.

(** *** The steps of a mutation *)

Lemma getWritable_step s this nt n :
  good s → heap s !! this = Some nt → view s !! __key nt = Some n →
  class_fields_ok n →
  ∃ w s', getWritable this s = (Ret w, s')
    ∧ good s' ∧ view s' = view s
    ∧ _nodeMap s' !! __key nt = Some w ∧ nodeMap_but (__key nt) s s'
    ∧ _selection s' = _selection s ∧ heap_ext s s'.
Proof.
  intros (Hok & Hro) Ht Hv Hcf. destruct (view_inv _ _ _ Hv) as (l & Hl & Hn).
  destruct (decide (__key nt ∈ _cloneNotNeeded s)) as [Hin|Hin].
  - exists l, (markDirtyState n s).
    split; [apply (getWritable_cloned _ _ _ _ _ Hro Ht Hl Hn Hin)|].
    unfold good, nodeMap_but.
    rewrite markDirtyState_readOnly, markDirtyState_view, markDirtyState_nodeMap,
      markDirtyState_selection.
    repeat split; try assumption; try reflexivity.
    + eapply store_ok_same; [apply markDirtyState_heap | apply markDirtyState_nodeMap | exact Hok].
    + apply heap_ext_same. apply markDirtyState_heap.
  - destruct (getWritable_view _ _ _ _ Hok Hro Ht Hv Hcf)
      as (w & s' & Hrun & Hok' & Hro' & Hview & Hw & Hhw & Hsel & Hkeep).
    exists w, s'. split; [exact Hrun|]. split; [split; assumption|].
    split; [exact Hview|]. split; [exact Hw|]. split; [|split; [exact Hsel|]].
    + rewrite (getWritable_fresh _ _ _ _ _ Hro Ht Hl Hn Hin) in Hrun.
      inversion Hrun; subst. intros k' Hne. cbn [_nodeMap set_nodeMap].
      rewrite lookup_insert_ne by congruence. reflexivity.
    + intros r x Hx. exists x. split; [apply Hkeep; exact Hx | apply same_object_refl].
Qed.

Lemma assign_step s k w n upd :
  good s → _nodeMap s !! k = Some w → view s !! k = Some n →
  same_object n (upd n) →
  ∃ s', assign upd w s = (Ret tt, s')
    ∧ good s' ∧ view s' = alter upd k (view s)
    ∧ _nodeMap s' = _nodeMap s ∧ _selection s' = _selection s ∧ heap_ext s s'.
Proof.
  intros (Hok & Hro) Hw Hv Hobj. destruct (view_inv _ _ _ Hv) as (l & Hl & Hn).
  rewrite Hw in Hl. inversion Hl; subst l.
  destruct (assign_view _ _ _ _ _ Hok Hw Hn Hobj)
    as (s' & Hrun & Hok' & Hro' & Hview & Hmap & Hsel & _ & Hext).
  exists s'. split; [exact Hrun|]. split; [split; [exact Hok' | congruence]|].
  repeat split; assumption.
Qed.

Lemma nodeMap_but_trans k1 k2 s1 s2 s3 k :
  nodeMap_but k1 s1 s2 → nodeMap_but k2 s2 s3 → k ≠ k1 → k ≠ k2 →
  _nodeMap s3 !! k = _nodeMap s1 !! k.
Proof. intros H1 H2 Hk1 Hk2. rewrite (H2 _ Hk2). apply H1. exact Hk1. Qed.

(** [setNext] and [setPrev], on any reference to a node. *)
Lemma setNext_step s this nt n x :
  good s → heap s !! this = Some nt → view s !! __key nt = Some n →
  class_fields_ok n →
  ∃ s', setNext this x s = (Ret tt, s')
    ∧ good s' ∧ view s' = alter (set___next x) (__key nt) (view s)
    ∧ nodeMap_but (__key nt) s s'
    ∧ _selection s' = _selection s ∧ heap_ext s s'.
Proof.
  intros Hgood Ht Hv Hcf.
  destruct (getWritable_step _ _ _ _ Hgood Ht Hv Hcf)
    as (w & s1 & Hrun1 & Hgood1 & Hview1 & Hw1 & Hbut1 & Hsel1 & Hext1).
  rewrite <- Hview1 in Hv.
  destruct (assign_step _ _ _ _ (set___next x) Hgood1 Hw1 Hv)
    as (s2 & Hrun2 & Hgood2 & Hview2 & Hmap2 & Hsel2 & Hext2); [repeat split|].
  exists s2. split.
  { unfold setNext. rewrite (bind_ret _ _ _ _ _ Hrun1). exact Hrun2. }
  split; [exact Hgood2|]. split; [rewrite Hview2, Hview1; reflexivity|].
  split; [intros k' Hne; rewrite Hmap2; apply Hbut1; exact Hne|].
  split; [congruence | eapply heap_ext_trans; eauto].
Qed.

Lemma setPrev_step s this nt n x :
  good s → heap s !! this = Some nt → view s !! __key nt = Some n →
  class_fields_ok n →
  ∃ s', setPrev this x s = (Ret tt, s')
    ∧ good s' ∧ view s' = alter (set___prev x) (__key nt) (view s)
    ∧ nodeMap_but (__key nt) s s'
    ∧ _selection s' = _selection s ∧ heap_ext s s'.
Proof.
  intros Hgood Ht Hv Hcf.
  destruct (getWritable_step _ _ _ _ Hgood Ht Hv Hcf)
    as (w & s1 & Hrun1 & Hgood1 & Hview1 & Hw1 & Hbut1 & Hsel1 & Hext1).
  rewrite <- Hview1 in Hv.
  destruct (assign_step _ _ _ _ (set___prev x) Hgood1 Hw1 Hv)
    as (s2 & Hrun2 & Hgood2 & Hview2 & Hmap2 & Hsel2 & Hext2); [repeat split|].
  exists s2. split.
  { unfold setPrev. rewrite (bind_ret _ _ _ _ _ Hrun1). exact Hrun2. }
  split; [exact Hgood2|]. split; [rewrite Hview2, Hview1; reflexivity|].
  split; [intros k' Hne; rewrite Hmap2; apply Hbut1; exact Hne|].
  split; [congruence | eapply heap_ext_trans; eauto].
Qed.

Lemma heap_ext_key s s' r n :
  heap_ext s s' → heap s !! r = Some n →
  ∃ n', heap s' !! r = Some n' ∧ __key n' = __key n ∧ klass n' = klass n
        ∧ can_be_empty n' = can_be_empty n.
Proof. intros Hext Hn. destruct (Hext _ _ Hn) as (n' & Hn' & ? & ? & ?). eauto 10. Qed.

Lemma good_latest s k n :
  good s → view s !! k = Some n →
  ∃ r, _nodeMap s !! k = Some r ∧ heap s !! r = Some n ∧ __key n = k.
Proof.
  intros (Hok & _) Hv. destruct (view_inv _ _ _ Hv) as (r & Hr & Hn).
  destruct (Hok _ _ Hr) as (n' & Hn' & Hk). exists r. repeat split; congruence.
Qed.

(** The key of a sibling reference, as [removeFromParent] reads it. *)
Lemma sibling_key s (o : option NodeKey) :
  good s → (∀ x, o = Some x → is_Some (view s !! x)) →
  (match o ≫= (λ x, _nodeMap s !! x) with
   | Some r => k ← field __key r; mret (Some k)
   | None => mret None
   end : R (option NodeKey)) s = Ret o.
Proof.
  intros Hgood Hres. destruct o as [x|]; [|reflexivity].
  destruct (Hres x eq_refl) as [nx Hx].
  destruct (good_latest _ _ _ Hgood Hx) as (r & Hr & Hn & Hk). cbn. rewrite Hr.
  unfold mbind, R_bind. rewrite (field_eq __key _ _ _ Hn), Hk. reflexivity.
Qed.

(** [removeFromParent] detaches the node. *)
Lemma removeFromParent_step s node nt n p :
  good s → well_formed (view s) →
  heap s !! node = Some nt → view s !! __key nt = Some n → __parent n = Some p →
  ∃ s', removeFromParent node s = (Ret tt, s')
    ∧ good s' ∧ view s' = detach (view s) (__key nt)
    ∧ _selection s' = _selection s ∧ heap_ext s s'.
Proof.
  intros Hgood Hwf Hnode Hn Hp. set (k := __key nt) in *. set (v := view s) in *.
  destruct (well_formed_child _ _ _ _ Hwf Hn Hp)
    as (np & cs & i0 & Hnp & Hel & Hcfp & Hch & Hi0 & Hpk & Hpcs & Hprev & Hnext).
  destruct Hch as (Hlink & Hnd & _).
  destruct (well_formed_siblings _ _ _ _ _ _ Hlink Hnd Hpcs Hi0 Hprev Hnext)
    as (Hps & Hns & Hpn).
  assert (Hres : ∀ j x, cs !! j = Some x → ∃ nx, v !! x = Some nx ∧ class_fields_ok nx).
  { intros j x Hj. destruct (Hlink _ _ Hj) as (nx & Hx & _). exists nx. split; [exact Hx|].
    destruct (Hwf _ _ Hx) as (Hcf & _). exact Hcf. }
  assert (Hresp : ∀ x, __prev n = Some x → ∃ nx, v !! x = Some nx ∧ class_fields_ok nx).
  { intros x Hx. rewrite Hprev in Hx. destruct i0 as [|j]; [discriminate|]. eapply Hres; eauto. }
  assert (Hresn : ∀ x, __next n = Some x → ∃ nx, v !! x = Some nx ∧ class_fields_ok nx).
  { intros x Hx. rewrite Hnext in Hx. eapply Hres; eauto. }
  destruct (Hwf _ _ Hn) as (Hcfn & _).
  unfold removeFromParent.
  (* the parent *)
  destruct (good_latest _ _ _ Hgood Hnp) as (rp & Hrp & Hhp & Hkp).
  rewrite bind_read, (getParent_view _ _ _ _ Hnode Hn), Hp. cbn [mbind option_bind]. rewrite Hrp.
  destruct (getWritable_step s rp np np Hgood Hhp) as
    (wp & s1 & Hrun1 & Hgood1 & Hview1 & Hwp1 & Hbut1 & Hsel1 & Hext1);
    [rewrite Hkp; exact Hnp | exact Hcfp |].
  rewrite (bind_ret _ _ _ _ _ Hrun1). rewrite Hkp in Hwp1, Hbut1. fold v in Hview1.
  (* the siblings *)
  destruct (heap_ext_key _ _ _ _ Hext1 Hnode) as (nt1 & Hnode1 & Hk1 & _).
  assert (Hn1 : view s1 !! __key nt1 = Some n) by (rewrite Hview1, Hk1; exact Hn).
  rewrite bind_read, (getPreviousSibling_view _ _ _ _ Hnode1 Hn1).
  rewrite bind_read, (getNextSibling_view _ _ _ _ Hnode1 Hn1).
  rewrite bind_read, (sibling_key s1 (__prev n) Hgood1).
  2:{ intros x Hx. destruct (Hresp x Hx) as (nx & Hnx & _). rewrite Hview1. eauto. }
  rewrite bind_read, (sibling_key s1 (__next n) Hgood1).
  2:{ intros x Hx. destruct (Hresn x Hx) as (nx & Hnx & _). rewrite Hview1. eauto. }
  (* relinking before the node *)
  assert (Hstep2 : ∃ s2,
    (match __prev n ≫= (λ x, _nodeMap s1 !! x) with
     | Some ps => setNext ps (__next n)
     | None => assign (set___first (__next n)) wp
     end) s1 = (Ret tt, s2)
    ∧ good s2
    ∧ view s2 = match __prev n with
                | Some ps => alter (set___next (__next n)) ps v
                | None => alter (set___first (__next n)) p v
                end
    ∧ _nodeMap s2 !! p = Some wp
    ∧ _selection s2 = _selection s1 ∧ heap_ext s1 s2).
  { destruct (__prev n) as [ps|] eqn:Hpv.
    - destruct (Hresp ps eq_refl) as (nps & Hnps & Hcfps).
      destruct (Hps ps eq_refl) as (Hpsk & Hpsp).
      rewrite <- Hview1 in Hnps.
      destruct (good_latest _ _ _ Hgood1 Hnps) as (rps & Hrps & Hhps & Hkps).
      cbn [mbind option_bind]. rewrite Hrps.
      destruct (setNext_step s1 rps nps nps (__next n) Hgood1 Hhps)
        as (s2 & Hrun2 & Hgood2 & Hview2 & Hbut2 & Hsel2 & Hext2);
        [rewrite Hkps; exact Hnps | exact Hcfps |].
      exists s2. split; [exact Hrun2|]. split; [exact Hgood2|].
      split; [rewrite Hview2, Hkps, Hview1; reflexivity|].
      split; [rewrite Hbut2 by (rewrite Hkps; congruence); exact Hwp1|].
      split; assumption.
    - cbn [mbind option_bind].
      destruct (assign_step s1 p wp np (set___first (__next n)) Hgood1 Hwp1)
        as (s2 & Hrun2 & Hgood2 & Hview2 & Hmap2 & Hsel2 & Hext2);
        [rewrite Hview1; exact Hnp | repeat split |].
      exists s2. split; [exact Hrun2|]. split; [exact Hgood2|].
      split; [rewrite Hview2, Hview1; reflexivity|].
      split; [rewrite Hmap2; exact Hwp1|]. split; assumption. }
  destruct Hstep2 as (s2 & Hrun2 & Hgood2 & Hview2 & Hwp2 & Hsel2 & Hext2).
  (* the node map is touched at the key of the previous sibling only *)
  assert (Hmap2 : ∀ x, Some x ≠ __prev n → _nodeMap s2 !! x = _nodeMap s1 !! x).
  { intros x Hx. clear Hview2 Hwp2.
    destruct (__prev n) as [ps|] eqn:Hpv.
    - destruct (Hresp ps eq_refl) as (nps & Hnps & Hcfps). rewrite <- Hview1 in Hnps.
      destruct (good_latest _ _ _ Hgood1 Hnps) as (rps & Hrps & Hhps & Hkps).
      cbn [mbind option_bind] in Hrun2. rewrite Hrps in Hrun2.
      destruct (setNext_step s1 rps nps nps (__next n) Hgood1 Hhps)
        as (s2' & Hrun2' & _ & _ & Hbut2 & _);
        [rewrite Hkps; exact Hnps | exact Hcfps |].
      rewrite Hrun2 in Hrun2'. inversion Hrun2'; subst s2'.
      apply Hbut2. rewrite Hkps. congruence.
    - cbn [mbind option_bind] in Hrun2.
      destruct (assign_step s1 p wp np (set___first (__next n)) Hgood1 Hwp1)
        as (s2' & Hrun2' & _ & _ & Hm & _);
        [rewrite Hview1; exact Hnp | repeat split |].
      rewrite Hrun2 in Hrun2'. inversion Hrun2'; subst s2'. rewrite Hm. reflexivity. }
  rewrite (seq_ret _ _ _ _ _ Hrun2).
  set (v1 := match __prev n with
             | Some ps => alter (set___next (__next n)) ps v
             | None => alter (set___first (__next n)) p v
             end) in *.
  (* relinking after the node *)
  assert (Hstep3 : ∃ s3,
    (match __next n ≫= (λ x, _nodeMap s1 !! x) with
     | Some ns => setPrev ns (__prev n)
     | None => assign (set___last (__prev n)) wp
     end) s2 = (Ret tt, s3)
    ∧ good s3
    ∧ view s3 = match __next n with
                | Some ns => alter (set___prev (__prev n)) ns v1
                | None => alter (set___last (__prev n)) p v1
                end
    ∧ _nodeMap s3 !! p = Some wp
    ∧ _selection s3 = _selection s2 ∧ heap_ext s2 s3).
  { destruct (__next n) as [ns|] eqn:Hnx.
    - destruct (Hresn ns eq_refl) as (nns & Hnns & Hcfns).
      destruct (Hns ns eq_refl) as (Hnsk & Hnsp).
      pose proof Hnns as Hnns1. rewrite <- Hview1 in Hnns1.
      destruct (good_latest _ _ _ Hgood1 Hnns1) as (rns & Hrns & Hhns & Hkns).
      cbn [mbind option_bind]. rewrite Hrns.
      destruct (heap_ext_key _ _ _ _ Hext2 Hhns) as (nns2 & Hhns2 & Hkns2 & _).
      assert (Hv2 : view s2 !! __key nns2 = Some nns).
      { rewrite Hview2, Hkns2, Hkns. subst v1. destruct (__prev n) as [ps|] eqn:Hpv.
        - rewrite lookup_alter_ne; [exact Hnns|]. intros ->. eapply Hpn; reflexivity.
        - rewrite lookup_alter_ne; [exact Hnns|]. congruence. }
      destruct (setPrev_step s2 rns nns2 nns (__prev n) Hgood2 Hhns2 Hv2 Hcfns)
        as (s3 & Hrun3 & Hgood3 & Hview3 & Hbut3 & Hsel3 & Hext3).
      exists s3. split; [exact Hrun3|]. split; [exact Hgood3|].
      split; [rewrite Hview3, Hkns2, Hkns, Hview2; reflexivity|].
      split; [rewrite Hbut3 by (rewrite Hkns2, Hkns; congruence); exact Hwp2|].
      split; assumption.
    - cbn [mbind option_bind].
      assert (Hv2 : ∃ np2, view s2 !! p = Some np2 ∧ same_object np np2).
      { rewrite Hview2. subst v1. destruct (__prev n) as [ps|] eqn:Hpv.
        - destruct (Hps ps eq_refl) as (_ & Hpsp).
          exists np. rewrite lookup_alter_ne by exact Hpsp. split; [exact Hnp | apply same_object_refl].
        - exists (set___first None np). rewrite lookup_alter_eq, Hnp. split; [reflexivity | repeat split]. }
      destruct Hv2 as (np2 & Hnp2 & _).
      destruct (assign_step s2 p wp np2 (set___last (__prev n)) Hgood2 Hwp2 Hnp2)
        as (s3 & Hrun3 & Hgood3 & Hview3 & Hmap3 & Hsel3 & Hext3); [repeat split|].
      exists s3. split; [exact Hrun3|]. split; [exact Hgood3|].
      split; [rewrite Hview3, Hview2; reflexivity|].
      split; [rewrite Hmap3; exact Hwp2|]. split; assumption. }
  destruct Hstep3 as (s3 & Hrun3 & Hgood3 & Hview3 & Hwp3 & Hsel3 & Hext3).
  rewrite (seq_ret _ _ _ _ _ Hrun3).
  set (v2 := match __next n with
             | Some ns => alter (set___prev (__prev n)) ns v1
             | None => alter (set___last (__prev n)) p v1
             end) in *.
  (* the child count *)
  assert (Hnp3 : ∃ np3, view s3 !! p = Some np3).
  { rewrite Hview3. subst v2 v1.
    destruct (__next n) as [ns|], (__prev n) as [ps|];
      repeat (first [rewrite lookup_alter_eq | rewrite lookup_alter_ne
                       by (first [apply (Hps _ eq_refl) | apply (Hns _ eq_refl)])]);
      rewrite Hnp; eauto. }
  destruct Hnp3 as (np3 & Hnp3).
  destruct (good_latest _ _ _ Hgood3 Hnp3) as (wp' & Hwp' & Hhp3 & _).
  rewrite Hwp3 in Hwp'. inversion Hwp'; subst wp'.
  rewrite bind_read, (field_eq __size _ _ _ Hhp3).
  destruct (assign_step s3 p wp np3 (set___size (__size np3 - 1)) Hgood3 Hwp3 Hnp3)
    as (s4 & Hrun4 & Hgood4 & Hview4 & Hmap4 & Hsel4 & Hext4); [repeat split|].
  rewrite (seq_ret _ _ _ _ _ Hrun4).
  assert (Hview4' : view s4 = alter (λ x, set___size (__size x - 1) x) p v2).
  { rewrite Hview4, Hview3. apply map_eq. intros x.
    destruct (decide (x = p)) as [->|Hne].
    - rewrite !lookup_alter_eq. rewrite <- Hview3, Hnp3. reflexivity.
    - rewrite !lookup_alter_ne by congruence. reflexivity. }
  (* the node itself *)
  assert (Hext14 : heap_ext s s4).
  { eapply heap_ext_trans; [exact Hext1|]. eapply heap_ext_trans; [exact Hext2|].
    eapply heap_ext_trans; [exact Hext3 | exact Hext4]. }
  destruct (heap_ext_key _ _ _ _ Hext14 Hnode) as (nt4 & Hnode4 & Hk4 & _).
  assert (Hn4 : view s4 !! __key nt4 = Some n).
  { rewrite Hview4', Hk4. fold k. rewrite lookup_alter_ne by exact Hpk. subst v2 v1.
    destruct (__next n) as [ns|], (__prev n) as [ps|];
      repeat (rewrite lookup_alter_ne
                by (first [exact Hpk | apply (Hps _ eq_refl) | apply (Hns _ eq_refl)]));
      exact Hn. }
  destruct (getWritable_step s4 node nt4 n Hgood4 Hnode4 Hn4 Hcfn)
    as (wn & s5 & Hrun5 & Hgood5 & Hview5 & Hwn5 & _ & Hsel5 & Hext5).
  rewrite (bind_ret _ _ _ _ _ Hrun5). rewrite Hk4 in Hwn5, Hn4. fold k in Hwn5, Hn4.
  rewrite <- Hview5 in Hn4.
  destruct (assign_step s5 k wn n (set___parent None) Hgood5 Hwn5 Hn4)
    as (s6 & Hrun6 & Hgood6 & Hview6 & Hmap6 & Hsel6 & Hext6); [repeat split|].
  rewrite (seq_ret _ _ _ _ _ Hrun6).
  assert (Hn6 : view s6 !! k = Some (set___parent None n)).
  { rewrite Hview6, lookup_alter_eq, Hn4. reflexivity. }
  rewrite <- Hmap6 in Hwn5.
  destruct (assign_step s6 k wn _ (set___prev None) Hgood6 Hwn5 Hn6)
    as (s7 & Hrun7 & Hgood7 & Hview7 & Hmap7 & Hsel7 & Hext7); [repeat split|].
  rewrite (seq_ret _ _ _ _ _ Hrun7).
  assert (Hn7 : view s7 !! k = Some (set___prev None (set___parent None n))).
  { rewrite Hview7, lookup_alter_eq, Hn6. reflexivity. }
  rewrite <- Hmap7 in Hwn5.
  destruct (assign_step s7 k wn _ (set___next None) Hgood7 Hwn5 Hn7)
    as (s8 & Hrun8 & Hgood8 & Hview8 & Hmap8 & Hsel8 & Hext8); [repeat split|].
  exists s8. split; [exact Hrun8|]. split; [exact Hgood8|].
  split.
  { rewrite Hview8, Hview7, Hview6, Hview5, Hview4'.
    unfold detach. fold v. rewrite Hn, Hp. fold v1 v2.
    rewrite !alter_alter_eq. reflexivity. }
  split; [congruence|].
  eapply heap_ext_trans; [exact Hext14|]. eapply heap_ext_trans; [exact Hext5|].
  eapply heap_ext_trans; [exact Hext6|]. eapply heap_ext_trans; [exact Hext7 | exact Hext8].
Qed.

(** *** Moving the selection *)

Lemma selection_only_refl s : selection_only s s.
Proof. exists (_selection s). split; [destruct s; reflexivity | auto]. Qed.

Lemma selection_only_trans s1 s2 s3 :
  selection_only s1 s2 → selection_only s2 s3 → selection_only s1 s3.
Proof.
  intros (x & -> & Hx) (y & -> & Hy). exists y. split; [reflexivity|].
  intros H. apply Hy. cbn. apply Hx. exact H.
Qed.

Lemma selection_only_heap s s' : selection_only s s' → heap s' = heap s.
Proof. intros (x & -> & _). reflexivity. Qed.

Lemma selection_only_nodeMap s s' : selection_only s s' → _nodeMap s' = _nodeMap s.
Proof. intros (x & -> & _). reflexivity. Qed.

Lemma selection_only_view s s' : selection_only s s' → view s' = view s.
Proof. intros (x & -> & _). reflexivity. Qed.

Lemma selection_only_good s s' : selection_only s s' → good s → good s'.
Proof. intros (x & -> & _) (Hok & Hro). split; [exact Hok | exact Hro]. Qed.

Lemma selection_only_is_Some s s' :
  selection_only s s' → is_Some (_selection s) → is_Some (_selection s').
Proof. intros (x & -> & Hx) H. cbn. apply Hx. exact H. Qed.

Lemma Point_set_step which k o t s :
  ∃ s', Point_set which k o t s = (Ret tt, s') ∧ selection_only s s'.
Proof.
  unfold Point_set, modify. eexists. split; [reflexivity|].
  destruct (_selection s) as [sel|] eqn:Hsel.
  - destruct which; eexists; (split; [reflexivity | eauto]).
  - apply selection_only_refl.
Qed.

Lemma runMover_step f s :
  ∃ s', runMover f s = (Ret tt, s') ∧ selection_only s s'.
Proof.
  unfold runMover, modify. eexists. split; [reflexivity|].
  destruct (_selection s) as [sel|] eqn:Hsel.
  - eexists; (split; [reflexivity | eauto]).
  - apply selection_only_refl.
Qed.

(** [moveSelectionPointToSibling] moves a point and does nothing else. *)
Lemma moveSelectionPointToSibling_step s fuel which node parent prevSibling nextSibling
    nparent np :
  (∃ i, (match node with
         | Some n => getIndexWithinParent fuel n
         | None => mret (-1)
         end : R Z) s = Ret i) →
  heap s !! parent = Some nparent → view s !! __key nparent = Some np →
  (∀ r, prevSibling = Some r →
        ∃ nr n, heap s !! r = Some nr ∧ view s !! __key nr = Some n) →
  (∀ r, nextSibling = Some r → ∃ nr, heap s !! r = Some nr) →
  ∃ s', moveSelectionPointToSibling fuel which node parent prevSibling nextSibling s
        = (Ret tt, s')
    ∧ selection_only s s'.
Proof.
  intros (i & Hi) Hparent Hnp Hprev Hnext.
  assert (HtoParent : ∃ s',
    (let* index := read (match node with
                         | Some n => getIndexWithinParent fuel n
                         | None => mret (-1)
                         end) in
     let* size := read (getChildrenSize parent) in
     let* parentKey := read (field __key parent) in
     Point_set which parentKey (if bool_decide (index = -1) then size else index) element) s
    = (Ret tt, s') ∧ selection_only s s').
  { rewrite bind_read, Hi.
    rewrite bind_read, (getChildrenSize_view _ _ _ _ Hparent Hnp).
    rewrite bind_read, (field_eq __key _ _ _ Hparent). apply Point_set_step. }
  unfold moveSelectionPointToSibling.
  destruct prevSibling as [rp|].
  - destruct (Hprev rp eq_refl) as (nr & n & Hr & Hn).
    rewrite bind_read, (deref_eq _ _ _ Hr).
    destruct (isTextClass (klass nr)); [apply Point_set_step|].
    destruct (isElementClass (klass nr)); [|exact HtoParent].
    rewrite bind_read, (getChildrenSize_view _ _ _ _ Hr Hn). apply Point_set_step.
  - destruct nextSibling as [rn|]; [|exact HtoParent].
    destruct (Hnext rn eq_refl) as (nr & Hr).
    rewrite bind_read, (deref_eq _ _ _ Hr).
    destruct (isTextClass (klass nr)); [apply Point_set_step|].
    destruct (isElementClass (klass nr)); [apply Point_set_step | exact HtoParent].
Qed.

(** *** The child list, as the walks see it *)

Lemma linked_next_chain v p cs : linked v p cs → next_chain v (head cs) cs.
Proof.
  intros Hlink.
  assert (H : ∀ m j, m = (length cs - j)%nat → next_chain v (cs !! j) (drop j cs)).
  { induction m as [|m IH]; intros j Hm.
    - rewrite lookup_ge_None_2, drop_ge by lia. constructor.
    - destruct (cs !! j) as [c|] eqn:Hj; [|apply lookup_ge_None in Hj; lia].
      destruct (Hlink _ _ Hj) as (nc & Hc & _ & _ & Hnx).
      rewrite (drop_S _ _ _ Hj). econstructor; [exact Hc|].
      rewrite Hnx. apply IH. lia. }
  specialize (H _ 0%nat eq_refl). rewrite drop_0, <- head_lookup in H. exact H.
Qed.

Lemma index_of_lookup cs : ∀ i k,
  NoDup cs → cs !! i = Some k → index_of k cs = Some i.
Proof.
  induction cs as [|c cs IH]; intros i k Hnd Hi; [discriminate|].
  apply NoDup_cons in Hnd as (Hc & Hnd). cbn [index_of].
  destruct i as [|i]; simpl in Hi.
  - inversion Hi; subst. rewrite bool_decide_eq_true_2 by reflexivity. reflexivity.
  - rewrite bool_decide_eq_false_2.
    + rewrite (IH _ _ Hnd Hi). reflexivity.
    + intros ->. apply Hc. eapply list_elem_of_lookup_2; eauto.
Qed.

Lemma children_bounded v p np cs :
  children_ok v p np cs → (length cs ≤ size v)%nat.
Proof.
  intros (Hlink & Hnd & _).
  rewrite <- (size_list_to_set (C := gset NodeKey) cs) by exact Hnd.
  rewrite <- size_dom. apply subseteq_size.
  intros c Hc. apply elem_of_list_to_set in Hc. apply list_elem_of_lookup in Hc as (j & Hj).
  destruct (Hlink _ _ Hj) as (nc & Hnc & _). apply elem_of_dom. eauto.
Qed.

Lemma detach_size v k : size (detach v k) = size v.
Proof.
  rewrite <- !size_dom. f_equal. unfold detach.
  destruct (v !! k) as [n|]; [|reflexivity].
  destruct (__parent n) as [p|]; [|reflexivity].
  destruct (__prev n), (__next n); rewrite !dom_alter_L; reflexivity.
Qed.

(** The index of a node of a well-formed document within its parent. *)
Lemma getIndexWithinParent_well_formed s fuel this nt n p :
  good s → well_formed (view s) →
  heap s !! this = Some nt → view s !! __key nt = Some n → __parent n = Some p →
  (size (view s) < fuel)%nat →
  ∃ i, getIndexWithinParent fuel this s = Ret (Z.of_nat i).
Proof.
  intros (Hok & _) Hwf Ht Hn Hp Hf.
  destruct (well_formed_child _ _ _ _ Hwf Hn Hp)
    as (np & cs & i0 & Hnp & _ & _ & Hch & Hi0 & _).
  pose proof (children_bounded _ _ _ _ Hch) as Hlen.
  destruct Hch as (Hlink & Hnd & Hfirst & _).
  exists i0.
  apply (getIndexWithinParent_spec s fuel this nt n p np cs i0 Hok Ht Hn Hp Hnp).
  - rewrite Hfirst. eapply linked_next_chain; eauto.
  - apply index_of_lookup; assumption.
  - apply lookup_lt_Some in Hi0. lia.
Qed.

Lemma detach_ancestors_other v k n p :
  well_formed v → v !! k = Some n → __parent n = Some p →
  ∀ x l, ancestors v x l → k ∉ x :: l → ancestors (detach v k) x l.
Proof.
  intros Hwf Hn Hp x l Hanc.
  induction Hanc as [x nx Hx Hpx | x nx q l Hx Hpx Hanc IH]; intros Hk.
  - destruct (detach_node_to _ _ _ _ _ _ Hwf Hn Hp Hx) as (nx' & Hx').
    destruct (detach_node_of _ _ _ _ _ _ Hwf Hn Hp Hx') as (nx0 & Hx0 & _ & Hpar & _).
    rewrite Hx in Hx0. inversion Hx0; subst nx0.
    eapply ancestors_top; [exact Hx'|]. rewrite Hpar; [exact Hpx|].
    intros ->. apply Hk. left.
  - destruct (detach_node_to _ _ _ _ _ _ Hwf Hn Hp Hx) as (nx' & Hx').
    destruct (detach_node_of _ _ _ _ _ _ Hwf Hn Hp Hx') as (nx0 & Hx0 & _ & Hpar & _).
    rewrite Hx in Hx0. inversion Hx0; subst nx0.
    eapply ancestors_up; [exact Hx' | | apply IH].
    + rewrite Hpar; [exact Hpx|]. intros ->. apply Hk. left.
    + intros Hin. apply Hk. right. exact Hin.
Qed.

Lemma latest_ref_valid s x r :
  good s → _nodeMap s !! x = Some r →
  ∃ nr, heap s !! r = Some nr ∧ __key nr = x ∧ view s !! __key nr = Some nr.
Proof.
  intros (Hok & _) Hr. destruct (Hok _ _ Hr) as (nr & Hnr & Hk).
  exists nr. split; [exact Hnr|]. split; [exact Hk|]. rewrite Hk. eapply view_eq; eauto.
Qed.

Lemma isRootNode_eq r s n :
  heap s !! r = Some n → isRootNode r s = Ret (isRootClass (klass n)).
Proof. intros H. unfold isRootNode. rewrite (bindR_ret _ _ _ _ (field_eq klass _ _ _ H)). reflexivity. Qed.

Lemma isEmpty_view this s nt n :
  heap s !! this = Some nt → view s !! __key nt = Some n →
  isEmpty this s = Ret (bool_decide (__size n = 0)).
Proof.
  intros Ht Hn. unfold isEmpty.
  rewrite (bindR_ret _ _ _ _ (getChildrenSize_view _ _ _ _ Ht Hn)). reflexivity.
Qed.

(** *** What the cleanup leaves *)

Lemma cleanup_keeps_detached v k b v' removed emptied :
  cleanup v k b v' removed emptied →
  ∀ x nx, v !! x = Some nx → __parent nx = None →
  ∃ nx', v' !! x = Some nx' ∧ __parent nx' = None.
Proof.
  induction 1 as [v k n b Hn Hp | v k n p np' b Hn Hp Hnp' Hstay
                  | v k n p np' b v' removed emptied Hn Hp Hnp' _ _ _ _ _ IH];
    intros x nx Hx Hpx.
  - eauto.
  - eapply detach_keeps_detached; eauto.
  - destruct (detach_keeps_detached v k x nx Hx Hpx) as (nx1 & Hx1 & Hpx1). eauto.
Qed.

(** The nodes that the cleanup removes have no parent afterwards. *)
Lemma cleanup_removed_detached v k b v' removed emptied :
  cleanup v k b v' removed emptied → well_formed v →
  ∀ x, x ∈ removed → ∃ nx, v' !! x = Some nx ∧ __parent nx = None.
Proof.
  induction 1 as [v k n b Hn Hp | v k n p np' b Hn Hp Hnp' Hstay
                  | v k n p np' b v' removed emptied Hn Hp Hnp' _ _ _ _ Hclean IH];
    intros Hwf x Hx.
  - apply elem_of_nil in Hx as [].
  - apply list_elem_of_singleton in Hx as ->.
    rewrite (detach_at_node _ _ _ _ Hwf Hn Hp). eexists. split; reflexivity.
  - apply elem_of_cons in Hx as [->|Hx].
    + eapply cleanup_keeps_detached; [exact Hclean | |].
      * apply (detach_at_node _ _ _ _ Hwf Hn Hp).
      * reflexivity.
    + apply IH; [|exact Hx]. eapply detach_well_formed; eauto.
Qed.

(** The cleanup removes no root but the node it is asked to remove. *)
Lemma cleanup_spares_root v k b v' removed emptied :
  cleanup v k b v' removed emptied → well_formed v →
  ∀ x nx, x ∈ removed → x ≠ k → v !! x = Some nx → klass nx ≠ RootNode.
Proof.
  induction 1 as [v k n b Hn Hp | v k n p np' b Hn Hp Hnp' Hstay
                  | v k n p np' b v' removed emptied Hn Hp Hnp' _ Hkl _ _ Hclean IH];
    intros Hwf x nx Hx Hxk Hnx.
  - apply elem_of_nil in Hx as [].
  - apply list_elem_of_singleton in Hx. contradiction.
  - apply elem_of_cons in Hx as [->|Hx]; [contradiction|].
    destruct (detach_node_to _ _ _ _ _ _ Hwf Hn Hp Hnx) as (nx' & Hnx').
    destruct (detach_node_of _ _ _ _ _ _ Hwf Hn Hp Hnx') as (nx0 & Hnx0 & (_ & Hklx & _) & _).
    rewrite Hnx in Hnx0. inversion Hnx0; subst nx0. rewrite <- Hklx.
    destruct (decide (x = p)) as [->|Hxp].
    + rewrite Hnp' in Hnx'. inversion Hnx'; subst nx'. exact Hkl.
    + eapply IH; eauto. eapply detach_well_formed; eauto.
Qed.

(** The root that the cleanup reports as emptied is there, and is empty. *)
Lemma cleanup_emptied_root v k b v' removed emptied :
  cleanup v k b v' removed emptied →
  ∀ kr, emptied = Some kr →
  ∃ nr, v' !! kr = Some nr ∧ klass nr = RootNode ∧ __size nr = 0.
Proof.
  induction 1 as [v k n b Hn Hp | v k n p np' b Hn Hp Hnp' Hstay
                  | v k n p np' b v' removed emptied Hn Hp Hnp' _ _ _ _ _ IH];
    intros kr Hkr.
  - discriminate.
  - destruct (isRootClass (klass np')) eqn:Hr; [|discriminate].
    destruct (bool_decide (__size np' = 0)) eqn:He; [|discriminate].
    inversion Hkr; subst kr. apply bool_decide_eq_true in He.
    exists np'. split; [exact Hnp'|]. split; [|exact He].
    destruct (klass np'); try discriminate. reflexivity.
  - apply IH. exact Hkr.
Qed.

Section Cleanup.

Variable internalMakeRangeSelection :
  NodeKey → Z → NodeKey → Z → PointKind → PointKind → SelectionHelper RangeSelection.
Variable updateElementSelectionOnCreateDeleteNode : Ref → Z → Z → PointMover.
Variable TextNode_select : Ref → option Z → option Z → M RangeSelection.

Local Abbreviation removeNode' := (removeNode internalMakeRangeSelection
  updateElementSelectionOnCreateDeleteNode TextNode_select).
Local Abbreviation remove' := (remove internalMakeRangeSelection
  updateElementSelectionOnCreateDeleteNode TextNode_select).
Local Abbreviation selectEnd' := (selectEnd internalMakeRangeSelection TextNode_select).
Local Abbreviation select' := (select internalMakeRangeSelection).

Lemma select_step s this nt n :
  good s → heap s !! this = Some nt → view s !! __key nt = Some n →
  ∃ r s', select' this None None s = (Ret r, s')
    ∧ selection_only s s'
    ∧ (is_Some (_selection s) →
       _selection s' = Some (selection_at_end (__key nt) (__size n))).
Proof.
  intros (Hok & Hro) Ht Hn. unfold select.
  rewrite (seq_ret _ _ _ _ _ (errorOnReadOnly_open _ Hro)).
  unfold bind at 1, mbind at 1, M_bind at 1, gets at 1.
  rewrite bind_read, (getChildrenSize_view _ _ _ _ Ht Hn).
  rewrite bind_read, (field_eq __key _ _ _ Ht). cbn [default].
  destruct (_selection s) as [sel|] eqn:Hsel.
  - unfold Point_set, modify, gets, bind, mbind, M_bind, mret, M_ret. cbn.
    rewrite Hsel. cbn.
    eexists _, _. split; [reflexivity|]. split.
    + eexists. split; [reflexivity | eauto].
    + intros _. reflexivity.
  - unfold runHelper.
    destruct (internalMakeRangeSelection (__key nt) (__size n) (__key nt) (__size n) element element s)
      as [r sel'] eqn:Hmk.
    exists r, (set_selection sel' s). split; [reflexivity|]. split.
    + exists sel'. split; [reflexivity|]. rewrite Hsel. intros [? ?]; discriminate.
    + intros [? ?]; discriminate.
Qed.

Lemma selectEnd_empty_step s fuel this nt n :
  good s → heap s !! this = Some nt → view s !! __key nt = Some n → __last n = None →
  ∃ r s', selectEnd' fuel this s = (Ret r, s')
    ∧ selection_only s s'
    ∧ (is_Some (_selection s) →
       _selection s' = Some (selection_at_end (__key nt) (__size n))).
Proof.
  intros Hgood Ht Hn Hlast. unfold selectEnd.
  rewrite bind_read. unfold getLastDescendant.
  rewrite (bindR_ret _ _ _ _ (getLastChild_view _ _ _ _ Ht Hn)), Hlast. cbn [mbind option_bind].
  replace (getDescendant_loop fuel getLastChild None s) with (Ret (@None Ref) : Outcome (option Ref))
    by (destruct fuel; reflexivity).
  apply select_step; assumption.
Qed.

(** [removeNode] refines the cleanup of the spec on a well-formed document. *)
Lemma removeNode_refines l : ∀ fuel s this nt n restoreSelection preserveEmptyParent,
  good s → well_formed (view s) →
  heap s !! this = Some nt → view s !! __key nt = Some n →
  ancestors (view s) (__key nt) l → (length l + size (view s) < fuel)%nat →
  ∃ s' removed emptied,
    removeNode' fuel this restoreSelection preserveEmptyParent s = (Ret tt, s')
    ∧ good s' ∧ well_formed (view s')
    ∧ cleanup (view s) (__key nt) preserveEmptyParent (view s') removed emptied
    ∧ heap_ext s s'
    ∧ (is_Some (_selection s) → is_Some (_selection s'))
    ∧ (∀ kr, emptied = Some kr → is_Some (_selection s) →
         _selection s' = Some (selection_at_end kr 0)).
Proof.
  induction l as [|p l IH];
    intros fuel s this nt n restore preserve Hgood Hwf Ht Hn Hanc Hfuel;
    (destruct fuel as [|fuel]; [simpl in Hfuel; lia|]).
  - (* the node has no parent *)
    inversion Hanc as [? n' Hn' Hp|]; subst. rewrite Hn in Hn'. inversion Hn'; subst n'.
    exists s, [], None. destruct Hgood as (Hok & Hro).
    split.
    { cbn [removeNode]. rewrite (seq_ret _ _ _ _ _ (errorOnReadOnly_open _ Hro)).
      rewrite bind_read, (field_eq __key _ _ _ Ht).
      rewrite bind_read, (getParent_view _ _ _ _ Ht Hn), Hp. reflexivity. }
    split; [split; assumption|]. split; [exact Hwf|].
    split; [eapply cleanup_detached; eauto|]. split; [apply heap_ext_refl|].
    split; [auto | intros kr Hkr; discriminate].
  - (* the node has the parent [p] *)
    inversion Hanc as [|? n' p' l' Hn' Hp Hancp]; subst.
    rewrite Hn in Hn'. inversion Hn'; subst n'.
    assert (Hsize : (size (view s) < fuel)%nat) by (cbn [length] in Hfuel; lia).
    set (k := __key nt) in *. set (v := view s) in *.
    destruct (well_formed_child _ _ _ _ Hwf Hn Hp)
      as (np & cs & i0 & Hnp & Hel & Hcfp & Hch & Hi0 & Hpk & Hpcs & Hprev & Hnext).
    destruct (good_latest _ _ _ Hgood Hnp) as (rp & Hrp & Hhp & Hkp).
    destruct (Hwf _ _ Hn) as (Hcfn & _).
    pose proof Hgood as (Hok & Hro).
    cbn [removeNode]. rewrite (seq_ret _ _ _ _ _ (errorOnReadOnly_open _ Hro)).
    rewrite bind_read, (field_eq __key _ _ _ Ht). fold k.
    rewrite bind_read, (getParent_view _ _ _ _ Ht Hn), Hp. cbn [mbind option_bind]. rewrite Hrp.
    unfold bind at 1, mbind at 1, M_bind at 1, gets at 1.
    (* moving the selection off the node *)
    assert (Hmove : ∀ which s0, selection_only s s0 →
      ∃ s1,
        (let* prevSibling := read (getPreviousSibling this) in
         let* nextSibling := read (getNextSibling this) in
         moveSelectionPointToSibling fuel which (Some this) rp prevSibling nextSibling ;;
         mret true) s0 = (Ret true, s1)
        ∧ selection_only s0 s1).
    { intros which s0 Hs0.
      pose proof (selection_only_good _ _ Hs0 Hgood) as Hgood0.
      pose proof (selection_only_heap _ _ Hs0) as Hheap0.
      pose proof (selection_only_view _ _ Hs0) as Hview0.
      assert (Ht0 : heap s0 !! this = Some nt) by (rewrite Hheap0; exact Ht).
      assert (Hn0 : view s0 !! __key nt = Some n) by (rewrite Hview0; exact Hn).
      rewrite bind_read, (getPreviousSibling_view _ _ _ _ Ht0 Hn0).
      rewrite bind_read, (getNextSibling_view _ _ _ _ Ht0 Hn0).
      destruct (moveSelectionPointToSibling_step s0 fuel which (Some this) rp
                  (__prev n ≫= λ x, _nodeMap s0 !! x) (__next n ≫= λ x, _nodeMap s0 !! x)
                  np np) as (s1 & Hrun1 & Hs1).
      - destruct (getIndexWithinParent_well_formed s0 fuel this nt n p Hgood0) as (i & Hi);
          try assumption; try (rewrite Hview0; assumption). eauto.
      - rewrite Hheap0. exact Hhp.
      - rewrite Hview0, Hkp. exact Hnp.
      - intros r Hr. destruct (__prev n) as [x|]; [|discriminate]. cbn in Hr.
        destruct (latest_ref_valid _ _ _ Hgood0 Hr) as (nr & Hnr & _ & Hv). eauto.
      - intros r Hr. destruct (__next n) as [x|]; [|discriminate]. cbn in Hr.
        destruct (latest_ref_valid _ _ _ Hgood0 Hr) as (nr & Hnr & _). eauto.
      - exists s1. rewrite (seq_ret _ _ _ _ _ Hrun1). split; [reflexivity | exact Hs1]. }
    assert (Hblock : ∃ b sa,
      (match _selection s with
       | Some sel =>
         if restore then
           let* anchorMoved :=
             if bool_decide (key (anchor sel) = k) then
               let* prevSibling := read (getPreviousSibling this) in
               let* nextSibling := read (getNextSibling this) in
               moveSelectionPointToSibling fuel Anchor (Some this) rp prevSibling nextSibling ;;
               mret true
             else mret false in
           let* focusMoved :=
             if bool_decide (key (focus sel) = k) then
               let* prevSibling := read (getPreviousSibling this) in
               let* nextSibling := read (getNextSibling this) in
               moveSelectionPointToSibling fuel Focus (Some this) rp prevSibling nextSibling ;;
               mret true
             else mret false in
           mret (anchorMoved || focusMoved)
         else mret false
       | None => mret false
       end) s = (Ret b, sa) ∧ selection_only s sa).
    { destruct (_selection s) as [sel|];
        [|eexists _, _; split; [reflexivity | apply selection_only_refl]].
      destruct restore; [|eexists _, _; split; [reflexivity | apply selection_only_refl]].
      assert (Ha : ∃ b sa,
        (if bool_decide (key (anchor sel) = k) then
           let* prevSibling := read (getPreviousSibling this) in
           let* nextSibling := read (getNextSibling this) in
           moveSelectionPointToSibling fuel Anchor (Some this) rp prevSibling nextSibling ;;
           mret true
         else mret false) s = (Ret b, sa) ∧ selection_only s sa).
      { destruct (bool_decide (key (anchor sel) = k)).
        - destruct (Hmove Anchor s (selection_only_refl s)) as (s1 & Hrun & Hs1). eauto.
        - eexists _, _; split; [reflexivity | apply selection_only_refl]. }
      destruct Ha as (ba & sa & Hruna & Hsa).
      rewrite (bind_ret _ _ _ _ _ Hruna).
      assert (Hf : ∃ b sb,
        (if bool_decide (key (focus sel) = k) then
           let* prevSibling := read (getPreviousSibling this) in
           let* nextSibling := read (getNextSibling this) in
           moveSelectionPointToSibling fuel Focus (Some this) rp prevSibling nextSibling ;;
           mret true
         else mret false) sa = (Ret b, sb) ∧ selection_only sa sb).
      { destruct (bool_decide (key (focus sel) = k)).
        - destruct (Hmove Focus sa Hsa) as (s1 & Hrun & Hs1). eauto.
        - eexists _, _; split; [reflexivity | apply selection_only_refl]. }
      destruct Hf as (bf & sb & Hrunf & Hsb).
      rewrite (bind_ret _ _ _ _ _ Hrunf).
      eexists _, _. split; [reflexivity|]. eapply selection_only_trans; eauto. }
    destruct Hblock as (moved & sa & Hruna & Hsa).
    rewrite (bind_ret _ _ _ _ _ Hruna).
    pose proof (selection_only_good _ _ Hsa Hgood) as Hgooda.
    pose proof (selection_only_heap _ _ Hsa) as Hheapa.
    pose proof (selection_only_view _ _ Hsa) as Hviewa.
    assert (Hta : heap sa !! this = Some nt) by (rewrite Hheapa; exact Ht).
    assert (Hna : view sa !! __key nt = Some n) by (rewrite Hviewa; exact Hn).
    (* the index of the node within its parent *)
    destruct (getIndexWithinParent_well_formed sa fuel this nt n p Hgooda) as (i & Hi);
      try assumption; try (rewrite Hviewa; assumption).
    rewrite bind_read, Hi.
    rewrite (bool_decide_eq_false_2 (Z.of_nat i = -1)) by lia.
    rewrite (seq_ret _ _ _ _ _ (eq_refl : (mret tt : M unit) sa = (Ret tt, sa))).
    (* the node is detached *)
    destruct (getWritable_step sa this nt n Hgooda Hta Hna Hcfn)
      as (w & sb & Hrunb & Hgoodb & Hviewb & Hwb & _ & Hselb & Hextb).
    rewrite (bind_ret _ _ _ _ _ Hrunb).
    destruct (latest_ref_valid _ _ _ Hgoodb Hwb) as (nw & Hnw & Hkw & Hvw).
    assert (Hnb : view sb !! __key nw = Some n) by (rewrite Hkw, Hviewb; exact Hna).
    assert (Hwfb : well_formed (view sb)) by (rewrite Hviewb, Hviewa; exact Hwf).
    destruct (removeFromParent_step sb w nw n p Hgoodb Hwfb Hnw Hnb Hp)
      as (sc & Hrunc & Hgoodc & Hviewc & Hselc & Hextc).
    rewrite (seq_ret _ _ _ _ _ Hrunc).
    rewrite Hkw, Hviewb, Hviewa in Hviewc. fold k v in Hviewc.
    (* the selection of the parent follows *)
    assert (Hmover : ∃ sd,
      (if bool_decide (is_Some (_selection s)) && restore && negb moved
       then runMover (updateElementSelectionOnCreateDeleteNode rp (Z.of_nat i) (-1))
       else mret tt) sc = (Ret tt, sd) ∧ selection_only sc sd).
    { destruct (bool_decide (is_Some (_selection s)) && restore && negb moved).
      - apply runMover_step.
      - exists sc. split; [reflexivity | apply selection_only_refl]. }
    destruct Hmover as (sd & Hrund & Hsd).
    rewrite (seq_ret _ _ _ _ _ Hrund).
    pose proof (selection_only_good _ _ Hsd Hgoodc) as Hgoodd.
    pose proof (selection_only_heap _ _ Hsd) as Hheapd.
    pose proof (selection_only_view _ _ Hsd) as Hviewd.
    rewrite Hviewc in Hviewd.
    assert (Hwfd : well_formed (view sd)).
    { rewrite Hviewd. eapply detach_well_formed; eauto. }
    assert (Hextd : heap_ext s sd).
    { eapply heap_ext_trans; [apply heap_ext_same; exact Hheapa|].
      eapply heap_ext_trans; [exact Hextb|].
      eapply heap_ext_trans; [exact Hextc|]. apply heap_ext_same. exact Hheapd. }
    assert (Hseld : is_Some (_selection s) → is_Some (_selection sd)).
    { intros H. apply (selection_only_is_Some _ _ Hsd). rewrite Hselc, Hselb.
      apply (selection_only_is_Some _ _ Hsa). exact H. }
    (* the parent after the detachment *)
    destruct (heap_ext_key _ _ _ _ Hextd Hhp) as (nrp & Hhpd & Hkpd & Hklpd & Hcbpd).
    pose proof (detach_at_parent _ _ _ _ _ Hwf Hn Hp Hnp) as Hnp'.
    assert (Hnpd : view sd !! __key nrp = Some (detach_parent n np)).
    { rewrite Hviewd, Hkpd, Hkp. exact Hnp'. }
    rewrite bind_read, (isRootNode_eq _ _ _ Hhpd), Hklpd. cbv beta iota.
    assert (Hsz : __size (detach_parent n np) = __size np - 1) by apply detach_parent_size.
    assert (Hobj : klass (detach_parent n np) = klass np
                   ∧ can_be_empty (detach_parent n np) = can_be_empty np).
    { unfold detach_parent. destruct (__prev n), (__next n); split; reflexivity. }
    destruct Hobj as (Hklp' & Hcbp').
    assert (HrootK : ∀ c, isRootClass c = true ↔ c = RootNode).
    { intros c. destruct c; split; intros H; try reflexivity; discriminate. }
    (* whether the parent is removed too *)
    destruct (negb preserve && negb (isRootClass (klass np))
              && negb (can_be_empty np)
              && bool_decide (__size (detach_parent n np) = 0)) eqn:Hup.
    + (* the parent is removed *)
      apply andb_prop in Hup as (Hup & Hempty). apply andb_prop in Hup as (Hup & Hcbe).
      apply andb_prop in Hup as (Hpres & Hroot).
      apply negb_true_iff in Hpres, Hroot, Hcbe. apply bool_decide_eq_true in Hempty.
      assert (Hancd : ancestors (view sd) (__key nrp) l).
      { rewrite Hviewd, Hkpd, Hkp. eapply detach_ancestors_other; eauto.
        pose proof (ancestors_NoDup _ _ _ Hanc) as Hnd.
        apply NoDup_cons in Hnd as (Hnd & _). exact Hnd. }
      destruct (IH fuel sd rp nrp (detach_parent n np) restore false Hgoodd Hwfd Hhpd Hnpd Hancd)
        as (s' & removed & emptied & Hrun' & Hgood' & Hwf' & Hclean & Hext' & Hsel' & Hroot').
      { rewrite Hviewd, detach_size. cbn [length] in Hfuel. fold v. lia. }
      assert (Hrune :
        (if preserve then mret tt
         else if isRootClass (klass np) then mret tt
         else
           let* parentCanBeEmpty := read (canBeEmpty rp) in
           if parentCanBeEmpty then mret tt
           else
             let* parentIsEmpty := read (isEmpty rp) in
             if parentIsEmpty then removeNode' fuel rp restore false
             else mret tt) sd = (Ret tt, s')).
      { rewrite Hpres, Hroot.
        rewrite bind_read. unfold canBeEmpty at 1. rewrite (field_eq can_be_empty _ _ _ Hhpd).
        rewrite Hcbpd, Hcbe.
        rewrite bind_read, (isEmpty_view _ _ _ _ Hhpd Hnpd).
        rewrite (bool_decide_eq_true_2 _ Hempty). exact Hrun'. }
      rewrite (seq_ret _ _ _ _ _ Hrune), Hroot.
      exists s', (k :: removed), emptied.
      split; [reflexivity|]. split; [exact Hgood'|]. split; [exact Hwf'|].
      split.
      { rewrite Hviewd, Hkpd, Hkp in Hclean.
        eapply cleanup_up; eauto.
        rewrite Hklp'. intros H. apply HrootK in H. congruence. }
      split; [eapply heap_ext_trans; eauto|].
      split; [intros H; apply Hsel', Hseld, H|].
      intros kr Hkr H. apply (Hroot' kr Hkr). apply Hseld. exact H.
    + (* the parent stays *)
      assert (Hstay : preserve = true ∨ klass (detach_parent n np) = RootNode
                      ∨ can_be_empty (detach_parent n np) = true
                      ∨ __size (detach_parent n np) ≠ 0).
      { rewrite Hklp', Hcbp'. destruct preserve; [left; reflexivity|].
        destruct (isRootClass (klass np)) eqn:Hr; [right; left; apply HrootK; exact Hr|].
        destruct (can_be_empty np); [right; right; left; reflexivity|].
        right; right; right. cbn [negb andb] in Hup. apply bool_decide_eq_false in Hup. exact Hup. }
      assert (Hrune :
        (if preserve then mret tt
         else if isRootClass (klass np) then mret tt
         else
           let* parentCanBeEmpty := read (canBeEmpty rp) in
           if parentCanBeEmpty then mret tt
           else
             let* parentIsEmpty := read (isEmpty rp) in
             if parentIsEmpty then removeNode' fuel rp restore false
             else mret tt) sd = (Ret tt, sd)).
      { destruct preserve; [reflexivity|].
        destruct (isRootClass (klass np)) eqn:Hr; [reflexivity|].
        rewrite bind_read. unfold canBeEmpty at 1. rewrite (field_eq can_be_empty _ _ _ Hhpd).
        rewrite Hcbpd. destruct (can_be_empty np) eqn:Hcbe; [reflexivity|].
        rewrite bind_read, (isEmpty_view _ _ _ _ Hhpd Hnpd).
        cbn [negb andb] in Hup. rewrite Hup. reflexivity. }
      rewrite (seq_ret _ _ _ _ _ Hrune).
      assert (Hclean : cleanup v k preserve (detach v k) [k]
        (if isRootClass (klass (detach_parent n np))
            && bool_decide (__size (detach_parent n np) = 0) then Some p else None)).
      { eapply cleanup_stop; eauto. }
      rewrite Hklp' in Hclean.
      destruct (isRootClass (klass np)) eqn:Hr.
      * (* the parent is the root *)
        cbv beta iota. rewrite bind_read, (isEmpty_view _ _ _ _ Hhpd Hnpd).
        destruct (bool_decide (__size (detach_parent n np) = 0)) eqn:He.
        -- apply bool_decide_eq_true in He.
           assert (Hlastd : __last (detach_parent n np) = None).
           { destruct (Hwfd _ _ Hnpd) as (_ & (cs' & Hch') & _).
             destruct Hch' as (_ & _ & _ & Hl & Hs & _). rewrite Hl.
             destruct cs'; [reflexivity|]. rewrite He in Hs. simpl in Hs. lia. }
           destruct (selectEnd_empty_step sd fuel rp nrp _ Hgoodd Hhpd Hnpd Hlastd)
             as (r & se & Hrunse & Hse & Hselse).
           cbv beta iota. rewrite (seq_ret _ _ _ _ _ Hrunse).
           exists se, [k], (Some p).
           split; [reflexivity|].
           split; [eapply selection_only_good; eauto|].
           split; [rewrite (selection_only_view _ _ Hse); exact Hwfd|].
           split; [rewrite (selection_only_view _ _ Hse), Hviewd; exact Hclean|].
           split; [eapply heap_ext_trans; [exact Hextd|];
                   apply heap_ext_same; apply (selection_only_heap _ _ Hse)|].
           split; [intros H; apply (selection_only_is_Some _ _ Hse), Hseld, H|].
           intros kr Hkr H. inversion Hkr; subst kr.
           rewrite (Hselse (Hseld H)), Hkpd, Hkp, He. reflexivity.
        -- exists sd, [k], None.
           split; [reflexivity|]. split; [exact Hgoodd|]. split; [exact Hwfd|].
           split; [rewrite Hviewd; exact Hclean|]. split; [exact Hextd|].
           split; [exact Hseld | intros kr Hkr; discriminate].
      * exists sd, [k], None.
        split; [reflexivity|]. split; [exact Hgoodd|]. split; [exact Hwfd|].
        split; [rewrite Hviewd; exact Hclean|]. split; [exact Hextd|].
        split; [exact Hseld | intros kr Hkr; discriminate].
Qed.

(** C8.  In an open update over a well-formed document, [removeNode] and
    [remove] return, given fuel for the chain of ancestors and the size of
    the document, and what they do to the document is the cleanup of the
    spec: the node is detached; while the parent thereby becomes empty, is
    not the root, may not be empty, and (for the parent of the node itself)
    is not kept by [preserveEmptyParent], it is detached too.  The document
    stays well formed, the removed nodes have no parent, none of the removed
    parents is a root, and a root that has become empty stays in the
    document with a range selection, if there is one, moved to its end. *)
Theorem remove_cleans_up_empty_parents s fuel this nt n l restoreSelection preserveEmptyParent :
  readOnly s = false → store_ok s → well_formed (view s) →
  heap s !! this = Some nt → view s !! __key nt = Some n →
  ancestors (view s) (__key nt) l → (length l + size (view s) < fuel)%nat →
  ∃ s' removed emptied,
    removeNode' fuel this restoreSelection preserveEmptyParent s = (Ret tt, s')
    ∧ (restoreSelection = true → remove' fuel this preserveEmptyParent s = (Ret tt, s'))
    ∧ cleanup (view s) (__key nt) preserveEmptyParent (view s') removed emptied
    ∧ well_formed (view s')
    ∧ (∀ x, x ∈ removed → ∃ nx, view s' !! x = Some nx ∧ __parent nx = None)
    ∧ (∀ x nx, x ∈ removed → x ≠ __key nt → view s !! x = Some nx → klass nx ≠ RootNode)
    ∧ (∀ kr, emptied = Some kr →
         (∃ nr, view s' !! kr = Some nr ∧ klass nr = RootNode ∧ __size nr = 0)
         ∧ (is_Some (_selection s) → _selection s' = Some (selection_at_end kr 0))).
Proof.
  intros Hro Hok Hwf Ht Hn Hanc Hfuel.
  destruct (removeNode_refines l fuel s this nt n restoreSelection preserveEmptyParent
              (conj Hok Hro) Hwf Ht Hn Hanc Hfuel)
    as (s' & removed & emptied & Hrun & _ & Hwf' & Hclean & _ & _ & Hsel).
  exists s', removed, emptied.
  split; [exact Hrun|]. split.
  { intros ->. unfold remove. rewrite (seq_ret _ _ _ _ _ (errorOnReadOnly_open _ Hro)).
    exact Hrun. }
  split; [exact Hclean|]. split; [exact Hwf'|].
  split; [eapply cleanup_removed_detached; eauto|].
  split; [eapply cleanup_spares_root; eauto|].
  intros kr Hkr. split; [eapply cleanup_emptied_root; eauto | apply Hsel; exact Hkr].
Qed.

End Cleanup.

Lemma document_view_inv objects selection k n :
  view (document objects selection) !! k = Some n →
  ∃ i, objects !! i = Some n ∧ __key n = k.
Proof.
  intros Hv. destruct (view_inv _ _ _ Hv) as (r & Hr & Hn).
  cbn [document _nodeMap heap] in *.
  apply elem_of_list_to_map_2 in Hr.
  apply elem_of_lookup_imap in Hr as (i & n' & Heq & Hn').
  inversion Heq; subst. rewrite Hn in Hn'. inversion Hn'; subst n'.
  exists i. split; [exact Hn | reflexivity].
Qed.

Lemma well_formed_doc_Q : well_formed (view doc_Q_caret).
Proof.
  assert (Hroot : ancestors (view doc_Q_caret) "root" []).
  { eapply ancestors_top; [vm_compute; reflexivity | reflexivity]. }
  assert (HQ : ancestors (view doc_Q_caret) "Q" ["root"]).
  { eapply ancestors_up; [vm_compute; reflexivity | reflexivity | exact Hroot]. }
  assert (Hchildren : ∀ p c nc, view doc_Q_caret !! c = Some nc → __parent nc = Some p →
            (p = "root" ∧ c = "Q") ∨ (p = "Q" ∧ c = "A")).
  { intros p c nc Hc Hp. apply document_view_inv in Hc as (i & Hi & Hk).
    destruct i as [|[|[|i]]]; cbn in Hi; inversion Hi; subst; cbn in Hp;
      inversion Hp; subst; auto. }
  intros k n Hv. destruct (document_view_inv _ _ _ _ Hv) as (i & Hi & Hk).
  destruct i as [|[|[|i]]]; cbn in Hi; inversion Hi; subst; clear Hi;
    cbn [__key elementObject textObject].
  - (* root *)
    split; [repeat split|]. split; [|split].
    + exists ["Q"]. split; [|split; [|repeat split]].
      * intros [|i] c Hc; [|discriminate]. inversion Hc; subst.
        eexists. split; [vm_compute; reflexivity | repeat split].
      * apply NoDup_singleton.
      * intros c nc Hc Hp. destruct (Hchildren _ _ _ Hc Hp) as [(_ & ->)|(Heq & _)];
          [apply list_elem_of_singleton; reflexivity | discriminate].
    + exists []. exact Hroot.
    + intros p Hp. discriminate.
  - (* Q *)
    split; [repeat split|]. split; [|split].
    + exists ["A"]. split; [|split; [|repeat split]].
      * intros [|i] c Hc; [|discriminate]. inversion Hc; subst.
        eexists. split; [vm_compute; reflexivity | repeat split].
      * apply NoDup_singleton.
      * intros c nc Hc Hp. destruct (Hchildren _ _ _ Hc Hp) as [(Heq & _)|(_ & ->)];
          [discriminate | apply list_elem_of_singleton; reflexivity].
    + exists ["root"]. exact HQ.
    + intros p Hp. inversion Hp; subst. eexists. split; [vm_compute; reflexivity | reflexivity].
  - (* A *)
    split; [repeat split|]. split; [|split].
    + exists []. split; [|split; [|repeat split]].
      * intros i c Hc. discriminate.
      * apply NoDup_nil_2.
      * intros c nc Hc Hp. destruct (Hchildren _ _ _ Hc Hp) as [(Heq & _)|(Heq & _)];
          discriminate.
    + exists ["Q"; "root"].
      eapply ancestors_up; [vm_compute; reflexivity | reflexivity | exact HQ].
    + intros p Hp. inversion Hp; subst. eexists. split; [vm_compute; reflexivity | reflexivity].
Qed.

Lemma remove_cleans_up_empty_parents_witness :
  ∃ s' removed emptied,
    removeNode makeRangeSelection (λ _ _ _, keepPoints) noTextSelect 20 2%nat true false
      doc_Q_caret = (Ret tt, s')
    ∧ (true = true →
       remove makeRangeSelection (λ _ _ _, keepPoints) noTextSelect 20 2%nat false
         doc_Q_caret = (Ret tt, s'))
    ∧ cleanup (view doc_Q_caret) "A" false (view s') removed emptied
    ∧ well_formed (view s')
    ∧ (∀ x, x ∈ removed → ∃ nx, view s' !! x = Some nx ∧ __parent nx = None)
    ∧ (∀ x nx, x ∈ removed → x ≠ "A" → view doc_Q_caret !! x = Some nx →
         klass nx ≠ RootNode)
    ∧ (∀ kr, emptied = Some kr →
         (∃ nr, view s' !! kr = Some nr ∧ klass nr = RootNode ∧ __size nr = 0)
         ∧ (is_Some (_selection doc_Q_caret) →
            _selection s' = Some (selection_at_end kr 0))).
Proof.
  apply (remove_cleans_up_empty_parents makeRangeSelection (λ _ _ _, keepPoints) noTextSelect
           doc_Q_caret 20 2%nat (textObject "A" (Some "Q") None None "a")
           (textObject "A" (Some "Q") None None "a") ["Q"; "root"] true false).
  - reflexivity.
  - apply store_ok_document.
  - apply well_formed_doc_Q.
  - reflexivity.
  - vm_compute; reflexivity.
  - eapply ancestors_up; [vm_compute; reflexivity | reflexivity |].
    eapply ancestors_up; [vm_compute; reflexivity | reflexivity |].
    eapply ancestors_top; [vm_compute; reflexivity | reflexivity].
  - vm_compute. lia.
Defined.

(** ** The walks over the children *)

(** The object behind the latest reference of a key of the document. *)
Lemma view_latest s k n :
  store_ok s → view s !! k = Some n →
  ∃ r, _nodeMap s !! k = Some r ∧ heap s !! r = Some n ∧ __key n = k.
Proof.
  intros Hok Hv. destruct (view_inv _ _ _ Hv) as (r & Hr & Hn).
  destruct (Hok _ _ Hr) as (n' & Hn' & Hk). exists r. repeat split; congruence.
Qed.

(** Two keys that resolve to the same reference are the same key. *)
Lemma latest_inj s k1 k2 r :
  store_ok s → _nodeMap s !! k1 = Some r → _nodeMap s !! k2 = Some r → k1 = k2.
Proof.
  intros Hok H1 H2. destruct (Hok _ _ H1) as (n1 & Hn1 & Hk1).
  destruct (Hok _ _ H2) as (n2 & Hn2 & Hk2). congruence.
Qed.

Lemma next_chain_refs s o cs : next_chain (view s) o cs → ∃ rs, refs_of s cs rs.
Proof.
  induction 1 as [|k n l Hn Hch (rs & IH)].
  - exists []. constructor.
  - destruct (view_inv _ _ _ Hn) as (r & Hr & _). exists (r :: rs). constructor; assumption.
Qed.

Lemma refs_of_length s ks rs : refs_of s ks rs → length rs = length ks.
Proof. intros H. symmetry. eapply Forall2_length; eauto. Qed.

Lemma forEachChild_loop_chain {A} s (callback : A → Ref → NodeKey → A) o cs :
  next_chain (view s) o cs →
  ∀ fuel rs acc, refs_of s cs rs → (length cs ≤ fuel)%nat →
  forEachChild_loop fuel callback o acc s
  = Ret (foldl (λ a rk, callback a rk.1 rk.2) acc (zip rs cs)).
Proof.
  induction 1 as [|k n l Hn Hch IH]; intros fuel rs acc Hrs Hf.
  - inversion Hrs; subst. destruct fuel; reflexivity.
  - inversion Hrs as [|? r ? rs' Hr Hrs']; subst.
    destruct fuel as [|fuel]; [simpl in Hf; lia|].
    destruct (view_inv _ _ _ Hn) as (r' & Hr' & Hh). rewrite Hr in Hr'. inversion Hr'; subst r'.
    cbn [forEachChild_loop].
    unfold getNodeByKey at 1. unfold bind at 1, mbind at 1, R_bind at 1. rewrite Hr.
    rewrite (bindR_ret _ _ _ _ (field_eq __next _ _ _ Hh)).
    rewrite (IH fuel rs' _ Hrs') by (simpl in Hf; lia). reflexivity.
Qed.

Lemma foldl_push_keys (rs : list Ref) : ∀ (cs acc : list NodeKey),
  length rs = length cs →
  foldl (λ a (rk : Ref * NodeKey), a ++ [rk.2]) acc (zip rs cs) = acc ++ cs.
Proof.
  induction rs as [|r rs IH]; intros [|c cs] acc Hlen; try discriminate.
  - cbn. rewrite app_nil_r. reflexivity.
  - cbn. rewrite IH by (simpl in Hlen; lia). rewrite <- app_assoc. reflexivity.
Qed.

Lemma foldl_push_refs (rs : list Ref) : ∀ (cs : list NodeKey) (acc : list Ref),
  length rs = length cs →
  foldl (λ a (rk : Ref * NodeKey), a ++ [rk.1]) acc (zip rs cs) = acc ++ rs.
Proof.
  induction rs as [|r rs IH]; intros [|c cs] acc Hlen; try discriminate.
  - cbn. rewrite app_nil_r. reflexivity.
  - cbn. rewrite IH by (simpl in Hlen; lia). rewrite <- app_assoc. reflexivity.
Qed.

Lemma getChildren_chain s fuel this nt n cs rs :
  heap s !! this = Some nt → view s !! __key nt = Some n →
  next_chain (view s) (__first n) cs → refs_of s cs rs → (length cs ≤ fuel)%nat →
  getChildrenKeys fuel this s = Ret cs ∧ getChildren fuel this s = Ret rs.
Proof.
  intros Ht Hn Hch Hrs Hf.
  destruct (getLatest_view _ _ _ _ Ht Hn) as (l & Hlat & Hl & Hh).
  pose proof (refs_of_length _ _ _ Hrs) as Hlen.
  unfold getChildrenKeys, getChildren, forEachChild.
  rewrite !(bindR_ret _ _ _ _ Hlat), !(bindR_ret _ _ _ _ (field_eq __first _ _ _ Hh)).
  rewrite !(forEachChild_loop_chain s _ _ _ Hch fuel rs _ Hrs Hf).
  cbn [fst snd]. rewrite (foldl_push_keys rs cs [] Hlen), (foldl_push_refs rs cs [] Hlen).
  split; reflexivity.
Qed.

Lemma getChildren_walk s fuel this nt n cs :
  heap s !! this = Some nt → view s !! __key nt = Some n →
  children_ok (view s) (__key nt) n cs → (length cs ≤ fuel)%nat →
  ∃ rs, getChildrenKeys fuel this s = Ret cs
    ∧ getChildren fuel this s = Ret rs ∧ refs_of s cs rs
    ∧ getChildrenSize this s = Ret (Z.of_nat (length rs)).
Proof.
  intros Ht Hn (Hlink & Hnd & Hfirst & Hlast & Hsize & _) Hf.
  pose proof (linked_next_chain _ _ _ Hlink) as Hch. rewrite <- Hfirst in Hch.
  destruct (next_chain_refs _ _ _ Hch) as (rs & Hrs).
  destruct (getChildren_chain s fuel this nt n cs rs Ht Hn Hch Hrs Hf) as (Hkeys & Hrefs).
  exists rs. split; [exact Hkeys|]. split; [exact Hrefs|]. split; [exact Hrs|].
  rewrite (getChildrenSize_view _ _ _ _ Ht Hn), Hsize, (refs_of_length _ _ _ Hrs). reflexivity.
Qed.

(** X1.  The walk over the children of a node whose child list is in order
    visits exactly the child list: [getChildrenKeys] is the list of the keys,
    [getChildren] the list of their latest versions, and the number of
    children visited is the child count [getChildrenSize]. *)
Theorem getChildren_in_order s fuel this nt n cs :
  heap s !! this = Some nt → view s !! __key nt = Some n →
  children_ok (view s) (__key nt) n cs → (length cs ≤ fuel)%nat →
  ∃ rs, getChildrenKeys fuel this s = Ret cs
    ∧ getChildren fuel this s = Ret rs ∧ refs_of s cs rs
    ∧ getChildrenSize this s = Ret (Z.of_nat (length rs)).
Proof. apply getChildren_walk. Qed.

(** ** [getChildAtIndex] *)

Lemma getChildAtIndex_loop_none s index o cs :
  next_chain (view s) o cs → index ≠ -1 →
  ∀ fuel, (length cs ≤ fuel)%nat → getChildAtIndex_loop fuel index o s = Ret None.
Proof.
  intros Hch Hne. induction Hch as [|k n l Hn Hch IH]; intros fuel Hf.
  - destruct fuel; reflexivity.
  - destruct fuel as [|fuel]; [simpl in Hf; lia|].
    destruct (view_inv _ _ _ Hn) as (r & Hr & Hh).
    cbn [getChildAtIndex_loop].
    unfold getNodeByKey at 1. unfold bind at 1, mbind at 1, R_bind at 1. rewrite Hr.
    rewrite bool_decide_eq_false_2 by lia.
    rewrite (bindR_ret _ _ _ _ (field_eq __next _ _ _ Hh)).
    apply IH. simpl in Hf. lia.
Qed.

(** X2.  [getChildAtIndex] never answers a child other than the first.  On a
    node whose children form a finite chain it is the first child at the
    indices 0 and -1 and [null] at every other index. *)
Theorem getChildAtIndex_first_or_null s fuel this nt n cs index :
  heap s !! this = Some nt → view s !! __key nt = Some n →
  next_chain (view s) (__first n) cs → (length cs ≤ fuel)%nat →
  getChildAtIndex fuel this index s
  = Ret (if bool_decide (index = 0 ∨ index = -1)
         then __first n ≫= λ k, _nodeMap s !! k
         else None).
Proof.
  intros Ht Hn Hch Hf.
  destruct (getLatest_view _ _ _ _ Ht Hn) as (l & Hlat & Hl & Hh).
  unfold getChildAtIndex.
  rewrite (bindR_ret _ _ _ _ Hlat), (bindR_ret _ _ _ _ (field_eq __first _ _ _ Hh)).
  destruct (__first n) as [k|] eqn:Hfirst.
  - destruct (decide (index = 0)) as [->|H0].
    + rewrite bool_decide_eq_true_2 by reflexivity.
      rewrite bool_decide_eq_true_2 by (left; reflexivity). reflexivity.
    + rewrite (bool_decide_eq_false_2 (index = 0)) by exact H0.
      destruct (decide (index = -1)) as [->|H1].
      * rewrite bool_decide_eq_true_2 by (right; reflexivity).
        inversion Hch as [|? nk l' Hnk Hch']; subst.
        destruct fuel as [|fuel]; [simpl in Hf; lia|].
        destruct (view_inv _ _ _ Hnk) as (r & Hr & Hhr).
        cbn [getChildAtIndex_loop mbind option_bind].
        unfold getNodeByKey at 1. unfold bind at 1, mbind at 1, R_bind at 1. rewrite Hr.
        reflexivity.
      * rewrite bool_decide_eq_false_2 by (intros [?|?]; contradiction).
        apply (getChildAtIndex_loop_none s index (Some k) cs Hch H1 fuel Hf).
  - destruct (bool_decide (index = 0 ∨ index = -1)); reflexivity.
Qed.

(** ** The chain of ancestors *)

Lemma getParentKeys_loop_spec s fuel : ∀ k l r acc,
  store_ok s → ancestors (view s) k l → _nodeMap s !! k = Some r →
  (length l < fuel)%nat →
  getParentKeys_loop fuel (Some r) acc s = Ret (acc ++ k :: l).
Proof.
  induction fuel as [|fuel IH]; intros k l r acc Hok Hanc Hr Hf; [lia|].
  destruct (store_ok_view _ _ _ Hok Hr) as (n & Hn & Hk & Hv).
  cbn [getParentKeys_loop].
  rewrite (bindR_ret _ _ _ _ (field_eq __key _ _ _ Hn)), Hk.
  rewrite <- Hk in Hv. rewrite (bindR_ret _ _ _ _ (getParent_view _ _ _ _ Hn Hv)).
  rewrite Hk in Hv.
  inversion Hanc as [? n' Hn' Hp | ? n' p l' Hn' Hp Hanc']; subst;
    rewrite Hv in Hn'; inversion Hn'; subst n'; rewrite Hp; cbn [mbind option_bind].
  - destruct fuel; reflexivity.
  - assert (is_Some (view s !! p)) as [np Hnp] by (inversion Hanc'; subst; eauto).
    destruct (view_inv _ _ _ Hnp) as (rp & Hrp & _). rewrite Hrp.
    rewrite (IH p l' rp _ Hok Hanc' Hrp) by (simpl in Hf; lia).
    rewrite <- app_assoc. reflexivity.
Qed.

(** X3.  [getParentKeys] is the chain of the ancestors of the node, nearest
    first, and [getParents] is the list of the latest versions of these
    ancestors. *)
Theorem getParentKeys_ancestors s fuel this nt l :
  store_ok s → heap s !! this = Some nt → ancestors (view s) (__key nt) l →
  (length l < fuel)%nat →
  ∃ rs, getParentKeys fuel this s = Ret l
    ∧ getParents fuel this s = Ret rs ∧ refs_of s l rs.
Proof.
  intros Hok Ht Hanc Hf.
  destruct (ancestors_refs _ _ _ Hanc) as (rs & Hrs).
  exists rs. split; [|split; [eapply getParents_spec; eauto | exact Hrs]].
  unfold getParentKeys.
  inversion Hanc as [? n Hn Hp | ? n p l' Hn Hp Hanc']; subst;
    rewrite (bindR_ret _ _ _ _ (getParent_view _ _ _ _ Ht Hn)), Hp; cbn [mbind option_bind].
  - destruct fuel; reflexivity.
  - assert (is_Some (view s !! p)) as [np Hnp] by (inversion Hanc'; subst; eauto).
    destruct (view_inv _ _ _ Hnp) as (rp & Hrp & _). rewrite Hrp.
    apply (getParentKeys_loop_spec s fuel p l' rp [] Hok Hanc' Hrp).
    simpl in Hf. lia.
Qed.

Lemma isAttached_loop_spec s fuel : ∀ k l,
  ancestors (view s) k l → (length l < fuel)%nat →
  isAttached_loop fuel (Some k) s = Ret (bool_decide ("root" ∈ k :: l)).
Proof.
  induction fuel as [|fuel IH]; intros k l Hanc Hf; [lia|].
  cbn [isAttached_loop].
  destruct (decide (k = "root")) as [->|Hne].
  - rewrite !bool_decide_eq_true_2; [reflexivity | left | reflexivity].
  - rewrite (bool_decide_eq_false_2 (k = "root")) by exact Hne.
    inversion Hanc as [? n Hn Hp | ? n p l' Hn Hp Hanc']; subst;
      destruct (view_inv _ _ _ Hn) as (r & Hr & Hh);
      unfold getNodeByKey at 1; unfold bind at 1, mbind at 1, R_bind at 1; rewrite Hr;
      rewrite (bindR_ret _ _ _ _ (field_eq __parent _ _ _ Hh)), Hp.
    + rewrite bool_decide_eq_false_2; [destruct fuel; reflexivity|].
      intros Hin. apply list_elem_of_singleton in Hin. congruence.
    + rewrite (IH p l' Hanc') by (simpl in Hf; lia).
      f_equal. apply bool_decide_ext. rewrite (elem_of_cons (p :: l')).
      split; [intros H; right; exact H | intros [H|H]; [congruence | exact H]].
Qed.

(** X4.  A node is attached exactly when the key ['root'] is its own key or
    one of the keys of its ancestors. *)
Theorem isAttached_iff_root_in_chain s fuel this nt l :
  heap s !! this = Some nt → ancestors (view s) (__key nt) l → (length l < fuel)%nat →
  isAttached fuel this s = Ret (bool_decide ("root" ∈ __key nt :: l)).
Proof.
  intros Ht Hanc Hf. unfold isAttached.
  rewrite (bindR_ret _ _ _ _ (field_eq __key _ _ _ Ht)).
  apply isAttached_loop_spec; assumption.
Qed.

(** ** The place of a node among its siblings *)

(** X5.  The index of a node within its parent is its place in the child list
    of the parent, so that [parent.getChildren()[node.getIndexWithinParent()]]
    is the node; a node with no parent has the index -1. *)
Theorem getIndexWithinParent_place s fuel this nt n :
  store_ok s → heap s !! this = Some nt → view s !! __key nt = Some n →
  (__parent n = None → getIndexWithinParent fuel this s = Ret (-1))
  ∧ (∀ p np cs,
       __parent n = Some p → view s !! p = Some np → children_ok (view s) p np cs →
       (length cs ≤ fuel)%nat →
       ∃ i, getIndexWithinParent fuel this s = Ret (Z.of_nat i)
            ∧ cs !! i = Some (__key nt)).
Proof.
  intros Hok Ht Hn. split.
  - intros Hp. unfold getIndexWithinParent.
    rewrite (bindR_ret _ _ _ _ (getParent_view _ _ _ _ Ht Hn)), Hp. reflexivity.
  - intros p np cs Hp Hnp (Hlink & Hnd & Hfirst & _ & _ & Hclosed) Hf.
    pose proof (Hclosed _ _ Hn Hp) as Hin. apply list_elem_of_lookup in Hin as (i & Hi).
    exists i. split; [|exact Hi].
    apply (getIndexWithinParent_spec s fuel this nt n p np cs i Hok Ht Hn Hp Hnp).
    + rewrite Hfirst. eapply linked_next_chain; eauto.
    + apply index_of_lookup; assumption.
    + apply lookup_lt_Some in Hi. lia.
Qed.

Lemma getNextSiblings_loop_spec s p cs : linked (view s) p cs → store_ok s →
  ∀ m fuel j acc, m = (length cs - j)%nat → (m ≤ fuel)%nat →
  ∃ rs, getSiblings_loop fuel getNextSibling (cs !! j ≫= λ k, _nodeMap s !! k) acc s
        = Ret (acc ++ rs)
    ∧ refs_of s (drop j cs) rs.
Proof.
  intros Hlink Hok. induction m as [|m IH]; intros fuel j acc Hm Hf.
  - rewrite lookup_ge_None_2, drop_ge by lia. exists []. split; [|constructor].
    rewrite app_nil_r. destruct fuel; reflexivity.
  - destruct (cs !! j) as [c|] eqn:Hj; [|apply lookup_ge_None in Hj; lia].
    destruct (Hlink _ _ Hj) as (nc & Hc & _ & _ & Hnx).
    destruct (view_latest _ _ _ Hok Hc) as (r & Hr & Hh & Hk).
    destruct fuel as [|fuel]; [lia|].
    cbn [mbind option_bind]. rewrite Hr. cbn [getSiblings_loop].
    rewrite <- Hk in Hc.
    rewrite (bindR_ret _ _ _ _ (getNextSibling_view _ _ _ _ Hh Hc)), Hnx.
    destruct (IH fuel (S j) (acc ++ [r])) as (rs & Hrun & Hrs); [lia | lia |].
    exists (r :: rs). split.
    + rewrite Hrun, <- app_assoc. reflexivity.
    + rewrite (drop_S _ _ _ Hj). constructor; assumption.
Qed.

Lemma getPreviousSiblings_loop_spec s p cs : linked (view s) p cs → store_ok s →
  ∀ j fuel acc, (j ≤ length cs)%nat → (j ≤ fuel)%nat →
  ∃ rs, getSiblings_loop fuel getPreviousSibling
          (match j with O => None | S i => cs !! i end ≫= λ k, _nodeMap s !! k) acc s
        = Ret (acc ++ rs)
    ∧ refs_of s (reverse (take j cs)) rs.
Proof.
  intros Hlink Hok. induction j as [|j IH]; intros fuel acc Hj Hf.
  - exists []. split; [|constructor]. rewrite app_nil_r. destruct fuel; reflexivity.
  - destruct (cs !! j) as [c|] eqn:Hc; [|apply lookup_ge_None in Hc; lia].
    destruct (Hlink _ _ Hc) as (nc & Hnc & _ & Hpv & _).
    destruct (view_latest _ _ _ Hok Hnc) as (r & Hr & Hh & Hk).
    destruct fuel as [|fuel]; [lia|].
    cbn [mbind option_bind]. rewrite Hr. cbn [getSiblings_loop].
    rewrite <- Hk in Hnc.
    rewrite (bindR_ret _ _ _ _ (getPreviousSibling_view _ _ _ _ Hh Hnc)), Hpv.
    destruct (IH fuel (acc ++ [r])) as (rs & Hrun & Hrs); [lia | lia |].
    exists (r :: rs). split.
    + rewrite Hrun, <- app_assoc. reflexivity.
    + rewrite (take_S_r _ _ _ Hc), reverse_app. cbn. constructor; assumption.
Qed.

(** X6.  The siblings of a node.  For the node at the place [i] of the child
    list [cs] of its parent, [getPreviousSiblings] is the list of the
    children before it, nearest first, and [getNextSiblings] the list of the
    children after it, in order: the two lists and the node are the child
    list. *)
Theorem siblings_split_children s fuel this nt n p cs i :
  store_ok s → heap s !! this = Some nt → view s !! __key nt = Some n →
  linked (view s) p cs → cs !! i = Some (__key nt) → (length cs ≤ fuel)%nat →
  ∃ prevs nexts,
    getPreviousSiblings fuel this s = Ret prevs
    ∧ getNextSiblings fuel this s = Ret nexts
    ∧ refs_of s (reverse (take i cs)) prevs
    ∧ refs_of s (drop (S i) cs) nexts
    ∧ take i cs ++ __key nt :: drop (S i) cs = cs.
Proof.
  intros Hok Ht Hn Hlink Hi Hf.
  destruct (Hlink _ _ Hi) as (n' & Hn' & _ & Hpv & Hnx).
  rewrite Hn in Hn'. inversion Hn'; subst n'.
  pose proof (lookup_lt_Some _ _ _ Hi) as Hlt.
  destruct (getPreviousSiblings_loop_spec s p cs Hlink Hok i fuel []) as (prevs & Hprev & Hps);
    [lia | lia |].
  destruct (getNextSiblings_loop_spec s p cs Hlink Hok (length cs - S i)%nat fuel (S i) [])
    as (nexts & Hnext & Hns); [reflexivity | lia |].
  exists prevs, nexts.
  split.
  { unfold getPreviousSiblings.
    rewrite (bindR_ret _ _ _ _ (getPreviousSibling_view _ _ _ _ Ht Hn)), Hpv. exact Hprev. }
  split.
  { unfold getNextSiblings.
    rewrite (bindR_ret _ _ _ _ (getNextSibling_view _ _ _ _ Ht Hn)), Hnx. exact Hnext. }
  split; [exact Hps|]. split; [exact Hns|].
  rewrite <- (drop_S _ _ _ Hi). apply take_drop.
Qed.

Lemma isElementNode_eq r s n :
  heap s !! r = Some n → isElementNode r s = Ret (isElementClass (klass n)).
Proof.
  intros H. unfold isElementNode. rewrite (bindR_ret _ _ _ _ (field_eq klass _ _ _ H)).
  reflexivity.
Qed.

Lemma last_lookup_NoDup (cs : list NodeKey) i k :
  NoDup cs → cs !! i = Some k → (last cs = Some k ↔ S i = length cs).
Proof.
  intros Hnd Hi. rewrite last_lookup. split.
  - intros Hl. pose proof (NoDup_lookup _ _ _ _ Hnd Hi Hl) as Heq.
    apply lookup_lt_Some in Hi. lia.
  - intros Hlen. replace (pred (length cs)) with i by lia. exact Hi.
Qed.

(** X7.  [isLastChild], a method of [ElementNode]: on an element it holds
    exactly of the last node of the child list of the parent; on an element
    with no parent it throws; on a node that is not an element the call is a
    [TypeError]. *)
Theorem isLastChild_last_place s this nt n :
  store_ok s → heap s !! this = Some nt → view s !! __key nt = Some n →
  (isElementClass (klass nt) = false → isLastChild this s = Throw TypeError)
  ∧ (isElementClass (klass nt) = true → __parent n = None →
     isLastChild this s = Throw (InvariantViolation "Expected node %s to have a parent."))
  ∧ (∀ p np cs i,
       isElementClass (klass nt) = true →
       __parent n = Some p → view s !! p = Some np → children_ok (view s) p np cs →
       cs !! i = Some (__key nt) →
       isLastChild this s = Ret (bool_decide (S i = length cs))).
Proof.
  intros Hok Ht Hn.
  destruct (getLatest_view _ _ _ _ Ht Hn) as (l & Hlat & Hl & Hh).
  destruct (Hok _ _ Hl) as (n' & Hh' & Hkn). rewrite Hh in Hh'. inversion Hh'; subst n'.
  rewrite <- Hkn in Hn.
  split; [|split].
  - intros Hc. unfold isLastChild.
    rewrite (bindR_ret _ _ _ _ (isElementNode_eq _ _ _ Ht)), Hc. reflexivity.
  - intros Hc Hp. unfold isLastChild, getParentOrThrow.
    rewrite (bindR_ret _ _ _ _ (isElementNode_eq _ _ _ Ht)), Hc. cbn [negb].
    rewrite (bindR_ret _ _ _ _ Hlat).
    unfold bind at 1, mbind at 1, R_bind at 1.
    unfold bind at 1, mbind at 1, R_bind at 1.
    rewrite (getParent_view _ _ _ _ Hh Hn), Hp. reflexivity.
  - intros p np cs i Hc Hp Hnp (Hlink & Hnd & _ & Hlast & _) Hi.
    destruct (view_latest _ _ _ Hok Hnp) as (rp & Hrp & Hhp & Hkp).
    unfold isLastChild.
    rewrite (bindR_ret _ _ _ _ (isElementNode_eq _ _ _ Ht)), Hc. cbn [negb].
    rewrite (bindR_ret _ _ _ _ Hlat).
    rewrite (bindR_ret _ _ _ _ (getParentOrThrow_view _ _ _ _ _ _ Hh Hn Hp Hrp)).
    rewrite <- Hkp in Hnp.
    rewrite (bindR_ret _ _ _ _ (getLastChild_view _ _ _ _ Hhp Hnp)), Hlast.
    unfold mret, R_ret. f_equal. apply bool_decide_ext.
    rewrite <- (last_lookup_NoDup cs i (__key nt) Hnd Hi).
    destruct (last cs) as [c|] eqn:Hcl; cbn [mbind option_bind].
    + split.
      * intros Heq. f_equal. symmetry. eapply latest_inj; eauto.
      * intros Heq. inversion Heq; subst c. exact Hl.
    + split; intros H; discriminate.
Qed.

(** ** The top-level element *)

Lemma ancestors_head v k n l :
  ancestors v k l → v !! k = Some n → __parent n = head l.
Proof.
  intros Hanc Hn. inversion Hanc as [? n' Hn' Hp | ? n' p l' Hn' Hp Hanc']; subst;
    rewrite Hn in Hn'; inversion Hn'; subst n'; exact Hp.
Qed.

Lemma ancestors_tail v k p l : ancestors v k (p :: l) → ancestors v p l.
Proof. inversion 1; subst; assumption. Qed.

Lemma getTopLevelElement_loop_spec s t r ntop nr :
  store_ok s → view s !! t = Some ntop → view s !! r = Some nr →
  ∀ pre fuel x nx n l,
    heap s !! x = Some nx → view s !! __key nx = Some n → klass nx = klass n →
    ancestors (view s) (__key nx) l → __key nx :: l = pre ++ [t; r] →
    (∀ y ny, y ∈ pre ++ [t] → view s !! y = Some ny → klass ny ≠ RootNode) →
    (length l < fuel)%nat →
    ∃ o, getTopLevelElement_loop fuel (Some x) s = Ret o
      ∧ (if isRootClass (klass nr) && isElementClass (klass ntop)
         then ∃ rt nrt, o = Some rt ∧ heap s !! rt = Some nrt ∧ __key nrt = t
         else o = None).
Proof.
  intros Hok Htop Hr.
  induction pre as [|x0 pre IH]; intros fuel x nx n l Hx Hn Hkl Hanc Hchain Hnoroot Hf.
  - (* the node is the child of the last node of the chain *)
    cbn in Hchain. inversion Hchain as [[Hk Hl]]. subst l.
    rewrite Hk in Hn. rewrite Htop in Hn. inversion Hn; subst n.
    destruct fuel as [|[|fuel]]; [simpl in Hf; lia | simpl in Hf; lia |].
    rewrite <- Hk in Htop.
    pose proof (ancestors_head _ _ _ _ Hanc Htop) as Hp. cbn in Hp.
    destruct (view_latest _ _ _ Hok Hr) as (rr & Hrr & Hhr & Hkr).
    cbn [getTopLevelElement_loop].
    rewrite (bindR_ret _ _ _ _ (getParent_view _ _ _ _ Hx Htop)), Hp.
    cbn [mbind option_bind]. rewrite Hrr.
    unfold isRootNode at 1. rewrite (bindR_ret _ _ _ _ (bindR_ret _ _ _ _ (field_eq klass _ _ _ Hhr))).
    unfold mret at 1, R_ret at 1.
    pose proof (ancestors_tail _ _ _ _ Hanc) as Hancr.
    pose proof (ancestors_head _ _ _ _ Hancr Hr) as Hpr. cbn in Hpr.
    assert (Hr' : view s !! __key nr = Some nr) by (rewrite Hkr; exact Hr).
    assert (Hup : getTopLevelElement_loop (S fuel) (Some rr) s = Ret None).
    { cbn [getTopLevelElement_loop].
      rewrite (bindR_ret _ _ _ _ (getParent_view _ _ _ _ Hhr Hr')), Hpr.
      destruct fuel; reflexivity. }
    destruct (isRootClass (klass nr)) eqn:Hroot; cbn [andb].
    + unfold isElementNode at 1.
      rewrite (bindR_ret _ _ _ _ (bindR_ret _ _ _ _ (field_eq klass _ _ _ Hx))).
      unfold mret at 1, R_ret at 1. rewrite Hkl.
      destruct (isElementClass (klass ntop)).
      * eexists. split; [reflexivity|]. exists x, nx. repeat split; assumption.
      * exists None. split; [exact Hup | reflexivity].
    + exists None. split; [exact Hup | reflexivity].
  - (* the parent of the node is not a root *)
    cbn in Hchain. inversion Hchain as [[Hk Hl]].
    destruct fuel as [|fuel]; [simpl in Hf; lia|].
    destruct l as [|p l']; [destruct pre; discriminate|].
    pose proof (ancestors_head _ _ _ _ Hanc Hn) as Hp. cbn in Hp.
    pose proof (ancestors_tail _ _ _ _ Hanc) as Hancp.
    assert (is_Some (view s !! p)) as [np Hnp] by (inversion Hancp; subst; eauto).
    destruct (view_latest _ _ _ Hok Hnp) as (rp & Hrp & Hhp & Hkp).
    cbn [getTopLevelElement_loop].
    rewrite (bindR_ret _ _ _ _ (getParent_view _ _ _ _ Hx Hn)), Hp.
    cbn [mbind option_bind]. rewrite Hrp.
    unfold isRootNode at 1. rewrite (bindR_ret _ _ _ _ (bindR_ret _ _ _ _ (field_eq klass _ _ _ Hhp))).
    unfold mret at 1, R_ret at 1.
    assert (Hin : p ∈ pre ++ [t]).
    { destruct pre as [|y pre']; cbn in Hl; inversion Hl; subst.
      - left.
      - rewrite elem_of_app. left. left. }
    assert (Hnr : isRootClass (klass np) = false).
    { pose proof (Hnoroot p np (list_elem_of_further _ _ _ Hin) Hnp) as Hne.
      destruct (klass np); try reflexivity. contradiction. }
    rewrite Hnr.
    assert (Hnp' : view s !! __key np = Some np) by (rewrite Hkp; exact Hnp).
    assert (Hancp' : ancestors (view s) (__key np) l') by (rewrite Hkp; exact Hancp).
    assert (Hl' : __key np :: l' = pre ++ [t; r]) by (rewrite Hkp; exact Hl).
    apply (IH fuel rp np np l' Hhp Hnp' eq_refl Hancp' Hl').
    + intros y ny Hy. apply Hnoroot. right. exact Hy.
    + simpl in Hf. lia.
Qed.

(** Every node of a chain of ancestors but the last has a parent. *)
Lemma ancestors_front_parent v : ∀ front k l r y ny,
  ancestors v k l → k :: l = front ++ [r] → y ∈ front → v !! y = Some ny →
  ∃ q, __parent ny = Some q.
Proof.
  induction front as [|f front IH]; intros k l r y ny Hanc Hchain Hy Hny; [inversion Hy|].
  cbn in Hchain. inversion Hchain as [[Hk Hl]]. subst k.
  apply elem_of_cons in Hy as [->|Hy].
  - destruct l as [|q l']; [destruct front; discriminate|].
    exists q. inversion Hanc as [|? n' p' l'' Hn' Hp' Hanc']; subst.
    rewrite Hny in Hn'. inversion Hn'; subst n'. exact Hp'.
  - destruct l as [|q l']; [destruct front; [inversion Hy | discriminate]|].
    pose proof (ancestors_tail _ _ _ _ Hanc) as Hanc'.
    apply (IH q l' r y ny Hanc' Hl Hy Hny).
Qed.

(** X8.  [getTopLevelElement].  In a document whose root nodes have no
    parent, a node with no parent has no top-level element; for a node whose
    chain of ancestors ends with [t] below [r], the top-level element is [t]
    when [r] is a root node and [t] an element, and [null] otherwise: the
    root itself and a leaf that is a child of the root have none. *)
Theorem getTopLevelElement_below_root s fuel this nt n l :
  store_ok s → heap s !! this = Some nt → view s !! __key nt = Some n →
  klass nt = klass n → ancestors (view s) (__key nt) l →
  (∀ y ny, y ∈ __key nt :: l → view s !! y = Some ny →
     klass ny = RootNode → __parent ny = None) →
  (length l < fuel)%nat →
  (l = [] → getTopLevelElement fuel this s = Ret None)
  ∧ (∀ pre t r ntop nr,
       __key nt :: l = pre ++ [t; r] → view s !! t = Some ntop → view s !! r = Some nr →
       ∃ o, getTopLevelElement fuel this s = Ret o
         ∧ (if isRootClass (klass nr) && isElementClass (klass ntop)
            then ∃ rt nrt, o = Some rt ∧ heap s !! rt = Some nrt ∧ __key nrt = t
            else o = None)).
Proof.
  intros Hok Ht Hn Hkl Hanc Hroots Hf. split.
  - intros ->. pose proof (ancestors_head _ _ _ _ Hanc Hn) as Hp. cbn in Hp.
    destruct fuel as [|fuel]; [simpl in Hf; lia|].
    unfold getTopLevelElement. cbn [getTopLevelElement_loop].
    rewrite (bindR_ret _ _ _ _ (getParent_view _ _ _ _ Ht Hn)), Hp.
    destruct fuel; reflexivity.
  - intros pre t r ntop nr Hchain Htop Hr. unfold getTopLevelElement.
    apply (getTopLevelElement_loop_spec s t r ntop nr Hok Htop Hr pre fuel this nt n l
             Ht Hn Hkl Hanc Hchain); [|exact Hf].
    intros y ny Hy Hny Hroot.
    (* a node of the chain other than the last has a parent *)
    assert (Hchain' : __key nt :: l = (pre ++ [t]) ++ [r])
      by (rewrite Hchain, <- app_assoc; reflexivity).
    pose proof (ancestors_front_parent _ _ _ _ _ _ _ Hanc Hchain' Hy Hny) as Hparent.
    destruct Hparent as (q & Hq).
    assert (Hyin : y ∈ __key nt :: l).
    { rewrite Hchain'. rewrite elem_of_app. left. exact Hy. }
    rewrite (Hroots y ny Hyin Hny Hroot) in Hq. discriminate.
Qed.

(** ** Descendants *)

(** A chain of ancestors is shorter than the document is large. *)
Lemma ancestors_bounded v k l : ancestors v k l → (length l < size v)%nat.
Proof.
  intros Hanc. pose proof (ancestors_NoDup _ _ _ Hanc) as Hnd.
  assert (Hsub : ∀ x, x ∈ k :: l → x ∈ dom v).
  { intros x Hx. apply elem_of_dom. apply elem_of_cons in Hx as [->|Hx].
    - inversion Hanc; subst; eauto.
    - eapply ancestors_resolve; eauto. }
  assert (Hle : (length (k :: l) ≤ size v)%nat).
  { rewrite <- (size_list_to_set (C := gset NodeKey) (k :: l)) by exact Hnd.
    rewrite <- size_dom. apply subseteq_size.
    intros x Hx. apply elem_of_list_to_set in Hx. apply Hsub. exact Hx. }
  simpl in Hle. lia.
Qed.

Lemma refs_of_lookup s cs rs i c :
  refs_of s cs rs → cs !! i = Some c → rs !! i = _nodeMap s !! c.
Proof.
  intros Hrs Hc. destruct (Forall2_lookup_l _ _ _ _ _ Hrs Hc) as (r & Hr & Hm).
  rewrite Hr, Hm. reflexivity.
Qed.

(** The descent from a node ends at a node. *)
Lemma getDescendant_loop_some down s : ∀ fuel c d,
  getDescendant_loop fuel down (Some c) s = Ret d → ∃ x, d = Some x.
Proof.
  induction fuel as [|fuel IH]; intros c d H; [discriminate|].
  cbn [getDescendant_loop] in H. unfold bind at 1, mbind at 1, R_bind at 1 in H.
  destruct (isElementNode c s) as [[|]| |]; try discriminate.
  - unfold bind at 1, mbind at 1, R_bind at 1 in H.
    destruct (down c s) as [[c'|]| |]; try discriminate.
    + eapply IH; eauto.
    + inversion H; eauto.
  - inversion H; eauto.
Qed.

(** More fuel does not change the outcome of a descent that ends. *)
Lemma getDescendant_loop_mono down s : ∀ fuel o d,
  getDescendant_loop fuel down o s = Ret d →
  getDescendant_loop (S fuel) down o s = Ret d.
Proof.
  induction fuel as [|fuel IH]; intros o d H.
  - destruct o; [discriminate|]. exact H.
  - destruct o as [c|]; [|exact H].
    cbn [getDescendant_loop] in H |- *.
    unfold bind at 1, mbind at 1, R_bind at 1 in H.
    unfold bind at 1, mbind at 1, R_bind at 1.
    destruct (isElementNode c s) as [[|]| |]; try discriminate; [|exact H].
    unfold bind at 1, mbind at 1, R_bind at 1 in H.
    unfold bind at 1, mbind at 1, R_bind at 1.
    destruct (down c s) as [[c'|]| |]; try discriminate; [|exact H].
    exact (IH (Some c') d H).
Qed.

(** The descendant that [getDescendantByIndex] resolves a child [c] to, when
    the descent from [c] ends at [d]. *)
Lemma resolve_descendant down s fuel c nc d :
  heap s !! c = Some nc →
  getDescendant_loop fuel down (Some c) s = Ret d →
  (let* isElement := isElementNode c in
   if isElement then
     let* descendant := (let* node := down c in getDescendant_loop fuel down node) in
     mret (Some (default c descendant))
   else mret (Some c)) s = Ret d.
Proof.
  intros Hc H. rewrite (bindR_ret _ _ _ _ (isElementNode_eq _ _ _ Hc)).
  destruct fuel as [|fuel]; [discriminate|].
  cbn [getDescendant_loop] in H.
  rewrite (bindR_ret _ _ _ _ (isElementNode_eq _ _ _ Hc)) in H.
  destruct (isElementClass (klass nc)); [|exact H].
  unfold bind at 1, mbind at 1, R_bind at 1 in H.
  unfold bind at 1, mbind at 1, R_bind at 1.
  unfold bind at 1, mbind at 1, R_bind at 1.
  destruct (down c s) as [[c'|]| |]; try discriminate.
  - destruct (getDescendant_loop_some _ _ _ _ _ H) as (x & ->).
    rewrite (getDescendant_loop_mono _ _ _ _ _ H). reflexivity.
  - destruct fuel; exact H.
Qed.

(** In a well-formed document the descent along the first or the last
    children ends: every step is one node further from the top. *)
Lemma getDescendant_loop_returns down (f : LexicalNode → option NodeKey) s :
  store_ok s →
  (∀ r nt n, heap s !! r = Some nt → view s !! __key nt = Some n →
     down r s = Ret (k ← f n; _nodeMap s !! k)) →
  (∀ k n c, view s !! k = Some n → f n = Some c →
     ∃ nc, view s !! c = Some nc ∧ __parent nc = Some k) →
  ∀ fuel r nr n l,
    heap s !! r = Some nr → view s !! __key nr = Some n →
    ancestors (view s) (__key nr) l →
    (size (view s) ≤ fuel + length l)%nat →
    ∃ d, getDescendant_loop fuel down (Some r) s = Ret (Some d).
Proof.
  intros Hok Hdown Hchild.
  induction fuel as [|fuel IH]; intros r nr n l Hr Hn Hanc Hf.
  - pose proof (ancestors_bounded _ _ _ Hanc). lia.
  - cbn [getDescendant_loop].
    rewrite (bindR_ret _ _ _ _ (isElementNode_eq _ _ _ Hr)).
    destruct (isElementClass (klass nr)); [|exists r; reflexivity].
    rewrite (bindR_ret _ _ _ _ (Hdown _ _ _ Hr Hn)).
    destruct (f n) as [c|] eqn:Hc; cbn [mbind option_bind]; [|exists r; reflexivity].
    destruct (Hchild _ _ _ Hn Hc) as (nc & Hnc & Hpc).
    destruct (view_latest _ _ _ Hok Hnc) as (rc & Hrc & Hhc & Hkc).
    rewrite Hrc.
    apply (IH rc nc nc (__key nr :: l) Hhc).
    + rewrite Hkc. exact Hnc.
    + rewrite Hkc. eapply ancestors_up; eauto.
    + cbn [length]. lia.
Qed.

Lemma well_formed_first_child v k n c :
  well_formed v → v !! k = Some n → __first n = Some c →
  ∃ nc, v !! c = Some nc ∧ __parent nc = Some k.
Proof.
  intros Hwf Hn Hc. destruct (Hwf _ _ Hn) as (_ & (cs & Hlink & _ & Hfirst & _) & _).
  rewrite Hfirst in Hc. destruct cs as [|c' cs]; [discriminate|]. inversion Hc; subst c'.
  destruct (Hlink 0%nat c eq_refl) as (nc & Hnc & Hpc & _). eauto.
Qed.

Lemma well_formed_last_child v k n c :
  well_formed v → v !! k = Some n → __last n = Some c →
  ∃ nc, v !! c = Some nc ∧ __parent nc = Some k.
Proof.
  intros Hwf Hn Hc. destruct (Hwf _ _ Hn) as (_ & (cs & Hlink & _ & _ & Hlast & _) & _).
  rewrite Hlast, last_lookup in Hc.
  destruct (Hlink _ c Hc) as (nc & Hnc & Hpc & _). eauto.
Qed.

(** X9.  [getDescendantByIndex] in a well-formed document.  On an element
    with no children it is the element itself.  On an element with children
    the descents to the first and to the last descendant return a node, and
    [getDescendantByIndex] is the first descendant at the index 0, the last
    descendant at every index from the child count on, and [undefined] at a
    negative index. *)
Theorem getDescendantByIndex_ends s fuel this nt n cs :
  store_ok s → well_formed (view s) →
  heap s !! this = Some nt → view s !! __key nt = Some n →
  children_ok (view s) (__key nt) n cs → (size (view s) ≤ fuel)%nat →
  (cs = [] → ∀ index, getDescendantByIndex fuel this index s = Ret (Some this))
  ∧ (cs ≠ [] →
     (∃ d, getFirstDescendant fuel this s = Ret (Some d)
           ∧ getDescendantByIndex fuel this 0 s = Ret (Some d))
     ∧ (∃ d, getLastDescendant fuel this s = Ret (Some d)
           ∧ ∀ index, index >= Z.of_nat (length cs) →
               getDescendantByIndex fuel this index s = Ret (Some d))
     ∧ (∀ index, index < 0 → getDescendantByIndex fuel this index s = Ret None)).
Proof.
  intros Hok Hwf Ht Hn Hch Hsize.
  pose proof (children_bounded _ _ _ _ Hch) as Hbound.
  assert (Hf : (length cs ≤ fuel)%nat) by lia.
  destruct (getChildren_walk s fuel this nt n cs Ht Hn Hch Hf)
    as (rs & _ & Hrun & Hrs & _).
  pose proof (refs_of_length _ _ _ Hrs) as Hlen.
  destruct (Hwf _ _ Hn) as (_ & _ & (l & Hanc) & _).
  (* the descent from a child returns *)
  assert (Hdesc : ∀ down f c,
    (∀ r nt n, heap s !! r = Some nt → view s !! __key nt = Some n →
       down r s = Ret (k ← f n; _nodeMap s !! k)) →
    (∀ k n c, view s !! k = Some n → f n = Some c →
       ∃ nc, view s !! c = Some nc ∧ __parent nc = Some k) →
    f n = Some c →
    ∃ r nr d, _nodeMap s !! c = Some r ∧ heap s !! r = Some nr
      ∧ getDescendant_loop fuel down (Some r) s = Ret (Some d)).
  { intros down f c Hdown Hchild Hc.
    destruct (Hchild _ _ _ Hn Hc) as (nc & Hnc & Hpc).
    destruct (view_latest _ _ _ Hok Hnc) as (rc & Hrc & Hhc & Hkc).
    destruct (getDescendant_loop_returns down f s Hok Hdown Hchild fuel rc nc nc
                (__key nt :: l) Hhc) as (d & Hd).
    - rewrite Hkc. exact Hnc.
    - rewrite Hkc. eapply ancestors_up; eauto.
    - lia.
    - exists rc, nc, d. auto. }
  destruct Hch as (Hlink & Hnd & Hfirst & Hlast & _).
  split.
  - intros -> index. unfold getDescendantByIndex. rewrite (bindR_ret _ _ _ _ Hrun).
    destruct rs; [|discriminate]. reflexivity.
  - intros Hne.
    assert (Hpos : (0 < length cs)%nat) by (destruct cs; [contradiction | simpl; lia]).
    split; [|split].
    + destruct cs as [|c cs']; [contradiction|]. cbn [head] in Hfirst.
      destruct (Hdesc getFirstChild __first c (λ r nt n, getFirstChild_view r s nt n)
                  (λ k n c, well_formed_first_child _ k n c Hwf) Hfirst)
        as (r & nr & d & Hr & Hnr & Hd).
      exists d. split.
      * unfold getFirstDescendant.
        rewrite (bindR_ret _ _ _ _ (getFirstChild_view _ _ _ _ Ht Hn)), Hfirst.
        cbn [mbind option_bind]. rewrite Hr. exact Hd.
      * unfold getDescendantByIndex. rewrite (bindR_ret _ _ _ _ Hrun).
        rewrite bool_decide_eq_false_2 by lia.
        rewrite bool_decide_eq_false_2 by lia.
        rewrite bool_decide_eq_false_2 by lia.
        change (Z.to_nat 0) with 0%nat.
        rewrite (refs_of_lookup s (c :: cs') rs 0 c Hrs eq_refl), Hr.
        apply (resolve_descendant getFirstChild s fuel r nr (Some d) Hnr Hd).
    + rewrite last_lookup in Hlast.
      destruct (cs !! pred (length cs)) as [c|] eqn:Hc;
        [|apply lookup_ge_None in Hc; lia].
      destruct (Hdesc getLastChild __last c (λ r nt n, getLastChild_view r s nt n)
                  (λ k n c, well_formed_last_child _ k n c Hwf) Hlast)
        as (r & nr & d & Hr & Hnr & Hd).
      exists d. split.
      * unfold getLastDescendant.
        rewrite (bindR_ret _ _ _ _ (getLastChild_view _ _ _ _ Ht Hn)), Hlast.
        cbn [mbind option_bind]. rewrite Hr. exact Hd.
      * intros index Hidx. unfold getDescendantByIndex. rewrite (bindR_ret _ _ _ _ Hrun).
        rewrite bool_decide_eq_false_2 by lia.
        rewrite bool_decide_eq_true_2 by lia.
        replace (length rs - 1)%nat with (pred (length cs)) by lia.
        rewrite (refs_of_lookup s cs rs _ c Hrs Hc), Hr.
        apply (resolve_descendant getLastChild s fuel r nr (Some d) Hnr Hd).
    + intros index Hidx. unfold getDescendantByIndex. rewrite (bindR_ret _ _ _ _ Hrun).
      rewrite bool_decide_eq_false_2 by lia.
      rewrite bool_decide_eq_false_2 by lia.
      rewrite bool_decide_eq_true_2 by lia. reflexivity.
Qed.

(** ** The setters of an element *)

(** [this.getWritable().f = v] for a field that is neither the key nor the
    class: the node of this key is updated in the document, and nothing
    else. *)
Lemma write_step s this nt n upd :
  good s → heap s !! this = Some nt → view s !! __key nt = Some n →
  class_fields_ok n → same_object n (upd n) →
  ∃ w s1 s',
    getWritable this s = (Ret w, s1) ∧ assign upd w s1 = (Ret tt, s')
    ∧ good s' ∧ view s' = alter upd (__key nt) (view s)
    ∧ _nodeMap s' !! __key nt = Some w
    ∧ _selection s' = _selection s ∧ heap_ext s s'.
Proof.
  intros Hgood Ht Hv Hcf Hobj.
  destruct (getWritable_step _ _ _ _ Hgood Ht Hv Hcf)
    as (w & s1 & Hrun1 & Hgood1 & Hview1 & Hw1 & Hbut1 & Hsel1 & Hext1).
  rewrite <- Hview1 in Hv.
  destruct (assign_step _ _ _ _ upd Hgood1 Hw1 Hv Hobj)
    as (s2 & Hrun2 & Hgood2 & Hview2 & Hmap2 & Hsel2 & Hext2).
  exists w, s1, s2. split; [exact Hrun1|]. split; [exact Hrun2|].
  split; [exact Hgood2|]. split; [rewrite Hview2, Hview1; reflexivity|].
  split; [rewrite Hmap2; exact Hw1|].
  split; [congruence | eapply heap_ext_trans; eauto].
Qed.

(** Reading a field through any reference to the node, after the update. *)
Lemma read_after_write {A} (f : LexicalNode → A) s s' this nt n upd :
  heap s !! this = Some nt → view s !! __key nt = Some n →
  heap_ext s s' → view s' = alter upd (__key nt) (view s) →
  (let* self := getLatest this in field f self) s' = Ret (f (upd n)).
Proof.
  intros Ht Hv Hext Hview.
  destruct (heap_ext_key _ _ _ _ Hext Ht) as (nt' & Ht' & Hk & _).
  assert (Hv' : view s' !! __key nt' = Some (upd n)).
  { rewrite Hk, Hview, lookup_alter_eq, Hv. reflexivity. }
  destruct (getLatest_view _ _ _ _ Ht' Hv') as (l & Hlat & _ & Hh).
  rewrite (bindR_ret _ _ _ _ Hlat). apply field_eq. exact Hh.
Qed.

Lemma toInt32_land_diag z : Z.land (toInt32 z) (toInt32 z) = toInt32 z.
Proof. apply Z.land_diag. Qed.

Section Setters.

Variable ELEMENT_TYPE_TO_FORMAT : ElementFormatType → Z.

Local Abbreviation setFormat := (setFormat ELEMENT_TYPE_TO_FORMAT).
Local Abbreviation hasFormat := (hasFormat ELEMENT_TYPE_TO_FORMAT).

(** X10.  The setters of an element and its getters.  In an open update,
    [setIndent], [setDirection] and [setFormat] return, and the getter reads
    the value back through the reference the setter was called on, stale or
    not; [hasFormat(type)] after [setFormat(type)] holds exactly when the
    flag of the type is not zero.  In the document the field of this node is
    set and nothing else changes; [setIndent] and [setFormat] return the
    reference they were called on and [setDirection] the writable node. *)
Theorem element_setters_read_back s this nt n :
  store_ok s → readOnly s = false →
  heap s !! this = Some nt → view s !! __key nt = Some n → class_fields_ok n →
  (∀ indentLevel, ∃ s',
     setIndent this indentLevel s = (Ret this, s')
     ∧ getIndent this s' = Ret indentLevel
     ∧ view s' = alter (set___indent indentLevel) (__key nt) (view s))
  ∧ (∀ direction, ∃ w s',
     setDirection this direction s = (Ret w, s')
     ∧ _nodeMap s' !! __key nt = Some w
     ∧ getDirection this s' = Ret direction
     ∧ view s' = alter (set___dir direction) (__key nt) (view s))
  ∧ (∀ type, ∃ s',
     setFormat this type s = (Ret this, s')
     ∧ getFormat this s' = Ret (ELEMENT_TYPE_TO_FORMAT type)
     ∧ hasFormat this type s'
       = Ret (bool_decide (toInt32 (ELEMENT_TYPE_TO_FORMAT type) ≠ 0))
     ∧ view s' = alter (set___format (ELEMENT_TYPE_TO_FORMAT type)) (__key nt) (view s)).
Proof.
  intros Hok Hro Ht Hv Hcf.
  assert (Hgood : good s) by (split; assumption).
  split; [|split].
  - intros z.
    destruct (write_step s this nt n (set___indent z) Hgood Ht Hv Hcf)
      as (w & s1 & s' & Hrun1 & Hrun2 & _ & Hview & _ & _ & Hext); [repeat split|].
    exists s'. split; [|split; [|exact Hview]].
    + unfold setIndent. rewrite (seq_ret _ _ _ _ _ (errorOnReadOnly_open _ Hro)).
      rewrite (bind_ret _ _ _ _ _ Hrun1), (seq_ret _ _ _ _ _ Hrun2). reflexivity.
    + apply (read_after_write __indent s s' this nt n _ Ht Hv Hext Hview).
  - intros d.
    destruct (write_step s this nt n (set___dir d) Hgood Ht Hv Hcf)
      as (w & s1 & s' & Hrun1 & Hrun2 & _ & Hview & Hw & _ & Hext); [repeat split|].
    exists w, s'. split; [|split; [exact Hw|split; [|exact Hview]]].
    + unfold setDirection. rewrite (seq_ret _ _ _ _ _ (errorOnReadOnly_open _ Hro)).
      rewrite (bind_ret _ _ _ _ _ Hrun1), (seq_ret _ _ _ _ _ Hrun2). reflexivity.
    + apply (read_after_write __dir s s' this nt n _ Ht Hv Hext Hview).
  - intros type.
    destruct (write_step s this nt n (set___format (ELEMENT_TYPE_TO_FORMAT type)) Hgood Ht Hv Hcf)
      as (w & s1 & s' & Hrun1 & Hrun2 & _ & Hview & _ & _ & Hext); [repeat split|].
    pose proof (read_after_write __format s s' this nt n _ Ht Hv Hext Hview) as Hget.
    exists s'. split; [|split; [exact Hget|split; [|exact Hview]]].
    + unfold setFormat. rewrite (seq_ret _ _ _ _ _ (errorOnReadOnly_open _ Hro)).
      rewrite (bind_ret _ _ _ _ _ Hrun1), (seq_ret _ _ _ _ _ Hrun2). reflexivity.
    + unfold hasFormat. unfold getFormat at 1. rewrite (bindR_ret _ _ _ _ Hget).
      cbn [__format set___format]. rewrite toInt32_land_diag. reflexivity.
Qed.

End Setters.

(** ** Inserting at a node that has no parent *)

Lemma getParentOrThrow_none this s nt n :
  heap s !! this = Some nt → view s !! __key nt = Some n → __parent n = None →
  getParentOrThrow this s = Throw (InvariantViolation "Expected node %s to have a parent.").
Proof.
  intros Ht Hv Hp. unfold getParentOrThrow.
  rewrite (bindR_ret _ _ _ _ (getParent_none _ _ _ _ Ht Hv Hp)). reflexivity.
Qed.

Lemma read_throw {A B} (r : R A) (f : A → M B) s e :
  r s = Throw e → (let* x := read r in f x) s = (Throw e, s).
Proof. intros H. rewrite bind_read, H. reflexivity. Qed.

(** The node to insert is made writable and taken out of its parent; the
    target, which has no parent, has none afterwards. *)
Lemma detach_node_to_insert s this nt n node nn m q :
  good s → well_formed (view s) →
  heap s !! this = Some nt → view s !! __key nt = Some n → __parent n = None →
  heap s !! node = Some nn → view s !! __key nn = Some m → __parent m = Some q →
  ∃ w s2 s3,
    getWritable node s = (Ret w, s2)
    ∧ good s2 ∧ view s2 = view s ∧ _selection s2 = _selection s
    ∧ (∃ nw, heap s2 !! w = Some nw ∧ __key nw = __key nn)
    ∧ heap_ext s s2
    ∧ removeFromParent w s2 = (Ret tt, s3)
    ∧ view s3 = detach (view s) (__key nn) ∧ heap_ext s2 s3
    ∧ getParentOrThrow this s3
      = Throw (InvariantViolation "Expected node %s to have a parent.").
Proof.
  intros Hgood Hwf Ht Hn Hp Hnode Hm Hq.
  destruct (Hwf _ _ Hm) as (Hcfm & _).
  destruct (getWritable_step s node nn m Hgood Hnode Hm Hcfm)
    as (w & s2 & Hrun2 & Hgood2 & Hview2 & Hw2 & _ & Hsel2 & Hext2).
  destruct (latest_ref_valid _ _ _ Hgood2 Hw2) as (nw & Hnw & Hkw & _).
  assert (Hmw : view s2 !! __key nw = Some m) by (rewrite Hkw, Hview2; exact Hm).
  assert (Hwf2 : well_formed (view s2)) by (rewrite Hview2; exact Hwf).
  destruct (removeFromParent_step s2 w nw m q Hgood2 Hwf2 Hnw Hmw Hq)
    as (s3 & Hrun3 & Hgood3 & Hview3 & Hsel3 & Hext3).
  rewrite Hkw, Hview2 in Hview3.
  exists w, s2, s3. split; [exact Hrun2|]. split; [exact Hgood2|].
  split; [exact Hview2|]. split; [exact Hsel2|]. split; [eauto|].
  split; [exact Hext2|]. split; [exact Hrun3|]. split; [exact Hview3|].
  split; [exact Hext3|].
  destruct (heap_ext_key _ _ _ _ (heap_ext_trans _ _ _ Hext2 Hext3) Ht)
    as (nt3 & Ht3 & Hk3 & _).
  destruct (detach_keeps_detached (view s) (__key nn) _ _ Hn Hp) as (n3 & Hn3 & Hp3).
  rewrite <- Hview3, <- Hk3 in Hn3.
  apply (getParentOrThrow_none _ _ _ _ Ht3 Hn3 Hp3).
Qed.

Section DetachedTarget.

Variable internalMakeRangeSelection :
  NodeKey → Z → NodeKey → Z → PointKind → PointKind → SelectionHelper RangeSelection.
Variable updateElementSelectionOnCreateDeleteNode : Ref → Z → Z → PointMover.
Variable moveSelectionPointToEnd : PointName → Ref → PointMover.
Variable TextNode_select : Ref → option Z → option Z → M RangeSelection.

Local Abbreviation replace' := (replace internalMakeRangeSelection
  updateElementSelectionOnCreateDeleteNode moveSelectionPointToEnd TextNode_select).
Local Abbreviation insertAfter' := (insertAfter updateElementSelectionOnCreateDeleteNode).
Local Abbreviation insertBefore' := (insertBefore updateElementSelectionOnCreateDeleteNode).

(** X11.  [insertBefore], [insertAfter] and [replace] on a target that has no
    parent throw, and not before the other node has been taken out of its
    own parent: the failure leaves the document with that node detached (the
    child list and the child count of its former parent are those of the
    document without it). *)
Theorem insert_at_detached_target_throws s fuel this nt n node nn m q :
  store_ok s → readOnly s = false → well_formed (view s) →
  heap s !! this = Some nt → view s !! __key nt = Some n → __parent n = None →
  heap s !! node = Some nn → view s !! __key nn = Some m → __parent m = Some q →
  (size (view s) < fuel)%nat →
  let failure := InvariantViolation "Expected node %s to have a parent." in
  (∃ s', insertBefore' fuel this node s = (Throw failure, s')
         ∧ view s' = detach (view s) (__key nn))
  ∧ (∃ s', insertAfter' fuel this node s = (Throw failure, s')
           ∧ view s' = detach (view s) (__key nn))
  ∧ (∃ s', replace' fuel this node s = (Throw failure, s')
           ∧ view s' = detach (view s) (__key nn))
  ∧ ∃ m', detach (view s) (__key nn) !! __key nn = Some m' ∧ __parent m' = None.
Proof.
  intros Hok Hro Hwf Ht Hn Hp Hnode Hm Hq Hf failure.
  assert (Hgood : good s) by (split; assumption).
  destruct (Hwf _ _ Hn) as (Hcfn & _).
  (* the common prefix: the target is made writable, then the other node is
     made writable and taken out of its parent *)
  destruct (getWritable_step s this nt n Hgood Ht Hn Hcfn)
    as (w1 & s1 & Hrun1 & Hgood1 & Hview1 & Hw1 & _ & Hsel1 & Hext1).
  destruct (heap_ext_key _ _ _ _ Hext1 Ht) as (nt1 & Ht1 & Hk1 & _).
  destruct (heap_ext_key _ _ _ _ Hext1 Hnode) as (nn1 & Hnode1 & Hkn1 & _).
  assert (Hn1 : view s1 !! __key nt1 = Some n) by (rewrite Hk1, Hview1; exact Hn).
  assert (Hm1 : view s1 !! __key nn1 = Some m) by (rewrite Hkn1, Hview1; exact Hm).
  assert (Hwf1 : well_formed (view s1)) by (rewrite Hview1; exact Hwf).
  destruct (detach_node_to_insert s1 this nt1 n node nn1 m q Hgood1 Hwf1 Ht1 Hn1 Hp
              Hnode1 Hm1 Hq)
    as (w & s2 & s3 & Hrun2 & Hgood2 & Hview2 & Hsel2 & (nw & Hnw & Hkw) & Hext2
        & Hrun3 & Hview3 & Hext3 & Hthrow).
  assert (Hview3' : view s3 = detach (view s) (__key nn))
    by (rewrite Hview3, Hview1, Hkn1; reflexivity).
  split; [|split; [|split]].
  - (* insertBefore *)
    exists s3. split; [|exact Hview3'].
    unfold insertBefore. rewrite (seq_ret _ _ _ _ _ (errorOnReadOnly_open _ Hro)).
    rewrite (bind_ret _ _ _ _ _ Hrun1), (bind_ret _ _ _ _ _ Hrun2).
    rewrite (seq_ret _ _ _ _ _ Hrun3). apply read_throw. exact Hthrow.
  - (* insertAfter *)
    exists s3. split; [|exact Hview3'].
    assert (Hmw : view s2 !! __key nw = Some m) by (rewrite Hkw, Hview2; exact Hm1).
    assert (Hwf2 : well_formed (view s2)) by (rewrite Hview2; exact Hwf1).
    destruct (Hwf2 _ _ Hmw) as (_ & _ & _ & Hpar).
    destruct (Hpar q Hq) as (nq & Hnq & _).
    destruct (good_latest _ _ _ Hgood2 Hnq) as (rq & Hrq & Hhq & Hkq).
    destruct (heap_ext_key _ _ _ _ Hext2 Hnode1) as (nn2 & Hnode2 & Hkn2 & _).
    assert (Hm2 : view s2 !! __key nn2 = Some m) by (rewrite Hkn2, Hview2; exact Hm1).
    destruct (getIndexWithinParent_well_formed s2 fuel node nn2 m q Hgood2 Hwf2 Hnode2 Hm2 Hq)
      as (i & Hi); [rewrite Hview2, Hview1; exact Hf|].
    destruct (heap_ext_key _ _ _ _ Hext3 Hhq) as (nq3 & Hhq3 & _).
    unfold insertAfter. rewrite (seq_ret _ _ _ _ _ (errorOnReadOnly_open _ Hro)).
    rewrite (bind_ret _ _ _ _ _ Hrun1), (bind_ret _ _ _ _ _ Hrun2).
    rewrite bind_read, (getParent_view _ _ _ _ Hnw Hmw), Hq. cbn [mbind option_bind].
    rewrite Hrq.
    unfold bind at 1, mbind at 1, M_bind at 1, gets at 1.
    rewrite bind_read, Hi.
    assert (Hon : ∃ b, (removeFromParent w ;;
      match _selection s2 with
      | Some sel =>
        let* oldParentKey := read (field __key rq) in
        let on (p : PointType) : bool :=
          bool_decide (type p = element) && bool_decide (key p = oldParentKey)
          && bool_decide (offset p = Z.of_nat i + 1) in
        mret (on (anchor sel), on (focus sel))
      | None => mret (false, false)
      end) s2 = (Ret b, s3)).
    { rewrite (seq_ret _ _ _ _ _ Hrun3). destruct (_selection s2) as [sel|].
      - rewrite bind_read, (field_eq __key _ _ _ Hhq3). eexists. reflexivity.
      - eexists. reflexivity. }
    destruct Hon as (b & Hon). rewrite (bind_ret _ _ _ _ _ Hon).
    apply read_throw. exact Hthrow.
  - (* replace *)
    destruct (detach_node_to_insert s this nt n node nn m q Hgood Hwf Ht Hn Hp Hnode Hm Hq)
      as (w' & s2' & s3' & Hrun2' & _ & _ & _ & _ & _ & Hrun3' & Hview3'' & _ & Hthrow').
    exists s3'. split; [|exact Hview3''].
    unfold replace. rewrite (seq_ret _ _ _ _ _ (errorOnReadOnly_open _ Hro)).
    rewrite bind_read, (field_eq __key _ _ _ Ht).
    rewrite (bind_ret _ _ _ _ _ Hrun2'), (seq_ret _ _ _ _ _ Hrun3').
    apply read_throw. exact Hthrow'.
  - rewrite (detach_at_node _ _ _ _ Hwf Hm Hq). eexists. split; reflexivity.
Qed.

End DetachedTarget.

(** ** Following a mutator step by step *)

Lemma tracks_start s : good s → (∀ k n, view s !! k = Some n → class_fields_ok n) →
  tracks s s.
Proof.
  intros Hgood Hcf. split; [exact Hgood|]. split; [apply heap_ext_refl|].
  intros k n Hn. split; [eauto|]. exists n. split; [exact Hn | reflexivity].
Qed.

Lemma tracks_ref s0 s r nt :
  tracks s0 s → heap s0 !! r = Some nt →
  ∃ nt', heap s !! r = Some nt' ∧ __key nt' = __key nt ∧ klass nt' = klass nt.
Proof.
  intros (_ & Hext & _) Hr. destruct (heap_ext_key _ _ _ _ Hext Hr) as (nt' & ? & ? & ? & _).
  eauto.
Qed.

Lemma tracks_selection s0 s s' : tracks s0 s → selection_only s s' → tracks s0 s'.
Proof.
  intros (Hgood & Hext & Hcf) Hsel. split; [eapply selection_only_good; eauto|].
  split.
  - eapply heap_ext_trans; [exact Hext|]. apply heap_ext_same. apply selection_only_heap.
    exact Hsel.
  - rewrite (selection_only_view _ _ Hsel). exact Hcf.
Qed.

Lemma tracks_alter s0 s s' k upd :
  tracks s0 s → good s' → heap_ext s s' → view s' = alter upd k (view s) →
  keeps_class (view s) k upd → tracks s0 s'.
Proof.
  intros (Hgood & Hext & Hcf) Hgood' Hext' Hview Hupd.
  split; [exact Hgood'|]. split; [eapply heap_ext_trans; eauto|].
  intros k' n' Hn'. rewrite Hview in Hn'. apply lookup_alter_Some in Hn'.
  destruct Hn' as [(-> & n & Hn & ->) | (Hne & Hn)].
  - destruct (Hcf _ _ Hn) as (Hcfn & n0 & Hn0 & Hkl).
    destruct (Hupd n Hn Hcfn) as ((_ & Hkl' & _) & Hcf').
    split; [exact Hcf'|]. exists n0. split; [exact Hn0 | congruence].
  - apply Hcf. exact Hn.
Qed.

(** [r.getWritable()]. *)
Lemma getWritable_track s0 s r nt :
  tracks s0 s → heap s0 !! r = Some nt → is_Some (view s !! __key nt) →
  ∃ w s', getWritable r s = (Ret w, s')
    ∧ tracks s0 s' ∧ view s' = view s
    ∧ _nodeMap s' !! __key nt = Some w ∧ nodeMap_but (__key nt) s s'
    ∧ _selection s' = _selection s ∧ heap_ext s s'.
Proof.
  intros Htr Hr [n Hn]. pose proof Htr as (Hgood & Hext & Hcf).
  destruct (tracks_ref _ _ _ _ Htr Hr) as (nt' & Hr' & Hk & _).
  rewrite <- Hk in Hn. destruct (Hcf _ _ Hn) as (Hcfn & _).
  destruct (getWritable_step s r nt' n Hgood Hr' Hn Hcfn)
    as (w & s' & Hrun & Hgood' & Hview & Hw & Hbut & Hsel & Hext').
  rewrite Hk in Hw, Hbut.
  exists w, s'. split; [exact Hrun|]. split.
  { split; [exact Hgood'|]. split; [eapply heap_ext_trans; eauto|].
    rewrite Hview. exact Hcf. }
  split; [exact Hview|]. split; [exact Hw|]. split; [exact Hbut|]. split; assumption.
Qed.

(** [w.f = x] on the writable node [w] of the key [k]. *)
Lemma assign_track s0 s k w upd :
  tracks s0 s → _nodeMap s !! k = Some w → keeps_class (view s) k upd →
  ∃ s', assign upd w s = (Ret tt, s')
    ∧ tracks s0 s' ∧ view s' = alter upd k (view s)
    ∧ _nodeMap s' = _nodeMap s ∧ _selection s' = _selection s ∧ heap_ext s s'.
Proof.
  intros Htr Hw Hupd. pose proof Htr as (Hgood & Hext & Hcf).
  destruct (latest_ref_valid _ _ _ Hgood Hw) as (n & Hn & Hk & Hv). rewrite Hk in Hv.
  destruct (Hcf _ _ Hv) as (Hcfn & _).
  destruct (Hupd n Hv Hcfn) as (Hobj & Hcf').
  destruct (assign_step s k w n upd Hgood Hw Hv Hobj)
    as (s' & Hrun & Hgood' & Hview & Hmap & Hsel & Hext').
  exists s'. split; [exact Hrun|].
  split; [eapply tracks_alter; eauto|]. split; [exact Hview|].
  split; [exact Hmap|]. split; assumption.
Qed.

(** [r.getWritable().f = x]. *)
Lemma write_track s0 s r nt upd :
  tracks s0 s → heap s0 !! r = Some nt → is_Some (view s !! __key nt) →
  keeps_class (view s) (__key nt) upd →
  ∃ w s1 s', getWritable r s = (Ret w, s1) ∧ assign upd w s1 = (Ret tt, s')
    ∧ tracks s0 s' ∧ view s' = alter upd (__key nt) (view s)
    ∧ _nodeMap s' !! __key nt = Some w ∧ nodeMap_but (__key nt) s s'
    ∧ _selection s' = _selection s ∧ heap_ext s s'.
Proof.
  intros Htr Hr Hsome Hupd.
  destruct (getWritable_track s0 s r nt Htr Hr Hsome)
    as (w & s1 & Hrun1 & Htr1 & Hview1 & Hw1 & Hbut1 & Hsel1 & Hext1).
  rewrite <- Hview1 in Hupd.
  destruct (assign_track s0 s1 _ w upd Htr1 Hw1 Hupd)
    as (s' & Hrun2 & Htr2 & Hview2 & Hmap2 & Hsel2 & Hext2).
  exists w, s1, s'. split; [exact Hrun1|]. split; [exact Hrun2|].
  split; [exact Htr2|]. split; [rewrite Hview2, Hview1; reflexivity|].
  split; [rewrite Hmap2; exact Hw1|].
  split; [intros k' Hne; rewrite Hmap2; apply Hbut1; exact Hne|].
  split; [congruence | eapply heap_ext_trans; eauto].
Qed.

Lemma setNext_track s0 s r nt x :
  tracks s0 s → heap s0 !! r = Some nt → is_Some (view s !! __key nt) →
  keeps_class (view s) (__key nt) (set___next x) →
  ∃ s', setNext r x s = (Ret tt, s')
    ∧ tracks s0 s' ∧ view s' = alter (set___next x) (__key nt) (view s)
    ∧ nodeMap_but (__key nt) s s' ∧ _selection s' = _selection s ∧ heap_ext s s'.
Proof.
  intros Htr Hr Hsome Hupd.
  destruct (write_track s0 s r nt _ Htr Hr Hsome Hupd)
    as (w & s1 & s' & Hrun1 & Hrun2 & Htr' & Hview & _ & Hbut & Hsel & Hext).
  exists s'.
  split; [|split; [exact Htr'|split; [exact Hview|split; [exact Hbut|split; assumption]]]].
  unfold setNext. rewrite (bind_ret _ _ _ _ _ Hrun1). exact Hrun2.
Qed.

Lemma setPrev_track s0 s r nt x :
  tracks s0 s → heap s0 !! r = Some nt → is_Some (view s !! __key nt) →
  keeps_class (view s) (__key nt) (set___prev x) →
  ∃ s', setPrev r x s = (Ret tt, s')
    ∧ tracks s0 s' ∧ view s' = alter (set___prev x) (__key nt) (view s)
    ∧ nodeMap_but (__key nt) s s' ∧ _selection s' = _selection s ∧ heap_ext s s'.
Proof.
  intros Htr Hr Hsome Hupd.
  destruct (write_track s0 s r nt _ Htr Hr Hsome Hupd)
    as (w & s1 & s' & Hrun1 & Hrun2 & Htr' & Hview & _ & Hbut & Hsel & Hext).
  exists s'.
  split; [|split; [exact Htr'|split; [exact Hview|split; [exact Hbut|split; assumption]]]].
  unfold setPrev. rewrite (bind_ret _ _ _ _ _ Hrun1). exact Hrun2.
Qed.

(** The setters of the links keep the class of any node, and the setters of
    the child list that of an element. *)
Lemma keeps_class_links v k upd :
  (∀ x, same_object x (upd x)
        ∧ klass (upd x) = klass x ∧ __format (upd x) = __format x
        ∧ __indent (upd x) = __indent x ∧ __dir (upd x) = __dir x
        ∧ __first (upd x) = __first x ∧ __last (upd x) = __last x
        ∧ __size (upd x) = __size x ∧ __style (upd x) = __style x
        ∧ __mode (upd x) = __mode x ∧ __detail (upd x) = __detail x) →
  keeps_class v k upd.
Proof.
  intros Hupd n Hn Hcf. split; [apply Hupd|].
  apply (class_fields_ok_links n upd); [|exact Hcf].
  intros x. destruct (Hupd x) as (_ & H). exact H.
Qed.

Lemma keeps_class_element v k upd :
  (∃ n, v !! k = Some n ∧ isElementClass (klass n) = true) →
  (∀ x, same_object x (upd x)
        ∧ __style (upd x) = __style x ∧ __mode (upd x) = __mode x
        ∧ __detail (upd x) = __detail x) →
  keeps_class v k upd.
Proof.
  intros (n0 & Hn0 & Hel) Hupd n Hn Hcf. rewrite Hn0 in Hn. inversion Hn; subst n0.
  destruct (Hupd n) as (Hobj & Hst & Hmo & Hde). split; [exact Hobj|].
  destruct Hobj as (_ & Hkl & _).
  unfold class_fields_ok in *. rewrite Hkl.
  destruct (klass n); try discriminate; destruct_and?; repeat split; congruence.
Qed.

(** The class of a node of the document while a mutator runs. *)
Lemma tracks_element s0 s k n0 :
  tracks s0 s → view s0 !! k = Some n0 → isElementClass (klass n0) = true →
  is_Some (view s !! k) →
  ∃ n, view s !! k = Some n ∧ isElementClass (klass n) = true.
Proof.
  intros (_ & _ & Hcf) Hn0 Hel [n Hn]. destruct (Hcf _ _ Hn) as (_ & n0' & Hn0' & Hkl).
  rewrite Hn0 in Hn0'. inversion Hn0'; subst n0'. exists n. split; [exact Hn | congruence].
Qed.

(** Reading a field of the writable node of a key. *)
Lemma field_latest {A} (f : LexicalNode → A) s k w n :
  _nodeMap s !! k = Some w → view s !! k = Some n → field f w s = Ret (f n).
Proof.
  intros Hw Hv. destruct (view_inv _ _ _ Hv) as (l & Hl & Hn).
  rewrite Hw in Hl. inversion Hl; subst l. apply field_eq. exact Hn.
Qed.

(** ** Attaching a node to a parent *)

Lemma attach_lookup v p x before after :
  x ≠ p → before ≠ Some x → after ≠ Some x → before ≠ Some p → after ≠ Some p →
  (∀ c, before = Some c → after = Some c → False) →
  ∀ c, attach v p x before after !! c =
    if decide (c = x) then attach_node p before after <$> v !! x
    else if decide (c = p) then attach_parent x before after <$> v !! p
    else if decide (Some c = before) then set___next (Some x) <$> v !! c
    else if decide (Some c = after) then set___prev (Some x) <$> v !! c
    else v !! c.
Proof.
  intros Hxp Hbx Hax Hbp Hap Hba c. unfold attach, attach_parent, attach_node.
  destruct before as [b|], after as [a|];
    try (destruct (decide (b = a)) as [->|]; [exfalso; eauto|]);
    repeat case_decide; simplify_eq;
    repeat (first [rewrite lookup_alter_eq | rewrite lookup_alter_ne by congruence]);
    try reflexivity;
    destruct (v !! p) as [np|]; reflexivity.
Qed.

Lemma lookup_insert_at (cs : list NodeKey) x j i :
  (j ≤ length cs)%nat →
  (take j cs ++ x :: drop j cs) !! i =
    if decide (i < j)%nat then cs !! i
    else if decide (i = j) then Some x
    else cs !! (i - 1)%nat.
Proof.
  intros Hj. assert (Hlen : length (take j cs) = j) by (rewrite length_take; lia).
  repeat case_decide.
  - rewrite lookup_app_l by lia. apply lookup_take_lt. lia.
  - subst i. rewrite lookup_app_r by lia. rewrite Hlen, Nat.sub_diag. reflexivity.
  - rewrite lookup_app_r by lia. rewrite Hlen.
    rewrite lookup_cons_ne_0 by lia. rewrite lookup_drop. f_equal. lia.
Qed.

(** The child list of the parent after the node is attached at the place
    [j]. *)
Lemma attach_children_ok v p np cs j x m :
  v !! p = Some np → children_ok v p np cs → v !! x = Some m → __parent m = None →
  x ≠ p → p ∉ cs → (j ≤ length cs)%nat →
  let before := match j with O => None | S i => cs !! i end in
  let after := cs !! j in
  let v' := attach v p x before after in
  v' !! p = Some (attach_parent x before after np)
  ∧ v' !! x = Some (attach_node p before after m)
  ∧ children_ok v' p (attach_parent x before after np) (take j cs ++ x :: drop j cs)
  ∧ (∀ c, c ≠ p → c ≠ x → before ≠ Some c → after ≠ Some c → v' !! c = v !! c).
Proof.
  intros Hnp (Hlink & Hnd & Hfirst & Hlast & Hsize & Hclosed) Hm Hpm Hxp Hpcs Hj
    before after v'.
  assert (Hxcs : x ∉ cs).
  { intros Hin. apply list_elem_of_lookup in Hin as (i & Hi).
    destruct (Hlink _ _ Hi) as (m' & Hm' & Hp' & _). congruence. }
  assert (Hbin : ∀ c, before = Some c → c ∈ cs).
  { intros c Hc. subst before. destruct j as [|i]; [discriminate|].
    eapply list_elem_of_lookup_2; eauto. }
  assert (Hain : ∀ c, after = Some c → c ∈ cs).
  { intros c Hc. eapply list_elem_of_lookup_2; eauto. }
  assert (Hb : ∀ i c, cs !! i = Some c → (Some c = before ↔ j = S i)).
  { intros i c Hc. subst before. split.
    - intros Heq. destruct j as [|i']; [discriminate|]. symmetry in Heq.
      f_equal. apply (NoDup_lookup _ _ _ _ Hnd Heq Hc).
    - intros ->. symmetry. exact Hc. }
  assert (Ha : ∀ i c, cs !! i = Some c → (Some c = after ↔ j = i)).
  { intros i c Hc. subst after. split.
    - intros Heq. symmetry in Heq. apply (NoDup_lookup _ _ _ _ Hnd Heq Hc).
    - intros ->. symmetry. exact Hc. }
  assert (Hlook := attach_lookup v p x before after Hxp).
  assert (Hlook' : ∀ c, v' !! c =
    if decide (c = x) then attach_node p before after <$> v !! x
    else if decide (c = p) then attach_parent x before after <$> v !! p
    else if decide (Some c = before) then set___next (Some x) <$> v !! c
    else if decide (Some c = after) then set___prev (Some x) <$> v !! c
    else v !! c).
  { apply Hlook.
    - intros H. apply Hxcs, Hbin, H.
    - intros H. apply Hxcs, Hain, H.
    - intros H. apply Hpcs, Hbin, H.
    - intros H. apply Hpcs, Hain, H.
    - intros c Hbc Hac. subst before after. destruct j as [|i]; [discriminate|].
      pose proof (NoDup_lookup _ _ _ _ Hnd Hbc Hac). lia. }
  clear Hlook.
  assert (Hchild : ∀ i c, cs !! i = Some c →
    ∃ nc, v !! c = Some nc ∧ __parent nc = Some p
      ∧ __prev nc = match i with O => None | S i' => cs !! i' end
      ∧ __next nc = cs !! S i
      ∧ v' !! c = Some (if decide (j = S i) then set___next (Some x) nc
                        else if decide (j = i) then set___prev (Some x) nc
                        else nc)).
  { intros i c Hc. destruct (Hlink _ _ Hc) as (nc & Hnc & Hp & Hpv & Hnx).
    exists nc. repeat split; try assumption.
    assert (c ≠ x) by (intros ->; apply Hxcs; eapply list_elem_of_lookup_2; eauto).
    assert (c ≠ p) by (intros ->; apply Hpcs; eapply list_elem_of_lookup_2; eauto).
    rewrite Hlook'. rewrite decide_False by assumption. rewrite decide_False by assumption.
    destruct (decide (j = S i)) as [Hji|Hji].
    - rewrite decide_True by (apply (Hb i c Hc); exact Hji). rewrite Hnc. reflexivity.
    - rewrite decide_False by (intros H'; apply Hji, (Hb i c Hc), H').
      destruct (decide (j = i)) as [Hji'|Hji'].
      + rewrite decide_True by (apply (Ha i c Hc); exact Hji'). rewrite Hnc. reflexivity.
      + rewrite decide_False by (intros H'; apply Hji', (Ha i c Hc), H'). exact Hnc. }
  assert (Hp' : v' !! p = Some (attach_parent x before after np)).
  { rewrite Hlook'. rewrite decide_False by congruence. rewrite decide_True by reflexivity.
    rewrite Hnp. reflexivity. }
  assert (Hx' : v' !! x = Some (attach_node p before after m)).
  { rewrite Hlook'. rewrite decide_True by reflexivity. rewrite Hm. reflexivity. }
  split; [exact Hp'|]. split; [exact Hx'|]. split.
  - split; [|split; [|split; [|split; [|split]]]].
    + (* linked *)
      intros i c Hc. rewrite (lookup_insert_at cs x j i Hj) in Hc.
      destruct (decide (i < j)%nat) as [Hlt|Hge].
      * destruct (Hchild i c Hc) as (nc & Hnc & Hp & Hpv & Hnx & Hv').
        eexists. split; [exact Hv'|].
        rewrite (lookup_insert_at cs x j (S i) Hj).
        destruct (decide (j = S i)) as [Hji|Hji].
        -- cbn [__parent __prev __next set___next].
           split; [exact Hp|]. split.
           ++ rewrite Hpv. destruct i as [|i']; [reflexivity|].
              rewrite (lookup_insert_at cs x j i' Hj). rewrite decide_True by lia. reflexivity.
           ++ rewrite decide_False by lia. rewrite decide_True by lia. reflexivity.
        -- rewrite decide_False by lia.
           split; [exact Hp|]. split.
           ++ rewrite Hpv. destruct i as [|i']; [reflexivity|].
              rewrite (lookup_insert_at cs x j i' Hj). rewrite decide_True by lia. reflexivity.
           ++ rewrite decide_True by lia. exact Hnx.
      * destruct (decide (i = j)) as [Hij|Hij].
        -- inversion Hc; subst c. subst i. eexists. split; [exact Hx'|].
           cbn [attach_node __parent __prev __next set___next set___prev set___parent].
           split; [reflexivity|]. split.
           ++ subst before. destruct j as [|i']; [reflexivity|].
              rewrite (lookup_insert_at cs x (S i') i' Hj). rewrite decide_True by lia.
              reflexivity.
           ++ rewrite (lookup_insert_at cs x j (S j) Hj).
              rewrite decide_False by lia. rewrite decide_False by lia.
              subst after. f_equal. lia.
        -- destruct (Hchild (i - 1)%nat c Hc) as (nc & Hnc & Hp & Hpv & Hnx & Hv').
           rewrite (decide_False (P := j = S (i - 1))) in Hv' by lia.
           eexists. split; [exact Hv'|].
           destruct i as [|i']; [lia|].
           replace (S i' - 1)%nat with i' in * by lia.
           rewrite (lookup_insert_at cs x j (S (S i')) Hj).
           rewrite (decide_False (P := (S (S i') < j)%nat)) by lia.
           rewrite (decide_False (P := S (S i') = j)) by lia.
           replace (S (S i') - 1)%nat with (S i') by lia.
           rewrite (lookup_insert_at cs x j i' Hj).
           rewrite (decide_False (P := (i' < j)%nat)) by lia.
           destruct (decide (j = i')) as [Hji|Hji].
           ++ rewrite (decide_True (P := i' = j)) by lia.
              cbn [__parent __prev __next set___prev].
              split; [exact Hp|]. split; [reflexivity | exact Hnx].
           ++ rewrite (decide_False (P := i' = j)) by lia.
              split; [exact Hp|]. split; [|exact Hnx].
              rewrite Hpv. destruct i' as [|i'']; [lia|].
              replace (S i'' - 1)%nat with i'' by lia. reflexivity.
    + (* no duplicates *)
      rewrite <- (take_drop j cs) in Hnd, Hxcs.
      apply NoDup_app in Hnd as (Hnd1 & Hdis & Hnd2).
      apply NoDup_app. split; [exact Hnd1|]. split.
      * intros c Hc Hin. apply elem_of_cons in Hin as [->|Hin].
        -- apply Hxcs. apply elem_of_app. left. exact Hc.
        -- apply (Hdis c Hc Hin).
      * apply NoDup_cons. split; [|exact Hnd2].
        intros Hin. apply Hxcs. apply elem_of_app. right. exact Hin.
    + (* first child *)
      rewrite head_lookup, (lookup_insert_at cs x j 0 Hj).
      unfold attach_parent. subst before after.
      destruct j as [|i].
      * rewrite decide_False by lia. rewrite decide_True by reflexivity.
        destruct (cs !! 0%nat); reflexivity.
      * rewrite decide_True by lia.
        destruct (cs !! i) as [b|] eqn:Hbi; [|apply lookup_ge_None in Hbi; lia].
        rewrite <- head_lookup, <- Hfirst. destruct (cs !! S i); reflexivity.
    + (* last child *)
      rewrite last_lookup, (lookup_insert_at cs x j _ Hj).
      rewrite length_app, length_take, length_cons, length_drop.
      unfold attach_parent. subst before after.
      destruct (decide (j = length cs)) as [->|Hne].
      * rewrite decide_False by lia. rewrite decide_True by lia.
        rewrite (lookup_ge_None_2 cs (length cs)) by lia.
        destruct (match length cs with O => None | S i => cs !! i end); reflexivity.
      * destruct (cs !! j) as [a|] eqn:Haj; [|apply lookup_ge_None in Haj; lia].
        rewrite decide_False by lia. rewrite decide_False by lia.
        replace (pred (j `min` length cs + S (length cs - j)) - 1)%nat
          with (pred (length cs)) by lia.
        rewrite <- last_lookup, <- Hlast.
        destruct (match j with O => None | S i => cs !! i end); reflexivity.
    + (* child count *)
      rewrite length_app, length_take, length_cons, length_drop.
      unfold attach_parent. subst before after.
      destruct (match j with O => None | S i => cs !! i end), (cs !! j);
        cbn [__size set___size set___first set___last]; rewrite Hsize; lia.
    + (* nothing else has this parent *)
      intros c nc' Hc Hpc.
      destruct (decide (c = x)) as [->|Hcx];
        [apply elem_of_app; right; left|].
      assert (Hin : c ∈ cs).
      { rewrite Hlook' in Hc. rewrite decide_False in Hc by exact Hcx.
        destruct (decide (c = p)) as [->|Hcp].
        - rewrite Hnp in Hc. inversion Hc; subst nc'.
          apply (Hclosed p np Hnp).
          unfold attach_parent in Hpc.
          destruct before, after; exact Hpc.
        - destruct (decide (Some c = before)) as [Hcb|Hcb]; [apply Hbin; congruence|].
          destruct (decide (Some c = after)) as [Hca|Hca]; [apply Hain; congruence|].
          apply (Hclosed c nc' Hc Hpc). }
      rewrite <- (take_drop j cs) in Hin. apply elem_of_app in Hin as [Hin|Hin];
        apply elem_of_app; [left | right; right]; exact Hin.
  - intros c Hcp Hcx Hcb Hca. rewrite Hlook'.
    rewrite decide_False by exact Hcx. rewrite decide_False by exact Hcp.
    rewrite decide_False by congruence. rewrite decide_False by congruence. reflexivity.
Qed.

(** ** Inserting a node *)

Lemma next_chain_functional v o cs1 : next_chain v o cs1 →
  ∀ cs2, next_chain v o cs2 → cs1 = cs2.
Proof.
  induction 1 as [|k n l Hn Hch IH]; intros cs2 H2; inversion H2 as [|? n' l' Hn' Hch']; subst.
  - reflexivity.
  - rewrite Hn in Hn'. inversion Hn'; subst n'. f_equal. apply IH. exact Hch'.
Qed.

Lemma children_ok_unique v p np cs1 cs2 :
  children_ok v p np cs1 → children_ok v p np cs2 → cs1 = cs2.
Proof.
  intros (Hl1 & _ & Hf1 & _) (Hl2 & _ & Hf2 & _).
  pose proof (linked_next_chain _ _ _ Hl1) as H1. rewrite <- Hf1 in H1.
  pose proof (linked_next_chain _ _ _ Hl2) as H2. rewrite <- Hf2 in H2.
  eapply next_chain_functional; eauto.
Qed.

(** The place of a node in its parent, in a well-formed document. *)
Lemma well_formed_place v k n p np cs i :
  well_formed v → v !! k = Some n → __parent n = Some p →
  v !! p = Some np → children_ok v p np cs → cs !! i = Some k →
  isElementClass (klass np) = true ∧ p ≠ k ∧ (p ∉ cs)
  ∧ __prev n = match i with O => None | S j => cs !! j end
  ∧ __next n = cs !! S i.
Proof.
  intros Hwf Hn Hp Hnp Hch Hi.
  destruct (well_formed_child _ _ _ _ Hwf Hn Hp)
    as (np' & cs' & i0 & Hnp' & Hel & _ & Hch' & Hi0 & Hpk & Hpcs & Hprev & Hnext).
  rewrite Hnp in Hnp'. inversion Hnp'; subst np'.
  pose proof (children_ok_unique _ _ _ _ _ Hch' Hch) as ->.
  destruct Hch as (_ & Hnd & _).
  pose proof (NoDup_lookup _ _ _ _ Hnd Hi0 Hi) as ->.
  repeat split; assumption.
Qed.

Lemma next_chain_alter v f x o cs :
  next_chain v o cs → x ∉ cs → next_chain (alter f x v) o cs.
Proof.
  intros Hch Hx. induction Hch as [|k n l Hn Hch IH]; [constructor|].
  apply not_elem_of_cons in Hx as (Hxk & Hxl).
  econstructor.
  - rewrite lookup_alter_ne by exact Hxk. exact Hn.
  - apply IH. exact Hxl.
Qed.

(** [removeFromParent] leaves a node that has no parent as it is. *)
Lemma removeFromParent_detached s node nt n :
  heap s !! node = Some nt → view s !! __key nt = Some n → __parent n = None →
  removeFromParent node s = (Ret tt, s).
Proof.
  intros Hnode Hn Hp. unfold removeFromParent.
  rewrite bind_read, (getParent_none _ _ _ _ Hnode Hn Hp). reflexivity.
Qed.

Lemma nodeMap_but_keep k k' s s' r :
  nodeMap_but k s s' → k' ≠ k → _nodeMap s !! k' = Some r → _nodeMap s' !! k' = Some r.
Proof. intros Hbut Hne Hr. rewrite (Hbut k' Hne). exact Hr. Qed.

Section Insert.

Variable updateElementSelectionOnCreateDeleteNode : Ref → Z → Z → PointMover.

Local Abbreviation insertBefore' := (insertBefore updateElementSelectionOnCreateDeleteNode).
Local Abbreviation insertAfter' := (insertAfter updateElementSelectionOnCreateDeleteNode).

(** X12.  [insertBefore].  In an open update over a well-formed document,
    inserting a node that has no parent and no siblings before the child at
    the place [i] of [p] returns the node and attaches it between the
    previous sibling and the target: the child list of [p] is the old one
    with the node at the place [i], and its child count is one more. *)
Theorem insertBefore_attaches s fuel this nt n node nn m p np cs i :
  store_ok s → readOnly s = false → well_formed (view s) →
  heap s !! this = Some nt → view s !! __key nt = Some n → __parent n = Some p →
  view s !! p = Some np → children_ok (view s) p np cs → cs !! i = Some (__key nt) →
  heap s !! node = Some nn → view s !! __key nn = Some m →
  __parent m = None → __prev m = None → __next m = None → __key nn ≠ p →
  (length cs ≤ fuel)%nat →
  let before := match i with O => None | S j => cs !! j end in
  ∃ s' np',
    insertBefore' fuel this node s = (Ret node, s')
    ∧ view s' = attach (view s) p (__key nn) before (Some (__key nt))
    ∧ view s' !! p = Some np'
    ∧ children_ok (view s') p np' (take i cs ++ __key nn :: drop i cs)
    ∧ __size np' = __size np + 1.
Proof.
  intros Hok Hro Hwf Ht Hn Hp Hnp Hch Hi Hnode Hm Hpm Hprevm Hnextm Hxp Hf before.
  destruct (well_formed_place _ _ n p np cs i Hwf Hn Hp Hnp Hch Hi)
    as (Hel & Hpk & Hpcs & Hprev & Hnext).
  pose proof Hch as (Hlink & Hnd & Hfirst & Hlast & Hsize & Hclosed).
  assert (Hgood : good s) by (split; assumption).
  assert (Htr : tracks s s).
  { apply tracks_start; [exact Hgood|]. intros c nc Hc. apply (Hwf c nc Hc). }
  assert (Hxk : __key nn ≠ __key nt) by (intros Heq; rewrite Heq in Hm; congruence).
  assert (Hxcs : __key nn ∉ cs).
  { intros Hin. apply list_elem_of_lookup in Hin as (j & Hj).
    destruct (Hlink _ _ Hj) as (m' & Hm' & Hp' & _). congruence. }
  assert (Hbin : ∀ b, before = Some b → b ∈ cs ∧ b ≠ __key nt).
  { intros b Hb. subst before. destruct i as [|i']; [discriminate|]. split.
    - eapply list_elem_of_lookup_2; eauto.
    - intros ->. pose proof (NoDup_lookup _ _ _ _ Hnd Hi Hb). lia. }
  assert (Hbx : before ≠ Some (__key nn)).
  { intros Hb. apply Hxcs. apply (Hbin _ Hb). }
  assert (Hbp : before ≠ Some p).
  { intros Hb. apply Hpcs. apply (Hbin _ Hb). }
  destruct (good_latest _ _ _ Hgood Hnp) as (rp & Hrp & Hhp & Hkp).
  (* the target and the node are made writable *)
  destruct (getWritable_track s s this nt Htr Ht (ex_intro _ n Hn))
    as (wk & s1 & Hrun1 & Htr1 & Hview1 & Hwk1 & Hbut1 & Hsel1 & Hext1).
  destruct (getWritable_track s s1 node nn Htr1 Hnode)
    as (wx & s2 & Hrun2 & Htr2 & Hview2 & Hwx2 & Hbut2 & Hsel2 & Hext2);
    [rewrite Hview1; eauto|].
  assert (Hv2 : view s2 = view s) by congruence.
  pose proof Htr2 as (Hgood2 & _ & _).
  destruct (latest_ref_valid _ _ _ Hgood2 Hwx2) as (nwx & Hnwx & Hkwx & _).
  assert (Hmx2 : view s2 !! __key nwx = Some m) by (rewrite Hkwx, Hv2; exact Hm).
  pose proof (removeFromParent_detached s2 wx nwx m Hnwx Hmx2 Hpm) as Hrun3.
  pose proof Htr1 as (Hgood1 & _ & _).
  destruct (latest_ref_valid _ _ _ Hgood1 Hwk1) as (nwk & Hnwk & Hkwk & _).
  (* the parent *)
  destruct (tracks_ref _ _ _ _ Htr2 Ht) as (nt2 & Ht2 & Hkt2 & _).
  assert (Hn2 : view s2 !! __key nt2 = Some n) by (rewrite Hkt2, Hv2; exact Hn).
  assert (Hrp2 : _nodeMap s2 !! p = Some rp).
  { eapply nodeMap_but_keep; [exact Hbut2 | congruence|].
    eapply nodeMap_but_keep; [exact Hbut1 | congruence | exact Hrp]. }
  pose proof (getParentOrThrow_view _ _ _ _ _ _ Ht2 Hn2 Hp Hrp2) as Hrun4.
  destruct (getWritable_track s s2 rp np Htr2 Hhp)
    as (wp & s3 & Hrun5 & Htr3 & Hview3 & Hwp3 & Hbut3 & Hsel3 & Hext3);
    [rewrite Hkp, Hv2; eauto|].
  rewrite Hkp in Hwp3, Hbut3.
  assert (Hv3 : view s3 = view s) by congruence.
  assert (Hwx3 : _nodeMap s3 !! __key nn = Some wx)
    by (eapply nodeMap_but_keep; [exact Hbut3 | congruence | exact Hwx2]).
  assert (Hwk3 : _nodeMap s3 !! __key nt = Some wk).
  { eapply nodeMap_but_keep; [exact Hbut3 | congruence|].
    eapply nodeMap_but_keep; [exact Hbut2 | congruence | exact Hwk1]. }
  (* the node takes the parent of the target *)
  destruct (assign_track s s3 (__key nn) wx (set___parent (Some p)) Htr3 Hwx3)
    as (s4 & Hrun6 & Htr4 & Hview4 & Hmap4 & Hsel4 & Hext4);
    [apply keeps_class_links; intros y; repeat split|].
  rewrite Hv3 in Hview4.
  (* the index of the target *)
  destruct (tracks_ref _ _ _ _ Htr4 Ht) as (nt4 & Ht4 & Hkt4 & _).
  assert (Hn4 : view s4 !! __key nt4 = Some n).
  { rewrite Hkt4, Hview4. rewrite lookup_alter_ne by exact Hxk. exact Hn. }
  assert (Hnp4 : view s4 !! p = Some np).
  { rewrite Hview4. rewrite lookup_alter_ne by exact Hxp. exact Hnp. }
  assert (Hidx : getIndexWithinParent fuel this s4 = Ret (Z.of_nat i)).
  { pose proof Htr4 as ((Hok4 & _) & _).
    apply (getIndexWithinParent_spec s4 fuel this nt4 n p np cs i Hok4 Ht4 Hn4 Hp Hnp4).
    - rewrite Hview4. apply next_chain_alter; [|exact Hxcs].
      rewrite Hfirst. eapply linked_next_chain; eauto.
    - rewrite Hkt4. apply index_of_lookup; assumption.
    - apply lookup_lt_Some in Hi. lia. }
  pose proof (getPreviousSibling_view _ _ _ _ Ht4 Hn4) as Hps. rewrite Hprev in Hps.
  fold before in Hps.
  assert (Hel' : ∀ s', tracks s s' → is_Some (view s' !! p) →
    ∃ np', view s' !! p = Some np' ∧ isElementClass (klass np') = true).
  { intros s' Htr' Hsome. eapply tracks_element; eauto. }
  assert (Hwp4 : _nodeMap s4 !! p = Some wp) by (rewrite Hmap4; exact Hwp3).
  (* the previous sibling, or the first child of the parent *)
  assert (Hlinks : ∃ s5,
    (match before ≫= λ b, _nodeMap s4 !! b with
     | Some ps =>
       setNext ps (Some (__key nn)) ;;
       let* prevKey := read (field __key ps) in
       setPrev node (Some prevKey)
     | None => assign (set___first (Some (__key nn))) wp
     end) s4 = (Ret tt, s5)
    ∧ tracks s s5 ∧ heap_ext s4 s5
    ∧ view s5
      = match before with
        | Some b => alter (set___prev (Some b)) (__key nn)
                      (alter (set___next (Some (__key nn))) b (view s4))
        | None => alter (set___first (Some (__key nn))) p (view s4)
        end
    ∧ _nodeMap s5 !! p = Some wp).
  { destruct before as [b|] eqn:Hb.
    - destruct (Hbin b eq_refl) as (Hbcs & Hbk).
      apply list_elem_of_lookup in Hbcs as (jb & Hjb).
      destruct (Hlink _ _ Hjb) as (nb & Hnb & _).
      destruct (good_latest _ _ _ Hgood Hnb) as (rb & Hrb & Hhb & Hkb).
      assert (Hbx' : b ≠ __key nn) by congruence.
      assert (Hbp' : b ≠ p) by congruence.
      assert (Hrb4 : _nodeMap s4 !! b = Some rb).
      { rewrite Hmap4.
        eapply nodeMap_but_keep; [exact Hbut3 | congruence|].
        eapply nodeMap_but_keep; [exact Hbut2 | congruence|].
        eapply nodeMap_but_keep; [exact Hbut1 | congruence | exact Hrb]. }
      cbn [mbind option_bind]. rewrite Hrb4.
      destruct (setNext_track s s4 rb nb (Some (__key nn)) Htr4 Hhb)
        as (s5 & Hrun7 & Htr5 & Hview5 & Hbut5 & Hsel5 & Hext5).
      { rewrite Hkb, Hview4. apply lookup_alter_is_Some. eauto. }
      { apply keeps_class_links; intros y; repeat split. }
      rewrite Hkb in Hview5, Hbut5.
      destruct (tracks_ref _ _ _ _ Htr5 Hhb) as (nb5 & Hhb5 & Hkb5 & _).
      destruct (setPrev_track s s5 node nn (Some b) Htr5 Hnode)
        as (s6 & Hrun8 & Htr6 & Hview6 & Hbut6 & Hsel6 & Hext6).
      { rewrite Hview5, Hview4. rewrite !lookup_alter_is_Some. eauto. }
      { apply keeps_class_links; intros y; repeat split. }
      exists s6. split; [|split; [exact Htr6|split; [eapply heap_ext_trans; eauto|split]]].
      + rewrite (seq_ret _ _ _ _ _ Hrun7).
        rewrite bind_read, (field_eq __key _ _ _ Hhb5), Hkb5, Hkb. exact Hrun8.
      + rewrite Hview6, Hview5. reflexivity.
      + eapply nodeMap_but_keep; [exact Hbut6 | congruence|].
        eapply nodeMap_but_keep; [exact Hbut5 | congruence | exact Hwp4].
    - cbn [mbind option_bind].
      destruct (assign_track s s4 p wp (set___first (Some (__key nn))) Htr4 Hwp4)
        as (s5 & Hrun7 & Htr5 & Hview5 & Hmap5 & Hsel5 & Hext5).
      { apply keeps_class_element; [apply Hel'; [exact Htr4 | eauto]|].
        intros y; repeat split. }
      exists s5. split; [exact Hrun7|]. split; [exact Htr5|]. split; [exact Hext5|].
      split; [exact Hview5|]. rewrite Hmap5. exact Hwp4. }
  destruct Hlinks as (s5 & Hrun7 & Htr5 & Hext5 & Hview5 & Hwp5).
  (* the target takes the node as previous sibling *)
  destruct (setPrev_track s s5 this nt (Some (__key nn)) Htr5 Ht)
    as (s6 & Hrun8 & Htr6 & Hview6 & Hbut6 & Hsel6 & Hext6).
  { rewrite Hview5, Hview4. destruct before; rewrite !lookup_alter_is_Some; eauto. }
  { apply keeps_class_links; intros y; repeat split. }
  (* the node takes the target as next sibling *)
  assert (Hext16 : heap_ext s1 s6).
  { eapply heap_ext_trans; [exact Hext2|]. eapply heap_ext_trans; [exact Hext3|].
    eapply heap_ext_trans; [exact Hext4|]. eapply heap_ext_trans; [exact Hext5|].
    exact Hext6. }
  destruct (heap_ext_key _ _ _ _ Hext16 Hnwk) as (nwk6 & Hnwk6 & Hkwk6 & _).
  destruct (setNext_track s s6 node nn (Some (__key nt)) Htr6 Hnode)
    as (s7 & Hrun9 & Htr7 & Hview7 & Hbut7 & Hsel7 & Hext7).
  { rewrite Hview6, Hview5, Hview4. destruct before; rewrite !lookup_alter_is_Some; eauto. }
  { apply keeps_class_links; intros y; repeat split. }
  (* the child count of the parent *)
  assert (Hwp7 : _nodeMap s7 !! p = Some wp).
  { eapply nodeMap_but_keep; [exact Hbut7 | congruence|].
    eapply nodeMap_but_keep; [exact Hbut6 | congruence | exact Hwp5]. }
  assert (Hp7 : ∃ np7, view s7 !! p = Some np7 ∧ isElementClass (klass np7) = true).
  { apply Hel'; [exact Htr7|].
    rewrite Hview7, Hview6, Hview5, Hview4.
    destruct before; rewrite !lookup_alter_is_Some; eauto. }
  destruct Hp7 as (np7 & Hnp7 & Hel7).
  destruct (assign_track s s7 p wp (set___size (__size np7 + 1)) Htr7 Hwp7)
    as (s8 & Hrun10 & Htr8 & Hview8 & Hmap8 & Hsel8 & Hext8).
  { apply keeps_class_element; [eauto|]. intros y; repeat split. }
  (* the selection *)
  assert (Hsel : ∃ s9,
    (let* selection := gets _selection in
     match selection with
     | Some _ =>
       runMover (updateElementSelectionOnCreateDeleteNode wp (Z.of_nat i) 1)
     | None => mret tt
     end ;;
     mret node) s8 = (Ret node, s9) ∧ selection_only s8 s9).
  { unfold bind at 1, mbind at 1, M_bind at 1, gets at 1.
    destruct (_selection s8).
    - destruct (runMover_step (updateElementSelectionOnCreateDeleteNode wp (Z.of_nat i) 1) s8)
        as (s9 & Hrun & Hs9).
      exists s9. rewrite (seq_ret _ _ _ _ _ Hrun). split; [reflexivity | exact Hs9].
    - exists s8. split; [reflexivity | apply selection_only_refl]. }
  destruct Hsel as (s9 & Hrun11 & Hsel9).
  (* the document *)
  assert (Hfinal : view s9 = attach (view s) p (__key nn) before (Some (__key nt))).
  { rewrite (selection_only_view _ _ Hsel9), Hview8, Hview7, Hview6, Hview5, Hview4.
    assert (Hsz : __size np7 = __size (match before with
                                       | Some _ => np
                                       | None => set___first (Some (__key nn)) np
                                       end)).
    { rewrite Hview7, Hview6, Hview5, Hview4 in Hnp7.
      destruct before as [b|] eqn:Hb.
      - destruct (Hbin b eq_refl) as (_ & Hbk).
        rewrite !lookup_alter_ne in Hnp7 by congruence. congruence.
      - rewrite lookup_alter_ne in Hnp7 by congruence.
        rewrite lookup_alter_ne in Hnp7 by congruence.
        rewrite lookup_alter_eq in Hnp7.
        rewrite lookup_alter_ne in Hnp7 by congruence.
        rewrite Hnp in Hnp7. inversion Hnp7. reflexivity. }
    apply map_eq. intros c.
    rewrite (attach_lookup (view s) p (__key nn) before (Some (__key nt)) Hxp Hbx);
      [|congruence|exact Hbp|congruence|intros c' Hb' Hc'; inversion Hc'; subst c';
         destruct (Hbin _ Hb'); congruence].
    destruct before as [b|] eqn:Hb.
    - destruct (Hbin b eq_refl) as (_ & Hbk).
      repeat case_decide; simplify_eq;
        repeat (first [rewrite lookup_alter_eq | rewrite lookup_alter_ne by congruence]);
        try reflexivity.
      + rewrite Hm. cbn. f_equal; try reflexivity; destruct m; cbn in *; subst; reflexivity.
      + rewrite Hnp in *. cbn. f_equal. unfold attach_parent. cbn in Hsz. rewrite Hsz.
        reflexivity.
    - repeat case_decide; simplify_eq;
        repeat (first [rewrite lookup_alter_eq | rewrite lookup_alter_ne by congruence]);
        try reflexivity.
      + rewrite Hm. cbn. f_equal; try reflexivity; destruct m; cbn in *; subst; reflexivity.
      + rewrite Hnp in *. cbn. f_equal. unfold attach_parent. cbn in Hsz. rewrite Hsz.
        reflexivity. }
  destruct (attach_children_ok (view s) p np cs i (__key nn) m Hnp Hch Hm Hpm Hxp Hpcs)
    as (Hp' & Hx' & Hch' & _); [apply lookup_lt_Some in Hi; lia|].
  rewrite Hi in Hp', Hch'. fold before in Hp', Hch'.
  exists s9, (attach_parent (__key nn) before (Some (__key nt)) np).
  split; [|split; [exact Hfinal|split; [rewrite Hfinal; exact Hp'|split]]].
  - unfold insertBefore. rewrite (seq_ret _ _ _ _ _ (errorOnReadOnly_open _ Hro)).
    rewrite (bind_ret _ _ _ _ _ Hrun1), (bind_ret _ _ _ _ _ Hrun2).
    rewrite (seq_ret _ _ _ _ _ Hrun3).
    rewrite bind_read, Hrun4. rewrite (bind_ret _ _ _ _ _ Hrun5).
    pose proof Htr3 as (Hgood3 & _ & _).
    destruct (latest_ref_valid _ _ _ Hgood3 Hwx3) as (nwx3 & Hnwx3 & Hkwx3 & _).
    rewrite bind_read, (field_eq __key _ _ _ Hnwx3), Hkwx3.
    assert (Hn3 : view s3 !! __key nt = Some n) by (rewrite Hv3; exact Hn).
    rewrite bind_read, (field_latest __parent s3 _ wk n Hwk3 Hn3), Hp.
    rewrite (seq_ret _ _ _ _ _ Hrun6).
    rewrite bind_read, Hidx.
    rewrite (bool_decide_eq_false_2 (Z.of_nat i = -1)) by lia.
    rewrite (seq_ret _ _ _ _ _ (eq_refl : (mret tt : M unit) s4 = (Ret tt, s4))).
    rewrite bind_read, Hps.
    rewrite (seq_ret _ _ _ _ _ Hrun7), (seq_ret _ _ _ _ _ Hrun8).
    rewrite bind_read, (field_eq __key _ _ _ Hnwk6), Hkwk6, Hkwk.
    rewrite (seq_ret _ _ _ _ _ Hrun9).
    rewrite bind_read, (field_latest __size s7 p wp np7 Hwp7 Hnp7).
    rewrite (seq_ret _ _ _ _ _ Hrun10). exact Hrun11.
  - rewrite Hfinal. exact Hch'.
  - unfold attach_parent. destruct before; cbn; reflexivity.
Qed.

(** X13.  [insertAfter].  In an open update over a well-formed document,
    inserting a node that has no parent and no siblings after the child at
    the place [i] of [p] returns the node and attaches it between the target
    and the next sibling: the child list of [p] is the old one with the node
    at the place [i + 1], and its child count is one more. *)
Theorem insertAfter_attaches s fuel this nt n node nn m p np cs i :
  store_ok s → readOnly s = false → well_formed (view s) →
  heap s !! this = Some nt → view s !! __key nt = Some n → __parent n = Some p →
  view s !! p = Some np → children_ok (view s) p np cs → cs !! i = Some (__key nt) →
  heap s !! node = Some nn → view s !! __key nn = Some m →
  __parent m = None → __prev m = None → __next m = None → __key nn ≠ p →
  (length cs ≤ fuel)%nat →
  let after := cs !! S i in
  ∃ s' np',
    insertAfter' fuel this node s = (Ret node, s')
    ∧ view s' = attach (view s) p (__key nn) (Some (__key nt)) after
    ∧ view s' !! p = Some np'
    ∧ children_ok (view s') p np' (take (S i) cs ++ __key nn :: drop (S i) cs)
    ∧ __size np' = __size np + 1.
Proof.
  intros Hok Hro Hwf Ht Hn Hp Hnp Hch Hi Hnode Hm Hpm Hprevm Hnextm Hxp Hf after.
  destruct (well_formed_place _ _ n p np cs i Hwf Hn Hp Hnp Hch Hi)
    as (Hel & Hpk & Hpcs & Hprev & Hnext).
  pose proof Hch as (Hlink & Hnd & Hfirst & Hlast & Hsize & Hclosed).
  assert (Hgood : good s) by (split; assumption).
  assert (Htr : tracks s s).
  { apply tracks_start; [exact Hgood|]. intros c nc Hc. apply (Hwf c nc Hc). }
  assert (Hxk : __key nn ≠ __key nt) by (intros Heq; rewrite Heq in Hm; congruence).
  assert (Hxcs : __key nn ∉ cs).
  { intros Hin. apply list_elem_of_lookup in Hin as (j & Hj).
    destruct (Hlink _ _ Hj) as (m' & Hm' & Hp' & _). congruence. }
  assert (Hain : ∀ a, after = Some a → a ∈ cs ∧ a ≠ __key nt).
  { intros a Ha. subst after. split.
    - eapply list_elem_of_lookup_2; eauto.
    - intros ->. pose proof (NoDup_lookup _ _ _ _ Hnd Hi Ha). lia. }
  assert (Hax : after ≠ Some (__key nn)).
  { intros Ha. apply Hxcs. apply (Hain _ Ha). }
  assert (Hap : after ≠ Some p).
  { intros Ha. apply Hpcs. apply (Hain _ Ha). }
  destruct (good_latest _ _ _ Hgood Hnp) as (rp & Hrp & Hhp & Hkp).
  (* the target and the node are made writable *)
  destruct (getWritable_track s s this nt Htr Ht (ex_intro _ n Hn))
    as (wk & s1 & Hrun1 & Htr1 & Hview1 & Hwk1 & Hbut1 & Hsel1 & Hext1).
  destruct (getWritable_track s s1 node nn Htr1 Hnode)
    as (wx & s2 & Hrun2 & Htr2 & Hview2 & Hwx2 & Hbut2 & Hsel2 & Hext2);
    [rewrite Hview1; eauto|].
  assert (Hv2 : view s2 = view s) by congruence.
  pose proof Htr2 as (Hgood2 & _ & _).
  destruct (latest_ref_valid _ _ _ Hgood2 Hwx2) as (nwx & Hnwx & Hkwx & _).
  assert (Hmx2 : view s2 !! __key nwx = Some m) by (rewrite Hkwx, Hv2; exact Hm).
  pose proof (getParent_none _ _ _ _ Hnwx Hmx2 Hpm) as Hrun3.
  destruct (tracks_ref _ _ _ _ Htr2 Hnode) as (nn2 & Hnode2 & Hknn2 & _).
  assert (Hm2 : view s2 !! __key nn2 = Some m) by (rewrite Hknn2, Hv2; exact Hm).
  assert (Hold : getIndexWithinParent fuel node s2 = Ret (-1)).
  { unfold getIndexWithinParent.
    rewrite (bindR_ret _ _ _ _ (getParent_none _ _ _ _ Hnode2 Hm2 Hpm)). reflexivity. }
  pose proof Htr1 as (Hgood1 & _ & _).
  destruct (latest_ref_valid _ _ _ Hgood1 Hwk1) as (nwk & Hnwk & Hkwk & _).
  (* the parent *)
  destruct (tracks_ref _ _ _ _ Htr2 Ht) as (nt2 & Ht2 & Hkt2 & _).
  assert (Hn2 : view s2 !! __key nt2 = Some n) by (rewrite Hkt2, Hv2; exact Hn).
  assert (Hrp2 : _nodeMap s2 !! p = Some rp).
  { eapply nodeMap_but_keep; [exact Hbut2 | congruence|].
    eapply nodeMap_but_keep; [exact Hbut1 | congruence | exact Hrp]. }
  pose proof (getParentOrThrow_view _ _ _ _ _ _ Ht2 Hn2 Hp Hrp2) as Hrun4.
  destruct (getWritable_track s s2 rp np Htr2 Hhp)
    as (wp & s3 & Hrun5 & Htr3 & Hview3 & Hwp3 & Hbut3 & Hsel3 & Hext3);
    [rewrite Hkp, Hv2; eauto|].
  rewrite Hkp in Hwp3, Hbut3.
  assert (Hv3 : view s3 = view s) by congruence.
  assert (Hwx3 : _nodeMap s3 !! __key nn = Some wx)
    by (eapply nodeMap_but_keep; [exact Hbut3 | congruence | exact Hwx2]).
  assert (Hwk3 : _nodeMap s3 !! __key nt = Some wk).
  { eapply nodeMap_but_keep; [exact Hbut3 | congruence|].
    eapply nodeMap_but_keep; [exact Hbut2 | congruence | exact Hwk1]. }
  (* the node takes the parent of the target *)
  destruct (assign_track s s3 (__key nn) wx (set___parent (Some p)) Htr3 Hwx3)
    as (s4 & Hrun6 & Htr4 & Hview4 & Hmap4 & Hsel4 & Hext4);
    [apply keeps_class_links; intros y; repeat split|].
  rewrite Hv3 in Hview4.
  (* the index of the target *)
  destruct (tracks_ref _ _ _ _ Htr4 Ht) as (nt4 & Ht4 & Hkt4 & _).
  assert (Hn4 : view s4 !! __key nt4 = Some n).
  { rewrite Hkt4, Hview4. rewrite lookup_alter_ne by exact Hxk. exact Hn. }
  assert (Hnp4 : view s4 !! p = Some np).
  { rewrite Hview4. rewrite lookup_alter_ne by exact Hxp. exact Hnp. }
  assert (Hidx : getIndexWithinParent fuel this s4 = Ret (Z.of_nat i)).
  { pose proof Htr4 as ((Hok4 & _) & _).
    apply (getIndexWithinParent_spec s4 fuel this nt4 n p np cs i Hok4 Ht4 Hn4 Hp Hnp4).
    - rewrite Hview4. apply next_chain_alter; [|exact Hxcs].
      rewrite Hfirst. eapply linked_next_chain; eauto.
    - rewrite Hkt4. apply index_of_lookup; assumption.
    - apply lookup_lt_Some in Hi. lia. }
  pose proof (getNextSibling_view _ _ _ _ Ht4 Hn4) as Hns. rewrite Hnext in Hns.
  fold after in Hns.
  assert (Hel' : ∀ s', tracks s s' → is_Some (view s' !! p) →
    ∃ np', view s' !! p = Some np' ∧ isElementClass (klass np') = true).
  { intros s' Htr' Hsome. eapply tracks_element; eauto. }
  assert (Hwp4 : _nodeMap s4 !! p = Some wp) by (rewrite Hmap4; exact Hwp3).
  (* the next sibling, or the last child of the parent *)
  assert (Hlinks : ∃ s5,
    (match after ≫= λ a, _nodeMap s4 !! a with
     | Some ns =>
       setPrev ns (Some (__key nn)) ;;
       let* nextKey := read (field __key ns) in
       setNext node (Some nextKey)
     | None => assign (set___last (Some (__key nn))) wp
     end) s4 = (Ret tt, s5)
    ∧ tracks s s5 ∧ heap_ext s4 s5
    ∧ view s5
      = match after with
        | Some a => alter (set___next (Some a)) (__key nn)
                      (alter (set___prev (Some (__key nn))) a (view s4))
        | None => alter (set___last (Some (__key nn))) p (view s4)
        end
    ∧ _nodeMap s5 !! p = Some wp).
  { destruct after as [a|] eqn:Ha.
    - destruct (Hain a eq_refl) as (Hacs & Hak).
      apply list_elem_of_lookup in Hacs as (ja & Hja).
      destruct (Hlink _ _ Hja) as (na & Hna & _).
      destruct (good_latest _ _ _ Hgood Hna) as (ra & Hra & Hha & Hka).
      assert (Hax' : a ≠ __key nn) by congruence.
      assert (Hap' : a ≠ p) by congruence.
      assert (Hra4 : _nodeMap s4 !! a = Some ra).
      { rewrite Hmap4.
        eapply nodeMap_but_keep; [exact Hbut3 | congruence|].
        eapply nodeMap_but_keep; [exact Hbut2 | congruence|].
        eapply nodeMap_but_keep; [exact Hbut1 | congruence | exact Hra]. }
      cbn [mbind option_bind]. rewrite Hra4.
      destruct (setPrev_track s s4 ra na (Some (__key nn)) Htr4 Hha)
        as (s5 & Hrun7 & Htr5 & Hview5 & Hbut5 & Hsel5 & Hext5).
      { rewrite Hka, Hview4. apply lookup_alter_is_Some. eauto. }
      { apply keeps_class_links; intros y; repeat split. }
      rewrite Hka in Hview5, Hbut5.
      destruct (tracks_ref _ _ _ _ Htr5 Hha) as (na5 & Hha5 & Hka5 & _).
      destruct (setNext_track s s5 node nn (Some a) Htr5 Hnode)
        as (s6 & Hrun8 & Htr6 & Hview6 & Hbut6 & Hsel6 & Hext6).
      { rewrite Hview5, Hview4. rewrite !lookup_alter_is_Some. eauto. }
      { apply keeps_class_links; intros y; repeat split. }
      exists s6. split; [|split; [exact Htr6|split; [eapply heap_ext_trans; eauto|split]]].
      + rewrite (seq_ret _ _ _ _ _ Hrun7).
        rewrite bind_read, (field_eq __key _ _ _ Hha5), Hka5, Hka. exact Hrun8.
      + rewrite Hview6, Hview5. reflexivity.
      + eapply nodeMap_but_keep; [exact Hbut6 | congruence|].
        eapply nodeMap_but_keep; [exact Hbut5 | congruence | exact Hwp4].
    - cbn [mbind option_bind].
      destruct (assign_track s s4 p wp (set___last (Some (__key nn))) Htr4 Hwp4)
        as (s5 & Hrun7 & Htr5 & Hview5 & Hmap5 & Hsel5 & Hext5).
      { apply keeps_class_element; [apply Hel'; [exact Htr4 | eauto]|].
        intros y; repeat split. }
      exists s5. split; [exact Hrun7|]. split; [exact Htr5|]. split; [exact Hext5|].
      split; [exact Hview5|]. rewrite Hmap5. exact Hwp4. }
  destruct Hlinks as (s5 & Hrun7 & Htr5 & Hext5 & Hview5 & Hwp5).
  (* the target takes the node as next sibling *)
  destruct (setNext_track s s5 this nt (Some (__key nn)) Htr5 Ht)
    as (s6 & Hrun8 & Htr6 & Hview6 & Hbut6 & Hsel6 & Hext6).
  { rewrite Hview5, Hview4. destruct after; rewrite !lookup_alter_is_Some; eauto. }
  { apply keeps_class_links; intros y; repeat split. }
  (* the node takes the target as previous sibling *)
  assert (Hext16 : heap_ext s1 s6).
  { eapply heap_ext_trans; [exact Hext2|]. eapply heap_ext_trans; [exact Hext3|].
    eapply heap_ext_trans; [exact Hext4|]. eapply heap_ext_trans; [exact Hext5|].
    exact Hext6. }
  destruct (heap_ext_key _ _ _ _ Hext16 Hnwk) as (nwk6 & Hnwk6 & Hkwk6 & _).
  destruct (setPrev_track s s6 node nn (Some (__key nt)) Htr6 Hnode)
    as (s7 & Hrun9 & Htr7 & Hview7 & Hbut7 & Hsel7 & Hext7).
  { rewrite Hview6, Hview5, Hview4. destruct after; rewrite !lookup_alter_is_Some; eauto. }
  { apply keeps_class_links; intros y; repeat split. }
  (* the child count of the parent *)
  assert (Hwp7 : _nodeMap s7 !! p = Some wp).
  { eapply nodeMap_but_keep; [exact Hbut7 | congruence|].
    eapply nodeMap_but_keep; [exact Hbut6 | congruence | exact Hwp5]. }
  assert (Hp7 : ∃ np7, view s7 !! p = Some np7 ∧ isElementClass (klass np7) = true).
  { apply Hel'; [exact Htr7|].
    rewrite Hview7, Hview6, Hview5, Hview4.
    destruct after; rewrite !lookup_alter_is_Some; eauto. }
  destruct Hp7 as (np7 & Hnp7 & Hel7).
  destruct (assign_track s s7 p wp (set___size (__size np7 + 1)) Htr7 Hwp7)
    as (s8 & Hrun10 & Htr8 & Hview8 & Hmap8 & Hsel8 & Hext8).
  { apply keeps_class_element; [eauto|]. intros y; repeat split. }
  (* the selection *)
  assert (Hext38 : heap_ext s3 s8).
  { eapply heap_ext_trans; [exact Hext4|]. eapply heap_ext_trans; [exact Hext5|].
    eapply heap_ext_trans; [exact Hext6|]. eapply heap_ext_trans; [exact Hext7|].
    exact Hext8. }
  pose proof Htr3 as (Hgood3 & _ & _).
  destruct (latest_ref_valid _ _ _ Hgood3 Hwp3) as (nwp & Hnwp & Hkwp & _).
  destruct (heap_ext_key _ _ _ _ Hext38 Hnwp) as (nwp8 & Hnwp8 & Hkwp8 & _).
  assert (Hsel : ∃ s9,
    (match _selection s2 with
     | Some _ =>
       runMover (updateElementSelectionOnCreateDeleteNode wp (Z.of_nat i + 1) 1) ;;
       let* writableParentKey := read (field __key wp) in
       (if (false, false).1
        then Point_set Anchor writableParentKey (Z.of_nat i + 2) element
        else mret tt) ;;
       (if (false, false).2
        then Point_set Focus writableParentKey (Z.of_nat i + 2) element
        else mret tt)
     | None => mret tt
     end ;;
     mret node) s8 = (Ret node, s9) ∧ selection_only s8 s9).
  { destruct (_selection s2).
    - destruct (runMover_step
                  (updateElementSelectionOnCreateDeleteNode wp (Z.of_nat i + 1) 1) s8)
        as (s9 & Hrun & Hs9).
      exists s9. split; [|exact Hs9].
      assert (Hnwp9 : heap s9 !! wp = Some nwp8)
        by (rewrite (selection_only_heap _ _ Hs9); exact Hnwp8).
      unfold mbind at 1, M_bind at 1. unfold mbind at 1, M_bind at 1. rewrite Hrun.
      rewrite bind_read, (field_eq __key _ _ _ Hnwp9). reflexivity.
    - exists s8. split; [reflexivity | apply selection_only_refl]. }
  destruct Hsel as (s9 & Hrun11 & Hsel9).
  (* the document *)
  assert (Hfinal : view s9 = attach (view s) p (__key nn) (Some (__key nt)) after).
  { rewrite (selection_only_view _ _ Hsel9), Hview8, Hview7, Hview6, Hview5, Hview4.
    assert (Hsz : __size np7 = __size (match after with
                                       | Some _ => np
                                       | None => set___last (Some (__key nn)) np
                                       end)).
    { rewrite Hview7, Hview6, Hview5, Hview4 in Hnp7.
      destruct after as [a|] eqn:Ha.
      - destruct (Hain a eq_refl) as (_ & Hak).
        rewrite !lookup_alter_ne in Hnp7 by congruence. congruence.
      - rewrite lookup_alter_ne in Hnp7 by congruence.
        rewrite lookup_alter_ne in Hnp7 by congruence.
        rewrite lookup_alter_eq in Hnp7.
        rewrite lookup_alter_ne in Hnp7 by congruence.
        rewrite Hnp in Hnp7. inversion Hnp7. reflexivity. }
    apply map_eq. intros c.
    rewrite (attach_lookup (view s) p (__key nn) (Some (__key nt)) after Hxp);
      [|congruence|exact Hax|congruence|exact Hap|intros c' Hc' Ha'; inversion Hc'; subst c';
         destruct (Hain _ Ha'); congruence].
    destruct after as [a|] eqn:Ha.
    - destruct (Hain a eq_refl) as (_ & Hak).
      repeat case_decide; simplify_eq;
        repeat (first [rewrite lookup_alter_eq | rewrite lookup_alter_ne by congruence]);
        try reflexivity.
      + rewrite Hm. cbn. f_equal; try reflexivity; destruct m; cbn in *; subst; reflexivity.
      + rewrite Hnp in *. cbn. f_equal. unfold attach_parent. cbn in Hsz. rewrite Hsz.
        reflexivity.
    - repeat case_decide; simplify_eq;
        repeat (first [rewrite lookup_alter_eq | rewrite lookup_alter_ne by congruence]);
        try reflexivity.
      + rewrite Hm. cbn. f_equal; try reflexivity; destruct m; cbn in *; subst; reflexivity.
      + rewrite Hnp in *. cbn. f_equal. unfold attach_parent. cbn in Hsz. rewrite Hsz.
        reflexivity. }
  destruct (attach_children_ok (view s) p np cs (S i) (__key nn) m Hnp Hch Hm Hpm Hxp Hpcs)
    as (Hp' & Hx' & Hch' & _); [apply lookup_lt_Some in Hi; lia|].
  cbn zeta in Hp', Hch'. rewrite Hi in Hp', Hch'. fold after in Hp', Hch'.
  exists s9, (attach_parent (__key nn) (Some (__key nt)) after np).
  split; [|split; [exact Hfinal|split; [rewrite Hfinal; exact Hp'|split]]].
  - unfold insertAfter. rewrite (seq_ret _ _ _ _ _ (errorOnReadOnly_open _ Hro)).
    rewrite (bind_ret _ _ _ _ _ Hrun1), (bind_ret _ _ _ _ _ Hrun2).
    rewrite bind_read, Hrun3.
    unfold bind at 1, mbind at 1, M_bind at 1, gets at 1.
    rewrite bind_read, Hold.
    rewrite (bind_ret _ _ _ _ _ (eq_refl : (mret (false, false) : M (bool * bool)) s2
                                           = (Ret (false, false), s2))).
    rewrite bind_read, Hrun4. rewrite (bind_ret _ _ _ _ _ Hrun5).
    destruct (latest_ref_valid _ _ _ Hgood3 Hwx3) as (nwx3 & Hnwx3 & Hkwx3 & _).
    rewrite bind_read, (field_eq __key _ _ _ Hnwx3), Hkwx3.
    assert (Hn3 : view s3 !! __key nt = Some n) by (rewrite Hv3; exact Hn).
    rewrite bind_read, (field_latest __parent s3 _ wk n Hwk3 Hn3), Hp.
    rewrite (seq_ret _ _ _ _ _ Hrun6).
    rewrite bind_read, Hidx.
    rewrite (bool_decide_eq_false_2 (Z.of_nat i = -1)) by lia.
    rewrite (seq_ret _ _ _ _ _ (eq_refl : (mret tt : M unit) s4 = (Ret tt, s4))).
    rewrite bind_read, Hns.
    rewrite (seq_ret _ _ _ _ _ Hrun7), (seq_ret _ _ _ _ _ Hrun8).
    rewrite bind_read, (field_eq __key _ _ _ Hnwk6), Hkwk6, Hkwk.
    rewrite (seq_ret _ _ _ _ _ Hrun9).
    rewrite bind_read, (field_latest __size s7 p wp np7 Hwp7 Hnp7).
    rewrite (seq_ret _ _ _ _ _ Hrun10). exact Hrun11.
  - rewrite Hfinal. exact Hch'.
  - unfold attach_parent. destruct after; cbn; reflexivity.
Qed.

End Insert.

(** ** Appending a node *)



(** ** Removing a node that has siblings *)

(** The cleanup stops at the node when its parent keeps a child. *)
Lemma cleanup_stops v k n p np b v' removed emptied :
  cleanup v k b v' removed emptied →
  v !! k = Some n → __parent n = Some p → detach v k !! p = Some np → __size np ≠ 0 →
  v' = detach v k ∧ removed = [k] ∧ emptied = None.
Proof.
  intros Hclean Hn Hp Hnp Hsize.
  inversion Hclean as [? n' ? Hn' Hp' | ? n' p' np' ? Hn' Hp' Hnp' Hstay
                      | ? n' p' np' ? ? ? ? Hn' Hp' Hnp' _ _ _ Hsz _]; subst;
    rewrite Hn in Hn'; inversion Hn'; subst n'; rewrite Hp in Hp'; try discriminate;
    inversion Hp'; subst p'; rewrite Hnp in Hnp'; inversion Hnp'; subst np'.
  - split; [reflexivity|]. split; [reflexivity|].
    rewrite (bool_decide_eq_false_2 (__size np = 0)) by exact Hsize.
    rewrite andb_false_r. reflexivity.
  - contradiction.
Qed.

Section RemoveSibling.

Variable internalMakeRangeSelection :
  NodeKey → Z → NodeKey → Z → PointKind → PointKind → SelectionHelper RangeSelection.
Variable updateElementSelectionOnCreateDeleteNode : Ref → Z → Z → PointMover.
Variable TextNode_select : Ref → option Z → option Z → M RangeSelection.

Local Abbreviation remove' := (remove internalMakeRangeSelection
  updateElementSelectionOnCreateDeleteNode TextNode_select).

(** X15.  Removing a node that has a sibling.  In an open update over a
    well-formed document, [remove] on the child at the place [i] of a parent
    with at least two children returns and takes this node, and no other,
    out of the child list of the parent, whose child count is one less; the
    document stays well formed, and the node still resolves, with no parent
    and no siblings, and is not attached any more. *)
Theorem remove_takes_out_of_child_list s fuel this nt n p np cs i l preserveEmptyParent :
  store_ok s → readOnly s = false → well_formed (view s) →
  heap s !! this = Some nt → view s !! __key nt = Some n → __parent n = Some p →
  view s !! p = Some np → children_ok (view s) p np cs → cs !! i = Some (__key nt) →
  (2 ≤ length cs)%nat → __key nt ≠ "root" →
  ancestors (view s) (__key nt) l → (length l + size (view s) < fuel)%nat →
  ∃ s' np',
    remove' fuel this preserveEmptyParent s = (Ret tt, s')
    ∧ view s' = detach (view s) (__key nt)
    ∧ well_formed (view s')
    ∧ view s' !! p = Some np'
    ∧ children_ok (view s') p np' (delete i cs)
    ∧ __size np' = __size np - 1
    ∧ view s' !! __key nt = Some (detach_node n)
    ∧ isAttached fuel this s' = Ret false.
Proof.
  intros Hok Hro Hwf Ht Hn Hp Hnp Hch Hi Hlen Hroot Hanc Hf.
  assert (Hgood : good s) by (split; assumption).
  destruct (removeNode_refines internalMakeRangeSelection
              updateElementSelectionOnCreateDeleteNode TextNode_select
              l fuel s this nt n true preserveEmptyParent Hgood Hwf Ht Hn Hanc Hf)
    as (s' & removed & emptied & Hrun & Hgood' & Hwf' & Hclean & Hext & _).
  pose proof (detach_at_parent _ _ _ _ _ Hwf Hn Hp Hnp) as Hnp'.
  pose proof Hch as (_ & _ & _ & _ & Hsize & _).
  assert (Hsz : __size (detach_parent n np) = __size np - 1) by apply detach_parent_size.
  destruct (cleanup_stops _ _ _ _ _ _ _ _ _ Hclean Hn Hp Hnp') as (Hview & _ & _);
    [rewrite Hsz, Hsize; lia|].
  exists s', (detach_parent n np).
  split.
  { unfold remove. rewrite (seq_ret _ _ _ _ _ (errorOnReadOnly_open _ Hro)). exact Hrun. }
  split; [exact Hview|]. split; [exact Hwf'|].
  split; [rewrite Hview; exact Hnp'|].
  split; [rewrite Hview; eapply detach_children_parent; eauto|].
  split; [exact Hsz|].
  pose proof (detach_at_node _ _ _ _ Hwf Hn Hp) as Hn'.
  split; [rewrite Hview; exact Hn'|].
  destruct (heap_ext_key _ _ _ _ Hext Ht) as (nt' & Ht' & Hk' & _).
  assert (Hanc' : ancestors (view s') (__key nt') []).
  { rewrite Hk', Hview. eapply ancestors_top; [exact Hn' | reflexivity]. }
  unfold isAttached. rewrite (bindR_ret _ _ _ _ (field_eq __key _ _ _ Ht')).
  rewrite (isAttached_loop_spec s' fuel _ [] Hanc') by (simpl; lia).
  rewrite bool_decide_eq_false_2; [reflexivity|].
  intros Hin. apply list_elem_of_singleton in Hin. congruence.
Qed.

End RemoveSibling.

(** ** Clearing an element *)

(** The cleanup changes the child list of no node but the ancestors of the
    node it removes. *)
Lemma cleanup_child_fields v k b v' removed emptied :
  cleanup v k b v' removed emptied → well_formed v →
  ∀ l, ancestors v k l →
  ∀ x nx, v !! x = Some nx → x ∉ l →
  ∃ nx', v' !! x = Some nx'
    ∧ __first nx' = __first nx ∧ __last nx' = __last nx ∧ __size nx' = __size nx.
Proof.
  induction 1 as [v k n b Hn Hp | v k n p np' b Hn Hp Hnp' Hstay
                  | v k n p np' b v' removed emptied Hn Hp Hnp' _ _ _ _ Hclean IH];
    intros Hwf l Hanc x nx Hx Hxl.
  - eauto.
  - inversion Hanc as [? n' Hn' Hp' | ? n' p' l' Hn' Hp' Hanc']; subst;
      rewrite Hn in Hn'; inversion Hn'; subst n'; rewrite Hp in Hp'; [discriminate|].
    inversion Hp'; subst p'.
    destruct (detach_node_to _ _ _ _ _ _ Hwf Hn Hp Hx) as (nx' & Hx').
    destruct (detach_node_of _ _ _ _ _ _ Hwf Hn Hp Hx') as (nx0 & Hx0 & _ & _ & _ & Hsame & _).
    rewrite Hx in Hx0. inversion Hx0; subst nx0.
    exists nx'. split; [exact Hx'|]. apply Hsame. intros ->. apply Hxl. left.
  - inversion Hanc as [? n' Hn' Hp' | ? n' p' l' Hn' Hp' Hanc']; subst;
      rewrite Hn in Hn'; inversion Hn'; subst n'; rewrite Hp in Hp'; [discriminate|].
    inversion Hp'; subst p'.
    destruct (detach_node_to _ _ _ _ _ _ Hwf Hn Hp Hx) as (nx1 & Hx1).
    destruct (detach_node_of _ _ _ _ _ _ Hwf Hn Hp Hx1) as (nx0 & Hx0 & _ & _ & _ & Hsame & _).
    rewrite Hx in Hx0. inversion Hx0; subst nx0.
    assert (Hxp : x ≠ p) by (intros ->; apply Hxl; left).
    destruct (Hsame Hxp) as (Hf1 & Hl1 & Hs1).
    pose proof (ancestors_NoDup _ _ _ Hanc) as Hnd.
    apply NoDup_cons in Hnd as (Hkl & _).
    pose proof (detach_ancestors_other _ _ _ _ Hwf Hn Hp _ _ Hanc' Hkl) as Hancp.
    destruct (IH (detach_well_formed _ _ _ _ Hwf Hn Hp) l' Hancp x nx1 Hx1)
      as (nx' & Hx' & Hf2 & Hl2 & Hs2).
    { intros Hin. apply Hxl. right. exact Hin. }
    exists nx'. split; [exact Hx'|]. repeat split; congruence.
Qed.

(** The child list of the parent of the removed node after the cleanup:
    that of the parent without the node. *)
Lemma cleanup_parent_fields v k n p np b v' removed emptied :
  cleanup v k b v' removed emptied → well_formed v →
  v !! k = Some n → __parent n = Some p → v !! p = Some np →
  ∃ np', v' !! p = Some np'
    ∧ __first np' = __first (detach_parent n np)
    ∧ __last np' = __last (detach_parent n np)
    ∧ __size np' = __size (detach_parent n np).
Proof.
  intros Hclean Hwf Hn Hp Hnp.
  pose proof (detach_at_parent _ _ _ _ _ Hwf Hn Hp Hnp) as Hnp1.
  inversion Hclean as [? n' ? Hn' Hp' | ? n' p' np' ? Hn' Hp' Hnp' Hstay
                      | ? n' p' np' ? ? ? ? Hn' Hp' Hnp' _ _ _ _ Hup]; subst;
    rewrite Hn in Hn'; inversion Hn'; subst n'; rewrite Hp in Hp'; try discriminate;
    inversion Hp'; subst p'.
  - eauto.
  - pose proof (detach_well_formed _ _ _ _ Hwf Hn Hp) as Hwf1.
    destruct (Hwf1 _ _ Hnp1) as (_ & _ & (l & Hanc) & _).
    pose proof (ancestors_NoDup _ _ _ Hanc) as Hnd. apply NoDup_cons in Hnd as (Hpl & _).
    apply (cleanup_child_fields _ _ _ _ _ _ Hup Hwf1 l Hanc p _ Hnp1 Hpl).
Qed.

(** The removed node has no parent after the cleanup. *)
Lemma cleanup_node_detached v k n b v' removed emptied :
  cleanup v k b v' removed emptied → well_formed v → v !! k = Some n →
  ∃ n', v' !! k = Some n' ∧ __parent n' = None.
Proof.
  intros Hclean Hwf Hn.
  inversion Hclean as [? n' ? Hn' Hp' | ? n' p' np' ? Hn' Hp' Hnp' Hstay
                      | ? n' p' np' ? ? ? ? Hn' Hp' Hnp' _ _ _ _ Hup]; subst;
    rewrite Hn in Hn'; inversion Hn'; subst n'.
  - eauto.
  - rewrite (detach_at_node _ _ _ _ Hwf Hn Hp'). eexists. split; reflexivity.
  - eapply cleanup_keeps_detached; [exact Hup | apply (detach_at_node _ _ _ _ Hwf Hn Hp') |].
    reflexivity.
Qed.

Section Clear.

Variable internalMakeRangeSelection :
  NodeKey → Z → NodeKey → Z → PointKind → PointKind → SelectionHelper RangeSelection.
Variable updateElementSelectionOnCreateDeleteNode : Ref → Z → Z → PointMover.
Variable TextNode_select : Ref → option Z → option Z → M RangeSelection.

Local Abbreviation remove' := (remove internalMakeRangeSelection
  updateElementSelectionOnCreateDeleteNode TextNode_select).
Local Abbreviation clear' := (clear internalMakeRangeSelection
  updateElementSelectionOnCreateDeleteNode TextNode_select).

(** The children are removed one after the other. *)
Lemma clear_loop fuel p : ∀ rest rrefs s np i,
  good s → well_formed (view s) →
  Forall2 (λ c r, ∃ nr, heap s !! r = Some nr ∧ __key nr = c) rest rrefs →
  view s !! p = Some np → children_ok (view s) p np rest →
  (2 * size (view s) < fuel)%nat →
  ∃ s' np',
    forEach_loop (λ _ child, remove' fuel child false) i rrefs s = (Ret tt, s')
    ∧ good s' ∧ well_formed (view s') ∧ heap_ext s s'
    ∧ view s' !! p = Some np'
    ∧ __first np' = None ∧ __last np' = None ∧ __size np' = 0
    ∧ (∀ c, c ∈ rest → ∃ nc, view s' !! c = Some nc ∧ __parent nc = None)
    ∧ (∀ x nx, view s !! x = Some nx → __parent nx = None →
         ∃ nx', view s' !! x = Some nx' ∧ __parent nx' = None).
Proof.
  induction rest as [|c rest IH]; intros rrefs s np i Hgood Hwf Hrefs Hnp Hch Hf.
  - inversion Hrefs; subst. exists s, np.
    destruct Hch as (_ & _ & Hfirst & Hlast & Hsize & _).
    split; [reflexivity|]. split; [exact Hgood|]. split; [exact Hwf|].
    split; [apply heap_ext_refl|]. split; [exact Hnp|].
    split; [exact Hfirst|]. split; [exact Hlast|]. split; [exact Hsize|].
    split; [intros c Hc; inversion Hc | eauto].
  - inversion Hrefs as [|? r ? rrefs' (nr & Hr & Hkr) Hrefs']; subst.
    pose proof Hch as (Hlink & Hnd & Hfirst & Hlast & Hsize & Hclosed).
    destruct (Hlink 0%nat (__key nr) eq_refl) as (nc & Hnc & Hpc & Hprev & Hnext).
    destruct (Hwf _ _ Hnp) as (_ & _ & (lp & Hancp) & _).
    assert (Hanc : ancestors (view s) (__key nr) (p :: lp))
      by (eapply ancestors_up; eauto).
    pose proof (ancestors_bounded _ _ _ Hanc) as Hbound.
    pose proof Hgood as (_ & Hro).
    destruct (removeNode_refines internalMakeRangeSelection
                updateElementSelectionOnCreateDeleteNode TextNode_select
                (p :: lp) fuel s r nr nc true false Hgood Hwf Hr Hnc Hanc)
      as (s1 & removed & emptied & Hrun1 & Hgood1 & Hwf1 & Hclean & Hext1 & _); [lia|].
    assert (Hrun1' : remove' fuel r false s = (Ret tt, s1)).
    { unfold remove. rewrite (seq_ret _ _ _ _ _ (errorOnReadOnly_open _ Hro)). exact Hrun1. }
    cbn [forEach_loop]. rewrite (seq_ret _ _ _ _ _ Hrun1').
    destruct (cleanup_node_detached _ _ _ _ _ _ _ Hclean Hwf Hnc) as (nc1 & Hnc1 & Hpc1).
    destruct rest as [|c' rest'].
    + (* the last child *)
      inversion Hrefs'; subst. cbn [forEach_loop].
      destruct (cleanup_parent_fields _ _ _ _ _ _ _ _ _ Hclean Hwf Hnc Hpc Hnp)
        as (np1 & Hnp1 & Hf1 & Hl1 & Hs1).
      cbn in Hprev, Hnext.
      unfold detach_parent in Hf1, Hl1, Hs1. rewrite Hprev, Hnext in Hf1, Hl1, Hs1.
      cbn in Hf1, Hl1, Hs1. rewrite Hsize in Hs1. cbn in Hs1.
      exists s1, np1.
      split; [reflexivity|]. split; [exact Hgood1|]. split; [exact Hwf1|].
      split; [exact Hext1|]. split; [exact Hnp1|].
      split; [exact Hf1|]. split; [exact Hl1|]. split; [exact Hs1|].
      split.
      * intros c Hc. apply list_elem_of_singleton in Hc as ->. eauto.
      * intros x nx Hx Hpx. eapply cleanup_keeps_detached; eauto.
    + (* a child that has a next sibling *)
      pose proof (detach_at_parent _ _ _ _ _ Hwf Hnc Hpc Hnp) as Hnp1.
      assert (Hsz : __size (detach_parent nc np) ≠ 0).
      { rewrite detach_parent_size, Hsize. cbn [length]. lia. }
      destruct (cleanup_stops _ _ _ _ _ _ _ _ _ Hclean Hnc Hpc Hnp1 Hsz) as (Hview1 & _ & _).
      assert (Hch1 : children_ok (view s1) p (detach_parent nc np) (c' :: rest')).
      { rewrite Hview1.
        apply (detach_children_parent _ _ _ _ _ _ 0%nat Hwf Hnc Hpc Hnp Hch eq_refl). }
      rewrite <- Hview1 in Hnp1.
      destruct (IH rrefs' s1 (detach_parent nc np) (S i) Hgood1 Hwf1)
        as (s' & np' & Hrun & Hgood' & Hwf' & Hext' & Hnp' & Hf' & Hl' & Hs' & Hrest & Hkeep).
      { eapply Forall2_impl; [exact Hrefs'|]. intros c0 r0 (nr0 & Hr0 & Hk0).
        destruct (heap_ext_key _ _ _ _ Hext1 Hr0) as (nr1 & Hr1 & Hk1 & _).
        exists nr1. split; [exact Hr1 | congruence]. }
      { exact Hnp1. }
      { exact Hch1. }
      { rewrite Hview1, detach_size. exact Hf. }
      exists s', np'.
      split; [exact Hrun|]. split; [exact Hgood'|]. split; [exact Hwf'|].
      split; [eapply heap_ext_trans; eauto|]. split; [exact Hnp'|].
      split; [exact Hf'|]. split; [exact Hl'|]. split; [exact Hs'|].
      split.
      * intros c0 Hc0. apply elem_of_cons in Hc0 as [->|Hc0]; [|apply Hrest; exact Hc0].
        apply (Hkeep _ _ Hnc1 Hpc1).
      * intros x nx Hx Hpx.
        destruct (cleanup_keeps_detached _ _ _ _ _ _ Hclean x nx Hx Hpx) as (nx1 & Hx1 & Hpx1).
        apply (Hkeep _ _ Hx1 Hpx1).
Qed.

(** X16.  [clear].  In an open update over a well-formed document, [clear] on
    an element returns its writable version and leaves it with no first
    child, no last child and the child count 0; every former child still
    resolves and has no parent, and the document stays well formed. *)
Theorem clear_empties s fuel this nt np cs :
  store_ok s → readOnly s = false → well_formed (view s) →
  heap s !! this = Some nt → view s !! __key nt = Some np →
  children_ok (view s) (__key nt) np cs → (2 * size (view s) < fuel)%nat →
  ∃ w s' np',
    clear' fuel this s = (Ret w, s')
    ∧ (∃ nw, heap s' !! w = Some nw ∧ __key nw = __key nt)
    ∧ well_formed (view s')
    ∧ view s' !! __key nt = Some np'
    ∧ __first np' = None ∧ __last np' = None ∧ __size np' = 0
    ∧ getChildrenSize this s' = Ret 0
    ∧ (∀ c, c ∈ cs → ∃ nc, view s' !! c = Some nc ∧ __parent nc = None).
Proof.
  intros Hok Hro Hwf Ht Hnp Hch Hf.
  assert (Hgood : good s) by (split; assumption).
  destruct (Hwf _ _ Hnp) as (Hcf & _).
  destruct (getWritable_step s this nt np Hgood Ht Hnp Hcf)
    as (w & s1 & Hrun1 & Hgood1 & Hview1 & Hw1 & Hbut1 & Hsel1 & Hext1).
  destruct (heap_ext_key _ _ _ _ Hext1 Ht) as (nt1 & Ht1 & Hk1 & _).
  assert (Hnp1 : view s1 !! __key nt1 = Some np) by (rewrite Hk1, Hview1; exact Hnp).
  assert (Hch1 : children_ok (view s1) (__key nt1) np cs) by (rewrite Hk1, Hview1; exact Hch).
  pose proof (children_bounded _ _ _ _ Hch) as Hlen.
  destruct (getChildren_walk s1 fuel this nt1 np cs Ht1 Hnp1 Hch1) as (rs & _ & Hrun2 & Hrs & _);
    [lia|].
  rewrite Hk1 in Hnp1, Hch1.
  pose proof Hgood1 as (Hok1 & _).
  destruct (clear_loop fuel (__key nt) cs rs s1 np 0%nat Hgood1)
    as (s' & np' & Hrun3 & Hgood' & Hwf' & Hext' & Hnp' & Hf' & Hl' & Hs' & Hrest & _).
  { rewrite Hview1. exact Hwf. }
  { eapply Forall2_impl; [exact Hrs|]. intros c r Hr. apply (Hok1 _ _ Hr). }
  { exact Hnp1. }
  { exact Hch1. }
  { rewrite Hview1. exact Hf. }
  exists w, s', np'.
  split.
  { unfold clear. rewrite (seq_ret _ _ _ _ _ (errorOnReadOnly_open _ Hro)).
    rewrite (bind_ret _ _ _ _ _ Hrun1). rewrite bind_read, Hrun2.
    unfold forEach. rewrite (seq_ret _ _ _ _ _ Hrun3). reflexivity. }
  destruct (heap_ext_key _ _ _ _ Hext' Ht1) as (nt' & Ht' & Hk' & _).
  assert (Hnp'' : view s' !! __key nt' = Some np') by (rewrite Hk', Hk1; exact Hnp').
  split.
  { destruct (Hok1 _ _ Hw1) as (nw1 & Hnw1 & Hkw1).
    destruct (heap_ext_key _ _ _ _ Hext' Hnw1) as (nw & Hnw & Hkw & _).
    exists nw. split; [exact Hnw | congruence]. }
  split; [exact Hwf'|]. split; [exact Hnp'|].
  split; [exact Hf'|]. split; [exact Hl'|]. split; [exact Hs'|].
  split; [rewrite (getChildrenSize_view _ _ _ _ Ht' Hnp''), Hs'; reflexivity | exact Hrest].
Qed.

End Clear.

(** ** The document root > P > [A, B] *)

Lemma doc_AB_parents p c nc :
  view doc_AB !! c = Some nc → __parent nc = Some p →
  (p = "root" ∧ c = "P") ∨ (p = "P" ∧ c = "A") ∨ (p = "P" ∧ c = "B").
Proof.
  intros Hc Hp. apply document_view_inv in Hc as (i & Hi & Hk).
  destruct i as [|[|[|[|[|i]]]]]; cbn in Hi; inversion Hi; subst; cbn in Hp;
    inversion Hp; subst; auto.
Qed.

Lemma ancestors_doc_AB_root : ancestors (view doc_AB) "root" [].
Proof. eapply ancestors_top; [vm_compute; reflexivity | reflexivity]. Qed.

Lemma ancestors_doc_AB_P : ancestors (view doc_AB) "P" ["root"].
Proof.
  eapply ancestors_up; [vm_compute; reflexivity | reflexivity | exact ancestors_doc_AB_root].
Qed.

Lemma ancestors_doc_AB_A : ancestors (view doc_AB) "A" ["P"; "root"].
Proof.
  eapply ancestors_up; [vm_compute; reflexivity | reflexivity | exact ancestors_doc_AB_P].
Qed.

Lemma ancestors_doc_AB_B : ancestors (view doc_AB) "B" ["P"; "root"].
Proof.
  eapply ancestors_up; [vm_compute; reflexivity | reflexivity | exact ancestors_doc_AB_P].
Qed.

Lemma linked_doc_AB_P : linked (view doc_AB) "P" ["A"; "B"].
Proof.
  intros [|[|i]] c Hc; [| |discriminate]; inversion Hc; subst;
    (eexists; split; [vm_compute; reflexivity | repeat split]).
Qed.

Lemma children_ok_doc_AB_P :
  children_ok (view doc_AB) "P"
    (elementObject ElementNode true "P" (Some "root") None None (Some "A") (Some "B") 2)
    ["A"; "B"].
Proof.
  split; [exact linked_doc_AB_P|]. split; [|repeat split].
  - apply NoDup_cons. split; [|apply NoDup_singleton].
    intros H. apply list_elem_of_singleton in H. discriminate.
  - intros c nc Hc Hp.
    destruct (doc_AB_parents _ _ _ Hc Hp) as [(Heq & _)|[(_ & ->)|(_ & ->)]];
      [discriminate | left | right; left].
Qed.

Lemma children_ok_doc_AB_root :
  children_ok (view doc_AB) "root"
    (elementObject RootNode true "root" None None None (Some "P") (Some "P") 1) ["P"].
Proof.
  split; [|split; [|repeat split]].
  - intros [|i] c Hc; [|discriminate]. inversion Hc; subst.
    eexists. split; [vm_compute; reflexivity | repeat split].
  - apply NoDup_singleton.
  - intros c nc Hc Hp.
    destruct (doc_AB_parents _ _ _ Hc Hp) as [(_ & ->)|[(Heq & _)|(Heq & _)]];
      [left | discriminate | discriminate].
Qed.

Lemma children_ok_doc_AB_leaf k t parent prev next :
  k ≠ "root" → k ≠ "P" →
  children_ok (view doc_AB) k (textObject k parent prev next t) [].
Proof.
  intros Hr HP. split; [|split; [|repeat split]].
  - intros i c Hc. discriminate.
  - apply NoDup_nil_2.
  - intros c nc Hc Hp.
    destruct (doc_AB_parents _ _ _ Hc Hp) as [(Heq & _)|[(Heq & _)|(Heq & _)]]; congruence.
Qed.

Lemma well_formed_doc_AB : well_formed (view doc_AB).
Proof.
  intros k n Hv. destruct (document_view_inv _ _ _ _ Hv) as (i & Hi & Hk).
  destruct i as [|[|[|[|[|i]]]]]; cbn in Hi; inversion Hi; subst; clear Hi;
    cbn [__key elementObject textObject].
  - split; [repeat split|]. split; [|split].
    + eexists. exact children_ok_doc_AB_root.
    + eexists. exact ancestors_doc_AB_root.
    + intros p Hp. discriminate.
  - split; [repeat split|]. split; [|split].
    + eexists. exact children_ok_doc_AB_P.
    + eexists. exact ancestors_doc_AB_P.
    + intros p Hp. inversion Hp; subst. eexists. split; [vm_compute; reflexivity | reflexivity].
  - split; [repeat split|]. split; [|split].
    + eexists. apply children_ok_doc_AB_leaf; discriminate.
    + eexists. exact ancestors_doc_AB_A.
    + intros p Hp. inversion Hp; subst. eexists. split; [vm_compute; reflexivity | reflexivity].
  - split; [repeat split|]. split; [|split].
    + eexists. apply children_ok_doc_AB_leaf; discriminate.
    + eexists. exact ancestors_doc_AB_B.
    + intros p Hp. inversion Hp; subst. eexists. split; [vm_compute; reflexivity | reflexivity].
  - split; [repeat split|]. split; [|split].
    + eexists. apply children_ok_doc_AB_leaf; discriminate.
    + exists []. eapply ancestors_top; [vm_compute; reflexivity | reflexivity].
    + intros p Hp. discriminate.
Qed.

Lemma getChildren_in_order_witness :
  ∃ rs, getChildrenKeys 5 1%nat doc_AB = Ret ["A"; "B"]
    ∧ getChildren 5 1%nat doc_AB = Ret rs ∧ refs_of doc_AB ["A"; "B"] rs
    ∧ getChildrenSize 1%nat doc_AB = Ret (Z.of_nat (length rs)).
Proof.
  apply (getChildren_in_order doc_AB 5 1%nat
           (elementObject ElementNode true "P" (Some "root") None None (Some "A") (Some "B") 2)
           (elementObject ElementNode true "P" (Some "root") None None (Some "A") (Some "B") 2)
           ["A"; "B"]).
  - reflexivity.
  - vm_compute; reflexivity.
  - exact children_ok_doc_AB_P.
  - simpl; lia.
Defined.

Lemma getChildAtIndex_first_or_null_witness :
  getChildAtIndex 5 1%nat 1 doc_AB
  = Ret (if bool_decide (1 = 0 ∨ 1 = -1)
         then Some "A" ≫= λ k, _nodeMap doc_AB !! k
         else None).
Proof.
  apply (getChildAtIndex_first_or_null doc_AB 5 1%nat
           (elementObject ElementNode true "P" (Some "root") None None (Some "A") (Some "B") 2)
           (elementObject ElementNode true "P" (Some "root") None None (Some "A") (Some "B") 2)
           ["A"; "B"] 1).
  - reflexivity.
  - vm_compute; reflexivity.
  - eapply next_chain_step; [vm_compute; reflexivity|].
    eapply next_chain_step; [vm_compute; reflexivity|]. apply next_chain_end.
  - simpl; lia.
Defined.

Lemma getParentKeys_ancestors_witness :
  ∃ rs, getParentKeys 5 2%nat doc_AB = Ret ["P"; "root"]
    ∧ getParents 5 2%nat doc_AB = Ret rs ∧ refs_of doc_AB ["P"; "root"] rs.
Proof.
  apply (getParentKeys_ancestors doc_AB 5 2%nat (textObject "A" (Some "P") None (Some "B") "hello")
           ["P"; "root"]).
  - apply store_ok_document.
  - reflexivity.
  - exact ancestors_doc_AB_A.
  - simpl; lia.
Defined.

Lemma isAttached_iff_root_in_chain_witness :
  isAttached 5 2%nat doc_AB = Ret (bool_decide ("root" ∈ ["A"; "P"; "root"])).
Proof.
  apply (isAttached_iff_root_in_chain doc_AB 5 2%nat
           (textObject "A" (Some "P") None (Some "B") "hello") ["P"; "root"]).
  - reflexivity.
  - exact ancestors_doc_AB_A.
  - simpl; lia.
Defined.

Lemma getIndexWithinParent_place_witness :
  ∃ i, getIndexWithinParent 5 3%nat doc_AB = Ret (Z.of_nat i) ∧ ["A"; "B"] !! i = Some "B".
Proof.
  apply (proj2 (getIndexWithinParent_place doc_AB 5 3%nat
                  (textObject "B" (Some "P") (Some "A") None "world")
                  (textObject "B" (Some "P") (Some "A") None "world")
                  (store_ok_document _ _) eq_refl eq_refl)
           "P"
           (elementObject ElementNode true "P" (Some "root") None None (Some "A") (Some "B") 2)
           ["A"; "B"]).
  - reflexivity.
  - vm_compute; reflexivity.
  - exact children_ok_doc_AB_P.
  - simpl; lia.
Defined.

Lemma siblings_split_children_witness :
  ∃ prevs nexts,
    getPreviousSiblings 5 3%nat doc_AB = Ret prevs
    ∧ getNextSiblings 5 3%nat doc_AB = Ret nexts
    ∧ refs_of doc_AB ["A"] prevs
    ∧ refs_of doc_AB [] nexts
    ∧ ["A"; "B"] = ["A"; "B"].
Proof.
  apply (siblings_split_children doc_AB 5 3%nat
           (textObject "B" (Some "P") (Some "A") None "world")
           (textObject "B" (Some "P") (Some "A") None "world") "P" ["A"; "B"] 1%nat).
  - apply store_ok_document.
  - reflexivity.
  - vm_compute; reflexivity.
  - exact linked_doc_AB_P.
  - reflexivity.
  - simpl; lia.
Defined.

Lemma children_ok_doc_PQ_root :
  children_ok (view doc_PQ) "root"
    (elementObject RootNode true "root" None None None (Some "P") (Some "Q") 2) ["P"; "Q"].
Proof.
  split; [|split; [|repeat split]].
  - intros [|[|i]] c Hc; [| |discriminate]; inversion Hc; subst;
      (eexists; split; [vm_compute; reflexivity | repeat split]).
  - apply NoDup_cons. split; [|apply NoDup_singleton].
    intros H. apply list_elem_of_singleton in H. discriminate.
  - intros c nc Hc Hp. apply document_view_inv in Hc as (i & Hi & Hk).
    destruct i as [|[|[|i]]]; cbn in Hi; inversion Hi; subst; cbn in Hp; try discriminate;
      cbn [__key elementObject]; [left | right; left].
Qed.

(** P is the first of the two children of the root, and Q the last. *)
Lemma isLastChild_last_place_witness :
  isLastChild 1%nat doc_PQ = Ret (bool_decide (1 = 2)%nat)
  ∧ isLastChild 2%nat doc_PQ = Ret (bool_decide (2 = 2)%nat).
Proof.
  split.
  - apply (proj2 (proj2 (isLastChild_last_place doc_PQ 1%nat
                  (elementObject ElementNode true "P" (Some "root") None (Some "Q") None None 0)
                  (elementObject ElementNode true "P" (Some "root") None (Some "Q") None None 0)
                  (store_ok_document _ _) eq_refl eq_refl))
           "root"
           (elementObject RootNode true "root" None None None (Some "P") (Some "Q") 2)
           ["P"; "Q"] 0%nat).
    + reflexivity.
    + reflexivity.
    + vm_compute; reflexivity.
    + exact children_ok_doc_PQ_root.
    + reflexivity.
  - apply (proj2 (proj2 (isLastChild_last_place doc_PQ 2%nat
                  (elementObject ElementNode true "Q" (Some "root") (Some "P") None None None 0)
                  (elementObject ElementNode true "Q" (Some "root") (Some "P") None None None 0)
                  (store_ok_document _ _) eq_refl eq_refl))
           "root"
           (elementObject RootNode true "root" None None None (Some "P") (Some "Q") 2)
           ["P"; "Q"] 1%nat).
    + reflexivity.
    + reflexivity.
    + vm_compute; reflexivity.
    + exact children_ok_doc_PQ_root.
    + reflexivity.
Defined.

Lemma getTopLevelElement_below_root_witness :
  ∃ o, getTopLevelElement 5 2%nat doc_AB = Ret o
    ∧ ∃ rt nrt, o = Some rt ∧ heap doc_AB !! rt = Some nrt ∧ __key nrt = "P".
Proof.
  apply (proj2 (getTopLevelElement_below_root doc_AB 5 2%nat
                  (textObject "A" (Some "P") None (Some "B") "hello")
                  (textObject "A" (Some "P") None (Some "B") "hello") ["P"; "root"]
                  (store_ok_document _ _) eq_refl eq_refl eq_refl ancestors_doc_AB_A
                  ltac:(intros y ny Hy Hv Hk; apply document_view_inv in Hv as (i & Hi & _);
                        destruct i as [|[|[|[|[|i]]]]]; cbn in Hi; inversion Hi; subst;
                        first [reflexivity | discriminate])
                  ltac:(simpl; lia))
           ["A"] "P" "root"
           (elementObject ElementNode true "P" (Some "root") None None (Some "A") (Some "B") 2)
           (elementObject RootNode true "root" None None None (Some "P") (Some "P") 1)).
  - reflexivity.
  - vm_compute; reflexivity.
  - vm_compute; reflexivity.
Defined.

Lemma getDescendantByIndex_ends_witness :
  (∃ d, getFirstDescendant 5 1%nat doc_AB = Ret (Some d)
        ∧ getDescendantByIndex 5 1%nat 0 doc_AB = Ret (Some d))
  ∧ (∃ d, getLastDescendant 5 1%nat doc_AB = Ret (Some d)
        ∧ ∀ index, index >= 2 →
            getDescendantByIndex 5 1%nat index doc_AB = Ret (Some d))
  ∧ (∀ index, index < 0 → getDescendantByIndex 5 1%nat index doc_AB = Ret None).
Proof.
  apply (proj2 (getDescendantByIndex_ends doc_AB 5 1%nat
           (elementObject ElementNode true "P" (Some "root") None None (Some "A") (Some "B") 2)
           (elementObject ElementNode true "P" (Some "root") None None (Some "A") (Some "B") 2)
           ["A"; "B"] (store_ok_document _ _) well_formed_doc_AB eq_refl eq_refl
           children_ok_doc_AB_P ltac:(vm_compute; lia))).
  discriminate.
Defined.

Lemma element_setters_read_back_witness :
  (∀ indentLevel, ∃ s',
     setIndent 1%nat indentLevel doc_AB = (Ret 1%nat, s')
     ∧ getIndent 1%nat s' = Ret indentLevel
     ∧ view s' = alter (set___indent indentLevel) "P" (view doc_AB))
  ∧ (∀ direction, ∃ w s',
     setDirection 1%nat direction doc_AB = (Ret w, s')
     ∧ _nodeMap s' !! "P" = Some w
     ∧ getDirection 1%nat s' = Ret direction
     ∧ view s' = alter (set___dir direction) "P" (view doc_AB))
  ∧ (∀ type, ∃ s',
     setFormat noFormat 1%nat type doc_AB = (Ret 1%nat, s')
     ∧ getFormat 1%nat s' = Ret (noFormat type)
     ∧ hasFormat noFormat 1%nat type s'
       = Ret (bool_decide (toInt32 (noFormat type) ≠ 0))
     ∧ view s' = alter (set___format (noFormat type)) "P" (view doc_AB)).
Proof.
  apply (element_setters_read_back noFormat doc_AB 1%nat
           (elementObject ElementNode true "P" (Some "root") None None (Some "A") (Some "B") 2)
           (elementObject ElementNode true "P" (Some "root") None None (Some "A") (Some "B") 2)).
  - apply store_ok_document.
  - reflexivity.
  - reflexivity.
  - vm_compute; reflexivity.
  - repeat split.
Defined.

Lemma insert_at_detached_target_throws_witness :
  let failure := InvariantViolation "Expected node %s to have a parent." in
  (∃ s', insertBefore (λ _ _ _, keepPoints) 10 4%nat 2%nat doc_AB = (Throw failure, s')
         ∧ view s' = detach (view doc_AB) "A")
  ∧ (∃ s', insertAfter (λ _ _ _, keepPoints) 10 4%nat 2%nat doc_AB = (Throw failure, s')
           ∧ view s' = detach (view doc_AB) "A")
  ∧ (∃ s', replace makeRangeSelection (λ _ _ _, keepPoints) (λ _ _, keepPoints) noTextSelect
             10 4%nat 2%nat doc_AB = (Throw failure, s')
           ∧ view s' = detach (view doc_AB) "A")
  ∧ ∃ m', detach (view doc_AB) "A" !! "A" = Some m' ∧ __parent m' = None.
Proof.
  apply (insert_at_detached_target_throws makeRangeSelection (λ _ _ _, keepPoints)
           (λ _ _, keepPoints) noTextSelect doc_AB 10 4%nat
           (textObject "X" None None None "x") (textObject "X" None None None "x") 2%nat
           (textObject "A" (Some "P") None (Some "B") "hello")
           (textObject "A" (Some "P") None (Some "B") "hello") "P").
  - apply store_ok_document.
  - reflexivity.
  - exact well_formed_doc_AB.
  - reflexivity.
  - vm_compute; reflexivity.
  - reflexivity.
  - reflexivity.
  - vm_compute; reflexivity.
  - reflexivity.
  - vm_compute; lia.
Defined.

Lemma insertBefore_attaches_witness :
  ∃ s' np',
    insertBefore (λ _ _ _, keepPoints) 5 3%nat 4%nat doc_AB = (Ret 4%nat, s')
    ∧ view s' = attach (view doc_AB) "P" "X" (Some "A") (Some "B")
    ∧ view s' !! "P" = Some np'
    ∧ children_ok (view s') "P" np' ["A"; "X"; "B"]
    ∧ __size np' = 2 + 1.
Proof.
  apply (insertBefore_attaches (λ _ _ _, keepPoints) doc_AB 5 3%nat
           (textObject "B" (Some "P") (Some "A") None "world")
           (textObject "B" (Some "P") (Some "A") None "world") 4%nat
           (textObject "X" None None None "x") (textObject "X" None None None "x") "P"
           (elementObject ElementNode true "P" (Some "root") None None (Some "A") (Some "B") 2)
           ["A"; "B"] 1%nat).
  - apply store_ok_document.
  - reflexivity.
  - exact well_formed_doc_AB.
  - reflexivity.
  - vm_compute; reflexivity.
  - reflexivity.
  - vm_compute; reflexivity.
  - exact children_ok_doc_AB_P.
  - reflexivity.
  - reflexivity.
  - vm_compute; reflexivity.
  - reflexivity.
  - reflexivity.
  - reflexivity.
  - discriminate.
  - simpl; lia.
Defined.

Lemma insertAfter_attaches_witness :
  ∃ s' np',
    insertAfter (λ _ _ _, keepPoints) 5 2%nat 4%nat doc_AB = (Ret 4%nat, s')
    ∧ view s' = attach (view doc_AB) "P" "X" (Some "A") (Some "B")
    ∧ view s' !! "P" = Some np'
    ∧ children_ok (view s') "P" np' ["A"; "X"; "B"]
    ∧ __size np' = 2 + 1.
Proof.
  apply (insertAfter_attaches (λ _ _ _, keepPoints) doc_AB 5 2%nat
           (textObject "A" (Some "P") None (Some "B") "hello")
           (textObject "A" (Some "P") None (Some "B") "hello") 4%nat
           (textObject "X" None None None "x") (textObject "X" None None None "x") "P"
           (elementObject ElementNode true "P" (Some "root") None None (Some "A") (Some "B") 2)
           ["A"; "B"] 0%nat).
  - apply store_ok_document.
  - reflexivity.
  - exact well_formed_doc_AB.
  - reflexivity.
  - vm_compute; reflexivity.
  - reflexivity.
  - vm_compute; reflexivity.
  - exact children_ok_doc_AB_P.
  - reflexivity.
  - reflexivity.
  - vm_compute; reflexivity.
  - reflexivity.
  - reflexivity.
  - reflexivity.
  - discriminate.
  - simpl; lia.
Defined.


Lemma remove_takes_out_of_child_list_witness :
  ∃ s' np',
    remove makeRangeSelection (λ _ _ _, keepPoints) noTextSelect 20 2%nat false doc_AB
      = (Ret tt, s')
    ∧ view s' = detach (view doc_AB) "A"
    ∧ well_formed (view s')
    ∧ view s' !! "P" = Some np'
    ∧ children_ok (view s') "P" np' ["B"]
    ∧ __size np' = 2 - 1
    ∧ view s' !! "A" = Some (detach_node (textObject "A" (Some "P") None (Some "B") "hello"))
    ∧ isAttached 20 2%nat s' = Ret false.
Proof.
  apply (remove_takes_out_of_child_list makeRangeSelection (λ _ _ _, keepPoints) noTextSelect
           doc_AB 20 2%nat
           (textObject "A" (Some "P") None (Some "B") "hello")
           (textObject "A" (Some "P") None (Some "B") "hello") "P"
           (elementObject ElementNode true "P" (Some "root") None None (Some "A") (Some "B") 2)
           ["A"; "B"] 0%nat ["P"; "root"] false).
  - apply store_ok_document.
  - reflexivity.
  - exact well_formed_doc_AB.
  - reflexivity.
  - vm_compute; reflexivity.
  - reflexivity.
  - vm_compute; reflexivity.
  - exact children_ok_doc_AB_P.
  - reflexivity.
  - simpl; lia.
  - discriminate.
  - exact ancestors_doc_AB_A.
  - vm_compute; lia.
Defined.

Lemma clear_empties_witness :
  ∃ w s' np',
    clear makeRangeSelection (λ _ _ _, keepPoints) noTextSelect 20 1%nat doc_AB = (Ret w, s')
    ∧ (∃ nw, heap s' !! w = Some nw ∧ __key nw = "P")
    ∧ well_formed (view s')
    ∧ view s' !! "P" = Some np'
    ∧ __first np' = None ∧ __last np' = None ∧ __size np' = 0
    ∧ getChildrenSize 1%nat s' = Ret 0
    ∧ (∀ c, c ∈ ["A"; "B"] → ∃ nc, view s' !! c = Some nc ∧ __parent nc = None).
Proof.
  apply (clear_empties makeRangeSelection (λ _ _ _, keepPoints) noTextSelect doc_AB 20 1%nat
           (elementObject ElementNode true "P" (Some "root") None None (Some "A") (Some "B") 2)
           (elementObject ElementNode true "P" (Some "root") None None (Some "A") (Some "B") 2)
           ["A"; "B"]).
  - apply store_ok_document.
  - reflexivity.
  - exact well_formed_doc_AB.
  - reflexivity.
  - vm_compute; reflexivity.
  - exact children_ok_doc_AB_P.
  - vm_compute; lia.
Defined.

(** ** Ancestors *)

(** X17.  [isParentOf] holds exactly of the proper ancestors of the target:
    [a.isParentOf(b)] is true when the key of [a] is the key of an ancestor
    of [b] and false otherwise, also when [a] and [b] are the same node. *)
Theorem isParentOf_proper_ancestor s fuel this target nthis ntarget l :
  store_ok s → heap s !! this = Some nthis → heap s !! target = Some ntarget →
  ancestors (view s) (__key ntarget) l → (length l < fuel)%nat →
  isParentOf fuel this target s = Ret (bool_decide (__key nthis ∈ l)).
Proof.
  intros Hok Ht Hg Hanc Hf.
  destruct (decide (__key nthis = __key ntarget)) as [Heq|Hne].
  - unfold isParentOf.
    rewrite (bindR_ret _ _ _ _ (field_eq __key _ _ _ Ht)).
    rewrite (bindR_ret _ _ _ _ (field_eq __key _ _ _ Hg)).
    rewrite bool_decide_eq_true_2 by exact Heq.
    rewrite bool_decide_eq_false_2; [reflexivity|].
    pose proof (ancestors_NoDup _ _ _ Hanc) as Hnd. apply NoDup_cons in Hnd as (Hnot & _).
    rewrite Heq. exact Hnot.
  - apply (isParentOf_spec _ _ _ _ _ _ _ Hok Ht Hg Hanc Hf Hne).
Qed.

(** X18.  [getCommonAncestor] of two nodes whose chains of ancestors part
    below the node [c], neither node being an ancestor of the other, is the
    latest version of [c]: the lowest ancestor that the two have in common. *)
Theorem getCommonAncestor_lowest s fuel a b na nb xa xb c rc rest :
  store_ok s → heap s !! a = Some na → heap s !! b = Some nb →
  ancestors (view s) (__key na) (xa ++ c :: rest) →
  ancestors (view s) (__key nb) (xb ++ c :: rest) →
  (∀ x, x ∈ __key na :: xa → x ∉ __key nb :: xb) →
  _nodeMap s !! c = Some rc →
  (length (xa ++ c :: rest) < fuel)%nat → (length (xb ++ c :: rest) < fuel)%nat →
  getCommonAncestor fuel a b s = Ret (Some rc).
Proof. apply getCommonAncestor_spec. Qed.

Lemma isParentOf_proper_ancestor_witness :
  isParentOf 5 1%nat 2%nat doc_AB = Ret (bool_decide ("P" ∈ ["P"; "root"])).
Proof.
  apply (isParentOf_proper_ancestor doc_AB 5 1%nat 2%nat
           (elementObject ElementNode true "P" (Some "root") None None (Some "A") (Some "B") 2)
           (textObject "A" (Some "P") None (Some "B") "hello") ["P"; "root"]).
  - apply store_ok_document.
  - reflexivity.
  - reflexivity.
  - exact ancestors_doc_AB_A.
  - simpl; lia.
Defined.

Lemma getCommonAncestor_lowest_witness :
  getCommonAncestor 5 2%nat 3%nat doc_AB = Ret (Some 1%nat).
Proof.
  apply (getCommonAncestor_lowest doc_AB 5 2%nat 3%nat
           (textObject "A" (Some "P") None (Some "B") "hello")
           (textObject "B" (Some "P") (Some "A") None "world") [] [] "P" 1%nat ["root"]).
  - apply store_ok_document.
  - reflexivity.
  - reflexivity.
  - exact ancestors_doc_AB_A.
  - exact ancestors_doc_AB_B.
  - intros x Hx Hx'. apply list_elem_of_singleton in Hx. apply list_elem_of_singleton in Hx'.
    subst. discriminate.
  - reflexivity.
  - simpl; lia.
  - simpl; lia.
Defined.

(** ** Document order (C4) *)

(** The chains of ancestors of two nodes that have an ancestor in common,
    neither being the other or an ancestor of it, part below a lowest common
    ancestor. *)
Lemma ancestors_meet_one v kb lb : ∀ la ka,
  ancestors v ka la →
  (∃ r, r ∈ ka :: la ∧ r ∈ kb :: lb) → ka ∉ kb :: lb →
  ∃ xa c rest, la = xa ++ c :: rest ∧ c ∈ kb :: lb
    ∧ ∀ x, x ∈ ka :: xa → x ∉ kb :: lb.
Proof.
  induction la as [|p la IH]; intros ka Hanc (r & Hra & Hrb) Hka.
  - apply list_elem_of_singleton in Hra. subst r. contradiction.
  - inversion Hanc as [|? n ? ? Hn Hp Hanc']; subst.
    destruct (decide (p ∈ kb :: lb)) as [Hin|Hout].
    + exists [], p, la. split; [reflexivity|]. split; [exact Hin|].
      intros x Hx. apply list_elem_of_singleton in Hx. subst x. exact Hka.
    + destruct (IH p Hanc') as (xa & c & rest & -> & Hc & Hdis).
      { exists r. split; [|exact Hrb].
        apply elem_of_cons in Hra as [->|Hra]; [contradiction | exact Hra]. }
      { exact Hout. }
      exists (p :: xa), c, rest. split; [reflexivity|]. split; [exact Hc|].
      intros x Hx. apply elem_of_cons in Hx as [->|Hx]; [exact Hka | apply Hdis; exact Hx].
Qed.

Lemma ancestors_meet v ka kb la lb r :
  ancestors v ka la → ancestors v kb lb →
  r ∈ ka :: la → r ∈ kb :: lb →
  ka ≠ kb → kb ∉ la → ka ∉ lb →
  ∃ xa xb c rest, la = xa ++ c :: rest ∧ lb = xb ++ c :: rest
    ∧ ∀ x, x ∈ ka :: xa → x ∉ kb :: xb.
Proof.
  intros Hanca Hancb Hra Hrb Hne Hba Hab.
  destruct (ancestors_meet_one v kb lb la ka Hanca) as (xa & c & rest & -> & Hc & Hdis).
  { exists r. split; assumption. }
  { intros Hin. apply elem_of_cons in Hin as [Heq|Hin]; [contradiction | exact (Hab Hin)]. }
  apply elem_of_cons in Hc as [->|Hc].
  { exfalso. apply Hba. apply elem_of_app. right. left. }
  apply list_elem_of_split in Hc as (xb & rest' & ->).
  pose proof (ancestors_suffix _ _ _ _ _ Hanca) as H1.
  pose proof (ancestors_suffix _ _ _ _ _ Hancb) as H2.
  pose proof (ancestors_functional _ _ _ _ H1 H2) as <-.
  exists xa, xb, c, rest. split; [reflexivity|]. split; [reflexivity|].
  intros x Hx Hx'. apply (Hdis x Hx).
  apply elem_of_cons in Hx' as [->|Hx']; [left|].
  right. apply elem_of_app. left. exact Hx'.
Qed.

(** In a well-formed document the child of [c] on a chain of ancestors has a
    place in the child list of [c]. *)
Lemma well_formed_chain_place v c nc cs rest x k :
  well_formed v → v !! c = Some nc → children_ok v c nc cs →
  ancestors v k (x ++ c :: rest) →
  ∃ i, index_of (List.last x k) cs = Some i.
Proof.
  intros Hwf Hnc (_ & Hnd & _ & _ & _ & Hclosed) Hanc.
  destruct (ancestors_last_parent _ _ _ _ _ Hanc) as (n & Hn & Hp).
  pose proof (Hclosed _ _ Hn Hp) as Hin.
  apply list_elem_of_lookup in Hin as (i & Hi).
  exists i. apply index_of_lookup; assumption.
Qed.

(** C4, amended.  For two distinct nodes of a store in order whose chains of
    ancestors are [la] and [lb]: if [b] is an ancestor of [a] then
    [a.isBefore(b)] is true, so that the descendant is before the ancestor;
    if [a] is an ancestor of [b] it is false; and if the chains part below a
    lowest common ancestor [c], it is the comparison of the places, in the
    child list of [c], of the nodes of the two chains that are children of
    [c].  Two attached nodes of a well-formed document of which neither is
    an ancestor of the other have such a lowest common ancestor and such
    places, so that for attached nodes one of the three cases gives the
    result. *)
Theorem isBefore_document_order s fuel a b na nb la lb :
  store_ok s →
  heap s !! a = Some na → heap s !! b = Some nb → __key na ≠ __key nb →
  ancestors (view s) (__key na) la → ancestors (view s) (__key nb) lb →
  (length la < fuel)%nat → (length lb < fuel)%nat →
  (__key nb ∈ la → isBefore fuel a b s = Ret true)
  ∧ (__key na ∈ lb → isBefore fuel a b s = Ret false)
  ∧ (∀ xa xb c rest cs i j,
       la = xa ++ c :: rest → lb = xb ++ c :: rest →
       (∀ x, x ∈ __key na :: xa → x ∉ __key nb :: xb) →
       children_of (view s) c cs →
       index_of (List.last xa (__key na)) cs = Some i →
       index_of (List.last xb (__key nb)) cs = Some j →
       (length cs < fuel)%nat →
       isBefore fuel a b s = Ret (bool_decide (i < j)%nat))
  ∧ (well_formed (view s) → (size (view s) < fuel)%nat →
     isAttached fuel a s = Ret true → isAttached fuel b s = Ret true →
     __key nb ∉ la → __key na ∉ lb →
     ∃ xa xb c rest cs i j,
       la = xa ++ c :: rest ∧ lb = xb ++ c :: rest
       ∧ children_of (view s) c cs
       ∧ index_of (List.last xa (__key na)) cs = Some i
       ∧ index_of (List.last xb (__key nb)) cs = Some j
       ∧ isBefore fuel a b s = Ret (bool_decide (i < j)%nat)).
Proof.
  intros Hok Ha Hb Hne Hanca Hancb Hfa Hfb.
  pose proof (isParentOf_spec _ _ _ _ _ _ _ Hok Hb Ha Hanca Hfa (not_eq_sym Hne)) as Hba.
  pose proof (isParentOf_spec _ _ _ _ _ _ _ Hok Ha Hb Hancb Hfb Hne) as Hab.
  assert (Hnot : __key na ∈ lb → __key nb ∉ la).
  { intros Hin Hin'.
    apply list_elem_of_split in Hin as (l1 & l2 & Hl). apply list_elem_of_split in Hin' as (l1' & l2' & Hl').
    pose proof Hanca as H1. rewrite Hl' in H1. apply ancestors_suffix in H1.
    pose proof Hancb as H2. rewrite Hl in H2. apply ancestors_suffix in H2.
    pose proof (ancestors_functional _ _ _ _ Hanca H2) as E1.
    pose proof (ancestors_functional _ _ _ _ Hancb H1) as E2.
    apply (f_equal length) in Hl, Hl'. rewrite length_app in Hl, Hl'. simpl in Hl, Hl'.
    subst l2 l2'. lia. }
  assert (H3 : ∀ xa xb c rest cs i j,
    la = xa ++ c :: rest → lb = xb ++ c :: rest →
    (∀ x, x ∈ __key na :: xa → x ∉ __key nb :: xb) →
    children_of (view s) c cs →
    index_of (List.last xa (__key na)) cs = Some i →
    index_of (List.last xb (__key nb)) cs = Some j →
    (length cs < fuel)%nat →
    isBefore fuel a b s = Ret (bool_decide (i < j)%nat)).
  { intros xa xb c rest cs i j -> -> Hdis (nc & Hnc & Hch) Hi Hj Hfc.
    pose proof (ancestors_NoDup _ _ _ Hanca) as Hnda.
    pose proof (ancestors_NoDup _ _ _ Hancb) as Hndb.
    assert (Hca : c ∉ __key na :: xa).
    { rewrite app_comm_cons in Hnda. apply NoDup_app in Hnda as (_ & Hnda & _).
      intros Hin. eapply Hnda; [exact Hin | left]. }
    assert (Hcb : c ∉ __key nb :: xb).
    { rewrite app_comm_cons in Hndb. apply NoDup_app in Hndb as (_ & Hndb & _).
      intros Hin. eapply Hndb; [exact Hin | left]. }
    assert (Hnba : __key nb ∉ xa ++ c :: rest).
    { intros Hin. apply elem_of_app in Hin as [Hin|Hin].
      - eapply Hdis; [right; exact Hin | left].
      - apply NoDup_cons in Hndb as (Hndb & _). apply Hndb.
        apply elem_of_app. right. exact Hin. }
    assert (Hnab : __key na ∉ xb ++ c :: rest).
    { intros Hin. apply elem_of_app in Hin as [Hin|Hin].
      - eapply Hdis; [left | right; exact Hin].
      - apply NoDup_cons in Hnda as (Hnda & _). apply Hnda.
        apply elem_of_app. right. exact Hin. }
    destruct (view_inv _ _ _ Hnc) as (rc & Hrc & Hhc).
    unfold isBefore. rewrite (bindR_ret _ _ _ _ Hba).
    rewrite bool_decide_eq_false_2 by exact Hnba.
    rewrite (bindR_ret _ _ _ _ Hab).
    rewrite bool_decide_eq_false_2 by exact Hnab.
    rewrite (bindR_ret _ _ _ _
      (getCommonAncestor_spec _ _ _ _ _ _ _ _ _ _ _ Hok Ha Hb Hanca Hancb Hdis Hrc Hfa Hfb)).
    (* the two climbs *)
    assert (Hclimb : ∀ r nr x i,
      heap s !! r = Some nr → ancestors (view s) (__key nr) (x ++ c :: rest) →
      c ∉ __key nr :: x → (length (x ++ c :: rest) < fuel)%nat →
      index_of (List.last x (__key nr)) cs = Some i →
      isBefore_loop fuel fuel (Some rc) r s = Ret (Z.of_nat i)).
    { intros r nr x i0 Hr Hanc Hcx Hfx Hi0.
      destruct (isBefore_loop_spec s fuel c rc fuel x r nr rest Hok Hrc Hr Hanc)
        as (r' & nr' & Hr' & Hk' & ->).
      { intros Hin. apply Hcx. right. exact Hin. }
      { rewrite length_app in Hfx. lia. }
      (* the node reached has [c] as parent *)
      assert (Hpar : ∃ n', view s !! __key nr' = Some n' ∧ __parent n' = Some c).
      { rewrite Hk'. eapply ancestors_last_parent. exact Hanc. }
      destruct Hpar as (n' & Hn' & Hp').
      apply (getIndexWithinParent_spec s fuel r' nr' n' c nc cs i0 Hok Hr' Hn' Hp' Hnc Hch).
      - rewrite Hk'. exact Hi0.
      - apply index_of_lt in Hi0. lia. }
    rewrite (bindR_ret _ _ _ _ (Hclimb a na xa i Ha Hanca Hca Hfa Hi)).
    rewrite (bindR_ret _ _ _ _ (Hclimb b nb xb j Hb Hancb Hcb Hfb Hj)).
    unfold mret, R_ret. f_equal. apply bool_decide_ext. lia. }
  split; [|split; [|split; [exact H3|]]].
  - intros Hin. unfold isBefore. rewrite (bindR_ret _ _ _ _ Hba).
    rewrite bool_decide_eq_true_2 by exact Hin. reflexivity.
  - intros Hin. unfold isBefore. rewrite (bindR_ret _ _ _ _ Hba).
    rewrite bool_decide_eq_false_2 by (apply Hnot; exact Hin).
    rewrite (bindR_ret _ _ _ _ Hab).
    rewrite bool_decide_eq_true_2 by exact Hin. reflexivity.
  - intros Hwf Hsize Hata Hatb Hbout Haout.
    assert (Hroot : ∀ r nr l, heap s !! r = Some nr → ancestors (view s) (__key nr) l →
              (length l < fuel)%nat → isAttached fuel r s = Ret true →
              "root" ∈ __key nr :: l).
    { intros r nr l Hr Hanc Hf Hat. unfold isAttached in Hat.
      rewrite (bindR_ret _ _ _ _ (field_eq __key _ _ _ Hr)) in Hat.
      rewrite (isAttached_loop_spec _ _ _ _ Hanc Hf) in Hat.
      assert (Hdec : bool_decide ("root" ∈ __key nr :: l) = true) by congruence.
      apply bool_decide_eq_true in Hdec. exact Hdec. }
    destruct (ancestors_meet _ _ _ _ _ "root" Hanca Hancb
                (Hroot _ _ _ Ha Hanca Hfa Hata) (Hroot _ _ _ Hb Hancb Hfb Hatb) Hne Hbout Haout)
      as (xa & xb & c & rest & -> & -> & Hdis).
    assert (is_Some (view s !! c)) as [nc Hnc].
    { apply (ancestors_resolve _ _ _ Hanca c). apply elem_of_app. right. left. }
    destruct (Hwf _ _ Hnc) as (_ & (cs & Hch) & _).
    destruct (well_formed_chain_place _ _ _ _ _ _ _ Hwf Hnc Hch Hanca) as (i & Hi).
    destruct (well_formed_chain_place _ _ _ _ _ _ _ Hwf Hnc Hch Hancb) as (j & Hj).
    assert (Hof : children_of (view s) c cs).
    { exists nc. split; [exact Hnc|]. destruct Hch as (Hlink & _ & Hfirst & _).
      rewrite Hfirst. apply (linked_next_chain _ c). exact Hlink. }
    pose proof (children_bounded _ _ _ _ Hch) as Hlen.
    exists xa, xb, c, rest, cs, i, j.
    split; [reflexivity|]. split; [reflexivity|]. split; [exact Hof|].
    split; [exact Hi|]. split; [exact Hj|].
    apply (H3 xa xb c rest cs i j eq_refl eq_refl Hdis Hof Hi Hj). lia.
Qed.

(** B and D are the second and the fourth child of P in the one document;
    A and B are attached nodes of the other, which is well formed. *)
Lemma isBefore_document_order_witness :
  isBefore 20 3%nat 5%nat doc_ABCD = Ret (bool_decide (1 < 3)%nat)
  ∧ ∃ xa xb c rest cs i j,
      ["P"; "root"] = xa ++ c :: rest ∧ ["P"; "root"] = xb ++ c :: rest
      ∧ children_of (view doc_AB) c cs
      ∧ index_of (List.last xa "A") cs = Some i
      ∧ index_of (List.last xb "B") cs = Some j
      ∧ isBefore 20 2%nat 3%nat doc_AB = Ret (bool_decide (i < j)%nat).
Proof.
  assert (Hroot : ancestors (view doc_ABCD) "P" ["root"]).
  { eapply ancestors_up; [vm_compute; reflexivity | reflexivity |].
    eapply ancestors_top; [vm_compute; reflexivity | reflexivity]. }
  split.
  - refine (proj1 (proj2 (proj2 (isBefore_document_order doc_ABCD 20 3%nat 5%nat
              (textObject "B" (Some "P") (Some "A") (Some "C") "b")
              (textObject "D" (Some "P") (Some "C") None "d")
              ["P"; "root"] ["P"; "root"] _ _ _ _ _ _ _ _)))
            [] [] "P" ["root"] ["A"; "B"; "C"; "D"] 1%nat 3%nat _ _ _ _ _ _ _).
    + apply store_ok_document.
    + reflexivity.
    + reflexivity.
    + discriminate.
    + eapply ancestors_up; [vm_compute; reflexivity | reflexivity | exact Hroot].
    + eapply ancestors_up; [vm_compute; reflexivity | reflexivity | exact Hroot].
    + simpl; lia.
    + simpl; lia.
    + reflexivity.
    + reflexivity.
    + intros x Hx Hy. apply list_elem_of_singleton in Hx, Hy. subst. discriminate.
    + eexists. split; [vm_compute; reflexivity|]. cbn [__first elementObject].
      repeat (eapply next_chain_step; [vm_compute; reflexivity | cbn [__next textObject]]).
      apply next_chain_end.
    + reflexivity.
    + reflexivity.
    + simpl; lia.
  - refine (proj2 (proj2 (proj2 (isBefore_document_order doc_AB 20 2%nat 3%nat
              (textObject "A" (Some "P") None (Some "B") "hello")
              (textObject "B" (Some "P") (Some "A") None "world")
              ["P"; "root"] ["P"; "root"] _ _ _ _ _ _ _ _))) _ _ _ _ _ _).
    + apply store_ok_document.
    + reflexivity.
    + reflexivity.
    + discriminate.
    + exact ancestors_doc_AB_A.
    + exact ancestors_doc_AB_B.
    + simpl; lia.
    + simpl; lia.
    + exact well_formed_doc_AB.
    + vm_compute; lia.
    + vm_compute; reflexivity.
    + vm_compute; reflexivity.
    + intros H. repeat (apply elem_of_cons in H as [H|H]; [discriminate|]). inversion H.
    + intros H. repeat (apply elem_of_cons in H as [H|H]; [discriminate|]). inversion H.
Defined.
